(** * Chess: board, pieces, legality filter, game state machine and search.

    A shallow embedding of board.py, chesspieces.py, chessgame.py and the
    tree-search players of chessplayers.py, with the properties of the
    specification stated and settled over it. *)

From Stdlib Require Import ZArith Lia Bool Ascii String DecimalString.
From stdpp Require Import base option list.

Local Open Scope string_scope.
Local Open Scope list_scope.
Local Open Scope Z_scope.

(** ** Python values: exceptions, characters, strings, list indexing *)

(** The exceptions the modelled code raises.  The ValueError instances are
    told apart by the message they carry in the source. *)
Inductive exn : Type :=
  | InvalidPositionLength   (* ValueError: 'Positions on the board are represented by two characters ...' *)
  | InvalidColumn           (* ValueError: 'Invalid column. ...' *)
  | InvalidRow              (* ValueError: 'Invalid row. ...' *)
  | RowOutsideRange         (* ValueError of Board.getRow *)
  | InvalidPromotionChoice  (* ValueError: 'Invalid choice of piece for Pawn promotion.' *)
  | TooManyPromotedPawns    (* ValueError of _analyseBoard *)
  | IncorrectPlayerError    (* class IncorrectPlayerError(ValueError) *)
  | WrongColourPromotion    (* Exception of _interpretAnalysis *)
  | NotAChessMove           (* Exception of makeMove *)
  | InvalidIntLiteral       (* ValueError of int() outside a try block *)
  | IndexError
  | AttributeError
  | TypeError
  | WhileTrueFuel.          (* no Python exception: the bound put on a 'while True' was reached *)

Inductive result (A : Type) : Type :=
  | Ok (a : A)
  | Raise (e : exn).
Arguments Ok {A} a.
Arguments Raise {A} e.

Definition rbind {A B} (r : result A) (k : A -> result B) : result B :=
  match r with
  | Ok a => k a
  | Raise e => Raise e
  end.

Declare Scope result_scope.
Delimit Scope result_scope with result.
Notation "'try!' x := r 'in' k" := (rbind r (fun x => k))
  (at level 10, x pattern, r at level 100, k at level 200) : result_scope.
Local Open Scope result_scope.

Definition is_ok {A} (r : result A) : bool :=
  match r with Ok _ => true | Raise _ => false end.

(** ord and chr on one-byte characters. *)
Definition ord (c : ascii) : Z := Z.of_N (N_of_ascii c).
Definition chr (z : Z) : ascii := ascii_of_N (Z.to_N z).

Definition ord_a : Z := 97.

(** str.lower() and str.upper() on one character. *)
Definition lower (c : ascii) : ascii :=
  if (65 <=? ord c) && (ord c <=? 90) then chr (ord c + 32) else c.
Definition upper (c : ascii) : ascii :=
  if (97 <=? ord c) && (ord c <=? 122) then chr (ord c - 32) else c.

Fixpoint upper_str (s : string) : string :=
  match s with
  | EmptyString => EmptyString
  | String c s' => String (upper c) (upper_str s')
  end.

(** int(c) for a one-character string: a decimal digit or a ValueError
    (None here; the callers turn it into their own error).  The characters
    here are the one-byte ones, of which int() takes the digits 0 to 9 only;
    it also takes the decimal digits of other scripts, which lie beyond them. *)
Definition int_of_char (c : ascii) : option Z :=
  if (48 <=? ord c) && (ord c <=? 57) then Some (ord c - 48) else None.

(** str(n) for an integer. *)
Definition str (z : Z) : string := NilZero.string_of_int (Z.to_int z).

Definition len {A} (l : list A) : Z := Z.of_nat (length l).
Definition strlen (s : string) : Z := Z.of_nat (String.length s).

(** s[i] for i >= 0. *)
Definition str_index (s : string) (i : nat) : result ascii :=
  match String.get i s with
  | Some c => Ok c
  | None => Raise IndexError
  end.

(** l[i] with Python's negative indices. *)
Definition py_index {A} (l : list A) (i : Z) : result A :=
  let j := if i <? 0 then i + len l else i in
  if (0 <=? j) && (j <? len l) then
    match l !! Z.to_nat j with
    | Some x => Ok x
    | None => Raise IndexError
    end
  else Raise IndexError.

(** x in range(lo, hi) *)
Definition in_range (lo hi x : Z) : bool := (lo <=? x) && (x <? hi).

Definition label : Type := string.

(** ** chesspieces.py: the pieces *)

Inductive Kind : Type := Pawn | Knight | Bishop | Rook | Queen | King.

Definition Kind_eqb (a b : Kind) : bool :=
  match a, b with
  | Pawn, Pawn | Knight, Knight | Bishop, Bishop
  | Rook, Rook | Queen, Queen | King, King => true
  | _, _ => false
  end.

(** The four castling trackers a game owns; a king or rook created by
    newGame is observed by two, respectively one, of them. *)
Inductive CastlingId : Type :=
  | WhiteKingSide | WhiteQueenSide | BlackKingSide | BlackQueenSide.

(** An AbstractPiece object.  [_observers] lists the game's trackers that
    observe this very object. *)
Record Piece : Type := mkPiece {
  kind : Kind;
  _isBlack : bool;
  _currentPosition : label;
  gridReference : Z * Z;
  _observers : list CastlingId
}.

(** AbstractPiece.__positionToGridRerence: the pieces assume an 8 x 8 board. *)
Definition positionToGridRerence (position : label) : result (Z * Z) :=
  if negb (strlen position =? 2) then Raise InvalidPositionLength
  else
    try! c0 := str_index position 0 in
    try! c1 := str_index position 1 in
    let col := lower c0 in
    match int_of_char c1 with
    | None => Raise InvalidRow
    | Some d =>
        let row := 8 - d in
        if negb (in_range 0 8 row) then Raise InvalidRow
        else Ok (row, ord col - ord_a)
    end.

(** AbstractPiece.__init__ followed by the subclass constructor. *)
Definition newPiece (k : Kind) (isBlack : bool) (position : label) : result Piece :=
  try! g := positionToGridRerence position in
  Ok (mkPiece k isBlack position g []).

Definition addObserver (p : Piece) (o : CastlingId) : Piece :=
  mkPiece (kind p) (_isBlack p) (_currentPosition p) (gridReference p)
          (_observers p ++ [o]).

(** AbstractPiece.setPosition; the second component lists the observers
    that are notified (all of them when the position changed). *)
Definition setPosition (p : Piece) (position : label) : result (Piece * list CastlingId) :=
  let hasMoved := negb (String.eqb position (_currentPosition p)) in
  try! g := positionToGridRerence position in
  Ok (mkPiece (kind p) (_isBlack p) position g (_observers p),
      if hasMoved then _observers p else []).

Definition description (k : Kind) : string :=
  match k with
  | Pawn => "Pawn" | Knight => "Knight" | Bishop => "Bishop"
  | Rook => "Rook" | Queen => "Queen" | King => "King"
  end.

Definition _baseScore (k : Kind) (isBlack : bool) : Z :=
  let v := match k with
           | Pawn => 10 | Knight => 30 | Bishop => 30
           | Rook => 50 | Queen => 90 | King => 999
           end in
  if isBlack then - v else v.

Definition _validDirections (k : Kind) : list (Z * Z) :=
  let rook := [(1,0); (0,1); (-1,0); (0,-1)] in
  let bishop := [(1,1); (1,-1); (-1,1); (-1,-1)] in
  match k with
  | Knight => [(2,-1); (2,1); (1,-2); (1,2); (-1,-2); (-1,2); (-2,-1); (-2,1)]
  | Bishop => bishop
  | Rook => rook
  | Queen | King => rook ++ bishop
  | Pawn => []
  end.

Definition _canMoveMultipleTimes (k : Kind) : bool :=
  match k with
  | Bishop | Rook | Queen => true
  | _ => false
  end.

(** ** board.py: the board *)

Record Board : Type := mkBoard {
  size : Z;
  _grid : list (list (option Piece))
}.

Definition newBoard (n : Z) : Board :=
  mkBoard n (replicate (Z.to_nat n) (replicate (Z.to_nat n) None)).

(** Board.labelToGridReference and Board.gridReferenceToLabel read nothing of
    the board but len(self._grid), here n. *)
Definition labelToGridReferenceN (n : Z) (position : label) : result (Z * Z) :=
  if negb (strlen position =? 2) then Raise InvalidPositionLength
  else
    try! c0 := str_index position 0 in
    try! c1 := str_index position 1 in
    let col := lower c0 in
    if negb (in_range ord_a (ord_a + n) (ord col)) then Raise InvalidColumn
    else
      match int_of_char c1 with
      | None => Raise InvalidRow
      | Some d =>
          let row := n - d in
          if negb (in_range 0 n row) then Raise InvalidRow
          else Ok (row, ord col - ord_a)
      end.

Definition gridReferenceToLabelN (n : Z) (rc : Z * Z) : label :=
  String (chr (ord_a + snd rc)) (str (n - fst rc)).

Definition labelToGridReference (b : Board) (position : label) : result (Z * Z) :=
  labelToGridReferenceN (len (_grid b)) position.

Definition gridReferenceToLabel (b : Board) (rc : Z * Z) : label :=
  gridReferenceToLabelN (len (_grid b)) rc.

(** Board.validColumns and Board.validRows *)
Definition validColumns (b : Board) : list ascii :=
  map (fun i => chr (ord_a + Z.of_nat i)) (seq 0 (length (_grid b))).
Definition validRows (b : Board) : list Z :=
  map Z.of_nat (seq 1 (length (_grid b))).

(** self._grid[r][c] *)
Definition grid_get (b : Board) (r c : Z) : result (option Piece) :=
  try! row := py_index (_grid b) r in
  py_index row c.

(** self._grid[r][c] = x, for r and c that are not negative *)
Definition grid_set (b : Board) (r c : Z) (x : option Piece) : result Board :=
  try! row := py_index (_grid b) r in
  try! _ := py_index row c in
  Ok (mkBoard (size b) (<[Z.to_nat r := <[Z.to_nat c := x]> row]> (_grid b))).

Definition pieceAtGridReference (b : Board) (atRow atCol : Z) : result (option Piece) :=
  grid_get b atRow atCol.

(** Board.pieceAtLabel, for a label that may be None *)
Definition pieceAtLabel (b : Board) (l : option label) : result (option Piece) :=
  match l with
  | None => Ok None
  | Some EmptyString => Ok None
  | Some s =>
      try! g := labelToGridReference b s in
      pieceAtGridReference b (fst g) (snd g)
  end.

Definition isEmpty (b : Board) (position : label) : result bool :=
  try! p := pieceAtLabel b (Some position) in
  Ok (match p with None => true | Some _ => false end).

(** Board.isBlack: None on an empty square *)
Definition isBlack (b : Board) (atPosition : label) : result (option bool) :=
  try! p := pieceAtLabel b (Some atPosition) in
  Ok (option_map _isBlack p).

Definition piecesStillOnBoard (b : Board) : list Piece :=
  flat_map (fun r => flat_map (fun p => match p with Some x => [x] | None => [] end) r)
           (_grid b).

Definition piecesLeft (b : Board) (black : bool) : list Piece :=
  List.filter (fun p => Bool.eqb (_isBlack p) black) (piecesStillOnBoard b).

(** Board.getRow *)
Definition getRow (b : Board) (rowNumber : Z) : result (list (option Piece)) :=
  let rowIndex := size b - rowNumber in
  if (rowIndex <? 0) || (size b <=? rowIndex) then Raise RowOutsideRange
  else py_index (_grid b) rowIndex.

(** Board._positionXandYFrom, and Board.positionOffset which only calls it *)
Definition _positionXandYFrom (b : Board) (square : label) (rc : Z * Z)
  : result (option label) :=
  try! gridRef := labelToGridReference b square in
  let newRow := fst gridRef + fst rc in
  let newCol := snd gridRef + snd rc in
  if (newRow <? 0) || (newCol <? 0) || (len (_grid b) <=? newRow)
     || (len (_grid b) <=? newCol)
  then Ok None
  else Ok (Some (gridReferenceToLabel b (newRow, newCol))).

Definition positionOffset (b : Board) (fromSquare : label) (rcOffset : Z * Z)
  : result (option label) :=
  _positionXandYFrom b fromSquare rcOffset.

(** *** Mutation of a board: state passing with exceptions

    A method that mutates its object is a function from the object's state to
    an outcome and the state at the point where the method returned or
    raised. *)
Definition M (S A : Type) : Type := S -> result A * S.

Definition ret {S A} (a : A) : M S A := fun s => (Ok a, s).
Definition raise {S A} (e : exn) : M S A := fun s => (Raise e, s).
Definition bind {S A B} (m : M S A) (k : A -> M S B) : M S B :=
  fun s => match m s with
           | (Ok a, s') => k a s'
           | (Raise e, s') => (Raise e, s')
           end.
Definition lift {S A} (r : result A) : M S A := fun s => (r, s).
Definition reads {S A} (f : S -> result A) : M S A := fun s => (f s, s).
Definition get {S} : M S S := fun s => (Ok s, s).
Definition put {S} (s : S) : M S unit := fun _ => (Ok tt, s).

Declare Scope state_scope.
Delimit Scope state_scope with state.
Notation "'do!' x := m 'in' k" := (bind m (fun x => k))
  (at level 10, x pattern, m at level 100, k at level 200) : state_scope.
Notation "m ';;;' k" := (bind m (fun _ => k))
  (at level 100, right associativity) : state_scope.
Local Open Scope state_scope.

(** self._grid[r][c] = x *)
Definition assign (r c : Z) (x : option Piece) : M Board unit :=
  fun b => match grid_set b r c x with
           | Ok b' => (Ok tt, b')
           | Raise e => (Raise e, b)
           end.

(** Board.set(piece) *)
Definition set (piece : Piece) : M Board unit :=
  do! gridP := reads (fun b => labelToGridReference b (_currentPosition piece)) in
  assign (fst gridP) (snd gridP) (Some piece).

(** Board.remove(atPosition) *)
Definition remove (atPosition : label) : M Board (option Piece) :=
  do! gridP := reads (fun b => labelToGridReference b atPosition) in
  do! piece := reads (fun b => grid_get b (fst gridP) (snd gridP)) in
  assign (fst gridP) (snd gridP) None ;;;
  ret piece.

(** Board.move(fromSquare, toSquare).  Python returns the captured piece;
    the observers that moving.setPosition notifies are returned with it. *)
Definition move (fromSquare toSquare : label)
  : M Board (option Piece * list CastlingId) :=
  do! moving := remove fromSquare in
  do! target := remove toSquare in
  match moving with
  | None => raise AttributeError
  | Some p =>
      do! pn := lift (setPosition p toSquare) in
      set (fst pn) ;;;
      ret (target, snd pn)
  end.

(** Board.setRow(row, index) *)
Definition setRow (row : list (option Piece)) (index : Z) : M Board unit :=
  fun b =>
    if negb (len row =? len (_grid b)) then (Raise RowOutsideRange, b)
    else if (index <? 1) || (size b <? index) then (Raise RowOutsideRange, b)
    else
      match py_index (_grid b) (size b - index) with
      | Raise e => (Raise e, b)
      | Ok _ =>
          let i := if size b - index <? 0 then size b - index + len (_grid b)
                   else size b - index in
          (Ok tt, mkBoard (size b) (<[Z.to_nat i := row]> (_grid b)))
      end.

(** Board.reset *)
Definition reset : M Board unit :=
  fun b => (Ok tt, mkBoard (size b)
                     (replicate (length (_grid b)) (replicate (length (_grid b)) None))).

(** Board.copyOfBoard.  deepcopy clones the pieces together with the
    trackers observing them, so that no tracker of the game observes a piece
    of the copy; the board's own observers are not copied.  The clones of
    the trackers observe the copied pieces and are reachable from them only:
    [_observers], which lists trackers of the game, is empty on a copy. *)
Definition detach (p : Piece) : Piece :=
  mkPiece (kind p) (_isBlack p) (_currentPosition p) (gridReference p) [].

Definition copyOfBoard (b : Board) : Board :=
  mkBoard (size b) (map (map (option_map detach)) (_grid b)).

(** ** chesspieces.py: positional tables and scores *)

Definition _adjustmentGrid (k : Kind) (black : bool) : list (list Z) :=
  match k, black with
  | Pawn, true =>
      [ [0; 0; 0; 0; 0; 0; 0; 0];
        [0; 0; 0; 0; 0; 0; 0; 0];
        [0; 0; 0; -1; -1; 0; 0; 0];
        [0; 0; 0; -2; -2; 0; 0; 0];
        [0; 0; 0; 0; 0; 0; 0; 0];
        [-10; -10; -10; -30; -30; -30; -30; -30];
        [-30; -30; -30; -30; -30; -30; -30; -30];
        [-80; -80; -80; -80; -80; -80; -80; -80] ]
  | Pawn, false =>
      [ [80; 80; 80; 80; 80; 80; 80; 80];
        [30; 30; 30; 30; 30; 30; 30; 30];
        [10; 10; 10; 10; 10; 10; 10; 10];
        [0; 0; 0; 0; 0; 0; 0; 0];
        [0; 0; 0; 2; 2; 0; 0; 0];
        [0; 0; 0; 1; 1; 0; 0; 0];
        [0; 0; 0; 0; 0; 0; 0; 0];
        [0; 0; 0; 0; 0; 0; 0; 0] ]
  | Knight, true =>
      [ [5; 4; 3; 3; 3; 3; 4; 5];
        [4; 2; 0; 0; 0; 0; 2; 4];
        [3; 0; -1; -2; -2; -1; 0; 3];
        [3; -1; -2; -3; -3; -2; -1; 3];
        [3; -1; -2; -3; -3; -2; -1; 3];
        [3; 0; -1; -2; -2; -1; 0; 3];
        [4; 2; 0; 0; 0; 0; 2; 4];
        [5; 4; 3; 3; 3; 3; 4; 5] ]
  | Knight, false =>
      [ [-5; -4; -3; -3; -3; -3; -4; -5];
        [-4; -2; 0; 0; 0; 0; -2; -4];
        [-3; 0; 1; 2; 2; 1; 0; -3];
        [-3; 1; 2; 3; 3; 2; 1; -3];
        [-3; 1; 2; 3; 3; 2; 1; -3];
        [-3; 0; 1; 2; 2; 1; 0; -3];
        [-4; -2; 0; 0; 0; 0; -2; -4];
        [-5; -4; -3; -3; -3; -3; -4; -5] ]
  | Bishop, true =>
      [ [2; 1; 1; 1; 1; 1; 1; 2];
        [1; 0; 0; 0; 0; 0; 0; 1];
        [1; 0; -1; -1; -1; -1; 0; 1];
        [1; 0; -1; -1; -1; -1; 0; 1];
        [1; 0; -1; -1; -1; -1; 0; 1];
        [1; 0; -1; -1; -1; -1; 0; 1];
        [1; 0; 0; 0; 0; 0; 0; 1];
        [2; 1; 1; 1; 1; 1; 1; 2] ]
  | Bishop, false =>
      [ [-2; -1; -1; -1; -1; -1; -1; -2];
        [-1; 0; 0; 0; 0; 0; 0; -1];
        [-1; 0; 1; 1; 1; 1; 0; -1];
        [-1; 0; 1; 1; 1; 1; 0; -1];
        [-1; 0; 1; 1; 1; 1; 0; -1];
        [-1; 0; 1; 1; 1; 1; 0; -1];
        [-1; 0; 0; 0; 0; 0; 0; -1];
        [-2; -1; -1; -1; -1; -1; -1; -2] ]
  | Rook, true =>
      [ [0; 0; 0; -1; -1; -1; 0; 0];
        [0; 0; 0; 0; 0; 0; 0; 0];
        [1; 0; 0; 0; 0; 0; 0; 1];
        [1; 0; 0; 0; 0; 0; 0; 1];
        [1; 0; 0; 0; 0; 0; 0; 1];
        [1; 0; 0; 0; 0; 0; 0; 1];
        [0; -1; -1; -1; -1; -1; -1; 0];
        [0; 0; 0; 0; 0; 0; 0; 0] ]
  | Rook, false =>
      [ [0; 0; 0; 0; 0; 0; 0; 0];
        [0; 1; 1; 1; 1; 1; 1; 0];
        [-1; 0; 0; 0; 0; 0; 0; -1];
        [-1; 0; 0; 0; 0; 0; 0; -1];
        [-1; 0; 0; 0; 0; 0; 0; -1];
        [-1; 0; 0; 0; 0; 0; 0; -1];
        [0; 0; 0; 0; 0; 0; 0; 0];
        [0; 0; 0; 1; 1; 1; 0; 0] ]
  | Queen, true =>
      [ [2; 1; 1; 0; 0; 1; 1; 2];
        [1; 0; 0; 0; 0; 0; 0; 1];
        [1; 0; -1; -1; -1; -1; 0; 1];
        [0; 0; -1; -1; -1; -1; 0; 0];
        [0; 0; -1; -1; -1; -1; 0; 0];
        [1; 0; -1; -1; -1; -1; 0; 1];
        [1; 0; 0; 0; 0; 0; 0; 1];
        [2; 1; 1; 0; 0; 1; 1; 2] ]
  | Queen, false =>
      [ [-2; -1; -1; 0; 0; -1; -1; -2];
        [-1; 0; 0; 0; 0; 0; 0; -1];
        [-1; 0; 1; 1; 1; 1; 0; -1];
        [0; 0; 1; 1; 1; 1; 0; 0];
        [0; 0; 1; 1; 1; 1; 0; 0];
        [-1; 0; 1; 1; 1; 1; 0; -1];
        [-1; 0; 0; 0; 0; 0; 0; -1];
        [-2; -1; -1; 0; 0; -1; -1; -2] ]
  | King, true =>
      [ [-3; -2; -1; 0; 0; -1; -2; -3];
        [-2; -2; 0; 0; 0; 0; -2; -2];
        [1; 2; 2; 2; 2; 2; 2; 1];
        [2; 3; 3; 4; 4; 3; 3; 2];
        [3; 4; 5; 5; 5; 5; 4; 3];
        [3; 4; 5; 5; 5; 5; 4; 3];
        [3; 4; 5; 5; 5; 5; 4; 3];
        [3; 4; 5; 5; 5; 5; 4; 3] ]
  | King, false =>
      [ [-3; -4; -5; -5; -5; -5; -4; -3];
        [-3; -4; -5; -5; -5; -5; -4; -3];
        [-3; -4; -5; -5; -5; -5; -4; -3];
        [-3; -4; -5; -5; -5; -5; -4; -3];
        [-2; -3; -3; -4; -4; -3; -3; -1];
        [-1; -2; -2; -2; -2; -2; -2; -1];
        [2; 2; 0; 0; 0; 0; 2; 2];
        [3; 2; 1; 0; 0; 1; 2; 3] ]
  end.

(** AbstractPiece._scoreAdjustment and AbstractPiece.score *)
Definition _scoreAdjustment (p : Piece) : result Z :=
  try! row := py_index (_adjustmentGrid (kind p) (_isBlack p)) (fst (gridReference p)) in
  py_index row (snd (gridReference p)).

Definition score (p : Piece) : result Z :=
  try! adj := _scoreAdjustment p in
  Ok (_baseScore (kind p) (_isBlack p) + adj).

(** Board.piecesScore *)
Fixpoint sum_scores (ps : list Piece) (value : Z) : result Z :=
  match ps with
  | [] => Ok value
  | c :: rest =>
      try! s := score c in
      sum_scores rest (value + s)
  end.

Definition piecesScore (b : Board) : result Z :=
  sum_scores (piecesStillOnBoard b) 0.

(** ** chesspieces.py: candidate squares *)

(** The truth value of a label that may be None, as in 's and board.isEmpty(s)' *)
Definition truthy (s : option label) : option label :=
  match s with
  | Some EmptyString => None
  | x => x
  end.

(** The body of 'while True' in AbstractOfficer.availableSquares, for one
    direction d, started at possMove; [fuel] bounds the number of turns. *)
Fixpoint walk (fuel : nat) (b : Board) (black multiple : bool) (d : Z * Z)
    (possMove : label) (moves : list label) : result (list label) :=
  match fuel with
  | O => Raise WhileTrueFuel
  | S fuel' =>
      try! next := positionOffset b possMove d in
      match truthy next with
      | None => Ok moves
      | Some s =>
          try! e := isEmpty b s in
          if e then
            if multiple then walk fuel' b black multiple d s (moves ++ [s])
            else Ok (moves ++ [s])
          else
            try! c := isBlack b s in
            if negb (match c with Some x => Bool.eqb x black | None => false end)
            then Ok (moves ++ [s])
            else Ok moves
      end
  end.

Fixpoint for_directions (b : Board) (p : Piece) (ds : list (Z * Z))
    (moves : list label) : result (list label) :=
  match ds with
  | [] => Ok moves
  | d :: rest =>
      try! moves' := walk (S (length (_grid b))) b (_isBlack p)
                          (_canMoveMultipleTimes (kind p)) d (_currentPosition p) moves in
      for_directions b p rest moves'
  end.

Definition pawnDiagonals (black : bool) : list (Z * Z) :=
  if black then [(1,1); (1,-1)] else [(-1,1); (-1,-1)].

Fixpoint pawnCaptures (b : Board) (p : Piece) (ms : list (Z * Z))
    (moves : list label) : result (list label) :=
  match ms with
  | [] => Ok moves
  | m :: rest =>
      try! s := _positionXandYFrom b (_currentPosition p) m in
      try! pieceAtTarget := pieceAtLabel b s in
      match pieceAtTarget, s with
      | Some t, Some sq =>
          if negb (Bool.eqb (_isBlack t) (_isBlack p))
          then pawnCaptures b p rest (moves ++ [sq])
          else pawnCaptures b p rest moves
      | _, _ => pawnCaptures b p rest moves
      end
  end.

(** Pawn.availableSquares *)
Definition pawnAvailableSquares (b : Board) (p : Piece) : result (list label) :=
  let direction := if _isBlack p then (1, 0) else (-1, 0) in
  try! rank := str_index (_currentPosition p) 1 in
  let canMoveTwo :=
    (_isBlack p && Ascii.eqb rank "7") || (negb (_isBlack p) && Ascii.eqb rank "2") in
  try! s := _positionXandYFrom b (_currentPosition p) direction in
  try! moves :=
    match truthy s with
    | None => Ok []
    | Some s1 =>
        try! e := isEmpty b s1 in
        if e then
          if canMoveTwo then
            try! s' := _positionXandYFrom b s1 direction in
            match truthy s' with
            | None => Ok [s1]
            | Some s2 =>
                try! e2 := isEmpty b s2 in
                if e2 then Ok [s1; s2] else Ok [s1]
            end
          else Ok [s1]
        else Ok []
    end in
  pawnCaptures b p (pawnDiagonals (_isBlack p)) moves.

(** Pawn.attackingSquares *)
Fixpoint pawnAttacks (b : Board) (p : Piece) (ms : list (Z * Z))
    (moves : list label) : result (list label) :=
  match ms with
  | [] => Ok moves
  | m :: rest =>
      try! s := _positionXandYFrom b (_currentPosition p) m in
      match truthy s with
      | Some sq => pawnAttacks b p rest (moves ++ [sq])
      | None => pawnAttacks b p rest moves
      end
  end.

Definition attackingSquares (b : Board) (p : Piece) : result (list label) :=
  pawnAttacks b p (pawnDiagonals (_isBlack p)) [].

(** availableSquares, dispatched on the class of the piece *)
Definition availableSquares (b : Board) (p : Piece) : result (list label) :=
  match kind p with
  | Pawn => pawnAvailableSquares b p
  | k => for_directions b p (_validDirections k) []
  end.

(** ** chessgame.py: moves *)

Inductive Status : Type :=
  | STATUS_IN_PROGRESS | STATUS_NEW_GAME_NO_MOVES | STATUS_GAME_OVER.

(** A player object: its identity and its colour. *)
Record Player : Type := mkPlayer {
  playerId : nat;
  playerIsBlack : bool
}.

Definition samePlayer (p q : Player) : bool := Nat.eqb (playerId p) (playerId q).

(** The class of a move object and the fields its class adds to ChessMove. *)
Inductive MoveClass : Type :=
  | PlainMove
  | PawnPromotion (choice : string) (_promotedTo : string)
  | EnPassant (removingPieceAtSquare : label) (playWhoCanPlayEnPassant : option Player)
  | CastlingMove (rookFrom rookTo : label)
                 (_emptyPositions _positionsCannotBeBeingAttacked : list label)
                 (_noLongerPossible : bool).

Record ChessMove : Type := mkMove {
  fromSquare : label;
  toSquare : label;
  moveDescription : string;
  moveIsBlack : bool;
  disallowed : bool;
  warning : option string;
  fromRC : Z * Z;
  toRC : Z * Z;
  moveClass : MoveClass
}.

(** (8-int(square[1]), ord(square[0])-ord('a')) *)
Definition squareRC (square : label) : result (Z * Z) :=
  try! c1 := str_index square 1 in
  match int_of_char c1 with
  | None => Raise InvalidIntLiteral
  | Some d =>
      try! c0 := str_index square 0 in
      Ok (8 - d, ord c0 - ord_a)
  end.

(** ChessMove.__init__ *)
Definition newChessMove (fromSq toSq : label) (descr : string) (black : bool)
    (cls : MoveClass) : result ChessMove :=
  try! f := squareRC fromSq in
  try! t := squareRC toSq in
  Ok (mkMove fromSq toSq descr black false None f t cls).

Definition with_class (m : ChessMove) (cls : MoveClass) : ChessMove :=
  mkMove (fromSquare m) (toSquare m) (moveDescription m) (moveIsBlack m)
         (disallowed m) (warning m) (fromRC m) (toRC m) cls.

Definition disallow (m : ChessMove) (w : string) : ChessMove :=
  mkMove (fromSquare m) (toSquare m) (moveDescription m) (moveIsBlack m)
         true (Some w) (fromRC m) (toRC m) (moveClass m).

Definition mem_str (x : string) (l : list string) : bool :=
  existsb (String.eqb x) l.

(** PawnPromotion.__init__ *)
Definition newPawnPromotion (square : label) (black : bool) (choice : string)
  : result ChessMove :=
  try! m := newChessMove square square "Pawn Promotion" black PlainMove in
  let c := if mem_str (upper_str choice) ["Q"; "R"; "B"; "K"]
           then upper_str choice else "Q" in
  let promotedTo :=
    if String.eqb (upper_str choice) "R" then "Rook"
    else if String.eqb (upper_str choice) "B" then "Bishop"
    else if String.eqb (upper_str choice) "K" then "Knight"
    else "Queen" in
  Ok (with_class m (PawnPromotion c promotedTo)).

(** EnPassant.__init__; the destination may be None, which ChessMove.__init__
    cannot subscript. *)
Definition newEnPassant (fromSq : label) (toSq : option label) (black : bool)
    (removing : label) (player : option Player) : result ChessMove :=
  match toSq with
  | None => try! _ := squareRC fromSq in Raise TypeError
  | Some t => newChessMove fromSq t "En Passant" black (EnPassant removing player)
  end.

(** CastlingMove.__init__ *)
Definition newCastlingMove (kingFrom kingTo rookFrom rookTo : label) (black : bool)
    (positionsThatMustBeEmpty positionsCannotBeBeingAttacked : list label)
    (descr : string) : result ChessMove :=
  newChessMove kingFrom kingTo descr black
    (CastlingMove rookFrom rookTo positionsThatMustBeEmpty
                  positionsCannotBeBeingAttacked false).

(** CastlingMove.objectChanged *)
Definition objectChanged (m : ChessMove) : ChessMove :=
  match moveClass m with
  | CastlingMove rf rt e a _ => with_class m (CastlingMove rf rt e a true)
  | _ => m
  end.

(** What a set handed to isCastlingOn may hold: square labels, or move
    objects. *)
Inductive pyobj : Type :=
  | Str (s : string)
  | MoveObj (m : ChessMove).

(** 's in aSet' for a string s: a string equals no move object. *)
Definition str_in (s : string) (aSet : list pyobj) : bool :=
  existsb (fun o => match o with Str t => String.eqb s t | MoveObj _ => false end) aSet.

(** CastlingMove.isCastlingOn *)
Definition isCastlingOn (m : ChessMove) (positionsBeingAttacked : list pyobj)
    (positionsEmpty : list label) : bool :=
  match moveClass m with
  | CastlingMove _ _ emptyPositions cannotBeAttacked noLongerPossible =>
      if noLongerPossible then false
      else if negb (forallb (fun s => mem_str s positionsEmpty) emptyPositions) then false
      else if str_in (fromSquare m) positionsBeingAttacked then false
      else if existsb (fun s => str_in s positionsBeingAttacked) cannotBeAttacked then false
      else true
  | _ => false
  end.

(** ** chessgame.py: BasicChessMoveCalculator *)

Fixpoint movesTo (p : Piece) (black : bool) (am : list label) : result (list ChessMove) :=
  match am with
  | [] => Ok []
  | m :: rest =>
      try! mv := newChessMove (_currentPosition p) m (description (kind p)) black PlainMove in
      try! mvs := movesTo p black rest in
      Ok (mv :: mvs)
  end.

Fixpoint movesOfPieces (b : Board) (black : bool) (pieces : list Piece)
  : result (list ChessMove) :=
  match pieces with
  | [] => Ok []
  | p :: rest =>
      try! am := availableSquares b p in
      try! ms := movesTo p black am in
      try! more := movesOfPieces b black rest in
      Ok (ms ++ more)
  end.

(** BasicChessMoveCalculator.possibleMoves *)
Definition possibleMoves (b : Board) (black : bool) : result (list ChessMove) :=
  movesOfPieces b black
    (List.filter (fun p => Bool.eqb (_isBlack p) black) (piecesStillOnBoard b)).

Fixpoint attackedSquares (b : Board) (attackingPieces : list Piece)
    (aSquares : list label) : result (list label) :=
  match attackingPieces with
  | [] => Ok aSquares
  | p :: rest =>
      try! sq := match kind p with
                 | Pawn => attackingSquares b p
                 | _ => availableSquares b p
                 end in
      attackedSquares b rest (aSquares ++ sq)
  end.

(** BasicChessMoveCalculator._checkForCheck *)
Definition _checkForCheck (b : Board) (attackerIsBlack : bool) : result bool :=
  let attackingPieces :=
    List.filter (fun p => Bool.eqb (_isBlack p) attackerIsBlack) (piecesStillOnBoard b) in
  match List.filter (fun p => Kind_eqb (kind p) King
                              && negb (Bool.eqb (_isBlack p) attackerIsBlack))
                    (piecesStillOnBoard b) with
  | [] => Raise IndexError
  | defenderKing :: _ =>
      try! aSquares := attackedSquares b attackingPieces [] in
      Ok (mem_str (_currentPosition defenderKing) aSquares)
  end.

Definition checkWarning (pieceDescripton : string) (m : ChessMove) : string :=
  ("Cannot make move " ++ pieceDescripton ++ ": " ++ fromSquare m ++ "->" ++ toSquare m
   ++ " as that would place / leave you in check.")%string.

(** The position that the filter tests: the move made on a copy of the board. *)
Definition simulate (b : Board) (m : ChessMove) : result Board :=
  match move (fromSquare m) (toSquare m) (copyOfBoard b) with
  | (Ok _, copyBoard) => Ok copyBoard
  | (Raise e, _) => Raise e
  end.

(** The body of the loop of _movesWithThoseLeavingCheckDisallowed, which
    updates the move object m in place. *)
Definition checkedMove (b : Board) (black : bool) (m : ChessMove) : result ChessMove :=
  try! copyBoard := simulate b m in
  try! inCheck := _checkForCheck copyBoard (negb black) in
  if inCheck then
    try! piece := pieceAtLabel b (Some (fromSquare m)) in
    match piece with
    | None => Raise AttributeError
    | Some p => Ok (disallow m (checkWarning (description (kind p)) m))
    end
  else Ok m.

Fixpoint checkedMoves (b : Board) (black : bool) (moves : list ChessMove)
  : result (list ChessMove) :=
  match moves with
  | [] => Ok []
  | m :: rest =>
      try! m' := checkedMove b black m in
      try! rest' := checkedMoves b black rest in
      Ok (m' :: rest')
  end.

(** BasicChessMoveCalculator._movesWithThoseLeavingCheckDisallowed *)
Definition _movesWithThoseLeavingCheckDisallowed (b : Board) (black : bool)
  : result (list ChessMove) :=
  try! moves := possibleMoves b black in
  checkedMoves b black moves.

Definition notDisallowed (moves : list ChessMove) : list ChessMove :=
  List.filter (fun m => negb (disallowed m)) moves.

(** The dictionary that calculateMoves returns and _analyseBoard completes. *)
Record BoardAnalysis : Type := mkAnalysis {
  WHITE_IN_CHECK : bool;
  BLACK_IN_CHECK : bool;
  WHITE_MOVES : list ChessMove;
  WHITE_IN_CHECK_MATE : bool;
  BLACK_MOVES : list ChessMove;
  BLACK_IN_CHECK_MATE : bool;
  PAWN_PROMOTED : option Piece;
  WHITE_CASTLING_MOVES : option (list ChessMove);
  BLACK_CASTLING_MOVES : option (list ChessMove);
  EN_PASSANT : option (list ChessMove)
}.

(** BasicChessMoveCalculator.calculateMoves; the keys that _analyseBoard
    adds afterwards are not yet set. *)
Definition calculateMoves (gameBoard : Board)
  : result (bool * bool * list ChessMove * bool * list ChessMove * bool) :=
  try! whiteInCheck := _checkForCheck gameBoard true in
  try! blackInCheck := _checkForCheck gameBoard false in
  try! whiteMoves := _movesWithThoseLeavingCheckDisallowed gameBoard false in
  let whiteMate := (len (notDisallowed whiteMoves) =? 0) && whiteInCheck in
  try! blackMoves := _movesWithThoseLeavingCheckDisallowed gameBoard true in
  let blackMate := (len (notDisallowed blackMoves) =? 0) && blackInCheck in
  Ok (whiteInCheck, blackInCheck, whiteMoves, whiteMate, blackMoves, blackMate).

(** ** chessgame.py: ChessGame *)

(** The value that _interpretAnalysis and makeMove return, when not None. *)
Inductive Event : Type :=
  | EvPawnPromoted | EvWhiteInCheckMate | EvBlackInCheckMate
  | EvWhiteInCheck | EvBlackInCheck | EvStalemate.

(** What the game hands to its observers through notify; the texts of the
    messages are left out. *)
Inductive Notification : Type :=
  | NShowWarning
  | NPromotionDone (m : ChessMove)
  | NMove (m : ChessMove)
  | NMoveMade (p : Player) (m : ChessMove)
  | NPawnPromoted
  | NStatusChange (s : Status)
  | NEvent (e : Event).

Record ChessGame : Type := mkGame {
  _player1 : option Player;
  _player2 : option Player;
  _moveCount : Z;
  _board : Board;
  _status : option Status;
  _boardAnalysis : option BoardAnalysis;            (* set by newGame *)
  _castles : option (CastlingId -> ChessMove);      (* the four trackers, set by newGame *)
  notified : list Notification
}.

Definition with_board (g : ChessGame) (b : Board) : ChessGame :=
  mkGame (_player1 g) (_player2 g) (_moveCount g) b (_status g) (_boardAnalysis g)
         (_castles g) (notified g).
Definition with_moveCount (g : ChessGame) (n : Z) : ChessGame :=
  mkGame (_player1 g) (_player2 g) n (_board g) (_status g) (_boardAnalysis g)
         (_castles g) (notified g).
Definition with_status (g : ChessGame) (s : option Status) : ChessGame :=
  mkGame (_player1 g) (_player2 g) (_moveCount g) (_board g) s (_boardAnalysis g)
         (_castles g) (notified g).
Definition with_analysis (g : ChessGame) (a : option BoardAnalysis) : ChessGame :=
  mkGame (_player1 g) (_player2 g) (_moveCount g) (_board g) (_status g) a
         (_castles g) (notified g).
Definition with_castles (g : ChessGame) (c : option (CastlingId -> ChessMove)) : ChessGame :=
  mkGame (_player1 g) (_player2 g) (_moveCount g) (_board g) (_status g) (_boardAnalysis g)
         c (notified g).
Definition with_notified (g : ChessGame) (l : list Notification) : ChessGame :=
  mkGame (_player1 g) (_player2 g) (_moveCount g) (_board g) (_status g) (_boardAnalysis g)
         (_castles g) l.

Definition CastlingId_eqb (a b : CastlingId) : bool :=
  match a, b with
  | WhiteKingSide, WhiteKingSide | WhiteQueenSide, WhiteQueenSide
  | BlackKingSide, BlackKingSide | BlackQueenSide, BlackQueenSide => true
  | _, _ => false
  end.

(** ChessGame.__init__ *)
Definition newChessGame : ChessGame :=
  mkGame None None 0 (newBoard 8) None None None [].

Definition notify (n : Notification) : M ChessGame unit :=
  fun g => (Ok tt, with_notified g (notified g ++ [n])).

(** A method of self._board called on the game's board. *)
Definition onBoard {A} (m : M Board A) : M ChessGame A :=
  fun g => match m (_board g) with
           | (r, b') => (r, with_board g b')
           end.

(** The trackers observing a piece that moved are told so. *)
Definition observersNotified (ids : list CastlingId) : M ChessGame unit :=
  fun g =>
    (Ok tt,
     with_castles g
       (option_map
          (fun c id => if existsb (CastlingId_eqb id) ids then objectChanged (c id) else c id)
          (_castles g))).

Definition b2z (b : bool) : Z := if b then 1 else 0.

(** ChessGame._currentPlayer; the result is None when that player is not set. *)
Definition _currentPlayer (g : ChessGame) : result (option Player) :=
  let isBlack := _moveCount g mod 2 in
  match _player1 g with
  | None => Raise AttributeError
  | Some p1 => if b2z (playerIsBlack p1) =? isBlack then Ok (Some p1) else Ok (_player2 g)
  end.

Definition sameObject (p q : option Player) : bool :=
  match p, q with
  | Some a, Some b => samePlayer a b
  | None, None => true
  | _, _ => false
  end.

(** ChessGame._nextPlayer *)
Definition _nextPlayer (g : ChessGame) : result (option Player) :=
  try! c := _currentPlayer g in
  if sameObject c (_player1 g) then Ok (_player2 g) else Ok (_player1 g).

Definition count_kind (k : Kind) (ps : list Piece) : Z :=
  len (List.filter (fun p => Kind_eqb (kind p) k) ps).

(** ChessGame._checkForStalemate *)
Definition _checkForStalemate (board : Board) (attackerIsBlack : bool) : bool :=
  let defendingPieces := piecesLeft board (negb attackerIsBlack) in
  if 1 <? len defendingPieces then false
  else
    let attackingPieces := piecesLeft board attackerIsBlack in
    if 3 <? len attackingPieces then false
    else
      if (0 <? count_kind Queen attackingPieces)
         || (0 <? count_kind Pawn attackingPieces)
         || (0 <? count_kind Rook attackingPieces)
         || (1 <? count_kind Bishop attackingPieces)
         || ((0 <? count_kind Knight attackingPieces)
             && (0 <? count_kind Bishop attackingPieces))
      then false
      else true.

(** int(square[1]) *)
Definition rankOf (square : label) : result Z :=
  try! c := str_index square 1 in
  match int_of_char c with
  | Some d => Ok d
  | None => Raise InvalidIntLiteral
  end.

Fixpoint enPassantLoop (g : ChessGame) (mv : ChessMove) (board : Board)
    (pieceThatMoved : Piece) (sides : list (Z * Z)) (epMoves : list ChessMove)
  : result (list ChessMove) :=
  match sides with
  | [] => Ok epMoves
  | i :: rest =>
      try! sq := _positionXandYFrom board (toSquare mv) i in
      try! p := pieceAtLabel (_board g) sq in
      match p with
      | Some p =>
          if negb (Bool.eqb (_isBlack p) (_isBlack pieceThatMoved))
             && Kind_eqb (kind p) Pawn
          then
            let fromSq := _currentPosition p in
            try! toSq := _positionXandYFrom board (_currentPosition pieceThatMoved)
                           (if _isBlack p then 1 else -1, 0) in
            try! player := _currentPlayer g in
            try! ep := newEnPassant fromSq toSq (_isBlack p)
                         (_currentPosition pieceThatMoved) player in
            enPassantLoop g mv board pieceThatMoved rest (epMoves ++ [ep])
          else enPassantLoop g mv board pieceThatMoved rest epMoves
      | None => enPassantLoop g mv board pieceThatMoved rest epMoves
      end
  end.

(** ChessGame._getEnPassant *)
Definition _getEnPassant (g : ChessGame) (mv : ChessMove) (board : Board)
  : result (list ChessMove) :=
  try! pieceThatMoved := pieceAtLabel board (Some (toSquare mv)) in
  match pieceThatMoved with
  | None => Ok []
  | Some pm =>
      if negb (Kind_eqb (kind pm) Pawn) then Ok []
      else
        try! f := rankOf (fromSquare mv) in
        try! t := rankOf (toSquare mv) in
        if Z.abs (f - t) =? 1 then Ok []
        else enPassantLoop g mv board pm [(0, 1); (0, -1)] []
  end.

Definition isPawnOf (black : bool) (i : option Piece) : bool :=
  match i with
  | Some p => Kind_eqb (kind p) Pawn && Bool.eqb (_isBlack p) black
  | None => false
  end.

Fixpoint emptySquares (b : Board) (squares : list label) : result (list label) :=
  match squares with
  | [] => Ok []
  | s :: rest =>
      try! e := isEmpty b s in
      try! more := emptySquares b rest in
      Ok (if e then s :: more else more)
  end.

Definition firstRank : list label := ["a1"; "b1"; "c1"; "d1"; "e1"; "f1"; "g1"; "h1"].
Definition finalRank : list label := ["a8"; "b8"; "c8"; "d8"; "e8"; "f8"; "g8"; "h8"].

Definition anyMove (g : list ChessMove) : option (list ChessMove) :=
  match g with [] => None | _ => Some g end.

(** ChessGame._interpretAnalysis, with the notifications it sends *)
Definition _interpretAnalysis (g : ChessGame) (a : BoardAnalysis) (board : Board)
    (sendNotifications : bool) : result (option Event * list Notification) :=
  let told e := if sendNotifications then [NEvent e] else [] in
  try! cPlayer := _currentPlayer g in
  match PAWN_PROMOTED a with
  | Some pawn =>
      try! nxt := _nextPlayer g in
      match nxt with
      | None => Raise AttributeError
      | Some n =>
          if Bool.eqb (_isBlack pawn) (playerIsBlack n)
          then Ok (Some EvPawnPromoted, [NPawnPromoted])
          else match cPlayer with
               | None => Raise AttributeError
               | Some _ => Raise WrongColourPromotion
               end
      end
  | None =>
      if WHITE_IN_CHECK_MATE a then Ok (Some EvWhiteInCheckMate, told EvWhiteInCheckMate)
      else if BLACK_IN_CHECK_MATE a then Ok (Some EvBlackInCheckMate, told EvBlackInCheckMate)
      else if WHITE_IN_CHECK a then Ok (Some EvWhiteInCheck, told EvWhiteInCheck)
      else if BLACK_IN_CHECK a then Ok (Some EvBlackInCheck, told EvBlackInCheck)
      else
        match cPlayer with
        | None => Raise AttributeError
        | Some c =>
            let currentPlayerMoves :=
              if playerIsBlack c then BLACK_MOVES a else WHITE_MOVES a in
            if len (notDisallowed currentPlayerMoves) =? 0
            then Ok (Some EvStalemate, told EvStalemate)
            else if _checkForStalemate board false || _checkForStalemate board true
            then Ok (Some EvStalemate, told EvStalemate)
            else Ok (None, [])
        end
  end.

(** ChessGame._analyseBoard(board, move), with the notifications it sends *)
Definition _analyseBoard (g : ChessGame) (board : option Board) (mv : option ChessMove)
  : result (option Event * BoardAnalysis * list Notification) :=
  let gameBoard := match board with Some b => b | None => _board g end in
  let sendNotifications := match board with Some _ => false | None => true end in
  try! (whiteInCheck, blackInCheck, whiteMoves, whiteMate, blackMoves, blackMate) :=
    calculateMoves gameBoard in
  try! whitePromotionRow := getRow gameBoard 8 in
  try! blackPromotionRow := getRow gameBoard 1 in
  let promotedPawns :=
    List.filter (isPawnOf false) whitePromotionRow
    ++ List.filter (isPawnOf true) blackPromotionRow in
  try! promoted :=
    match promotedPawns with
    | [] => Ok None
    | [p] => Ok p
    | _ => Raise TooManyPromotedPawns
    end in
  (* White first *)
  try! emptyFirstRankSquares := emptySquares gameBoard firstRank in
  let attackedByBlack := map (fun s => Str (toSquare s)) (notDisallowed blackMoves) in
  match _castles g with
  | None => Raise AttributeError
  | Some castle =>
      let whiteCastling :=
        (if isCastlingOn (castle WhiteKingSide) attackedByBlack emptyFirstRankSquares
         then [castle WhiteKingSide] else [])
        ++ (if isCastlingOn (castle WhiteQueenSide) attackedByBlack emptyFirstRankSquares
            then [castle WhiteQueenSide] else []) in
      (* Now Black *)
      try! emptyFinalRankSquares := emptySquares (_board g) finalRank in
      let attackedByWhite := map MoveObj (notDisallowed whiteMoves) in
      let blackCastling :=
        (if isCastlingOn (castle BlackKingSide) attackedByWhite emptyFinalRankSquares
         then [castle BlackKingSide] else [])
        ++ (if isCastlingOn (castle BlackQueenSide) attackedByWhite emptyFinalRankSquares
            then [castle BlackQueenSide] else []) in
      try! enPassant :=
        match mv with
        | Some m => try! ep := _getEnPassant g m gameBoard in Ok (Some ep)
        | None => Ok None
        end in
      let boardAnalysis :=
        mkAnalysis whiteInCheck blackInCheck whiteMoves whiteMate blackMoves blackMate
                   promoted (anyMove whiteCastling) (anyMove blackCastling) enPassant in
      try! (interpretation, notes) :=
        _interpretAnalysis g boardAnalysis gameBoard sendNotifications in
      Ok (interpretation, boardAnalysis, notes)
  end.

(** self._analyseBoard(...) called as a method: the notifications reach the
    observers of the game. *)
Definition analyse (board : option Board) (mv : option ChessMove)
  : M ChessGame (option Event * BoardAnalysis) :=
  fun g => match _analyseBoard g board mv with
           | Ok (ev, a, notes) => (Ok (ev, a), with_notified g (notified g ++ notes))
           | Raise e => (Raise e, g)
           end.

Definition setAnalysis (a : BoardAnalysis) : M ChessGame unit :=
  fun g => (Ok tt, with_analysis g (Some a)).

Definition Status_eqb (a b : Status) : bool :=
  match a, b with
  | STATUS_IN_PROGRESS, STATUS_IN_PROGRESS
  | STATUS_NEW_GAME_NO_MOVES, STATUS_NEW_GAME_NO_MOVES
  | STATUS_GAME_OVER, STATUS_GAME_OVER => true
  | _, _ => false
  end.

(** ChessGame._setStatus *)
Definition _setStatus (newStatus : Status) : M ChessGame unit :=
  do! g := get in
  if match _status g with Some s => Status_eqb s newStatus | None => false end
  then ret tt
  else (put (with_status g (Some newStatus)) ;;; notify (NStatusChange newStatus)).

(** ChessGame.promotePawn(pawn, pieceChoice); pawn may be None. *)
Definition promotePawn (pawn : option Piece) (pieceChoice : string) : M ChessGame unit :=
  let made (k : Kind) : M ChessGame Piece :=
    match pawn with
    | None => raise AttributeError
    | Some p => lift (newPiece k (_isBlack p) (_currentPosition p))
    end in
  do! newPiece :=
    if String.eqb (upper_str pieceChoice) "Q" then made Queen
    else if String.eqb (upper_str pieceChoice) "R" then made Rook
    else if String.eqb (upper_str pieceChoice) "B" then made Bishop
    else if String.eqb (upper_str pieceChoice) "K" then made Knight
    else (notify NShowWarning ;;; raise InvalidPromotionChoice) in
  match pawn with
  | None => raise AttributeError
  | Some p =>
      do! _ := onBoard (remove (_currentPosition p)) in
      onBoard (set newPiece) ;;;
      do! a := analyse None None in
      setAnalysis (snd a)
  end.

Definition Event_eqb (a b : Event) : bool :=
  match a, b with
  | EvPawnPromoted, EvPawnPromoted | EvWhiteInCheckMate, EvWhiteInCheckMate
  | EvBlackInCheckMate, EvBlackInCheckMate | EvWhiteInCheck, EvWhiteInCheck
  | EvBlackInCheck, EvBlackInCheck | EvStalemate, EvStalemate => true
  | _, _ => false
  end.

Definition gameEnding (event : option Event) : bool :=
  match event with
  | Some EvBlackInCheckMate | Some EvWhiteInCheckMate | Some EvStalemate => true
  | _ => false
  end.

(** ChessGame.makeMove(player, move) *)
Definition makeMove (player : Player) (mv : pyobj) : M ChessGame (option Event) :=
  do! g := get in
  if match _status g with Some s => Status_eqb s STATUS_GAME_OVER | None => false end
  then ret None
  else if negb (b2z (playerIsBlack player) =? _moveCount g mod 2)
  then (notify NShowWarning ;;; raise IncorrectPlayerError)
  else
    match mv with
    | MoveObj m =>
        match moveClass m with
        | PawnPromotion choice _ =>
            match _boardAnalysis g with
            | None => raise AttributeError
            | Some a =>
                promotePawn (PAWN_PROMOTED a) choice ;;;
                notify (NPromotionDone m) ;;;
                ret None
            end
        | cls =>
            do! moved := onBoard (move (fromSquare m) (toSquare m)) in
            observersNotified (snd moved) ;;;
            notify (NMove m) ;;;
            match cls with
            | EnPassant removingPieceAtSquare _ =>
                do! _ := onBoard (remove removingPieceAtSquare) in ret tt
            | _ => ret tt
            end ;;;
            match cls with
            | CastlingMove rookFrom rookTo _ _ _ =>
                do! rook := onBoard (move rookFrom rookTo) in
                observersNotified (snd rook)
            | _ => ret tt
            end ;;;
            do! g1 := get in
            put (with_moveCount g1 (_moveCount g1 + 1)) ;;;
            notify (NMoveMade player m) ;;;
            do! analysis := analyse None (Some m) in
            let event := fst analysis in
            setAnalysis (snd analysis) ;;;
            (if match event with Some EvPawnPromoted => true | _ => false end
             then notify NPawnPromoted else ret tt) ;;;
            (if gameEnding event then _setStatus STATUS_GAME_OVER
             else _setStatus STATUS_IN_PROGRESS) ;;;
            ret event
        end
    | Str _ => notify NShowWarning ;;; raise NotAChessMove
    end.

Fixpoint pawnRow (black : bool) (rank : Z) (columns : list nat)
  : result (list (option Piece)) :=
  match columns with
  | [] => Ok []
  | c :: rest =>
      try! p := newPiece Pawn black (String (chr (ord_a + Z.of_nat c)) (str rank)) in
      try! more := pawnRow black rank rest in
      Ok (Some p :: more)
  end.

Definition observedBy (r : result Piece) (ids : list CastlingId) : result Piece :=
  try! p := r in Ok (fold_left addObserver ids p).

Definition officerRow (black : bool) (rank : string)
    (kingSide queenSide : CastlingId) : result (list (option Piece)) :=
  let at_ (c : string) := (c ++ rank)%string in
  try! queenSideRook := observedBy (newPiece Rook black (at_ "a")) [queenSide] in
  try! king := observedBy (newPiece King black (at_ "e")) [kingSide; queenSide] in
  try! kingSideRook := observedBy (newPiece Rook black (at_ "h")) [kingSide] in
  try! n1 := newPiece Knight black (at_ "b") in
  try! b1 := newPiece Bishop black (at_ "c") in
  try! q := newPiece Queen black (at_ "d") in
  try! b2 := newPiece Bishop black (at_ "f") in
  try! n2 := newPiece Knight black (at_ "g") in
  Ok (map Some [queenSideRook; n1; b1; q; king; b2; n2; kingSideRook]).

(** ChessGame.newGame *)
Definition newGame : M ChessGame unit :=
  onBoard reset ;;;
  do! g := get in
  put (with_moveCount g 0) ;;;
  do! bk := lift (newCastlingMove "e8" "g8" "h8" "f8" true ["f8"; "g8"] ["f8"; "g8"]
                    "Black King Side Castling") in
  do! bq := lift (newCastlingMove "e8" "c8" "a8" "d8" true ["b8"; "c8"; "d8"] ["c8"; "d8"]
                    "Black Queen Side Castling") in
  do! wk := lift (newCastlingMove "e1" "g1" "h1" "f1" false ["f1"; "g1"] ["f1"; "g1"]
                    "White King Side Castling") in
  do! wq := lift (newCastlingMove "e1" "c1" "a1" "d1" false ["b1"; "c1"; "d1"] ["c1"; "d1"]
                    "White Queen Side Castling") in
  do! g := get in
  put (with_castles g (Some (fun id => match id with
                                       | WhiteKingSide => wk | WhiteQueenSide => wq
                                       | BlackKingSide => bk | BlackQueenSide => bq
                                       end))) ;;;
  do! blackOfficers := lift (officerRow true "8" BlackKingSide BlackQueenSide) in
  do! whiteOfficers := lift (officerRow false "1" WhiteKingSide WhiteQueenSide) in
  do! g := get in
  let columns := seq 0 (Z.to_nat (size (_board g))) in
  do! whitePawns := lift (pawnRow false 2 columns) in
  onBoard (setRow whitePawns 2) ;;;
  do! blackPawns := lift (pawnRow true 7 columns) in
  onBoard (setRow blackPawns 7) ;;;
  onBoard (setRow whiteOfficers 1) ;;;
  onBoard (setRow blackOfficers 8) ;;;
  do! a := analyse None None in
  setAnalysis (snd a) ;;;
  _setStatus STATUS_NEW_GAME_NO_MOVES.

(** ChessGame.setPlayer1 and setPlayer2 *)
Definition setPlayer1 (player : Player) (g : ChessGame) : ChessGame :=
  mkGame (Some player)
         (option_map (fun p => mkPlayer (playerId p) (negb (playerIsBlack player)))
                     (_player2 g))
         (_moveCount g) (_board g) (_status g) (_boardAnalysis g) (_castles g) (notified g).
Definition setPlayer2 (player : Player) (g : ChessGame) : ChessGame :=
  mkGame (option_map (fun p => mkPlayer (playerId p) (negb (playerIsBlack player)))
                     (_player1 g))
         (Some player)
         (_moveCount g) (_board g) (_status g) (_boardAnalysis g) (_castles g) (notified g).

(** A game between white (player 1) and black (player 2), started. *)
Definition whitePlayer : Player := mkPlayer 1 false.
Definition blackPlayer : Player := mkPlayer 2 true.
Definition startedGame : result unit * ChessGame :=
  newGame (setPlayer2 blackPlayer (setPlayer1 whitePlayer newChessGame)).

Definition analysisOf (g : ChessGame) : option (nat * nat * bool * bool) :=
  option_map (fun a => (length (notDisallowed (WHITE_MOVES a)),
                        length (notDisallowed (BLACK_MOVES a)),
                        WHITE_IN_CHECK a || BLACK_IN_CHECK a,
                        match WHITE_CASTLING_MOVES a, BLACK_CASTLING_MOVES a with
                        | None, None => false | _, _ => true end))
             (_boardAnalysis g).


(** ** chessplayers.py: the tree-search players

    self.leafCount is the state that the search threads; self._depth minus
    the depth argument is the number of plies left, on which the recursion
    is structural.  The texts the players print are left out. *)

Definition Search (A : Type) : Type := M Z A.

Definition countLeaf : Search unit := fun leafCount => (Ok tt, leafCount + 1).

(** moves if moves else [m for m in possibleMoves(board, isBlack) if not m.disallowed] *)
Definition movesOrPossible (board : Board) (black : bool) (moves : option (list ChessMove))
  : result (list ChessMove) :=
  match moves with
  | Some (m :: ms) => Ok (m :: ms)
  | _ => try! pm := possibleMoves board black in Ok (notDisallowed pm)
  end.

Module ComputerTreeSearchPlayer.

(** The loop 'for m in availableMoves' of the black branch (minimising)
    and of the white branch (maximising). *)
Fixpoint forMoves (black : bool) (child : Board -> Search Z) (board : Board)
    (availableMoves : list ChessMove) (score : Z) (mv : option ChessMove)
  : Search (Z * option ChessMove) :=
  match availableMoves with
  | [] => ret (score, mv)
  | m :: rest =>
      do! copyBoard := lift (simulate board m) in
      do! newScore := child copyBoard in
      if (if black then newScore <? score else score <? newScore)
      then forMoves black child board rest newScore (Some m)
      else forMoves black child board rest score mv
  end.

Fixpoint _bestScore (pliesLeft : nat) (board : Board) (black : bool)
    (moves : option (list ChessMove)) : Search (Z * option ChessMove) :=
  match pliesLeft with
  | O =>
      countLeaf ;;;
      do! s := lift (piecesScore board) in
      ret (s, None)
  | S n =>
      do! availableMoves := lift (movesOrPossible board black moves) in
      forMoves black
        (fun copyBoard => do! r := _bestScore n copyBoard (negb black) None in ret (fst r))
        board availableMoves (if black then 99999 else -99999) None
  end.

(** choseMove(board, moves) of a player of colour [black] searching to
    [depth]; self.leafCount is set to 0 first. *)
Definition choseMove (depth : nat) (black : bool) (board : Board)
    (moves : list ChessMove) : Search (option ChessMove) :=
  put 0 ;;;
  match notDisallowed moves with
  | [m] => ret (Some m)
  | _ => do! r := _bestScore depth board black (Some moves) in ret (snd r)
  end.

End ComputerTreeSearchPlayer.

Module ComputerTreeSearchAlphaBetaPlayer.

(** The loops 'for m in availableMoves' with the window (alpha, beta); the
    black branch lowers beta, the white branch raises alpha, and both
    leave the loop when beta <= alpha. *)
Fixpoint forMoves (black : bool) (child : Z -> Z -> Board -> Search Z) (board : Board)
    (availableMoves : list ChessMove) (alpha beta : Z) (score : Z)
    (mv : option ChessMove) : Search (Z * option ChessMove) :=
  match availableMoves with
  | [] => ret (score, mv)
  | m :: rest =>
      do! copyBoard := lift (simulate board m) in
      do! newScore := child alpha beta copyBoard in
      let better := if black then newScore <? score else score <? newScore in
      let score' := if better then newScore else score in
      let mv' := if better then Some m else mv in
      let alpha' := if black then alpha else Z.max alpha newScore in
      let beta' := if black then Z.min beta newScore else beta in
      if beta' <=? alpha' then ret (score', mv')
      else forMoves black child board rest alpha' beta' score' mv'
  end.

Fixpoint _bestScore (pliesLeft : nat) (alpha beta : Z) (board : Board) (black : bool)
    (moves : option (list ChessMove)) : Search (Z * option ChessMove) :=
  match pliesLeft with
  | O =>
      countLeaf ;;;
      do! s := lift (piecesScore board) in
      ret (s, None)
  | S n =>
      do! availableMoves := lift (movesOrPossible board black moves) in
      forMoves black
        (fun a b copyBoard =>
           do! r := _bestScore n a b copyBoard (negb black) None in ret (fst r))
        board availableMoves alpha beta (if black then 99999 else -99999) None
  end.

(** choseMove(board, moves); the set availableMoves is visited in the
    order of [moves]. *)
Definition choseMove (depth : nat) (black : bool) (board : Board)
    (moves : list ChessMove) : Search (option ChessMove) :=
  put 0 ;;;
  match notDisallowed moves with
  | [m] => ret (Some m)
  | availableMoves =>
      do! r := _bestScore depth (-9999) 9999 board black (Some availableMoves) in
      ret (snd r)
  end.

End ComputerTreeSearchAlphaBetaPlayer.

(** ** Concrete positions *)

(** The 8 x 8 board on which the listed pieces were placed with Board.set. *)
Fixpoint placed (ps : list (Kind * bool * label)) (b : Board) : result Board :=
  match ps with
  | [] => Ok b
  | (k, black, position) :: rest =>
      try! p := newPiece k black position in
      match set p b with
      | (Ok _, b') => placed rest b'
      | (Raise e, _) => Raise e
      end
  end.

Definition boardOf (ps : list (Kind * bool * label)) : Board :=
  match placed ps (newBoard 8) with
  | Ok b => b
  | Raise _ => newBoard 8
  end.

(** ** Objects and references: a board, its copy and the pieces they hold

    The model above gives every board its own pieces.  Here boards and pieces
    are objects in a store and a grid holds references, so that a piece that
    two boards hold is one object. *)
Module Objects.

Definition ref : Type := nat.

Record PieceObj : Type := mkPieceObj {
  pKind : Kind;
  pIsBlack : bool;
  pCurrentPosition : label;
  pGridReference : Z * Z;
  pObservers : list ref               (* the CastlingMove objects observing the piece *)
}.

Record BoardObj : Type := mkBoardObj {
  bSize : Z;
  bGrid : list (list (option ref))
}.

Record Store : Type := mkStore {
  pieces : list PieceObj;
  trackers : list bool;               (* _noLongerPossible of each CastlingMove object *)
  boards : list BoardObj
}.

Definition theBoard (self : ref) : M Store BoardObj :=
  fun h => match boards h !! self with
           | Some b => (Ok b, h)
           | None => (Raise AttributeError, h)
           end.

Definition thePiece (piece : ref) : M Store PieceObj :=
  fun h => match pieces h !! piece with
           | Some p => (Ok p, h)
           | None => (Raise AttributeError, h)
           end.

Definition storePiece (piece : ref) (p : PieceObj) : M Store unit :=
  fun h => (Ok tt, mkStore (<[piece := p]> (pieces h)) (trackers h) (boards h)).

Definition storeBoard (self : ref) (b : BoardObj) : M Store unit :=
  fun h => (Ok tt, mkStore (pieces h) (trackers h) (<[self := b]> (boards h))).

(** CastlingMove.objectChanged on each observer *)
Definition notifyObservers (observers : list ref) : M Store unit :=
  fun h => (Ok tt,
            mkStore (pieces h)
                    (fold_left (fun ts o => <[o := true]> ts) observers (trackers h))
                    (boards h)).

(** self._grid[r][c] = x *)
Definition assign (self : ref) (r c : Z) (x : option ref) : M Store unit :=
  do! b := theBoard self in
  do! row := lift (py_index (bGrid b) r) in
  do! _ := lift (py_index row c) in
  storeBoard self
    (mkBoardObj (bSize b) (<[Z.to_nat r := <[Z.to_nat c := x]> row]> (bGrid b))).

Definition labelToGridReference (self : ref) (position : label) : M Store (Z * Z) :=
  do! b := theBoard self in
  lift (labelToGridReferenceN (len (bGrid b)) position).

(** Board.set(piece) *)
Definition set (self : ref) (piece : ref) : M Store unit :=
  do! p := thePiece piece in
  do! gridP := labelToGridReference self (pCurrentPosition p) in
  assign self (fst gridP) (snd gridP) (Some piece).

(** Board.remove(atPosition) *)
Definition remove (self : ref) (atPosition : label) : M Store (option ref) :=
  do! gridP := labelToGridReference self atPosition in
  do! b := theBoard self in
  do! row := lift (py_index (bGrid b) (fst gridP)) in
  do! piece := lift (py_index row (snd gridP)) in
  assign self (fst gridP) (snd gridP) None ;;;
  ret piece.

(** AbstractPiece.setPosition: the position is assigned before the grid
    reference is computed from it. *)
Definition setPosition (piece : ref) (position : label) : M Store unit :=
  do! p := thePiece piece in
  let hasMoved := negb (String.eqb position (pCurrentPosition p)) in
  storePiece piece
    (mkPieceObj (pKind p) (pIsBlack p) position (pGridReference p) (pObservers p)) ;;;
  do! g := lift (positionToGridRerence position) in
  storePiece piece (mkPieceObj (pKind p) (pIsBlack p) position g (pObservers p)) ;;;
  if hasMoved then notifyObservers (pObservers p) else ret tt.

(** Board.move(fromSquare, toSquare) *)
Definition move (self : ref) (fromSquare toSquare : label) : M Store (option ref) :=
  do! moving := remove self fromSquare in
  do! target := remove self toSquare in
  match moving with
  | None => raise AttributeError
  | Some piece =>
      setPosition piece toSquare ;;;
      set self piece ;;;
      ret target
  end.

(** Board.copyOfBoard.  deepcopy(self._grid) clones each object that the
    grid reaches, once, and keeps the sharing between the clones.  Cloning
    every piece and tracker of the store under the renaming of references
    r to r + n does the same on what the grid reaches; the other clones
    are referenced by nothing. *)
Definition copyOfBoard (self : ref) : M Store ref :=
  do! b := theBoard self in
  fun h =>
    let np := length (pieces h) in
    let nt := length (trackers h) in
    let clone p := mkPieceObj (pKind p) (pIsBlack p) (pCurrentPosition p)
                              (pGridReference p) (map (Nat.add nt) (pObservers p)) in
    (Ok (length (boards h)),
     mkStore (pieces h ++ map clone (pieces h))
             (trackers h ++ trackers h)
             (boards h ++ [mkBoardObj (bSize b)
                                      (map (map (option_map (Nat.add np))) (bGrid b))])).

(** A new piece object: Pawn(isBlack, position) and the like. *)
Definition newPieceObj (k : Kind) (black : bool) (position : label) : M Store ref :=
  do! g := lift (positionToGridRerence position) in
  fun h => (Ok (length (pieces h)),
            mkStore (pieces h ++ [mkPieceObj k black position g []])
                    (trackers h) (boards h)).

(** The mutations of a board: place a piece that exists or a new one,
    remove, move. *)
Inductive mutation : Type :=
  | Place (piece : ref)
  | PlaceNew (k : Kind) (black : bool) (position : label)
  | Remove (atPosition : label)
  | Move (fromSquare toSquare : label).

Definition mutate (self : ref) (m : mutation) : M Store unit :=
  match m with
  | Place piece => set self piece
  | PlaceNew k black position =>
      do! piece := newPieceObj k black position in set self piece
  | Remove atPosition => do! _ := remove self atPosition in ret tt
  | Move fromSquare toSquare => do! _ := move self fromSquare toSquare in ret tt
  end.

(** A sequence of mutations, each one called whether or not the one
    before it raised. *)
Fixpoint mutations (self : ref) (ms : list mutation) (h : Store) : Store :=
  match ms with
  | [] => h
  | m :: rest => mutations self rest (snd (mutate self m h))
  end.

(** The piece is on the board: some cell of the grid refers to it. *)
Definition holds (b : BoardObj) (piece : ref) : Prop :=
  exists row, In row (bGrid b) /\ In (Some piece) row.

(** Every reference in the grid is to an object of the store. *)
Definition allocated (h : Store) (b : BoardObj) : Prop :=
  forall piece, holds b piece -> (piece < length (pieces h))%nat.

(** The original board and its pieces are as they were in h0. *)
Definition originalUnchanged (h0 h : Store) (self : ref) : Prop :=
  boards h !! self = boards h0 !! self
  /\ forall b piece, boards h0 !! self = Some b -> holds b piece ->
                     pieces h !! piece = pieces h0 !! piece.

Definition placesNoneOf (b : BoardObj) (ms : list mutation) : Prop :=
  forall piece, In (Place piece) ms -> ~ holds b piece.

End Objects.

(** * Vocabulary of the properties *)

(** A valid square label: a valid column letter followed by a valid row. *)
Definition validLabel (b : Board) (l : label) : Prop :=
  exists c r, In c (validColumns b) /\ In r (validRows b) /\ l = String c (str r).

(** The choices of promotePawn, and the class of the piece each one makes. *)
Definition recognised (pieceChoice : string) : bool :=
  mem_str (upper_str pieceChoice) ["Q"; "R"; "B"; "K"].

Definition chosenKind (pieceChoice : string) : Kind :=
  if String.eqb (upper_str pieceChoice) "R" then Rook
  else if String.eqb (upper_str pieceChoice) "B" then Bishop
  else if String.eqb (upper_str pieceChoice) "K" then Knight
  else Queen.

(** The exceptions of the board, the pieces and the analysis, as opposed to
    the three with which the game rejects a call. *)
Definition internal (e : exn) : bool :=
  match e with
  | InvalidPromotionChoice | IncorrectPlayerError | NotAChessMove => false
  | _ => true
  end.

Definition quiet {A} (r : result A) : Prop :=
  match r with
  | Ok _ => True
  | Raise e => internal e = true
  end.

Definition quietM {S A} (m : M S A) : Prop := forall s, quiet (fst (m s)).

(** The method never raises E. *)
Definition avoids {S A} (E : exn) (m : M S A) : Prop :=
  forall s, match fst (m s) with Ok _ => True | Raise e => e <> E end.

(** Hoare triples for methods: Q holds of the value returned and the state
    then, E of the state in which an exception left the method. *)
Definition triple {S A} (P : S -> Prop) (m : M S A) (Q : A -> S -> Prop) (E : S -> Prop)
  : Prop :=
  forall s, P s -> match m s with
                   | (Ok a, s') => Q a s'
                   | (Raise _, s') => E s'
                   end.

(** A plain move object from one square to another. *)
Definition plain (black : bool) (fromSq toSq : label) : pyobj :=
  match newChessMove fromSq toSq "move" black PlainMove with
  | Ok m => MoveObj m
  | Raise _ => Str "no move"
  end.

(** The game after the calls makeMove(player, move) of the list. *)
Fixpoint played (ms : list (Player * pyobj)) (g : ChessGame) : ChessGame :=
  match ms with
  | [] => g
  | (p, m) :: rest => played rest (snd (makeMove p m g))
  end.

(** 1. f3 e5 2. g4 Qh4 mate *)
Definition foolsMate : ChessGame :=
  played [(whitePlayer, plain false "f2" "f3"); (blackPlayer, plain true "e7" "e5");
          (whitePlayer, plain false "g2" "g4"); (blackPlayer, plain true "d8" "h4")]
         (snd startedGame).

(** While the copy c of the board self of the store h0 is mutated: the
    original board b0 and its pieces are as in h0, and no piece of b0 is on
    the copy. *)
Definition apartFrom (b0 : Objects.BoardObj) (piece : Objects.ref) : Prop :=
  ~ Objects.holds b0 piece.

Definition copyInvariant (h0 : Objects.Store) (self c : Objects.ref)
    (b0 : Objects.BoardObj) (h : Objects.Store) : Prop :=
  Objects.boards h !! self = Some b0
  /\ (forall p, Objects.holds b0 p -> Objects.pieces h !! p = Objects.pieces h0 !! p)
  /\ (length (Objects.pieces h0) <= length (Objects.pieces h))%nat
  /\ exists bc, Objects.boards h !! c = Some bc
                /\ forall p, Objects.holds bc p -> apartFrom b0 p.

(** A game in which white has just taken on a8 with a pawn:
    1. a4 b5 2. axb5 a6 3. bxa6 Bb7 4. axb7 Nc6 5. bxa8 *)
Definition promotionGame : ChessGame :=
  played [(whitePlayer, plain false "a2" "a4"); (blackPlayer, plain true "b7" "b5");
          (whitePlayer, plain false "a4" "b5"); (blackPlayer, plain true "a7" "a6");
          (whitePlayer, plain false "b5" "a6"); (blackPlayer, plain true "c8" "b7");
          (whitePlayer, plain false "a6" "b7"); (blackPlayer, plain true "b8" "c6");
          (whitePlayer, plain false "b7" "a8")]
         (snd startedGame).

Definition promotedPawn : Piece := mkPiece Pawn false "a8" (0, 0) [].

(** One side is reduced to a lone king. *)
Definition loneKing (ps : list Piece) : Prop :=
  exists k, ps = [k] /\ kind k = King.

(** The side holds no Queen, no Pawn, no Rook, not two or more Bishops, and
    not a Knight together with a Bishop. *)
Definition holdsNoMatingMaterial (ps : list Piece) : Prop :=
  count_kind Queen ps = 0 /\ count_kind Pawn ps = 0 /\ count_kind Rook ps = 0
  /\ count_kind Bishop ps < 2
  /\ ~ (0 < count_kind Knight ps /\ 0 < count_kind Bishop ps).

(** King and three knights against the lone king. *)
Definition threeKnights : Board :=
  boardOf [(King, true, "e8"); (King, false, "e1"); (Knight, false, "b1");
           (Knight, false, "g1"); (Knight, false, "c3")].

(** King and knight against the lone king. *)
Definition oneKnight : Board :=
  boardOf [(King, true, "e8"); (King, false, "e1"); (Knight, false, "b1")].

(** A store with one board, and on it one piece: a white pawn on e2. *)
Definition pawnBoard : Objects.BoardObj :=
  Objects.mkBoardObj 8 (<[6%nat := <[4%nat := Some 0%nat]> (replicate 8 None)]>
                          (replicate 8 (replicate 8 None))).

Definition pawnStore : Objects.Store :=
  Objects.mkStore [Objects.mkPieceObj Pawn false "e2" (6, 4) []] [] [pawnBoard].

(** A game in which black has neither moved the king nor the king's rook,
    f8 and g8 are empty, and the white bishop on a3 attacks f8:
    1. b3 g6 2. Ba3 Bg7 3. e3 Nf6 4. Nf3 e5 5. Be2 *)
Definition castlingGame : ChessGame :=
  played [(whitePlayer, plain false "b2" "b3"); (blackPlayer, plain true "g7" "g6");
          (whitePlayer, plain false "c1" "a3"); (blackPlayer, plain true "f8" "g7");
          (whitePlayer, plain false "e2" "e3"); (blackPlayer, plain true "g8" "f6");
          (whitePlayer, plain false "g1" "f3"); (blackPlayer, plain true "e7" "e5");
          (whitePlayer, plain false "f1" "e2")]
         (snd startedGame).

(** The mirror image: white has not moved the king nor the king's rook, f1
    and g1 are empty, and the black bishop on a6 attacks f1:
    1. g3 b6 2. Bg2 Ba6 3. Nf3 e6 4. e4 Be7 5. a3 h6 *)
Definition whiteCastlingGame : ChessGame :=
  played [(whitePlayer, plain false "g2" "g3"); (blackPlayer, plain true "b7" "b6");
          (whitePlayer, plain false "f1" "g2"); (blackPlayer, plain true "c8" "a6");
          (whitePlayer, plain false "g1" "f3"); (blackPlayer, plain true "e7" "e6");
          (whitePlayer, plain false "e2" "e4"); (blackPlayer, plain true "f8" "e7");
          (whitePlayer, plain false "a2" "a3"); (blackPlayer, plain true "h7" "h6")]
         (snd startedGame).

(** The squares that the non-disallowed moves of a list go to. *)
Definition destinations (moves : list ChessMove) : list label :=
  map toSquare (notDisallowed moves).

(** White to move; the rook on e2 is pinned by the rook on e8 and could
    take the queen on a2. *)
Definition pinnedRook : Board :=
  boardOf [(King, false, "e1"); (Rook, false, "e2"); (Rook, true, "e8");
           (Queen, true, "a2"); (King, true, "h8")].

Definition squaresOf (m : option ChessMove) : option (label * label * bool) :=
  option_map (fun m => (fromSquare m, toSquare m, disallowed m)) m.

(** ** Well-formed boards and the moves of the legality filter *)

(** The piece on the square at a grid reference, None where there is none. *)
Definition cell (b : Board) (rc : Z * Z) : option Piece :=
  match _grid b !! Z.to_nat (fst rc) with
  | Some row => match row !! Z.to_nat (snd rc) with
                | Some x => x
                | None => None
                end
  | None => None
  end.

Definition inside (rc : Z * Z) : Prop := 0 <= fst rc < 8 /\ 0 <= snd rc < 8.

Definition insideb (rc : Z * Z) : bool :=
  in_range 0 8 (fst rc) && in_range 0 8 (snd rc).

Definition square (rc : Z * Z) : label := gridReferenceToLabelN 8 rc.

(** Eight rows of eight squares. *)
Definition chessboard (b : Board) : Prop :=
  length (_grid b) = 8%nat /\ forall row, In row (_grid b) -> length row = 8%nat.

(** A chessboard on which every piece stands on the square it has as its
    position: what Board.set and Board.move keep. *)
Definition wellFormed (b : Board) : Prop :=
  chessboard b
  /\ forall rc p, inside rc -> cell b rc = Some p -> _currentPosition p = square rc.

Definition hasKing (b : Board) (black : bool) : Prop :=
  exists k, In k (piecesStillOnBoard b) /\ kind k = King /\ _isBlack k = black.

(** The same, as tests that evaluate on a given board. *)
Definition allSquares : list (Z * Z) :=
  flat_map (fun r => map (fun c => (Z.of_nat r, Z.of_nat c)) (seq 0 8)) (seq 0 8).

Definition wellFormedb (b : Board) : bool :=
  Nat.eqb (length (_grid b)) 8
  && forallb (fun row : list (option Piece) => Nat.eqb (length row) 8) (_grid b)
  && forallb (fun rc => match cell b rc with
                        | Some p => String.eqb (_currentPosition p) (square rc)
                        | None => true
                        end) allSquares.

Definition hasKingb (b : Board) (black : bool) : bool :=
  existsb (fun k => Kind_eqb (kind k) King && Bool.eqb (_isBlack k) black)
          (piecesStillOnBoard b).

(** A square that a piece of the given colour may go to: on the board, and
    empty or held by the other colour. *)
Definition target (b : Board) (black : bool) (s : label) : Prop :=
  exists rc, inside rc /\ s = square rc
             /\ match cell b rc with
                | None => True
                | Some q => _isBlack q <> black
                end.

(** A move of a piece of the given colour from its square to such a square. *)
Definition candidate (b : Board) (black : bool) (m : ChessMove) : Prop :=
  exists rc p, inside rc /\ cell b rc = Some p /\ _isBlack p = black
               /\ fromSquare m = square rc /\ target b black (toSquare m).

(** One turn of the loop of the filter, in the terms of the code: the
    squares stay, the move is made on a copy of the board, _checkForCheck
    answers on the copy, and the move is disallowed exactly when the answer
    is True. *)
Definition filtered (b : Board) (black : bool) (m m' : ChessMove) : Prop :=
  disallowed m = false
  /\ fromSquare m' = fromSquare m /\ toSquare m' = toSquare m
  /\ exists copyBoard,
       simulate b m = Ok copyBoard
       /\ (exists inCheck, _checkForCheck copyBoard (negb black) = Ok inCheck)
       /\ (disallowed m' = true <-> _checkForCheck copyBoard (negb black) = Ok true).

(** The number of steps in direction d that stay on the board is below this. *)
Definition stepsLeft (d rc : Z * Z) : Z :=
  if 0 <? fst d then 8 - fst rc
  else if fst d <? 0 then fst rc + 1
  else if 0 <? snd d then 8 - snd rc
  else snd rc + 1.

Definition offset (rc d : Z * Z) : Z * Z := (fst rc + fst d, snd rc + snd d).

(** ** How the pieces move *)

(** The grid reference k steps of d away from rc. *)
Definition steps (rc d : Z * Z) (k : Z) : Z * Z :=
  (fst rc + k * fst d, snd rc + k * snd d).

(** A piece of the given colour on rc slides k steps in direction d: the
    squares on the way are on the board and empty, the last one is on the
    board and empty or held by the other colour; a piece that moves once
    makes one step. *)
Definition slides (b : Board) (black multiple : bool) (rc d : Z * Z) (k : Z) : Prop :=
  1 <= k
  /\ (multiple = false -> k = 1)
  /\ (forall j, 1 <= j < k -> inside (steps rc d j) /\ cell b (steps rc d j) = None)
  /\ inside (steps rc d k)
  /\ match cell b (steps rc d k) with
     | None => True
     | Some q => _isBlack q <> black
     end.

(** The direction in which a pawn moves and the row on which it starts. *)
Definition pawnDirection (black : bool) : Z * Z := if black then (1, 0) else (-1, 0).
Definition pawnStartRow (black : bool) : Z := if black then 1 else 6.

(** The squares that _checkForCheck takes a piece to attack. *)
Definition attacks (b : Board) (p : Piece) : result (list label) :=
  match kind p with
  | Pawn => attackingSquares b p
  | _ => availableSquares b p
  end.

(** The kings among which _checkForCheck takes the first as the defender. *)
Definition defenderKings (b : Board) (attackerIsBlack : bool) : list Piece :=
  List.filter (fun p => Kind_eqb (kind p) King && negb (Bool.eqb (_isBlack p) attackerIsBlack))
              (piecesStillOnBoard b).

(** ** What the methods of the game leave as it is *)

(** The move count, the players and the status of g' are those of g. *)
Definition sameTurn (g g' : ChessGame) : Prop :=
  _moveCount g' = _moveCount g
  /\ _player1 g' = _player1 g /\ _player2 g' = _player2 g
  /\ _status g' = _status g.

(** A method that returns or raises with the move count, the players and the
    status as they were. *)
Definition keepsTurn {A} (m : M ChessGame A) : Prop :=
  forall g, sameTurn g (snd (m g)).

(** The class of a move that is not a PawnPromotion. *)
Definition movesAPiece (cls : MoveClass) : bool :=
  match cls with
  | PawnPromotion _ _ => false
  | _ => true
  end.

(** A castling tracker that was told that its king or its rook moved. *)
Definition noLongerPossible (m : ChessMove) : bool :=
  match moveClass m with
  | CastlingMove _ _ _ _ flag => flag
  | _ => false
  end.

(** ** The two tree searches compared *)

(** What a search with the window (alpha, beta) may return for a position of
    value v: the value itself when it lies inside the window, and a score on
    the same side of the window when it does not. *)
Definition bounded (alpha beta v r : Z) : Prop :=
  (v <= alpha -> r <= alpha) /\ (beta <= v -> beta <= r) /\ (alpha < v < beta -> r = v).

(** While the loops of the two searches run over the same moves: the window
    (a, b) of the alpha-beta loop started as (alpha0, beta0), both scores
    started as s0, sm is the score of the minimax loop and sa that of the
    alpha-beta loop. *)
Definition loopInvariant (black : bool) (alpha0 beta0 s0 a b sm sa : Z) : Prop :=
  if black then
    a = alpha0 /\ b <= beta0
    /\ (b <= sm -> b <= sa) /\ (sm < b -> sa = sm)
    /\ (b = beta0 \/ sa <= b) /\ (b = beta0 \/ sm <= b)
    /\ sa <= s0 /\ (sm <= alpha0 -> s0 <= alpha0)
  else
    b = beta0 /\ alpha0 <= a
    /\ (sm <= a -> sa <= a) /\ (a < sm -> sa = sm)
    /\ (a = alpha0 \/ a <= sa) /\ (a = alpha0 \/ a <= sm)
    /\ s0 <= sa /\ (beta0 <= sm -> beta0 <= s0).

(** The moves of white on the board pinnedRook that are not disallowed. *)
Definition pinnedRookMoves : list ChessMove :=
  match _movesWithThoseLeavingCheckDisallowed pinnedRook false with
  | Ok moves => notDisallowed moves
  | Raise _ => []
  end.

(** 1. e4 a6 2. e5 d5: the black pawn has just passed the white pawn on e5. *)
Definition enPassantGame : ChessGame :=
  played [(whitePlayer, plain false "e2" "e4"); (blackPlayer, plain true "a7" "a6");
          (whitePlayer, plain false "e4" "e5"); (blackPlayer, plain true "d7" "d5")]
         (snd startedGame).

(** ** chessplayers.py: the player that looks one move ahead

    random.randint(0, len(availableMoves) - 1) is called once; [pick] is the
    number it returns, and the call raises ValueError when the range is
    empty. *)

(** What a call of the player comes to. *)
Inductive picked (A : Type) : Type :=
  | Returns (a : A)
  | RandintEmptyRange
  | Raises (e : exn).
Arguments Returns {A} a.
Arguments RandintEmptyRange {A}.
Arguments Raises {A} e.

Module ComputerLevelOnePlayer.

(** copyBoard.move(m.fromSquare, m.toSquare) on a copy, then
    copyBoard.piecesScore() *)
Definition scoreAfter (forBoard : Board) (m : ChessMove) : result Z :=
  try! copyBoard := simulate forBoard m in
  piecesScore copyBoard.

(** The loop 'for i in range(1, len(availableMoves))' *)
Fixpoint bestOf (forBoard : Board) (scoreFactor : Z) (others : list ChessMove)
    (move : ChessMove) (score : Z) : result (ChessMove * Z) :=
  match others with
  | [] => Ok (move, score)
  | m :: rest =>
      try! newScore := scoreAfter forBoard m in
      if score * scoreFactor <? newScore * scoreFactor
      then bestOf forBoard scoreFactor rest m newScore
      else bestOf forBoard scoreFactor rest move score
  end.

Definition _bestScoreAndMoveAfterAMove (pick : Z) (forBoard : Board) (isBlack : bool)
    (moves : option (list ChessMove)) : picked (ChessMove * Z) :=
  match movesOrPossible forBoard isBlack moves with
  | Raise e => Raises e
  | Ok availableMoves =>
      if len availableMoves - 1 <? 0 then RandintEmptyRange
      else
        match py_index availableMoves pick with
        | Raise e => Raises e
        | Ok move =>
            let scoreFactor := if isBlack then -1 else 1 in
            match scoreAfter forBoard move with
            | Raise e => Raises e
            | Ok score =>
                match bestOf forBoard scoreFactor (drop 1 availableMoves) move score with
                | Ok best => Returns best
                | Raise e => Raises e
                end
            end
        end
  end.

(** choseMove(board, moves) of a player of colour [isBlack] *)
Definition choseMove (pick : Z) (isBlack : bool) (board : Board) (moves : list ChessMove)
  : picked ChessMove :=
  match _bestScoreAndMoveAfterAMove pick board isBlack (Some (notDisallowed moves)) with
  | Returns best => Returns (fst best)
  | RandintEmptyRange => RandintEmptyRange
  | Raises e => Raises e
  end.

End ComputerLevelOnePlayer.

(** ** The legality filter in the terms of the game *)

(** A position: the kind and the colour (true for black) of the piece on
    each square of the 8 x 8 board, None on an empty square and off the
    board. *)
Definition Position : Type := Z * Z -> option (Kind * bool).

Definition positionOf (b : Board) : Position :=
  fun x => if insideb x
           then option_map (fun p => (kind p, _isBlack p)) (cell b x)
           else None.

(** The position after the piece on [origin] went to [dest] and took what
    stood there. *)
Definition afterMove (pos : Position) (origin dest : Z * Z) : Position :=
  fun x => if decide (x = dest) then pos origin
           else if decide (x = origin) then None
           else pos x.

(** One step along a rank or a file, and one step along a diagonal. *)
Definition straightStep (d : Z * Z) : Prop :=
  (fst d = 0 /\ Z.abs (snd d) = 1) \/ (Z.abs (fst d) = 1 /\ snd d = 0).

Definition diagonalStep (d : Z * Z) : Prop :=
  Z.abs (fst d) = 1 /\ Z.abs (snd d) = 1.

(** The square x is seen from rc along d: it lies some steps of d away, and
    every square between the two is empty. *)
Definition seenAlong (pos : Position) (rc d x : Z * Z) : Prop :=
  exists n, 1 <= n /\ x = steps rc d n
            /\ forall j, 1 <= j < n -> pos (steps rc d j) = None.

(** A piece of kind k and the given colour that stands on rc attacks the
    square x.  Rows are counted from the eighth rank down, so a white pawn
    attacks towards row 0 and a black pawn towards row 7. *)
Definition pieceAttacks (pos : Position) (k : Kind) (black : bool) (rc x : Z * Z) : Prop :=
  match k with
  | Pawn => fst x = fst rc + (if black then 1 else -1) /\ Z.abs (snd x - snd rc) = 1
  | Knight => (Z.abs (fst x - fst rc) = 1 /\ Z.abs (snd x - snd rc) = 2)
              \/ (Z.abs (fst x - fst rc) = 2 /\ Z.abs (snd x - snd rc) = 1)
  | King => Z.abs (fst x - fst rc) <= 1 /\ Z.abs (snd x - snd rc) <= 1 /\ x <> rc
  | Rook => exists d, straightStep d /\ seenAlong pos rc d x
  | Bishop => exists d, diagonalStep d /\ seenAlong pos rc d x
  | Queen => exists d, (straightStep d \/ diagonalStep d) /\ seenAlong pos rc d x
  end.

(** Some piece of the given colour attacks the square x. *)
Definition attackedBy (pos : Position) (byBlack : bool) (x : Z * Z) : Prop :=
  exists rc k, inside rc /\ pos rc = Some (k, byBlack) /\ pieceAttacks pos k byBlack rc x.

(** The order in which the squares of the board are read: row after row from
    the eighth rank down, each row from column a to column h. *)
Definition readBefore (x y : Z * Z) : Prop :=
  fst x < fst y \/ (fst x = fst y /\ snd x < snd y).

(** The square of the king of a colour: of the first one in reading order,
    should the board hold several. *)
Definition kingSquare (pos : Position) (black : bool) (rk : Z * Z) : Prop :=
  inside rk /\ pos rk = Some (King, black)
  /\ forall x, inside x -> readBefore x rk -> pos x <> Some (King, black).

(** The king of a colour is attacked by a piece of the other colour. *)
Definition kingInCheck (pos : Position) (black : bool) : Prop :=
  exists rk, kingSquare pos black rk /\ attackedBy pos (negb black) rk.

(** What the filter makes of a candidate move m: the move m' between the
    same two squares of the board, disallowed exactly when the mover's king
    is attacked in the position after the move. *)
Definition marked (b : Board) (black : bool) (m m' : ChessMove) : Prop :=
  exists origin dest,
    inside origin /\ inside dest
    /\ fromSquare m = square origin /\ toSquare m = square dest
    /\ fromSquare m' = fromSquare m /\ toSquare m' = toSquare m
    /\ (disallowed m' = true
        <-> kingInCheck (afterMove (positionOf b) origin dest) black).

(** A move between two squares of the board after which the mover's king is
    not attacked. *)
Definition leavesKingSafe (b : Board) (black : bool) (m : ChessMove) : Prop :=
  exists origin dest,
    inside origin /\ inside dest
    /\ fromSquare m = square origin /\ toSquare m = square dest
    /\ ~ kingInCheck (afterMove (positionOf b) origin dest) black.

(** * Properties *)

(** ** The state-and-exception monad *)

Lemma triple_bind {S A B} (P : S -> Prop) (m : M S A) (k : A -> M S B) Q R E :
  triple P m Q E -> (forall a, triple (Q a) (k a) R E) -> triple P (bind m k) R E.
Proof.
  intros Hm Hk s Hs. unfold bind. specialize (Hm s Hs).
  destruct (m s) as [[a|e] s']; [ apply (Hk a s' Hm) | exact Hm ].
Qed.

Lemma triple_ret {S A} (P : S -> Prop) (a : A) (Q : A -> S -> Prop) E :
  (forall s, P s -> Q a s) -> triple P (ret a) Q E.
Proof. intros H s Hs. apply H, Hs. Qed.

Lemma triple_raise {S A} (P : S -> Prop) e (Q : A -> S -> Prop) (E : S -> Prop) :
  (forall s, P s -> E s) -> triple P (raise e) Q E.
Proof. intros H s Hs. apply H, Hs. Qed.

Lemma triple_lift {S A} (P : S -> Prop) (r : result A) (Q : A -> S -> Prop) (E : S -> Prop) :
  (forall s, P s -> E s) -> (forall a s, r = Ok a -> P s -> Q a s) -> triple P (lift r) Q E.
Proof. intros HE HQ s Hs. unfold lift. destruct r; [ apply HQ | apply HE ]; auto. Qed.

Lemma quiet_bind {A B} (r : result A) (k : A -> result B) :
  quiet r -> (forall a, quiet (k a)) -> quiet (rbind r k).
Proof. destruct r; cbn; auto. Qed.

Lemma quietM_bind {S A B} (m : M S A) (k : A -> M S B) :
  quietM m -> (forall a, quietM (k a)) -> quietM (bind m k).
Proof.
  intros Hm Hk s. unfold bind. specialize (Hm s).
  destruct (m s) as [[a|e] s']; cbn in *; [ apply Hk | exact Hm ].
Qed.

Lemma quietM_lift {S A} (r : result A) : quiet r -> quietM (S := S) (lift r).
Proof. intros H s. exact H. Qed.

Lemma quietM_reads {S A} (f : S -> result A) : (forall s, quiet (f s)) -> quietM (reads f).
Proof. intros H s. apply H. Qed.

Lemma avoids_bind {S A B} E (m : M S A) (k : A -> M S B) :
  avoids E m -> (forall a, avoids E (k a)) -> avoids E (bind m k).
Proof.
  intros Hm Hk s. unfold bind. specialize (Hm s).
  destruct (m s) as [[a|e] s']; cbn in *; [ apply Hk | exact Hm ].
Qed.

Lemma quietM_avoids {S A} E (m : M S A) : internal E = false -> quietM m -> avoids E m.
Proof.
  intros HE Hm s. specialize (Hm s). destruct (fst (m s)); [ exact I | ].
  cbn in Hm. congruence.
Qed.

Lemma avoids_onBoard {A} E (m : M Board A) : avoids E m -> avoids E (onBoard m).
Proof.
  intros H g. unfold onBoard. specialize (H (_board g)).
  destruct (m (_board g)); exact H.
Qed.

Lemma avoids_total {S A} E (m : M S A) :
  (forall s, exists a, fst (m s) = Ok a) -> avoids E m.
Proof. intros H s. destruct (H s) as [a ->]. exact I. Qed.

Lemma avoids_raise {S A} E e : e <> E -> avoids (S := S) (A := A) E (raise e).
Proof. intros H s. exact H. Qed.

(** ** Lists, indices and labels *)

Lemma len8 (b : Board) : length (_grid b) = 8%nat -> len (_grid b) = 8.
Proof. unfold len. intros ->. reflexivity. Qed.

Lemma In_insert {A} (l : list A) i x y : In y (<[i:=x]> l) -> y = x \/ In y l.
Proof.
  revert i. induction l as [|a l IH]; intros [|i] H; cbn in *; auto.
  - destruct H; auto.
  - destruct H as [H|H]; auto. destruct (IH _ H); auto.
Qed.

Lemma py_index_lookup {A} (l : list A) i x :
  py_index l i = Ok x -> 0 <= i -> l !! Z.to_nat i = Some x.
Proof.
  unfold py_index. intros H Hi.
  destruct (i <? 0) eqn:E; [ lia | ].
  destruct ((0 <=? i) && (i <? len l)); [ | discriminate ].
  destruct (l !! Z.to_nat i); congruence.
Qed.

Lemma py_index_nonneg {A} (l : list A) i x :
  0 <= i -> l !! Z.to_nat i = Some x -> py_index l i = Ok x.
Proof.
  intros Hi Hx. unfold py_index.
  destruct (i <? 0) eqn:E; [ lia | ].
  pose proof (lookup_lt_Some _ _ _ Hx) as Hlt.
  assert (E2 : (0 <=? i) && (i <? len l) = true).
  { unfold len. apply andb_true_iff. split; [ apply Z.leb_le | apply Z.ltb_lt ]; lia. }
  rewrite E2, Hx. reflexivity.
Qed.

Lemma py_index_In {A} (l : list A) i x : py_index l i = Ok x -> In x l.
Proof.
  unfold py_index. destruct (_ && _); [ | discriminate ].
  destruct (l !! _) eqn:E; [ | discriminate ].
  intros [= <-]. apply list_elem_of_In. eapply list_elem_of_lookup_2; eauto.
Qed.

Lemma labelToGridReferenceN_range n position rc :
  labelToGridReferenceN n position = Ok rc -> 0 <= fst rc < n /\ 0 <= snd rc < n.
Proof.
  unfold labelToGridReferenceN. intros H.
  destruct (negb (strlen position =? 2)); [ discriminate | ].
  destruct (str_index position 0) as [c0|]; [ | discriminate ].
  destruct (str_index position 1) as [c1|]; [ | discriminate ]. cbn [rbind] in H.
  destruct (in_range ord_a (ord_a + n) (ord (lower c0))) eqn:E1; [ | discriminate ].
  cbn [negb] in H.
  destruct (int_of_char c1) as [d|]; [ | discriminate ].
  destruct (in_range 0 n (n - d)) eqn:E2; [ | discriminate ].
  cbn [negb] in H. inversion H; subst; cbn. unfold in_range, ord_a in *. lia.
Qed.

(** On a board of eight rows a label that the board accepts is one that a
    piece accepts. *)
Lemma positionToGridRerence_board b position rc :
  length (_grid b) = 8%nat ->
  labelToGridReference b position = Ok rc -> positionToGridRerence position = Ok rc.
Proof.
  intros H8. unfold labelToGridReference, labelToGridReferenceN, positionToGridRerence.
  rewrite (len8 b H8).
  destruct (negb (strlen position =? 2)); [ discriminate | ].
  destruct (str_index position 0) as [c0|]; [ | discriminate ].
  destruct (str_index position 1) as [c1|]; [ | discriminate ]. cbn [rbind].
  destruct (negb (in_range ord_a (ord_a + 8) (ord (lower c0)))); [ discriminate | ].
  auto.
Qed.

(** ** Labels and grid references (C7) *)

Lemma roundtrip_coords b r c :
  length (_grid b) = 8%nat -> 0 <= r < 8 -> 0 <= c < 8 ->
  labelToGridReference b (gridReferenceToLabel b (r, c)) = Ok (r, c).
Proof.
  intros H Hr Hc.
  unfold labelToGridReference, gridReferenceToLabel, labelToGridReferenceN,
    gridReferenceToLabelN.
  rewrite (len8 b H). cbn [fst snd].
  assert (Er : r = 0 \/ r = 1 \/ r = 2 \/ r = 3 \/ r = 4 \/ r = 5 \/ r = 6 \/ r = 7) by lia.
  assert (Ec : c = 0 \/ c = 1 \/ c = 2 \/ c = 3 \/ c = 4 \/ c = 5 \/ c = 6 \/ c = 7) by lia.
  destruct Er as [->|[->|[->|[->|[->|[->|[->| ->]]]]]]];
    destruct Ec as [->|[->|[->|[->|[->|[->|[->| ->]]]]]]]; reflexivity.
Qed.

Lemma validLabel_coords b l :
  length (_grid b) = 8%nat -> validLabel b l ->
  exists r c, 0 <= r < 8 /\ 0 <= c < 8 /\ l = gridReferenceToLabel b (r, c).
Proof.
  intros H (c & r & Hc & Hr & ->).
  exists (8 - r), (ord c - ord_a).
  unfold validColumns, validRows in *. rewrite H in *.
  unfold gridReferenceToLabel, gridReferenceToLabelN. rewrite (len8 b H).
  cbn in Hc, Hr.
  repeat (destruct Hc as [<- | Hc];
          [ repeat (destruct Hr as [<- | Hr];
                    [ vm_compute; repeat split; congruence | ]);
            destruct Hr | ]).
  destruct Hc.
Qed.

(** C7: on the board of eight rows, a grid reference (r, c) with
    0 <= r, c < 8 turned into its label and read back is (r, c) again, and a
    valid label (a letter of validColumns and a number of validRows) read as
    a grid reference and turned back into a label is the same label. *)
Theorem label_grid_roundtrip (b : Board) :
  length (_grid b) = 8%nat ->
  (forall r c, 0 <= r < 8 -> 0 <= c < 8 ->
     labelToGridReference b (gridReferenceToLabel b (r, c)) = Ok (r, c))
  /\ (forall l, validLabel b l ->
        exists rc, labelToGridReference b l = Ok rc /\ gridReferenceToLabel b rc = l).
Proof.
  intros H. split.
  - intros r c Hr Hc. apply roundtrip_coords; assumption.
  - intros l Hl. destruct (validLabel_coords b l H Hl) as (r & c & Hr & Hc & ->).
    exists (r, c). split; [ apply roundtrip_coords; assumption | reflexivity ].
Qed.

Lemma label_grid_roundtrip_witness :
  length (_grid (newBoard 8)) = 8%nat
  /\ labelToGridReference (newBoard 8) (gridReferenceToLabel (newBoard 8) (6, 4)) = Ok (6, 4)
  /\ exists rc, labelToGridReference (newBoard 8) "e2" = Ok rc
                /\ gridReferenceToLabel (newBoard 8) rc = "e2".
Proof.
  assert (H : length (_grid (newBoard 8)) = 8%nat) by reflexivity.
  destruct (label_grid_roundtrip (newBoard 8) H) as [H1 H2].
  split; [ exact H | split ].
  - apply H1; lia.
  - apply H2. exists "e"%char, 2. split; [ | split ].
    + cbn. do 4 right. left. reflexivity.
    + cbn. right. left. reflexivity.
    + reflexivity.
Defined.

(** The parser also takes the upper-case letters and gives the grid
    reference of the lower-case label. *)
Example upper_case_label :
  labelToGridReference (newBoard 8) "E2" = Ok (6, 4)
  /\ gridReferenceToLabel (newBoard 8) (6, 4) = "e2".
Proof. split; reflexivity. Qed.

(** ** The exceptions that the board, the pieces and the analysis raise *)

Create HintDb quiet.

Ltac quiet_step :=
  match goal with
  | |- quiet (Ok _) => exact I
  | |- quiet (Raise _) => reflexivity
  | |- quiet (rbind _ _) => apply quiet_bind; [ | intros ]
  | |- quiet (if ?c then _ else _) => destruct c
  | |- quiet (match ?x with _ => _ end) => destruct x
  | |- quiet (let (_, _) := ?x in _) => destruct x
  | |- quietM (bind _ _) => apply quietM_bind; [ | intros ]
  | |- quietM (ret _) => intros ?; exact I
  | |- quietM (raise _) => intros ?; reflexivity
  | |- quietM (lift _) => apply quietM_lift
  | |- quietM (reads _) => apply quietM_reads; intros
  | |- quietM (if ?c then _ else _) => destruct c
  | |- quietM (match ?x with _ => _ end) => destruct x
  | |- _ => solve [ auto with quiet ]
  end.
Ltac quiet_tac := repeat quiet_step.

Lemma quiet_py_index {A} (l : list A) i : quiet (py_index l i).
Proof. unfold py_index. quiet_tac. Qed.
Lemma quiet_str_index s i : quiet (str_index s i).
Proof. unfold str_index. quiet_tac. Qed.
#[local] Hint Resolve quiet_py_index quiet_str_index : quiet.

Lemma quiet_labelToGridReferenceN n p : quiet (labelToGridReferenceN n p).
Proof. unfold labelToGridReferenceN. quiet_tac. Qed.
#[local] Hint Resolve quiet_labelToGridReferenceN : quiet.
Lemma quiet_labelToGridReference b p : quiet (labelToGridReference b p).
Proof. unfold labelToGridReference. quiet_tac. Qed.
Lemma quiet_positionToGridRerence p : quiet (positionToGridRerence p).
Proof. unfold positionToGridRerence. quiet_tac. Qed.
#[local] Hint Resolve quiet_labelToGridReference quiet_positionToGridRerence : quiet.
Lemma quiet_grid_get b r c : quiet (grid_get b r c).
Proof. unfold grid_get. quiet_tac. Qed.
Lemma quiet_grid_set b r c x : quiet (grid_set b r c x).
Proof. unfold grid_set. quiet_tac. Qed.
#[local] Hint Resolve quiet_grid_get quiet_grid_set : quiet.
Lemma quiet_pieceAtLabel b l : quiet (pieceAtLabel b l).
Proof. unfold pieceAtLabel, pieceAtGridReference. quiet_tac. Qed.
#[local] Hint Resolve quiet_pieceAtLabel : quiet.
Lemma quiet_isEmpty b l : quiet (isEmpty b l).
Proof. unfold isEmpty. quiet_tac. Qed.
Lemma quiet_isBlack b l : quiet (isBlack b l).
Proof. unfold isBlack. quiet_tac. Qed.
Lemma quiet_getRow b n : quiet (getRow b n).
Proof. unfold getRow. quiet_tac. Qed.
Lemma quiet_positionXandYFrom b s rc : quiet (_positionXandYFrom b s rc).
Proof. unfold _positionXandYFrom. quiet_tac. Qed.
#[local] Hint Resolve quiet_isEmpty quiet_isBlack quiet_getRow quiet_positionXandYFrom : quiet.
Lemma quiet_positionOffset b s rc : quiet (positionOffset b s rc).
Proof. unfold positionOffset. quiet_tac. Qed.
Lemma quiet_newPiece k b p : quiet (newPiece k b p).
Proof. unfold newPiece. quiet_tac. Qed.
Lemma quiet_setPosition p l : quiet (setPosition p l).
Proof. unfold setPosition. quiet_tac. Qed.
#[local] Hint Resolve quiet_positionOffset quiet_newPiece quiet_setPosition : quiet.

Lemma quiet_walk fuel b black multiple d possMove moves :
  quiet (walk fuel b black multiple d possMove moves).
Proof.
  revert possMove moves. induction fuel as [|fuel IH]; intros; cbn [walk]; quiet_tac.
Qed.
#[local] Hint Resolve quiet_walk : quiet.
Lemma quiet_for_directions b p ds moves : quiet (for_directions b p ds moves).
Proof. revert moves. induction ds as [|d ds IH]; intros; cbn [for_directions]; quiet_tac. Qed.
Lemma quiet_pawnCaptures b p ms moves : quiet (pawnCaptures b p ms moves).
Proof. revert moves. induction ms as [|m ms IH]; intros; cbn [pawnCaptures]; quiet_tac. Qed.
Lemma quiet_pawnAttacks b p ms moves : quiet (pawnAttacks b p ms moves).
Proof. revert moves. induction ms as [|m ms IH]; intros; cbn [pawnAttacks]; quiet_tac. Qed.
#[local] Hint Resolve quiet_for_directions quiet_pawnCaptures quiet_pawnAttacks : quiet.
Lemma quiet_pawnAvailableSquares b p : quiet (pawnAvailableSquares b p).
Proof. unfold pawnAvailableSquares. quiet_tac. Qed.
Lemma quiet_attackingSquares b p : quiet (attackingSquares b p).
Proof. unfold attackingSquares. quiet_tac. Qed.
#[local] Hint Resolve quiet_pawnAvailableSquares quiet_attackingSquares : quiet.
Lemma quiet_availableSquares b p : quiet (availableSquares b p).
Proof. unfold availableSquares. quiet_tac. Qed.
#[local] Hint Resolve quiet_availableSquares : quiet.
Lemma quiet_squareRC s : quiet (squareRC s).
Proof. unfold squareRC. quiet_tac. Qed.
#[local] Hint Resolve quiet_squareRC : quiet.
Lemma quiet_newChessMove f t d b c : quiet (newChessMove f t d b c).
Proof. unfold newChessMove. quiet_tac. Qed.
#[local] Hint Resolve quiet_newChessMove : quiet.
Lemma quiet_newEnPassant f t b r p : quiet (newEnPassant f t b r p).
Proof. unfold newEnPassant. quiet_tac. Qed.
Lemma quiet_movesTo p black am : quiet (movesTo p black am).
Proof. induction am; cbn [movesTo]; quiet_tac. Qed.
#[local] Hint Resolve quiet_newEnPassant quiet_movesTo : quiet.
Lemma quiet_movesOfPieces b black ps : quiet (movesOfPieces b black ps).
Proof. induction ps; cbn [movesOfPieces]; quiet_tac. Qed.
#[local] Hint Resolve quiet_movesOfPieces : quiet.
Lemma quiet_possibleMoves b black : quiet (possibleMoves b black).
Proof. unfold possibleMoves. quiet_tac. Qed.
Lemma quiet_attackedSquares b ps acc : quiet (attackedSquares b ps acc).
Proof. revert acc. induction ps; intros; cbn [attackedSquares]; quiet_tac. Qed.
#[local] Hint Resolve quiet_possibleMoves quiet_attackedSquares : quiet.
Lemma quiet_checkForCheck b a : quiet (_checkForCheck b a).
Proof. unfold _checkForCheck. quiet_tac. Qed.
#[local] Hint Resolve quiet_checkForCheck : quiet.

Lemma quietM_assign r c x : quietM (assign r c x).
Proof. intros b. unfold assign. pose proof (quiet_grid_set b r c x). destruct (grid_set b r c x); exact H. Qed.
#[local] Hint Resolve quietM_assign : quiet.
Lemma quietM_set p : quietM (set p).
Proof. unfold set. quiet_tac. Qed.
Lemma quietM_remove p : quietM (remove p).
Proof. unfold remove. quiet_tac. Qed.
#[local] Hint Resolve quietM_set quietM_remove : quiet.
Lemma quietM_move f t : quietM (move f t).
Proof. unfold move. quiet_tac. Qed.
#[local] Hint Resolve quietM_move : quiet.
Lemma quiet_simulate b m : quiet (simulate b m).
Proof.
  unfold simulate. pose proof (quietM_move (fromSquare m) (toSquare m) (copyOfBoard b)) as H.
  destruct (move _ _ _) as [[a|e] s]; exact H.
Qed.
#[local] Hint Resolve quiet_simulate : quiet.
Lemma quiet_checkedMove b black m : quiet (checkedMove b black m).
Proof. unfold checkedMove. quiet_tac. Qed.
#[local] Hint Resolve quiet_checkedMove : quiet.
Lemma quiet_checkedMoves b black ms : quiet (checkedMoves b black ms).
Proof. induction ms; cbn [checkedMoves]; quiet_tac. Qed.
#[local] Hint Resolve quiet_checkedMoves : quiet.
Lemma quiet_filter b black : quiet (_movesWithThoseLeavingCheckDisallowed b black).
Proof. unfold _movesWithThoseLeavingCheckDisallowed. quiet_tac. Qed.
#[local] Hint Resolve quiet_filter : quiet.
Lemma quiet_calculateMoves b : quiet (calculateMoves b).
Proof. unfold calculateMoves. quiet_tac. Qed.
#[local] Hint Resolve quiet_calculateMoves : quiet.
Lemma quiet_currentPlayer g : quiet (_currentPlayer g).
Proof. unfold _currentPlayer. quiet_tac. Qed.
#[local] Hint Resolve quiet_currentPlayer : quiet.
Lemma quiet_nextPlayer g : quiet (_nextPlayer g).
Proof. unfold _nextPlayer. quiet_tac. Qed.
Lemma quiet_rankOf s : quiet (rankOf s).
Proof. unfold rankOf. quiet_tac. Qed.
#[local] Hint Resolve quiet_nextPlayer quiet_rankOf : quiet.
Lemma quiet_enPassantLoop g mv board pm sides acc : quiet (enPassantLoop g mv board pm sides acc).
Proof. revert acc. induction sides; intros; cbn [enPassantLoop]; quiet_tac. Qed.
#[local] Hint Resolve quiet_enPassantLoop : quiet.
Lemma quiet_getEnPassant g mv board : quiet (_getEnPassant g mv board).
Proof. unfold _getEnPassant. quiet_tac. Qed.
Lemma quiet_emptySquares b sq : quiet (emptySquares b sq).
Proof. induction sq; cbn [emptySquares]; quiet_tac. Qed.
#[local] Hint Resolve quiet_getEnPassant quiet_emptySquares : quiet.
Lemma quiet_interpretAnalysis g a board send : quiet (_interpretAnalysis g a board send).
Proof. unfold _interpretAnalysis. quiet_tac. Qed.
#[local] Hint Resolve quiet_interpretAnalysis : quiet.
Lemma quiet_analyseBoard g board mv : quiet (_analyseBoard g board mv).
Proof. unfold _analyseBoard. quiet_tac. Qed.
#[local] Hint Resolve quiet_analyseBoard : quiet.
Lemma quietM_analyse board mv : quietM (analyse board mv).
Proof.
  intros g. unfold analyse. pose proof (quiet_analyseBoard g board mv) as H.
  destruct (_analyseBoard g board mv) as [[[ev a] notes]|e]; exact H.
Qed.
#[local] Hint Resolve quietM_analyse : quiet.
Lemma quietM_onBoard {A} (m : M Board A) : quietM m -> quietM (onBoard m).
Proof. intros H g. unfold onBoard. specialize (H (_board g)). destruct (m (_board g)); exact H. Qed.

Ltac avoid_step :=
  match goal with
  | |- avoids _ (bind _ _) => apply avoids_bind; [ | intros ]
  | |- avoids _ (ret _) => apply avoids_total; intros; eexists; reflexivity
  | |- avoids _ get => apply avoids_total; intros; eexists; reflexivity
  | |- avoids _ (put _) => apply avoids_total; intros; eexists; reflexivity
  | |- avoids _ (notify _) => apply avoids_total; intros; eexists; reflexivity
  | |- avoids _ (observersNotified _) => apply avoids_total; intros; eexists; reflexivity
  | |- avoids _ (setAnalysis _) => apply avoids_total; intros; eexists; reflexivity
  | |- avoids _ (raise _) => apply avoids_raise; discriminate
  | |- avoids _ (onBoard _) => apply avoids_onBoard
  | |- avoids _ (if ?c then _ else _) => destruct c
  | |- avoids _ (match ?x with _ => _ end) => destruct x
  | |- avoids _ _ => apply quietM_avoids; [ reflexivity | solve [ auto with quiet ] ]
  end.
Ltac avoid_tac := repeat avoid_step.

Lemma quietM_newPiece_lift (S : Type) k b p : quietM (S := S) (lift (newPiece k b p)).
Proof. apply quietM_lift. auto with quiet. Qed.
#[local] Hint Resolve quietM_newPiece_lift : quiet.

Lemma avoids_setStatus E s : avoids E (_setStatus s).
Proof. unfold _setStatus. avoid_tac. Qed.

Lemma avoids_promotePawn_turn pawn choice : avoids IncorrectPlayerError (promotePawn pawn choice).
Proof. unfold promotePawn. avoid_tac. Qed.

(** ** The game: promotePawn and makeMove *)

Lemma promotePawn_invalid pawn pieceChoice g :
  recognised pieceChoice = false ->
  promotePawn pawn pieceChoice g
  = (Raise InvalidPromotionChoice, with_notified g (notified g ++ [NShowWarning])).
Proof.
  unfold recognised, mem_str. cbn [existsb]. intros H.
  apply orb_false_iff in H as (HQ & H). apply orb_false_iff in H as (HR & H).
  apply orb_false_iff in H as (HB & H). apply orb_false_iff in H as (HK & _).
  unfold promotePawn. rewrite HQ, HR, HB, HK. reflexivity.
Qed.

(** Removing the piece of a square and setting another piece there. *)
Lemma replace_square b p q r c :
  labelToGridReference b (_currentPosition p) = Ok (r, c) ->
  _currentPosition q = _currentPosition p ->
  grid_get b r c = Ok (Some p) ->
  exists row,
    _grid b !! Z.to_nat r = Some row
    /\ bind (remove (_currentPosition p)) (fun _ => set q) b
       = (Ok tt, mkBoard (size b) (<[Z.to_nat r := <[Z.to_nat c := Some q]> row]> (_grid b))).
Proof.
  intros Hl Hq Hg.
  pose proof (labelToGridReferenceN_range _ _ _ Hl) as (Hr & Hc). cbn [fst snd] in Hr, Hc.
  unfold grid_get in Hg.
  destruct (py_index (_grid b) r) as [row|] eqn:Er; [ | discriminate ]. cbn [rbind] in Hg.
  pose proof (py_index_lookup _ _ _ Er ltac:(lia)) as Hrow.
  pose proof (py_index_lookup _ _ _ Hg ltac:(lia)) as Hcell.
  exists row. split; [ exact Hrow | ].
  assert (Hr' : py_index (<[Z.to_nat r := <[Z.to_nat c := None]> row]> (_grid b)) r
                = Ok (<[Z.to_nat c := None]> row)).
  { apply py_index_nonneg; [ lia | ]. apply list_lookup_insert_eq.
    eapply lookup_lt_Some; eauto. }
  assert (Hc' : py_index (<[Z.to_nat c := @None Piece]> row) c = Ok None).
  { apply py_index_nonneg; [ lia | ]. apply list_lookup_insert_eq.
    eapply lookup_lt_Some; eauto. }
  assert (Hl' : labelToGridReference
                  (mkBoard (size b) (<[Z.to_nat r := <[Z.to_nat c := None]> row]> (_grid b)))
                  (_currentPosition q) = Ok (r, c)).
  { unfold labelToGridReference in *. cbn [_grid]. unfold len in *.
    rewrite length_insert, Hq. exact Hl. }
  unfold bind, remove, set, reads, assign, grid_set, grid_get, bind, ret.
  rewrite Hl. cbn [fst snd]. rewrite Er. cbn [rbind]. rewrite Hg.
  cbn [rbind fst snd size _grid].
  rewrite Hl'. cbn [fst snd _grid size]. rewrite Hr'. cbn [rbind]. rewrite Hc'. cbn [rbind].
  rewrite list_insert_insert_eq, list_insert_insert_eq. reflexivity.
Qed.

Lemma chosen_cases pieceChoice :
  recognised pieceChoice = true ->
  (String.eqb (upper_str pieceChoice) "Q" = true /\ chosenKind pieceChoice = Queen)
  \/ (String.eqb (upper_str pieceChoice) "Q" = false
      /\ String.eqb (upper_str pieceChoice) "R" = true /\ chosenKind pieceChoice = Rook)
  \/ (String.eqb (upper_str pieceChoice) "Q" = false
      /\ String.eqb (upper_str pieceChoice) "R" = false
      /\ String.eqb (upper_str pieceChoice) "B" = true /\ chosenKind pieceChoice = Bishop)
  \/ (String.eqb (upper_str pieceChoice) "Q" = false
      /\ String.eqb (upper_str pieceChoice) "R" = false
      /\ String.eqb (upper_str pieceChoice) "B" = false
      /\ String.eqb (upper_str pieceChoice) "K" = true /\ chosenKind pieceChoice = Knight).
Proof.
  unfold recognised, mem_str, chosenKind. cbn [existsb].
  destruct (String.eqb (upper_str pieceChoice) "Q") eqn:EQ.
  - apply String.eqb_eq in EQ. rewrite EQ. cbn. auto.
  - destruct (String.eqb (upper_str pieceChoice) "R") eqn:ER; [ tauto | ].
    destruct (String.eqb (upper_str pieceChoice) "B") eqn:EB; [ tauto | ].
    destruct (String.eqb (upper_str pieceChoice) "K") eqn:EK; [ tauto | ].
    cbn. discriminate.
Qed.

(** promotePawn with a recognised choice, for a piece that is on the board. *)
Lemma promotePawn_valid g p pieceChoice r c :
  length (_grid (_board g)) = 8%nat ->
  labelToGridReference (_board g) (_currentPosition p) = Ok (r, c) ->
  grid_get (_board g) r c = Ok (Some p) ->
  recognised pieceChoice = true ->
  let promoted := mkPiece (chosenKind pieceChoice) (_isBlack p) (_currentPosition p) (r, c) [] in
  exists row,
    _grid (_board g) !! Z.to_nat r = Some row
    /\ let b' := mkBoard (size (_board g))
                         (<[Z.to_nat r := <[Z.to_nat c := Some promoted]> row]>
                            (_grid (_board g))) in
       promotePawn (Some p) pieceChoice g
       = match _analyseBoard (with_board g b') None None with
         | Ok (_, a, notes) =>
             (Ok tt, with_analysis
                       (with_notified (with_board g b') (notified g ++ notes)) (Some a))
         | Raise e => (Raise e, with_board g b')
         end.
Proof.
  intros H8 Hl Hg Hrec promoted.
  pose proof (positionToGridRerence_board _ _ _ H8 Hl) as Hpos.
  destruct (replace_square (_board g) p promoted r c Hl eq_refl Hg) as (row & Hrow & Hrep).
  exists row. split; [ exact Hrow | ]. intros b'.
  assert (Hmade : forall k, newPiece k (_isBlack p) (_currentPosition p)
                            = Ok (mkPiece k (_isBlack p) (_currentPosition p) (r, c) [])).
  { intros k. unfold newPiece. rewrite Hpos. reflexivity. }
  unfold bind in Hrep.
  destruct (remove (_currentPosition p) (_board g)) as [[o|e] b1] eqn:Erem;
    [ | discriminate ].
  assert (Hbody :
    forall k, k = chosenKind pieceChoice ->
      bind (lift (newPiece k (_isBlack p) (_currentPosition p)))
        (fun newPiece =>
           bind (onBoard (remove (_currentPosition p)))
             (fun _ => bind (onBoard (set newPiece))
                (fun _ => bind (analyse None None) (fun a => setAnalysis (snd a))))) g
      = match _analyseBoard (with_board g b') None None with
        | Ok (_, a, notes) =>
            (Ok tt, with_analysis
                      (with_notified (with_board g b') (notified g ++ notes)) (Some a))
        | Raise e => (Raise e, with_board g b')
        end).
  { intros k ->. unfold bind, lift. rewrite Hmade. fold promoted.
    unfold onBoard at 1. rewrite Erem. cbn [_board with_board].
    unfold onBoard at 1. cbn [_board with_board]. rewrite Hrep.
    fold b'. replace (with_board (with_board g b1) b') with (with_board g b') by reflexivity.
    unfold analyse.
    destruct (_analyseBoard (with_board g b') None None) as [[[ev a] notes]|e]; reflexivity. }
  unfold promotePawn.
  destruct (chosen_cases pieceChoice Hrec)
    as [(EQ & Hk) | [(EQ & ER & Hk) | [(EQ & ER & EB & Hk) | (EQ & ER & EB & EK & Hk)]]];
    rewrite ?EQ, ?ER, ?EB, ?EK; apply Hbody; symmetry; exact Hk.
Qed.

Lemma avoids_promotePawn_choice pawn choice :
  recognised choice = true -> avoids InvalidPromotionChoice (promotePawn pawn choice).
Proof.
  intros Hrec. unfold promotePawn.
  destruct (chosen_cases choice Hrec)
    as [(EQ & Hk) | [(EQ & ER & Hk) | [(EQ & ER & EB & Hk) | (EQ & ER & EB & EK & Hk)]]];
    rewrite ?EQ, ?ER, ?EB, ?EK; avoid_tac.
Qed.

Lemma makeMove_turn_ok player mv g :
  b2z (playerIsBlack player) = _moveCount g mod 2 ->
  fst (makeMove player mv g) <> Raise IncorrectPlayerError.
Proof.
  intros Hturn. unfold makeMove. unfold bind at 1. cbn [get].
  destruct (match _status g with Some s => Status_eqb s STATUS_GAME_OVER | None => false end);
    [ discriminate | ].
  rewrite Hturn, Z.eqb_refl. cbn [negb].
  match goal with |- fst (?m g) <> _ => assert (H : avoids IncorrectPlayerError m) end.
  { destruct mv as [s|m]; [ avoid_tac | ].
    destruct (moveClass m); avoid_tac;
      try apply avoids_promotePawn_turn; try apply avoids_setStatus. }
  specialize (H g). intros E. rewrite E in H. apply H. reflexivity.
Qed.

Lemma makeMove_when_over g player mv :
  _status g = Some STATUS_GAME_OVER -> makeMove player mv g = (Ok None, g).
Proof. intros H. unfold makeMove, bind, get. rewrite H. reflexivity. Qed.

Lemma makeMove_wrong_turn g player mv :
  _status g <> Some STATUS_GAME_OVER ->
  b2z (playerIsBlack player) <> _moveCount g mod 2 ->
  makeMove player mv g
  = (Raise IncorrectPlayerError, with_notified g (notified g ++ [NShowWarning])).
Proof.
  intros Hs Ht. unfold makeMove. unfold bind at 1. cbn [get].
  destruct (_status g) as [[| |]|]; try congruence; cbn [Status_eqb];
    (destruct (b2z (playerIsBlack player) =? _moveCount g mod 2) eqn:E; [ lia | reflexivity ]).
Qed.

(** makeMove with a PawnPromotion move, when the game is on and the player's
    turn it is. *)
Lemma makeMove_promotion g player m choice t :
  moveClass m = PawnPromotion choice t ->
  _status g <> Some STATUS_GAME_OVER ->
  b2z (playerIsBlack player) = _moveCount g mod 2 ->
  makeMove player (MoveObj m) g
  = match _boardAnalysis g with
    | None => (Raise AttributeError, g)
    | Some a =>
        bind (promotePawn (PAWN_PROMOTED a) choice)
             (fun _ => bind (notify (NPromotionDone m)) (fun _ => ret None)) g
    end.
Proof.
  intros Hc Hs Ht. unfold makeMove. unfold bind at 1. cbn [get].
  replace (match _status g with Some s => Status_eqb s STATUS_GAME_OVER | None => false end)
    with false by (destruct (_status g) as [[| |]|]; cbn; congruence).
  rewrite Ht, Z.eqb_refl. cbn [negb]. rewrite Hc.
  destruct (_boardAnalysis g); reflexivity.
Qed.

Lemma newPawnPromotion_class square black choice m :
  newPawnPromotion square black choice = Ok m ->
  exists c t, moveClass m = PawnPromotion c t
              /\ recognised c = true
              /\ (recognised choice = false -> c = "Q" /\ t = "Queen").
Proof.
  unfold newPawnPromotion. fold (recognised choice).
  destruct (newChessMove _ _ _ _ _) as [m0|]; [ | discriminate ].
  cbn [rbind]. intros [= <-]. cbn [with_class moveClass].
  eexists _, _. split; [ reflexivity | ].
  destruct (recognised choice) eqn:E.
  - split; [ | discriminate ].
    destruct (chosen_cases choice E)
      as [(EQ & Hk) | [(EQ & ER & Hk) | [(EQ & ER & EB & Hk) | (EQ & ER & EB & EK & Hk)]]];
      [ apply String.eqb_eq in EQ as -> | apply String.eqb_eq in ER as ->
      | apply String.eqb_eq in EB as -> | apply String.eqb_eq in EK as -> ]; reflexivity.
  - split; [ reflexivity | ]. intros _.
    unfold recognised, mem_str in E. cbn [existsb] in E.
    apply orb_false_iff in E as (HQ & E). apply orb_false_iff in E as (HR & E).
    apply orb_false_iff in E as (HB & E). apply orb_false_iff in E as (HK & _).
    rewrite HR, HB, HK. auto.
Qed.

Lemma makeMove_promotion_choice_ok g player m c t :
  moveClass m = PawnPromotion c t -> recognised c = true ->
  fst (makeMove player (MoveObj m) g) <> Raise InvalidPromotionChoice.
Proof.
  intros Hc Hrec. unfold makeMove. unfold bind at 1. cbn [get].
  destruct (match _status g with Some s => Status_eqb s STATUS_GAME_OVER | None => false end);
    [ discriminate | ].
  destruct (negb _); [ discriminate | ].
  rewrite Hc. destruct (_boardAnalysis g) as [a|]; [ | discriminate ].
  match goal with
  | |- fst (?body g) <> _ => assert (H : avoids InvalidPromotionChoice body)
  end.
  { avoid_tac. apply avoids_promotePawn_choice. exact Hrec. }
  specialize (H g). intros E. rewrite E in H. apply H. reflexivity.
Qed.

(** C9: when the status is GAME_OVER, makeMove returns None at once, for
    every player and every move: the result is None and the game (board,
    move count, analysis, status, and what its observers were told) is the
    one before the call; no exception is raised, whatever the colour of the
    player. *)
Theorem makeMove_game_over (g : ChessGame) (player : Player) (mv : pyobj) :
  _status g = Some STATUS_GAME_OVER ->
  makeMove player mv g = (Ok None, g).
Proof. apply makeMove_when_over. Qed.

Lemma makeMove_game_over_witness :
  _status foolsMate = Some STATUS_GAME_OVER
  /\ b2z (playerIsBlack blackPlayer) <> _moveCount foolsMate mod 2
  /\ makeMove blackPlayer (plain true "a7" "a6") foolsMate = (Ok None, foolsMate).
Proof.
  assert (H : _status foolsMate = Some STATUS_GAME_OVER) by (vm_compute; reflexivity).
  split; [ exact H | split ].
  - vm_compute. discriminate.
  - apply (makeMove_game_over foolsMate blackPlayer (plain true "a7" "a6") H).
Defined.

(** C5 as stated fails after the game is over: black calls makeMove when the
    move count is even and gets None, not the wrong-turn error. *)
Lemma wrong_turn_after_game_over :
  b2z (playerIsBlack blackPlayer) <> _moveCount foolsMate mod 2
  /\ fst (makeMove blackPlayer (plain true "a7" "a6") foolsMate) = Ok None.
Proof. split; [ vm_compute; discriminate | vm_compute; reflexivity ]. Qed.

(** C5, amended: while the status is not GAME_OVER, makeMove by a player
    whose colour does not match the parity of the move count (white on even
    counts, black on odd ones) raises IncorrectPlayerError and leaves the
    game as it was but for the warning sent to the observers; makeMove by the
    player whose colour matches never raises IncorrectPlayerError. *)
Theorem makeMove_turn_order (g : ChessGame) (player : Player) (mv : pyobj) :
  _status g <> Some STATUS_GAME_OVER ->
  (b2z (playerIsBlack player) <> _moveCount g mod 2 ->
     makeMove player mv g
     = (Raise IncorrectPlayerError, with_notified g (notified g ++ [NShowWarning])))
  /\ (b2z (playerIsBlack player) = _moveCount g mod 2 ->
        fst (makeMove player mv g) <> Raise IncorrectPlayerError).
Proof.
  intros Hs. split.
  - apply makeMove_wrong_turn. exact Hs.
  - apply makeMove_turn_ok.
Qed.

Lemma makeMove_turn_order_witness :
  _status (snd startedGame) <> Some STATUS_GAME_OVER
  /\ makeMove blackPlayer (plain true "e7" "e5") (snd startedGame)
     = (Raise IncorrectPlayerError,
        with_notified (snd startedGame) (notified (snd startedGame) ++ [NShowWarning]))
  /\ fst (makeMove whitePlayer (plain false "e2" "e4") (snd startedGame))
     <> Raise IncorrectPlayerError.
Proof.
  assert (H : _status (snd startedGame) <> Some STATUS_GAME_OVER)
    by (vm_compute; discriminate).
  split; [ exact H | ].
  destruct (makeMove_turn_order (snd startedGame) blackPlayer (plain true "e7" "e5") H)
    as [Hwrong _].
  destruct (makeMove_turn_order (snd startedGame) whitePlayer (plain false "e2" "e4") H)
    as [_ Hright].
  split.
  - apply Hwrong. vm_compute. discriminate.
  - apply Hright. vm_compute. reflexivity.
Defined.

(** C6: for a piece that is on the game's board (of eight rows),
    promotePawn with a choice that is none of Q, R, B, K (in either case)
    raises the invalid-choice ValueError and leaves the board, the move count
    and the analysis as they were; with a recognised choice the square of the
    pawn holds a piece of the chosen class, of the pawn's colour and position,
    the rest of the board and the move count are as before, and the analysis
    is the one of the new position (the exceptions of that analysis, if any,
    leave promotePawn, and the old analysis stays). *)
Theorem promotePawn_spec (g : ChessGame) (p : Piece) (pieceChoice : string) (r c : Z) :
  length (_grid (_board g)) = 8%nat ->
  labelToGridReference (_board g) (_currentPosition p) = Ok (r, c) ->
  grid_get (_board g) r c = Ok (Some p) ->
  let out := promotePawn (Some p) pieceChoice g in
  if recognised pieceChoice then
    let promoted :=
      mkPiece (chosenKind pieceChoice) (_isBlack p) (_currentPosition p) (r, c) [] in
    exists row,
      _grid (_board g) !! Z.to_nat r = Some row
      /\ _grid (_board (snd out))
         = <[Z.to_nat r := <[Z.to_nat c := Some promoted]> row]> (_grid (_board g))
      /\ _moveCount (snd out) = _moveCount g
      /\ match _analyseBoard (with_board g (_board (snd out))) None None with
         | Ok (_, a, _) => fst out = Ok tt /\ _boardAnalysis (snd out) = Some a
         | Raise e => fst out = Raise e /\ _boardAnalysis (snd out) = _boardAnalysis g
         end
  else
    fst out = Raise InvalidPromotionChoice
    /\ _board (snd out) = _board g
    /\ _moveCount (snd out) = _moveCount g
    /\ _boardAnalysis (snd out) = _boardAnalysis g.
Proof.
  intros H8 Hl Hg out. destruct (recognised pieceChoice) eqn:Hrec.
  - destruct (promotePawn_valid g p pieceChoice r c H8 Hl Hg Hrec) as (row & Hrow & Hout).
    cbv zeta in Hout. exists row. split; [ exact Hrow | ].
    set (b' := mkBoard (size (_board g)) _) in Hout.
    assert (Hb : _board (snd out) = b').
    { unfold out. rewrite Hout.
      destruct (_analyseBoard (with_board g b') None None) as [[[ev a] notes]|e];
        reflexivity. }
    rewrite Hb. unfold out. rewrite Hout.
    destruct (_analyseBoard (with_board g b') None None) as [[[ev a] notes]|e];
      cbn; auto.
  - unfold out. rewrite (promotePawn_invalid (Some p) pieceChoice g Hrec). cbn. auto.
Qed.

Lemma promotePawn_spec_witness :
  length (_grid (_board promotionGame)) = 8%nat
  /\ labelToGridReference (_board promotionGame) (_currentPosition promotedPawn) = Ok (0, 0)
  /\ grid_get (_board promotionGame) 0 0 = Ok (Some promotedPawn)
  /\ fst (promotePawn (Some promotedPawn) "r" promotionGame) = Ok tt
  /\ grid_get (_board (snd (promotePawn (Some promotedPawn) "r" promotionGame))) 0 0
     = Ok (Some (mkPiece Rook false "a8" (0, 0) []))
  /\ fst (promotePawn (Some promotedPawn) "x" promotionGame) = Raise InvalidPromotionChoice.
Proof.
  assert (H8 : length (_grid (_board promotionGame)) = 8%nat) by (vm_compute; reflexivity).
  assert (Hl : labelToGridReference (_board promotionGame) (_currentPosition promotedPawn)
               = Ok (0, 0)) by (vm_compute; reflexivity).
  assert (Hg : grid_get (_board promotionGame) 0 0 = Ok (Some promotedPawn))
    by (vm_compute; reflexivity).
  pose proof (promotePawn_spec promotionGame promotedPawn "r" 0 0 H8 Hl Hg) as Hr.
  pose proof (promotePawn_spec promotionGame promotedPawn "x" 0 0 H8 Hl Hg) as Hx.
  repeat (split; [ assumption | ]).
  split; [ vm_compute; reflexivity | ].
  split; [ vm_compute; reflexivity | ].
  cbv zeta in Hx. change (recognised "x") with false in Hx. cbv iota in Hx.
  exact (proj1 Hx).
Defined.

(** C10: a PawnPromotion move constructed with any choice has a choice among
    Q, R, B, K, which is Q (promoted to Queen) when the choice given is none
    of these in either case; hence makeMove with such a move never raises the
    invalid-choice ValueError of promotePawn, and when the choice given was
    not recognised, the game is on and it is the player's turn, the pawn that
    the analysis holds is replaced by a Queen of its colour. *)
Theorem pawnPromotion_choice (square : label) (black : bool) (choice : string)
    (m : ChessMove) :
  newPawnPromotion square black choice = Ok m ->
  (exists c t, moveClass m = PawnPromotion c t
               /\ recognised c = true
               /\ (recognised choice = false -> c = "Q" /\ t = "Queen"))
  /\ (forall g player, fst (makeMove player (MoveObj m) g) <> Raise InvalidPromotionChoice)
  /\ (recognised choice = false ->
      forall g player a p r c,
        _status g <> Some STATUS_GAME_OVER ->
        b2z (playerIsBlack player) = _moveCount g mod 2 ->
        _boardAnalysis g = Some a ->
        PAWN_PROMOTED a = Some p ->
        length (_grid (_board g)) = 8%nat ->
        labelToGridReference (_board g) (_currentPosition p) = Ok (r, c) ->
        grid_get (_board g) r c = Ok (Some p) ->
        exists row,
          _grid (_board g) !! Z.to_nat r = Some row
          /\ _grid (_board (snd (makeMove player (MoveObj m) g)))
             = <[Z.to_nat r :=
                   <[Z.to_nat c :=
                       Some (mkPiece Queen (_isBlack p) (_currentPosition p) (r, c) [])]> row]>
                 (_grid (_board g))).
Proof.
  intros Hm. destruct (newPawnPromotion_class _ _ _ _ Hm) as (c0 & t & Hc & Hrec & Hun).
  split; [ exists c0, t; auto | split ].
  - intros g player. apply (makeMove_promotion_choice_ok g player m c0 t Hc Hrec).
  - intros Hno g player a p r c Hs Ht Ha Hp H8 Hl Hg.
    destruct (Hun Hno) as [-> ->].
    rewrite (makeMove_promotion g player m "Q" "Queen" Hc Hs Ht), Ha, Hp.
    destruct (promotePawn_valid g p "Q" r c H8 Hl Hg eq_refl) as (row & Hrow & Hout).
    exists row. split; [ exact Hrow | ].
    cbv zeta in Hout. change (chosenKind "Q") with Queen in Hout.
    unfold bind at 1. rewrite Hout.
    destruct (_analyseBoard _ None None) as [[[ev an] notes]|e]; reflexivity.
Qed.

Lemma pawnPromotion_choice_witness :
  exists m, newPawnPromotion "a8" true "x" = Ok m
            /\ moveClass m = PawnPromotion "Q" "Queen"
            /\ fst (makeMove blackPlayer (MoveObj m) promotionGame)
               <> Raise InvalidPromotionChoice.
Proof.
  eexists. split; [ vm_compute; reflexivity | ].
  split; [ reflexivity | ].
  match goal with
  | |- fst (makeMove _ (MoveObj ?m) _) <> _ =>
      destruct (pawnPromotion_choice "a8" true "x" m) as (_ & H & _);
        [ vm_compute; reflexivity | apply H ]
  end.
Defined.

(** ** The material-insufficiency check (C4) *)

Lemma count_kind_nonneg k ps : 0 <= count_kind k ps.
Proof. unfold count_kind, len. lia. Qed.

(** C4 as stated fails: a king and three knights hold none of the listed
    material, and the check reports no draw against the lone king, neither
    for one attacker alone nor in the disjunction of _interpretAnalysis. *)
Lemma three_knights_no_draw :
  loneKing (piecesLeft threeKnights true)
  /\ holdsNoMatingMaterial (piecesLeft threeKnights false)
  /\ _checkForStalemate threeKnights false = false
  /\ _checkForStalemate threeKnights false || _checkForStalemate threeKnights true = false.
Proof.
  split; [ | split; [ | split ] ].
  - eexists. split; vm_compute; reflexivity.
  - unfold holdsNoMatingMaterial. vm_compute.
    repeat split; try reflexivity. intros [_ H]. discriminate H.
  - vm_compute. reflexivity.
  - vm_compute. reflexivity.
Qed.

(** C4, amended: when the defending side is reduced to a lone king,
    _checkForStalemate reports a draw if and only if the attacking side has
    at most three pieces and holds no Queen, no Pawn, no Rook, not two or
    more Bishops, and not a Knight together with a Bishop. *)
Theorem checkForStalemate_lone_king (board : Board) (attackerIsBlack : bool) :
  loneKing (piecesLeft board (negb attackerIsBlack)) ->
  (_checkForStalemate board attackerIsBlack = true
   <-> len (piecesLeft board attackerIsBlack) <= 3
       /\ holdsNoMatingMaterial (piecesLeft board attackerIsBlack)).
Proof.
  intros (k & Hk & _). unfold _checkForStalemate, holdsNoMatingMaterial. rewrite Hk.
  change (1 <? len [k]) with false. cbv iota.
  set (ps := piecesLeft board attackerIsBlack).
  pose proof (count_kind_nonneg Queen ps). pose proof (count_kind_nonneg Pawn ps).
  pose proof (count_kind_nonneg Rook ps). pose proof (count_kind_nonneg Bishop ps).
  pose proof (count_kind_nonneg Knight ps).
  destruct (3 <? len ps) eqn:E3.
  - apply Z.ltb_lt in E3. split; [ discriminate | lia ].
  - apply Z.ltb_ge in E3.
    destruct (0 <? count_kind Queen ps) eqn:EQ; cbn [orb];
      [ apply Z.ltb_lt in EQ; split; [ discriminate | lia ] | apply Z.ltb_ge in EQ ].
    destruct (0 <? count_kind Pawn ps) eqn:EP; cbn [orb];
      [ apply Z.ltb_lt in EP; split; [ discriminate | lia ] | apply Z.ltb_ge in EP ].
    destruct (0 <? count_kind Rook ps) eqn:ER; cbn [orb];
      [ apply Z.ltb_lt in ER; split; [ discriminate | lia ] | apply Z.ltb_ge in ER ].
    destruct (1 <? count_kind Bishop ps) eqn:EB; cbn [orb];
      [ apply Z.ltb_lt in EB; split; [ discriminate | lia ] | apply Z.ltb_ge in EB ].
    destruct (0 <? count_kind Knight ps) eqn:EN; cbn [andb];
      [ apply Z.ltb_lt in EN | apply Z.ltb_ge in EN ].
    + destruct (0 <? count_kind Bishop ps) eqn:EB1;
        [ apply Z.ltb_lt in EB1; split; [ discriminate | lia ]
        | apply Z.ltb_ge in EB1; split; [ lia | reflexivity ] ].
    + split; [ lia | reflexivity ].
Qed.

Lemma checkForStalemate_lone_king_witness :
  loneKing (piecesLeft oneKnight (negb false))
  /\ (_checkForStalemate oneKnight false = true
      <-> len (piecesLeft oneKnight false) <= 3
          /\ holdsNoMatingMaterial (piecesLeft oneKnight false)).
Proof.
  assert (H : loneKing (piecesLeft oneKnight (negb false))).
  { eexists. split; vm_compute; reflexivity. }
  split; [ exact H | apply (checkForStalemate_lone_king oneKnight false H) ].
Defined.

(** With a lone king on one side and a king on the other, the disjunction
    that _interpretAnalysis tests is the check with the other side as the
    attacker. *)
Lemma checkForStalemate_either board attackerIsBlack :
  loneKing (piecesLeft board (negb attackerIsBlack)) ->
  (exists k, In k (piecesLeft board attackerIsBlack) /\ kind k = King) ->
  _checkForStalemate board false || _checkForStalemate board true
  = _checkForStalemate board attackerIsBlack.
Proof.
  intros (d & Hd & Hdk) (k & Hin & Hk).
  assert (Hother : _checkForStalemate board (negb attackerIsBlack) = true
                   -> _checkForStalemate board attackerIsBlack = true).
  { unfold _checkForStalemate. rewrite negb_involutive, Hd.
    change (1 <? len [d]) with false. cbv iota.
    destruct (piecesLeft board attackerIsBlack) as [|a [|a' rest]] eqn:Eps.
    - destruct Hin.
    - destruct Hin as [-> | []]. intros _.
      unfold count_kind. cbn. rewrite Hk. reflexivity.
    - change (1 <? len (a :: a' :: rest)) with (1 <? Z.of_nat (2 + length rest)).
      replace (1 <? Z.of_nat (2 + length rest)) with true
        by (symmetry; apply Z.ltb_lt; lia).
      discriminate. }
  destruct attackerIsBlack; cbn [negb] in Hother;
    destruct (_checkForStalemate board false), (_checkForStalemate board true);
    cbn; try reflexivity; specialize (Hother eq_refl); discriminate.
Qed.

(** ** A copy of a board and the original (C8) *)

Section CopyFrame.
Import Objects.
Variables (h0 : Store) (self c : ref) (b0 : BoardObj).
Hypothesis Hb0 : boards h0 !! self = Some b0.
Hypothesis Halloc : allocated h0 b0.
Hypothesis Hc : c <> self.

Local Abbreviation Inv := (copyInvariant h0 self c b0).
Local Abbreviation apart := (apartFrom b0).

Lemma holds_assign b r k x row piece :
  bGrid b !! r = Some row ->
  holds (mkBoardObj (bSize b) (<[r := <[k := x]> row]> (bGrid b))) piece ->
  x = Some piece \/ holds b piece.
Proof.
  intros Hrow (row' & Hin & Hp). cbn in Hin.
  apply In_insert in Hin. destruct Hin as [-> | Hin].
  - apply In_insert in Hp. destruct Hp as [Hp | Hp]; [ left; congruence | ].
    right. exists row. split; [ | exact Hp ].
    apply list_elem_of_In. eapply list_elem_of_lookup_2; eauto.
  - right. exists row'. auto.
Qed.

Lemma theBoard_c : triple Inv (theBoard c)
    (fun b h => Inv h /\ boards h !! c = Some b /\ forall p, holds b p -> apart p) Inv.
Proof.
  intros h HI. unfold theBoard. pose proof HI as (_ & _ & _ & bc & H4 & H5).
  rewrite H4. auto.
Qed.

Lemma storeBoard_c bc' h :
  Inv h -> (forall p, holds bc' p -> apart p) -> Inv (snd (storeBoard c bc' h)).
Proof.
  intros (H1 & H2 & H3 & bc & H4 & H5) Hbc'. cbn.
  split; [ | split; [ | split ] ]; cbn; auto.
  - rewrite list_lookup_insert_ne; auto.
  - exists bc'. split; [ | exact Hbc' ].
    apply list_lookup_insert_eq. eapply lookup_lt_Some; eauto.
Qed.

Lemma storePiece_apart piece p h :
  Inv h -> apart piece -> Inv (snd (storePiece piece p h)).
Proof.
  intros (H1 & H2 & H3 & H4) Hp. cbn.
  split; [ | split; [ | split ] ]; cbn; auto.
  - intros q Hq. rewrite list_lookup_insert_ne; auto.
    intros ->. exact (Hp Hq).
  - rewrite length_insert. exact H3.
Qed.

Lemma assign_c r k x :
  0 <= r -> (forall p, x = Some p -> apart p) ->
  triple Inv (assign c r k x) (fun _ => Inv) Inv.
Proof.
  intros Hr Hx. unfold assign.
  eapply triple_bind; [ apply theBoard_c | ]. intros b.
  eapply triple_bind with (Q := fun row h => (Inv h /\ (forall p, holds b p -> apart p))
                                            /\ bGrid b !! Z.to_nat r = Some row).
  { apply triple_lift; [ tauto | ].
    intros row h Hrow (HI & _ & Hb). auto using py_index_lookup. }
  intros row.
  eapply triple_bind with (Q := fun _ h => (Inv h /\ (forall p, holds b p -> apart p))
                                           /\ bGrid b !! Z.to_nat r = Some row).
  { apply triple_lift; tauto. }
  intros ? h ((HI & Hb) & Hrow).
  pose proof (storeBoard_c (mkBoardObj (bSize b) (<[Z.to_nat r := <[Z.to_nat k := x]> row]> (bGrid b))) h HI) as H.
  cbn in *. apply H. intros p Hp.
  destruct (holds_assign _ _ _ _ _ _ Hrow Hp) as [E | E]; auto.
Qed.

Lemma labelToGridReference_c position :
  triple Inv (labelToGridReference c position)
         (fun g h => Inv h /\ 0 <= fst g) Inv.
Proof.
  unfold labelToGridReference.
  eapply triple_bind; [ apply theBoard_c | ]. intros b.
  apply triple_lift; [ tauto | ].
  intros g h Hg (HI & _). split; [ exact HI | ].
  apply labelToGridReferenceN_range in Hg. lia.
Qed.

Lemma set_c piece : apart piece -> triple Inv (set c piece) (fun _ => Inv) Inv.
Proof.
  intros Hp. unfold set.
  eapply triple_bind with (Q := fun _ => Inv).
  { intros h HI. unfold thePiece. destruct (pieces h !! piece); exact HI. }
  intros p.
  eapply triple_bind; [ apply labelToGridReference_c | ]. intros g.
  intros h (HI & Hg). apply (assign_c (fst g) (snd g) (Some piece) Hg); [ | exact HI ].
  intros q [= <-]. exact Hp.
Qed.

Lemma remove_c atPosition :
  triple Inv (remove c atPosition)
         (fun o h => Inv h /\ forall p, o = Some p -> apart p) Inv.
Proof.
  unfold remove.
  eapply triple_bind; [ apply labelToGridReference_c | ]. intros g.
  eapply triple_bind with
    (Q := fun b h => (Inv h /\ 0 <= fst g) /\ forall p, holds b p -> apart p).
  { intros h (HI & Hg). pose proof (theBoard_c h HI) as H.
    destruct (theBoard c h) as [[b|e] h']; tauto. }
  intros b.
  eapply triple_bind with
    (Q := fun row h => ((Inv h /\ 0 <= fst g) /\ forall p, holds b p -> apart p)
                       /\ In row (bGrid b)).
  { apply triple_lift; [ tauto | ].
    intros row h Hrow ((HI & Hg) & Hb). split; [ tauto | ].
    eapply py_index_In; eauto. }
  intros row.
  eapply triple_bind with
    (Q := fun o h => (Inv h /\ 0 <= fst g) /\ forall p, o = Some p -> apart p).
  { apply triple_lift; [ tauto | ].
    intros o h Ho (((HI & Hg) & Hb) & Hrow). split; [ tauto | ].
    intros p ->. apply Hb. exists row. split; [ exact Hrow | ].
    apply py_index_In in Ho. exact Ho. }
  intros o.
  eapply triple_bind with (Q := fun _ h => Inv h /\ forall p, o = Some p -> apart p).
  { intros h ((HI & Hg) & Ho).
    pose proof (assign_c (fst g) (snd g) None Hg ltac:(discriminate) h HI) as H.
    destruct (assign c (fst g) (snd g) None h) as [[u|e] h']; tauto. }
  intros ?. apply triple_ret. tauto.
Qed.

Lemma setPosition_apart piece position :
  apart piece -> triple Inv (setPosition piece position) (fun _ => Inv) Inv.
Proof.
  intros Hp. unfold setPosition.
  eapply triple_bind with (Q := fun _ => Inv).
  { intros h HI. unfold thePiece. destruct (pieces h !! piece); exact HI. }
  intros p.
  eapply triple_bind with (Q := fun _ => Inv).
  { intros h HI. apply (storePiece_apart piece _ h HI Hp). }
  intros ?.
  eapply triple_bind with (Q := fun _ => Inv).
  { apply triple_lift; auto. }
  intros g.
  eapply triple_bind with (Q := fun _ => Inv).
  { intros h HI. apply (storePiece_apart piece _ h HI Hp). }
  intros ?. destruct (negb _).
  - intros h HI. exact HI.
  - apply triple_ret. auto.
Qed.

Lemma move_c fromSquare toSquare :
  triple Inv (move c fromSquare toSquare) (fun _ => Inv) Inv.
Proof.
  unfold move.
  eapply triple_bind; [ apply remove_c | ]. intros moving.
  eapply triple_bind with
    (Q := fun _ h => Inv h /\ forall p, moving = Some p -> apart p).
  { intros h (HI & Hm). pose proof (remove_c toSquare h HI) as H.
    destruct (remove c toSquare h) as [[o|e] h']; tauto. }
  intros target. destruct moving as [piece|].
  - eapply triple_bind with (Q := fun _ h => Inv h /\ apart piece).
    { intros h (HI & Hm). pose proof (setPosition_apart piece toSquare (Hm _ eq_refl) h HI) as H.
      destruct (setPosition piece toSquare h) as [[u|e] h']; auto. }
    intros ?.
    eapply triple_bind with (Q := fun _ => Inv).
    { intros h (HI & Hm). apply (set_c piece Hm h HI). }
    intros ?. apply triple_ret. auto.
  - apply triple_raise. tauto.
Qed.

Lemma newPieceObj_apart k black position :
  triple Inv (newPieceObj k black position) (fun p h => Inv h /\ apart p) Inv.
Proof.
  unfold newPieceObj.
  eapply triple_bind with (Q := fun _ => Inv).
  { apply triple_lift; auto. }
  intros g h (H1 & H2 & H3 & H4). cbn.
  split; [ split; [ | split; [ | split ] ] | ]; cbn; auto.
  - intros p Hp. rewrite lookup_app_l; auto.
    specialize (Halloc p Hp). lia.
  - rewrite length_app. cbn. lia.
  - intros Hp. specialize (Halloc _ Hp). lia.
Qed.

Lemma mutate_c m :
  (forall piece, m = Place piece -> apart piece) ->
  triple Inv (mutate c m) (fun _ => Inv) Inv.
Proof.
  intros Hm. destruct m as [piece | k black position | atPosition | fromSquare toSquare]; cbn.
  - apply set_c. auto.
  - eapply triple_bind; [ apply newPieceObj_apart | ].
    intros p h (HI & Hp). apply (set_c p Hp h HI).
  - eapply triple_bind with (Q := fun _ => Inv).
    + intros h HI. pose proof (remove_c atPosition h HI) as H.
      destruct (remove c atPosition h) as [[o|e] h']; tauto.
    + intros ?. apply triple_ret. auto.
  - eapply triple_bind; [ apply move_c | ]. intros ?. apply triple_ret. auto.
Qed.

Lemma mutations_c ms h :
  placesNoneOf b0 ms -> Inv h -> Inv (mutations c ms h).
Proof.
  revert h. induction ms as [|m ms IH]; intros h Hms HI; cbn; [ exact HI | ].
  apply IH.
  - intros p Hp. apply Hms. right. exact Hp.
  - assert (Hm : forall piece, m = Place piece -> apart piece).
    { intros piece ->. apply Hms. left. reflexivity. }
    pose proof (mutate_c m Hm h HI) as H.
    destruct (mutate c m h) as [[u|e] h']; exact H.
Qed.

End CopyFrame.


Lemma holds_shift b np p :
  Objects.holds (Objects.mkBoardObj (Objects.bSize b)
                   (map (map (option_map (Nat.add np))) (Objects.bGrid b))) p ->
  (np <= p)%nat.
Proof.
  intros (row & Hrow & Hp). cbn in Hrow.
  apply in_map_iff in Hrow as (row0 & <- & _).
  apply in_map_iff in Hp as ([q|] & E & _); cbn in E; [ | discriminate ].
  injection E as <-. lia.
Qed.

(** C8 as stated fails: the original pawn is placed on the copy and moved
    there; the original board still holds it on e2, and its stored position
    is e4. *)
Lemma original_piece_moved_on_copy :
  Objects.boards pawnStore !! 0%nat = Some pawnBoard
  /\ Objects.allocated pawnStore pawnBoard
  /\ exists c h1,
       Objects.copyOfBoard 0%nat pawnStore = (Ok c, h1)
       /\ ~ Objects.originalUnchanged pawnStore
              (Objects.mutations c [Objects.Place 0%nat; Objects.Move "e2" "e4"] h1) 0%nat.
Proof.
  assert (Hholds : Objects.holds pawnBoard 0%nat).
  { eexists. split; [ | ]; cbn; [ do 6 right; left; reflexivity | ].
    cbn. do 4 right. left. reflexivity. }
  split; [ reflexivity | split ].
  - intros piece (row & Hrow & Hp). cbn in Hrow.
    repeat (destruct Hrow as [<- | Hrow];
            [ cbn in Hp;
              repeat (destruct Hp as [Hp | Hp]; [ try discriminate; injection Hp as <-; cbn; lia | ]);
              destruct Hp | ]).
    destruct Hrow.
  - eexists _, _. split; [ reflexivity | ].
    intros [_ H]. specialize (H pawnBoard 0%nat eq_refl Hholds).
    vm_compute in H. discriminate H.
Qed.

(** C8, amended: after self.copyOfBoard(), whatever sequence of mutations
    (placing a piece that exists or a new one, remove, move) is made on the
    copy, the grid of the original board and every piece on it are as they
    were, provided no piece placed on the copy is a piece of the original
    board. *)
Theorem copyOfBoard_frame (h0 : Objects.Store) (self : Objects.ref)
    (b0 : Objects.BoardObj) (ms : list Objects.mutation) :
  Objects.boards h0 !! self = Some b0 ->
  Objects.allocated h0 b0 ->
  Objects.placesNoneOf b0 ms ->
  exists c h1, Objects.copyOfBoard self h0 = (Ok c, h1)
               /\ Objects.originalUnchanged h0 (Objects.mutations c ms h1) self.
Proof.
  intros Hb0 Halloc Hms.
  unfold Objects.copyOfBoard, bind, Objects.theBoard. rewrite Hb0.
  eexists _, _. split; [ reflexivity | ].
  set (c := length (Objects.boards h0)). set (h1 := Objects.mkStore _ _ _).
  assert (Hc : c <> self).
  { apply lookup_lt_Some in Hb0. unfold c. lia. }
  assert (HI : copyInvariant h0 self c b0 h1).
  { split; [ | split; [ | split ] ]; cbn.
    - rewrite lookup_app_l; [ exact Hb0 | eapply lookup_lt_Some; eauto ].
    - intros p Hp. rewrite lookup_app_l; [ reflexivity | apply Halloc, Hp ].
    - rewrite length_app. lia.
    - eexists. split.
      + unfold c. rewrite lookup_app_r by lia. rewrite Nat.sub_diag. reflexivity.
      + intros p Hp Hp0. apply holds_shift in Hp. specialize (Halloc p Hp0). lia. }
  pose proof (mutations_c h0 self c b0 Halloc Hc ms h1 Hms HI) as (H1 & H2 & _).
  split.
  - rewrite H1. symmetry. exact Hb0.
  - intros b piece Hb. rewrite Hb0 in Hb. injection Hb as <-. apply H2.
Qed.

Lemma copyOfBoard_frame_witness :
  exists c h1,
    Objects.copyOfBoard 0%nat pawnStore = (Ok c, h1)
    /\ Objects.originalUnchanged pawnStore
         (Objects.mutations c [Objects.Move "e2" "e4"; Objects.PlaceNew Queen true "d8";
                               Objects.Remove "e4"] h1) 0%nat.
Proof.
  apply (copyOfBoard_frame pawnStore 0%nat pawnBoard).
  - reflexivity.
  - intros piece (row & Hrow & Hp). cbn in Hrow.
    repeat (destruct Hrow as [<- | Hrow];
            [ cbn in Hp;
              repeat (destruct Hp as [Hp | Hp]; [ try discriminate; injection Hp as <-; cbn; lia | ]);
              destruct Hp | ]).
    destruct Hrow.
  - intros piece Hin. cbn in Hin.
    repeat (destruct Hin as [Hin | Hin]; [ discriminate Hin | ]). destruct Hin.
Defined.

(** ** Castling eligibility (C3) *)

Lemma str_in_Str s l : str_in s (map Str l) = mem_str s l.
Proof. unfold str_in, mem_str. induction l as [|x l IH]; cbn; [ | rewrite IH ]; reflexivity. Qed.

Lemma str_in_MoveObj s l : str_in s (map MoveObj l) = false.
Proof. unfold str_in. induction l as [|x l IH]; cbn; auto. Qed.

Lemma mem_str_In s l : mem_str s l = true <-> In s l.
Proof.
  unfold mem_str. rewrite existsb_exists. split.
  - intros (x & Hx & E). apply String.eqb_eq in E. subst. exact Hx.
  - intros H. exists s. split; [ exact H | apply String.eqb_refl ].
Qed.

(** isCastlingOn as the white side calls it, with the set of the squares
    that the opponent's non-disallowed moves go to: the four conditions. *)
Lemma isCastlingOn_squares m rf rt e a n attacked empty :
  moveClass m = CastlingMove rf rt e a n ->
  (isCastlingOn m (map Str attacked) empty = true
   <-> n = false
       /\ (forall s, In s e -> In s empty)
       /\ ~ In (fromSquare m) attacked
       /\ (forall s, In s a -> ~ In s attacked)).
Proof.
  intros Hm. unfold isCastlingOn. rewrite Hm.
  destruct n; [ split; [ discriminate | intros [H _]; discriminate H ] | ].
  destruct (forallb (fun s => mem_str s empty) e) eqn:Ee; cbn [negb].
  - rewrite forallb_forall in Ee. rewrite str_in_Str.
    destruct (mem_str (fromSquare m) attacked) eqn:Ef.
    + apply mem_str_In in Ef. split; [ discriminate | tauto ].
    + destruct (existsb (fun s => str_in s (map Str attacked)) a) eqn:Ea.
      * apply existsb_exists in Ea as (s & Hs & Hin). rewrite str_in_Str in Hin.
        apply mem_str_In in Hin. split; [ discriminate | ].
        intros (_ & _ & _ & H). destruct (H s Hs Hin).
      * split; [ intros _ | reflexivity ].
        split; [ reflexivity | split; [ | split ] ].
        -- intros s Hs. apply mem_str_In, Ee, Hs.
        -- intros H. apply mem_str_In in H. congruence.
        -- intros s Hs Hin.
           assert (existsb (fun s => str_in s (map Str attacked)) a = true); [ | congruence ].
           apply existsb_exists. exists s. split; [ exact Hs | ].
           rewrite str_in_Str. apply mem_str_In, Hin.
  - split; [ discriminate | ]. intros (_ & He & _).
    assert (forallb (fun s => mem_str s empty) e = true); [ | congruence ].
    apply forallb_forall. intros s Hs. apply mem_str_In, He, Hs.
Qed.

(** isCastlingOn as the black side calls it, with a set of move objects:
    whether a square is attacked is never asked. *)
Lemma isCastlingOn_moves m rf rt e a n moves empty :
  moveClass m = CastlingMove rf rt e a n ->
  (isCastlingOn m (map MoveObj moves) empty = true
   <-> n = false /\ (forall s, In s e -> In s empty)).
Proof.
  intros Hm. unfold isCastlingOn. rewrite Hm.
  destruct n; [ split; [ discriminate | intros [H _]; discriminate H ] | ].
  rewrite str_in_MoveObj.
  assert (Ha : existsb (fun s => str_in s (map MoveObj moves)) a = false).
  { clear Hm. induction a as [|x a IH]; cbn; [ reflexivity | ].
    rewrite str_in_MoveObj. exact IH. }
  rewrite Ha.
  destruct (forallb (fun s => mem_str s empty) e) eqn:Ee; cbn [negb].
  - rewrite forallb_forall in Ee. split; [ intros _ | reflexivity ].
    split; [ reflexivity | ]. intros s Hs. apply mem_str_In, Ee, Hs.
  - split; [ discriminate | ]. intros (_ & He).
    assert (forallb (fun s => mem_str s empty) e = true); [ | congruence ].
    apply forallb_forall. intros s Hs. apply mem_str_In, He, Hs.
Qed.

(** C3, where the code departs from it: black has not moved king or rook,
    f8 and g8 are empty, a non-disallowed move of white goes to f8, through
    which the king passes, and the analysis offers black's king-side castling
    all the same.  In the mirror image the analysis offers white none. *)
Theorem black_castling_through_attack :
  (exists a, _boardAnalysis castlingGame = Some a
             /\ In "f8" (destinations (WHITE_MOVES a))
             /\ option_map (map toSquare) (BLACK_CASTLING_MOVES a) = Some ["g8"])
  /\ (exists a, _boardAnalysis whiteCastlingGame = Some a
                /\ In "f1" (destinations (BLACK_MOVES a))
                /\ WHITE_CASTLING_MOVES a = None).
Proof.
  split.
  - eexists. split; [ vm_compute; reflexivity | ].
    split; [ apply mem_str_In; vm_compute; reflexivity | vm_compute; reflexivity ].
  - eexists. split; [ vm_compute; reflexivity | ].
    split; [ apply mem_str_In; vm_compute; reflexivity | vm_compute; reflexivity ].
Qed.

(** ** The tree-search players (C2) *)

(** The move that the loop of the alpha-beta player returns is the best move
    so far or one of the moves it was given. *)
Lemma alphabeta_forMoves_chosen black child board availableMoves :
  forall alpha beta score mv leafCount r leafCount',
    ComputerTreeSearchAlphaBetaPlayer.forMoves black child board availableMoves
      alpha beta score mv leafCount = (Ok r, leafCount') ->
    snd r = mv \/ exists m, snd r = Some m /\ In m availableMoves.
Proof.
  induction availableMoves as [|m rest IH]; intros alpha beta score mv leafCount r leafCount' H;
    cbn [ComputerTreeSearchAlphaBetaPlayer.forMoves] in H.
  - inversion H. left. reflexivity.
  - unfold bind at 1 in H. unfold lift in H.
    destruct (simulate board m) as [copyBoard|]; [ | discriminate ].
    unfold bind at 1 in H.
    destruct (child alpha beta copyBoard leafCount) as [[newScore|] leafCount1]; [ | discriminate ].
    cbv zeta in H.
    set (better := if black then newScore <? score else score <? newScore) in H.
    assert (Hmv : forall x, x = (if better then Some m else mv) ->
                            x = mv \/ exists m0, x = Some m0 /\ In m0 (m :: rest)).
    { intros x ->. destruct better; [ right; exists m; split; [ reflexivity | left; reflexivity ] | left; reflexivity ]. }
    destruct (_ <=? _) in H.
    + inversion H. cbn [snd]. apply Hmv. reflexivity.
    + apply IH in H. destruct H as [H | (m0 & H & Hin)].
      * apply Hmv. exact H.
      * right. exists m0. split; [ exact H | right; exact Hin ].
Qed.

(** Whatever the list of moves and the order in which it is visited, the
    move that the alpha-beta player choses is not marked disallowed. *)
Lemma alphabeta_choses_allowed depth black board moves leafCount m :
  fst (ComputerTreeSearchAlphaBetaPlayer.choseMove depth black board moves leafCount)
  = Ok (Some m) ->
  disallowed m = false.
Proof.
  unfold ComputerTreeSearchAlphaBetaPlayer.choseMove.
  unfold bind at 1. unfold put.
  assert (Hin : forall x, In x (notDisallowed moves) -> disallowed x = false).
  { intros x Hx. apply filter_In in Hx. apply negb_true_iff, Hx. }
  assert (Hsearch :
    fst ((do! r := ComputerTreeSearchAlphaBetaPlayer._bestScore depth (-9999) 9999 board black
                     (Some (notDisallowed moves)) in ret (snd r)) 0) = Ok (Some m) ->
    disallowed m = false).
  { unfold bind at 1.
    destruct (ComputerTreeSearchAlphaBetaPlayer._bestScore depth (-9999) 9999 board black
                (Some (notDisallowed moves)) 0) as [[r|] leafCount'] eqn:E; [ | discriminate ].
    unfold ret. cbn [fst]. intros Hr. inversion Hr as [Hm].
    destruct depth as [|n]; cbn [ComputerTreeSearchAlphaBetaPlayer._bestScore] in E.
    - unfold bind, countLeaf, lift, ret in E.
      destruct (piecesScore board); inversion E. subst r. discriminate.
    - unfold bind at 1 in E. unfold lift in E.
      destruct (movesOrPossible board black (Some (notDisallowed moves)))
        as [availableMoves|] eqn:Ea; [ | discriminate ].
      apply alphabeta_forMoves_chosen in E.
      destruct E as [E | (m0 & E & Hm0)]; [ congruence | ].
      rewrite Hm in E. inversion E. subst m0.
      unfold movesOrPossible in Ea.
      destruct (notDisallowed moves) as [|m1 ms] eqn:En.
      + destruct (possibleMoves board black) as [pm|]; [ | discriminate ].
        cbn [rbind] in Ea. inversion Ea. subst availableMoves.
        apply filter_In in Hm0. apply negb_true_iff, Hm0.
      + inversion Ea. subst availableMoves. apply Hin, Hm0. }
  destruct (notDisallowed moves) as [|m1 [|m2 rest]] eqn:En; try exact Hsearch.
  unfold ret. cbn [fst]. intros H. inversion H. subst m1. apply Hin. left. reflexivity.
Qed.

(** C2, where the code departs from it: at depth 1 the minimax player is
    given the moves of the legality filter and searches all of them, the
    disallowed ones too, and returns the disallowed capture e2xa2 after 17
    leaves; the alpha-beta player searches the non-disallowed ones and
    returns e2xe8 after 9 leaves, and in whatever order it visits whatever
    moves it is given, the move it returns is not disallowed. *)
Theorem minimax_choses_disallowed_move :
  exists moves,
    _movesWithThoseLeavingCheckDisallowed pinnedRook false = Ok moves
    /\ (let out := ComputerTreeSearchPlayer.choseMove 1 false pinnedRook moves 0 in
        (match fst out with Ok m => squaresOf m | Raise _ => None end, snd out)
        = (Some ("e2", "a2", true), 17))
    /\ (let out := ComputerTreeSearchAlphaBetaPlayer.choseMove 1 false pinnedRook moves 0 in
        (match fst out with Ok m => squaresOf m | Raise _ => None end, snd out)
        = (Some ("e2", "e8", false), 9))
    /\ forall visited leafCount m,
         fst (ComputerTreeSearchAlphaBetaPlayer.choseMove 1 false pinnedRook visited leafCount)
         = Ok (Some m) ->
         disallowed m = false.
Proof.
  eexists. split; [ vm_compute; reflexivity | ].
  split; [ vm_compute; reflexivity | ].
  split; [ vm_compute; reflexivity | ].
  intros visited leafCount m. apply alphabeta_choses_allowed.
Qed.

(** ** Reading a chessboard *)

Lemma insideb_inside rc : insideb rc = true <-> inside rc.
Proof.
  unfold insideb, inside, in_range.
  rewrite !andb_true_iff, !Z.leb_le, !Z.ltb_lt. tauto.
Qed.

Lemma chessboard_row b r row :
  chessboard b -> _grid b !! r = Some row -> length row = 8%nat.
Proof.
  intros [_ H] Hr. apply H. apply list_elem_of_In. eapply list_elem_of_lookup_2; eauto.
Qed.

Lemma grid_get_cell b rc :
  chessboard b -> inside rc -> grid_get b (fst rc) (snd rc) = Ok (cell b rc).
Proof.
  intros Hb [Hr Hc]. unfold grid_get, cell.
  destruct (_grid b !! Z.to_nat (fst rc)) as [row|] eqn:E.
  - rewrite (py_index_nonneg _ _ _ (proj1 Hr) E). cbn [rbind].
    pose proof (chessboard_row _ _ _ Hb E) as Hl.
    destruct (row !! Z.to_nat (snd rc)) as [x|] eqn:E2.
    + apply py_index_nonneg; [ lia | exact E2 ].
    + apply lookup_ge_None in E2. lia.
  - apply lookup_ge_None in E. destruct Hb as [Hb _]. lia.
Qed.

Lemma label_square b rc :
  chessboard b -> inside rc -> labelToGridReference b (square rc) = Ok rc.
Proof.
  intros [H8 _] [Hr Hc]. destruct rc as [r c].
  pose proof (roundtrip_coords b r c H8 Hr Hc) as H.
  unfold gridReferenceToLabel in H. rewrite (len8 b H8) in H. exact H.
Qed.

Lemma pieceAtLabel_square b rc :
  chessboard b -> inside rc -> pieceAtLabel b (Some (square rc)) = Ok (cell b rc).
Proof.
  intros Hb Hi. unfold pieceAtLabel.
  change (square rc) with (String (chr (ord_a + snd rc)) (str (8 - fst rc))).
  change (String (chr (ord_a + snd rc)) (str (8 - fst rc))) with (square rc).
  rewrite (label_square b rc Hb Hi). cbn [rbind].
  apply grid_get_cell; assumption.
Qed.

Lemma isEmpty_square b rc :
  chessboard b -> inside rc ->
  isEmpty b (square rc) = Ok (match cell b rc with None => true | Some _ => false end).
Proof.
  intros Hb Hi. unfold isEmpty. rewrite pieceAtLabel_square by assumption. reflexivity.
Qed.

Lemma isBlack_square b rc :
  chessboard b -> inside rc -> isBlack b (square rc) = Ok (option_map _isBlack (cell b rc)).
Proof.
  intros Hb Hi. unfold isBlack. rewrite pieceAtLabel_square by assumption. reflexivity.
Qed.

Lemma offset_square b rc d :
  chessboard b -> inside rc ->
  _positionXandYFrom b (square rc) d
  = Ok (if insideb (offset rc d) then Some (square (offset rc d)) else None).
Proof.
  intros Hb Hi. unfold _positionXandYFrom.
  rewrite (label_square b rc Hb Hi). cbn [rbind].
  unfold gridReferenceToLabel. rewrite (len8 b (proj1 Hb)).
  unfold insideb, in_range, offset. cbn [fst snd].
  destruct (fst rc + fst d <? 0) eqn:E1, (snd rc + snd d <? 0) eqn:E2,
           (8 <=? fst rc + fst d) eqn:E3, (8 <=? snd rc + snd d) eqn:E4;
    cbn [orb];
    repeat match goal with
           | H : (_ <? _) = true |- _ => apply Z.ltb_lt in H
           | H : (_ <? _) = false |- _ => apply Z.ltb_ge in H
           | H : (_ <=? _) = true |- _ => apply Z.leb_le in H
           | H : (_ <=? _) = false |- _ => apply Z.leb_gt in H
           end;
    match goal with
    | |- Ok None = _ =>
        replace (_ && _) with false; [ reflexivity | ];
        symmetry; apply not_true_iff_false;
        rewrite !andb_true_iff, !Z.leb_le, !Z.ltb_lt; lia
    | |- Ok (Some _) = _ =>
        replace (_ && _) with true; [ reflexivity | ];
        symmetry; rewrite !andb_true_iff, !Z.leb_le, !Z.ltb_lt; lia
    end.
Qed.

Lemma truthy_square rc : truthy (Some (square rc)) = Some (square rc).
Proof. reflexivity. Qed.

(** ** The candidate squares of a piece *)

Lemma stepsLeft_inside d rc : inside rc -> 1 <= stepsLeft d rc <= 8.
Proof.
  intros [Hr Hc]. unfold stepsLeft.
  destruct (0 <? fst d), (fst d <? 0), (0 <? snd d); lia.
Qed.

Lemma stepsLeft_offset d rc :
  fst d <> 0 \/ snd d <> 0 -> stepsLeft d (offset rc d) <= stepsLeft d rc - 1.
Proof.
  intros Hd. unfold stepsLeft, offset. cbn [fst snd].
  destruct (0 <? fst d) eqn:E1; [ apply Z.ltb_lt in E1; lia | apply Z.ltb_ge in E1 ].
  destruct (fst d <? 0) eqn:E2; [ apply Z.ltb_lt in E2; lia | apply Z.ltb_ge in E2 ].
  destruct (0 <? snd d) eqn:E3; [ apply Z.ltb_lt in E3; lia | apply Z.ltb_ge in E3 ].
  lia.
Qed.

Lemma target_empty b black rc :
  inside rc -> cell b rc = None -> target b black (square rc).
Proof. intros Hi Hc. exists rc. rewrite Hc. auto. Qed.

Lemma target_enemy b black rc q :
  inside rc -> cell b rc = Some q -> _isBlack q <> black -> target b black (square rc).
Proof. intros Hi Hc Hq. exists rc. rewrite Hc. auto. Qed.

Lemma Forall_snoc {A} (P : A -> Prop) l x : Forall P l -> P x -> Forall P (l ++ [x]).
Proof. intros Hl Hx. apply Forall_app. split; [ exact Hl | constructor; [ exact Hx | constructor ] ]. Qed.

(** The loop of a direction comes to its end within the turns it is given,
    and adds squares that the piece may go to. *)
Lemma walk_ok b black multiple d :
  chessboard b -> fst d <> 0 \/ snd d <> 0 ->
  forall fuel rc moves,
    inside rc -> stepsLeft d rc <= Z.of_nat fuel ->
    exists sq, walk fuel b black multiple d (square rc) moves = Ok (moves ++ sq)
               /\ Forall (target b black) sq.
Proof.
  intros Hb Hd. induction fuel as [|fuel IH]; intros rc moves Hi Hfuel.
  - pose proof (stepsLeft_inside d rc Hi). lia.
  - cbn [walk]. unfold positionOffset. rewrite (offset_square b rc d Hb Hi). cbn [rbind].
    destruct (insideb (offset rc d)) eqn:Ein.
    + apply insideb_inside in Ein. rewrite truthy_square.
      rewrite (isEmpty_square b _ Hb Ein). cbn [rbind].
      destruct (cell b (offset rc d)) as [q|] eqn:Ecell.
      * rewrite (isBlack_square b _ Hb Ein), Ecell. cbn [rbind option_map].
        destruct (Bool.eqb (_isBlack q) black) eqn:Eq; cbn [negb].
        -- exists []. rewrite app_nil_r. split; [ reflexivity | constructor ].
        -- exists [square (offset rc d)]. split; [ reflexivity | ].
           constructor; [ | constructor ].
           eapply target_enemy; eauto. intros E. rewrite E, eqb_reflx in Eq. discriminate.
      * destruct multiple.
        -- destruct (IH (offset rc d) (moves ++ [square (offset rc d)]) Ein) as (sq & Hw & Hsq).
           { pose proof (stepsLeft_offset d rc Hd). lia. }
           exists (square (offset rc d) :: sq). split.
           ++ rewrite Hw, <- app_assoc. reflexivity.
           ++ constructor; [ apply target_empty; assumption | exact Hsq ].
        -- exists [square (offset rc d)]. split; [ reflexivity | ].
           constructor; [ apply target_empty; assumption | constructor ].
    + cbn [truthy]. exists []. rewrite app_nil_r. split; [ reflexivity | constructor ].
Qed.

Lemma validDirections_nonzero k :
  Forall (fun d : Z * Z => fst d <> 0 \/ snd d <> 0) (_validDirections k).
Proof.
  destruct k; cbn [_validDirections app];
    repeat (apply Forall_cons_2; [ cbn [fst snd]; lia | ]); apply Forall_nil_2.
Qed.

Lemma for_directions_ok b p rc ds :
  chessboard b -> inside rc -> _currentPosition p = square rc ->
  Forall (fun d : Z * Z => fst d <> 0 \/ snd d <> 0) ds ->
  forall moves,
    exists sq, for_directions b p ds moves = Ok (moves ++ sq)
               /\ Forall (target b (_isBlack p)) sq.
Proof.
  intros Hb Hi Hp Hds. induction Hds as [|d ds Hd Hds IH]; intros moves.
  - exists []. rewrite app_nil_r. split; [ reflexivity | constructor ].
  - cbn [for_directions]. rewrite Hp.
    destruct (walk_ok b (_isBlack p) (_canMoveMultipleTimes (kind p)) d Hb Hd
                (S (length (_grid b))) rc moves Hi) as (sq & Hw & Hsq).
    { pose proof (stepsLeft_inside d rc Hi). destruct Hb as [H8 _]. rewrite H8. lia. }
    rewrite Hw. cbn [rbind].
    destruct (IH (moves ++ sq)) as (sq' & Hf & Hsq').
    exists (sq ++ sq'). split.
    + rewrite Hf, <- app_assoc. reflexivity.
    + apply Forall_app. split; assumption.
Qed.

Lemma pieceAtLabel_offset b rc d :
  chessboard b -> inside rc ->
  pieceAtLabel b (if insideb (offset rc d) then Some (square (offset rc d)) else None)
  = Ok (if insideb (offset rc d) then cell b (offset rc d) else None).
Proof.
  intros Hb Hi. destruct (insideb (offset rc d)) eqn:E; [ | reflexivity ].
  apply pieceAtLabel_square; [ assumption | apply insideb_inside; assumption ].
Qed.

Lemma pawnCaptures_ok b p rc :
  chessboard b -> inside rc -> _currentPosition p = square rc ->
  forall ms moves,
    exists sq, pawnCaptures b p ms moves = Ok (moves ++ sq)
               /\ Forall (target b (_isBlack p)) sq.
Proof.
  intros Hb Hi Hp. induction ms as [|d ms IH]; intros moves.
  - exists []. rewrite app_nil_r. split; [ reflexivity | constructor ].
  - cbn [pawnCaptures]. rewrite Hp, (offset_square b rc d Hb Hi). cbn [rbind].
    rewrite (pieceAtLabel_offset b rc d Hb Hi). cbn [rbind].
    destruct (insideb (offset rc d)) eqn:Ein; [ | apply IH ].
    destruct (cell b (offset rc d)) as [t|] eqn:Et; [ | apply IH ].
    destruct (Bool.eqb (_isBlack t) (_isBlack p)) eqn:Eq; cbn [negb]; [ apply IH | ].
    destruct (IH (moves ++ [square (offset rc d)])) as (sq & Hc & Hsq).
    exists (square (offset rc d) :: sq). split.
    + rewrite Hc, <- app_assoc. reflexivity.
    + constructor; [ | exact Hsq ].
      eapply target_enemy; eauto; [ apply insideb_inside; assumption | ].
      intros E. rewrite E, eqb_reflx in Eq. discriminate.
Qed.

Lemma square_rank rc : inside rc -> exists rank, str_index (square rc) 1 = Ok rank.
Proof.
  intros [Hr _]. destruct rc as [r c]. cbn [fst] in Hr.
  assert (Er : r = 0 \/ r = 1 \/ r = 2 \/ r = 3 \/ r = 4 \/ r = 5 \/ r = 6 \/ r = 7) by lia.
  unfold square, gridReferenceToLabelN, str_index. cbn [fst snd String.get].
  repeat (destruct Er as [-> | Er]); try subst r; eexists; vm_compute; reflexivity.
Qed.

Lemma squareRC_square rc : inside rc -> squareRC (square rc) = Ok rc.
Proof.
  intros [Hr Hc]. destruct rc as [r c]. cbn [fst snd] in *.
  assert (Er : r = 0 \/ r = 1 \/ r = 2 \/ r = 3 \/ r = 4 \/ r = 5 \/ r = 6 \/ r = 7) by lia.
  assert (Ec : c = 0 \/ c = 1 \/ c = 2 \/ c = 3 \/ c = 4 \/ c = 5 \/ c = 6 \/ c = 7) by lia.
  repeat (destruct Er as [-> | Er]); try subst r;
    repeat (destruct Ec as [-> | Ec]); try subst c; reflexivity.
Qed.

Lemma pawnAvailableSquares_ok b p rc :
  chessboard b -> inside rc -> _currentPosition p = square rc ->
  exists sq, pawnAvailableSquares b p = Ok sq /\ Forall (target b (_isBlack p)) sq.
Proof.
  intros Hb Hi Hp. unfold pawnAvailableSquares.
  destruct (square_rank rc Hi) as (rank & Hrank).
  replace (str_index (_currentPosition p) 1) with (Ok rank) by (rewrite Hp; symmetry; exact Hrank).
  cbn [rbind].
  set (direction := if _isBlack p then (1, 0) else (-1, 0)).
  set (canMoveTwo := _ || _).
  replace (_positionXandYFrom b (_currentPosition p) direction)
    with (Ok (if insideb (offset rc direction)
              then Some (square (offset rc direction)) else None) : result (option label))
    by (rewrite Hp; symmetry; apply offset_square; assumption).
  cbn [rbind].
  assert (Hfwd : exists moves,
    match truthy (if insideb (offset rc direction)
                  then Some (square (offset rc direction)) else None) with
    | None => Ok []
    | Some s1 =>
        try! e := isEmpty b s1 in
        if e then
          if canMoveTwo then
            try! s' := _positionXandYFrom b s1 direction in
            match truthy s' with
            | None => Ok [s1]
            | Some s2 =>
                try! e2 := isEmpty b s2 in
                if e2 then Ok [s1; s2] else Ok [s1]
            end
          else Ok [s1]
        else Ok []
    end = Ok moves /\ Forall (target b (_isBlack p)) moves).
  { destruct (insideb (offset rc direction)) eqn:E1; [ | exists []; split; [ reflexivity | constructor ] ].
    apply insideb_inside in E1. rewrite truthy_square, (isEmpty_square b _ Hb E1). cbn [rbind].
    destruct (cell b (offset rc direction)) eqn:Ec1; [ exists []; split; [ reflexivity | constructor ] | ].
    pose proof (target_empty b (_isBlack p) _ E1 Ec1) as T1.
    destruct canMoveTwo; [ | exists [square (offset rc direction)]; split; [ reflexivity | repeat constructor; exact T1 ] ].
    rewrite (offset_square b _ direction Hb E1). cbn [rbind].
    destruct (insideb (offset (offset rc direction) direction)) eqn:E2;
      [ | exists [square (offset rc direction)]; split; [ reflexivity | repeat constructor; exact T1 ] ].
    apply insideb_inside in E2. rewrite truthy_square, (isEmpty_square b _ Hb E2). cbn [rbind].
    destruct (cell b (offset (offset rc direction) direction)) eqn:Ec2;
      [ exists [square (offset rc direction)]; split; [ reflexivity | repeat constructor; exact T1 ] | ].
    eexists. split; [ reflexivity | ].
    repeat constructor; [ exact T1 | apply target_empty; assumption ]. }
  destruct Hfwd as (moves & -> & Hmoves). cbn [rbind].
  destruct (pawnCaptures_ok b p rc Hb Hi Hp (pawnDiagonals (_isBlack p)) moves) as (sq & -> & Hsq).
  eexists. split; [ reflexivity | ]. apply Forall_app. split; assumption.
Qed.

Lemma availableSquares_ok b p rc :
  chessboard b -> inside rc -> _currentPosition p = square rc ->
  exists sq, availableSquares b p = Ok sq /\ Forall (target b (_isBlack p)) sq.
Proof.
  intros Hb Hi Hp. unfold availableSquares.
  destruct (kind p) eqn:Ek;
    try (destruct (for_directions_ok b p rc (_validDirections (kind p)) Hb Hi Hp
                     (validDirections_nonzero _) []) as (sq & Hf & Hsq);
         rewrite Ek in Hf; exists sq; split; [ exact Hf | exact Hsq ]).
  apply (pawnAvailableSquares_ok b p rc); assumption.
Qed.

Lemma pawnAttacks_ok b p rc :
  chessboard b -> inside rc -> _currentPosition p = square rc ->
  forall ms moves, exists sq, pawnAttacks b p ms moves = Ok sq.
Proof.
  intros Hb Hi Hp. induction ms as [|d ms IH]; intros moves.
  - exists moves. reflexivity.
  - cbn [pawnAttacks]. rewrite Hp, (offset_square b rc d Hb Hi). cbn [rbind].
    destruct (insideb (offset rc d)); [ rewrite truthy_square | cbn [truthy] ]; apply IH.
Qed.

(** ** Pieces and squares *)

Lemma cell_In b rc p : cell b rc = Some p -> In p (piecesStillOnBoard b).
Proof.
  unfold cell, piecesStillOnBoard. intros H.
  destruct (_grid b !! Z.to_nat (fst rc)) as [row|] eqn:Er; [ | discriminate ].
  destruct (row !! Z.to_nat (snd rc)) as [x|] eqn:Ec; [ | discriminate ]. subst x.
  apply in_flat_map. exists row. split.
  - apply list_elem_of_In. eapply list_elem_of_lookup_2; eauto.
  - apply in_flat_map. exists (Some p). split; [ | left; reflexivity ].
    apply list_elem_of_In. eapply list_elem_of_lookup_2; eauto.
Qed.

Lemma In_cell b p :
  chessboard b -> In p (piecesStillOnBoard b) -> exists rc, inside rc /\ cell b rc = Some p.
Proof.
  intros Hb H. unfold piecesStillOnBoard in H.
  apply in_flat_map in H. destruct H as (row & Hrow & H).
  apply in_flat_map in H. destruct H as (x & Hx & H).
  destruct x as [q|]; [ | destruct H ]. destruct H as [-> | []].
  apply list_elem_of_In, list_elem_of_lookup_1 in Hrow. destruct Hrow as (i & Hi).
  apply list_elem_of_In, list_elem_of_lookup_1 in Hx. destruct Hx as (j & Hj).
  pose proof (lookup_lt_Some _ _ _ Hi) as Li.
  pose proof (lookup_lt_Some _ _ _ Hj) as Lj.
  rewrite (chessboard_row _ _ _ Hb Hi) in Lj. rewrite (proj1 Hb) in Li.
  exists (Z.of_nat i, Z.of_nat j). split.
  - unfold inside. cbn [fst snd]. lia.
  - unfold cell. cbn [fst snd]. rewrite !Nat2Z.id, Hi, Hj. reflexivity.
Qed.

Lemma wellFormed_position b p :
  wellFormed b -> In p (piecesStillOnBoard b) ->
  exists rc, inside rc /\ cell b rc = Some p /\ _currentPosition p = square rc.
Proof.
  intros [Hb Hpos] Hp. destruct (In_cell b p Hb Hp) as (rc & Hi & Hc).
  exists rc. auto.
Qed.

(** ** The candidate moves *)

Lemma movesTo_ok b p black rc am :
  inside rc -> _currentPosition p = square rc -> Forall (target b black) am ->
  exists ms, movesTo p black am = Ok ms
             /\ Forall (fun m => fromSquare m = square rc /\ target b black (toSquare m)
                                 /\ disallowed m = false) ms.
Proof.
  intros Hi Hp Ham. induction Ham as [|s am Hs Ham IH].
  - exists []. split; [ reflexivity | constructor ].
  - destruct IH as (ms & Hms & Hall). cbn [movesTo]. unfold newChessMove.
    rewrite Hp, (squareRC_square rc Hi). cbn [rbind].
    destruct Hs as (rc' & Hi' & -> & Hc').
    rewrite (squareRC_square rc' Hi'). cbn [rbind].
    rewrite Hms. cbn [rbind]. eexists. split; [ reflexivity | ].
    constructor; [ | exact Hall ]. cbn [fromSquare toSquare disallowed].
    split; [ reflexivity | ]. split; [ exists rc'; auto | reflexivity ].
Qed.

Lemma movesOfPieces_ok b black pieces :
  wellFormed b ->
  Forall (fun p => In p (piecesStillOnBoard b) /\ _isBlack p = black) pieces ->
  exists ms, movesOfPieces b black pieces = Ok ms
             /\ Forall (fun m => candidate b black m /\ disallowed m = false) ms.
Proof.
  intros Hwf Hps. induction Hps as [|p pieces [Hp Hcol] Hps IH].
  - exists []. split; [ reflexivity | constructor ].
  - destruct IH as (more & Hmore & Hall). cbn [movesOfPieces].
    destruct (wellFormed_position b p Hwf Hp) as (rc & Hi & Hc & Hpos).
    destruct (availableSquares_ok b p rc (proj1 Hwf) Hi Hpos) as (am & -> & Ham).
    cbn [rbind]. rewrite Hcol in Ham.
    destruct (movesTo_ok b p black rc am Hi Hpos Ham) as (ms & -> & Hms).
    cbn [rbind]. rewrite Hmore. cbn [rbind].
    eexists. split; [ reflexivity | ]. apply Forall_app. split; [ | exact Hall ].
    eapply Forall_impl; [ exact Hms | ]. cbn beta.
    intros m (Hf & Ht & Hd). split; [ | exact Hd ]. exists rc, p. auto.
Qed.

Lemma possibleMoves_ok b black :
  wellFormed b ->
  exists ms, possibleMoves b black = Ok ms
             /\ Forall (fun m => candidate b black m /\ disallowed m = false) ms.
Proof.
  intros Hwf. apply movesOfPieces_ok; [ exact Hwf | ].
  apply Forall_forall. intros p Hp. apply list_elem_of_In, filter_In in Hp.
  destruct Hp as [Hp Hc]. split; [ exact Hp | apply eqb_prop; exact Hc ].
Qed.

(** ** A move on a copy of the board *)

Lemma lookup_map {A B} (f : A -> B) (l : list A) (i : nat) :
  map f l !! i = option_map f (l !! i).
Proof. revert i. induction l as [|a l IH]; intros [|i]; cbn; auto. Qed.

Lemma cell_copy b rc : cell (copyOfBoard b) rc = option_map detach (cell b rc).
Proof.
  unfold cell, copyOfBoard. cbn [_grid]. rewrite lookup_map.
  destruct (_grid b !! Z.to_nat (fst rc)) as [row|]; [ | reflexivity ]. cbn [option_map].
  rewrite lookup_map. destruct (row !! Z.to_nat (snd rc)); reflexivity.
Qed.

Lemma wellFormed_copy b : wellFormed b -> wellFormed (copyOfBoard b).
Proof.
  intros [[H8 Hrows] Hpos]. split; [ split | ].
  - unfold copyOfBoard. cbn [_grid]. rewrite length_map. exact H8.
  - unfold copyOfBoard. cbn [_grid]. intros row Hrow.
    apply in_map_iff in Hrow. destruct Hrow as (r0 & <- & Hr0).
    rewrite length_map. apply Hrows, Hr0.
  - intros rc p Hi Hc. rewrite cell_copy in Hc.
    destruct (cell b rc) as [q|] eqn:E; [ | discriminate ].
    inversion Hc. cbn [detach _currentPosition]. apply (Hpos rc q Hi E).
Qed.

Lemma assign_cell b rc x :
  chessboard b -> inside rc ->
  exists b', assign (fst rc) (snd rc) x b = (Ok tt, b')
             /\ chessboard b'
             /\ forall rc', inside rc' ->
                  cell b' rc' = if decide (rc' = rc) then x else cell b rc'.
Proof.
  intros Hb Hi. pose proof Hi as [Hr Hc]. unfold assign, grid_set.
  destruct (_grid b !! Z.to_nat (fst rc)) as [row|] eqn:Er.
  2:{ apply lookup_ge_None in Er. destruct Hb as [H8 _]. lia. }
  pose proof (chessboard_row _ _ _ Hb Er) as Lrow.
  rewrite (py_index_nonneg _ _ _ (proj1 Hr) Er). cbn [rbind].
  destruct (row !! Z.to_nat (snd rc)) as [y|] eqn:Ec.
  2:{ apply lookup_ge_None in Ec. lia. }
  rewrite (py_index_nonneg _ _ _ (proj1 Hc) Ec). cbn [rbind].
  eexists. split; [ reflexivity | ]. split; [ split | ].
  - cbn [_grid]. rewrite length_insert. exact (proj1 Hb).
  - cbn [_grid]. intros row' Hrow'. apply In_insert in Hrow'.
    destruct Hrow' as [-> | Hrow']; [ rewrite length_insert; exact Lrow | apply Hb, Hrow' ].
  - intros rc' [Hr' Hc']. unfold cell. cbn [_grid].
    destruct (decide (rc' = rc)) as [-> | Hne].
    + rewrite list_lookup_insert_eq by (rewrite (proj1 Hb); lia).
      rewrite list_lookup_insert_eq by lia. reflexivity.
    + destruct (decide (fst rc' = fst rc)) as [E1 | N1].
      * rewrite E1, list_lookup_insert_eq by (rewrite (proj1 Hb); lia).
        rewrite Er. rewrite list_lookup_insert_ne; [ reflexivity | ].
        intros E2. apply Hne. destruct rc, rc'. cbn [fst snd] in *. f_equal; lia.
      * rewrite list_lookup_insert_ne; [ reflexivity | ]. lia.
Qed.

Lemma remove_square b rc :
  chessboard b -> inside rc ->
  exists b', remove (square rc) b = (Ok (cell b rc), b')
             /\ chessboard b'
             /\ forall rc', inside rc' ->
                  cell b' rc' = if decide (rc' = rc) then None else cell b rc'.
Proof.
  intros Hb Hi. unfold remove, bind, reads, ret.
  rewrite (label_square b rc Hb Hi), (grid_get_cell b rc Hb Hi).
  destruct (assign_cell b rc None Hb Hi) as (b' & -> & Hb' & Hcells).
  exists b'. auto.
Qed.

Lemma set_square b rc p :
  chessboard b -> inside rc -> _currentPosition p = square rc ->
  exists b', set p b = (Ok tt, b')
             /\ chessboard b'
             /\ forall rc', inside rc' ->
                  cell b' rc' = if decide (rc' = rc) then Some p else cell b rc'.
Proof.
  intros Hb Hi Hp. unfold set, bind, reads.
  rewrite Hp, (label_square b rc Hb Hi).
  destruct (assign_cell b rc (Some p) Hb Hi) as (b' & -> & Hb' & Hcells).
  exists b'. auto.
Qed.

Lemma setPosition_square b p rc :
  chessboard b -> inside rc ->
  exists g obs, setPosition p (square rc)
                = Ok (mkPiece (kind p) (_isBlack p) (square rc) g (_observers p), obs).
Proof.
  intros Hb Hi. unfold setPosition.
  rewrite (positionToGridRerence_board b _ rc (proj1 Hb) (label_square b rc Hb Hi)).
  cbn [rbind]. eauto.
Qed.

Lemma move_square b rc rc' p :
  wellFormed b -> inside rc -> inside rc' -> cell b rc = Some p ->
  exists b' captured p',
    move (square rc) (square rc') b = (Ok captured, b')
    /\ wellFormed b'
    /\ kind p' = kind p /\ _isBlack p' = _isBlack p
    /\ cell b' rc' = Some p'
    /\ forall x, inside x -> x <> rc' ->
         cell b' x = if decide (x = rc) then None else cell b x.
Proof.
  intros [Hb Hpos] Hi Hi' Hp. unfold move.
  destruct (remove_square b rc Hb Hi) as (b1 & R1 & Hb1 & C1).
  destruct (remove_square b1 rc' Hb1 Hi') as (b2 & R2 & Hb2 & C2).
  destruct (setPosition_square b2 p rc' Hb2 Hi') as (g & obs & SP).
  set (p' := mkPiece (kind p) (_isBlack p) (square rc') g (_observers p)) in *.
  destruct (set_square b2 rc' p' Hb2 Hi' eq_refl) as (b3 & S3 & Hb3 & C3).
  exists b3, (cell b1 rc', obs), p'.
  split.
  { unfold bind at 1. rewrite R1, Hp. unfold bind at 1. rewrite R2.
    unfold bind at 1. unfold lift. rewrite SP. cbn [fst snd].
    unfold bind, ret. rewrite S3. reflexivity. }
  assert (Hcells : forall x, inside x ->
            cell b3 x = if decide (x = rc') then Some p'
                        else if decide (x = rc) then None else cell b x).
  { intros x Hx. rewrite (C3 x Hx). destruct (decide (x = rc')); [ reflexivity | ].
    rewrite (C2 x Hx). destruct (decide (x = rc')); [ contradiction | ].
    apply (C1 x Hx). }
  split; [ split; [ exact Hb3 | ] | ].
  { intros x q Hx Hq. rewrite (Hcells x Hx) in Hq.
    destruct (decide (x = rc')) as [-> | ]; [ inversion Hq; reflexivity | ].
    destruct (decide (x = rc)); [ discriminate | ]. apply (Hpos x q Hx Hq). }
  split; [ reflexivity | ]. split; [ reflexivity | ]. split.
  { rewrite (Hcells rc' Hi'). destruct (decide (rc' = rc')); [ reflexivity | contradiction ]. }
  intros x Hx Hne. rewrite (Hcells x Hx).
  destruct (decide (x = rc')); [ contradiction | reflexivity ].
Qed.

Lemma hasKing_cell b black :
  chessboard b ->
  hasKing b black <->
  exists rc k, inside rc /\ cell b rc = Some k /\ kind k = King /\ _isBlack k = black.
Proof.
  intros Hb. split.
  - intros (k & Hin & Hk & Hc). destruct (In_cell b k Hb Hin) as (rc & Hi & Hcell).
    exists rc, k. auto.
  - intros (rc & k & Hi & Hcell & Hk & Hc). exists k. split; [ | auto ].
    eapply cell_In; eauto.
Qed.

(** The move of a candidate can be made on a copy of the board; the copy is
    well formed after it, and the mover's king is still there. *)
Lemma simulate_ok b black m :
  wellFormed b -> candidate b black m ->
  exists copyBoard, simulate b m = Ok copyBoard
                    /\ wellFormed copyBoard
                    /\ (hasKing b black -> hasKing copyBoard black).
Proof.
  intros Hwf (rc & p & Hi & Hp & Hcol & Hfrom & rc' & Hi' & Hto & Htarget).
  pose proof (wellFormed_copy b Hwf) as Hwfc.
  assert (Hpc : cell (copyOfBoard b) rc = Some (detach p)) by (rewrite cell_copy, Hp; reflexivity).
  destruct (move_square (copyOfBoard b) rc rc' (detach p) Hwfc Hi Hi' Hpc)
    as (b' & captured & p' & Hmove & Hwf' & Hkind & Hblack & Hcell' & Hothers).
  exists b'. unfold simulate. rewrite Hfrom, Hto, Hmove. split; [ reflexivity | ].
  split; [ exact Hwf' | ].
  intros HK. apply (hasKing_cell b black (proj1 Hwf)) in HK.
  destruct HK as (rk & k & Hik & Hck & Hkk & Hkc).
  apply (hasKing_cell b' black (proj1 Hwf')).
  destruct (decide (rk = rc)) as [-> | Hne].
  - exists rc', p'. rewrite Hp in Hck. inversion Hck; subst k.
    cbn [detach kind _isBlack] in Hkind, Hblack. rewrite Hkind, Hblack. auto.
  - assert (Hne' : rk <> rc').
    { intros ->. rewrite Hck in Htarget. contradiction. }
    exists rk, (detach k). split; [ exact Hik | ]. split; [ | auto ].
    rewrite (Hothers rk Hik Hne'). destruct (decide (rk = rc)); [ contradiction | ].
    rewrite cell_copy, Hck. reflexivity.
Qed.

(** ** The test for check *)

Lemma attackedSquares_ok b pieces :
  wellFormed b -> Forall (fun p => In p (piecesStillOnBoard b)) pieces ->
  forall aSquares, exists sq, attackedSquares b pieces aSquares = Ok sq.
Proof.
  intros Hwf Hps. induction Hps as [|p pieces Hp Hps IH]; intros aSquares.
  - exists aSquares. reflexivity.
  - cbn [attackedSquares].
    destruct (wellFormed_position b p Hwf Hp) as (rc & Hi & Hc & Hpos).
    assert (Hsq : exists sq, match kind p with
                             | Pawn => attackingSquares b p
                             | _ => availableSquares b p
                             end = Ok sq).
    { destruct (availableSquares_ok b p rc (proj1 Hwf) Hi Hpos) as (sq & Hsq & _).
      destruct (kind p); try (exists sq; exact Hsq).
      apply (pawnAttacks_ok b p rc (proj1 Hwf) Hi Hpos). }
    destruct Hsq as (sq & ->). cbn [rbind]. apply IH.
Qed.

Lemma checkForCheck_ok b black :
  wellFormed b -> hasKing b black ->
  exists inCheck, _checkForCheck b (negb black) = Ok inCheck.
Proof.
  intros Hwf (k & Hin & Hk & Hc). unfold _checkForCheck.
  destruct (List.filter _ (piecesStillOnBoard b)) as [|defenderKing rest] eqn:E.
  - exfalso.
    assert (Hk' : In k (List.filter (fun p => Kind_eqb (kind p) King
                                     && negb (Bool.eqb (_isBlack p) (negb black)))
                                    (piecesStillOnBoard b))).
    { apply filter_In. split; [ exact Hin | ]. rewrite Hk, Hc. destruct black; reflexivity. }
    rewrite E in Hk'. destruct Hk'.
  - destruct (attackedSquares_ok b
                (List.filter (fun p => Bool.eqb (_isBlack p) (negb black)) (piecesStillOnBoard b))
                Hwf) with (aSquares := @nil label) as (sq & ->).
    { apply Forall_forall. intros p Hp. apply list_elem_of_In, filter_In in Hp. tauto. }
    cbn [rbind]. eauto.
Qed.

(** ** The filter *)

Lemma checkedMove_ok b black m :
  wellFormed b -> hasKing b black -> candidate b black m ->
  exists m', checkedMove b black m = Ok m'.
Proof.
  intros Hwf HK Hm. unfold checkedMove.
  destruct (simulate_ok b black m Hwf Hm) as (copyBoard & -> & Hwf' & HK').
  cbn [rbind].
  destruct (checkForCheck_ok copyBoard black Hwf' (HK' HK)) as (inCheck & ->).
  cbn [rbind]. destruct inCheck; [ | eauto ].
  destruct Hm as (rc & p & Hi & Hp & _ & -> & _).
  rewrite (pieceAtLabel_square b rc (proj1 Hwf) Hi), Hp. cbn [rbind]. eauto.
Qed.

Lemma checkedMoves_ok b black moves :
  wellFormed b -> hasKing b black -> Forall (candidate b black) moves ->
  exists moves', checkedMoves b black moves = Ok moves'.
Proof.
  intros Hwf HK Hms. induction Hms as [|m moves Hm Hms IH].
  - exists []. reflexivity.
  - cbn [checkedMoves]. destruct (checkedMove_ok b black m Hwf HK Hm) as (m' & ->).
    destruct IH as (rest & ->). cbn [rbind]. eauto.
Qed.

Lemma filter_total b black :
  wellFormed b -> hasKing b black ->
  exists moves, _movesWithThoseLeavingCheckDisallowed b black = Ok moves.
Proof.
  intros Hwf HK. unfold _movesWithThoseLeavingCheckDisallowed.
  destruct (possibleMoves_ok b black Hwf) as (ms & -> & Hms). cbn [rbind].
  apply checkedMoves_ok; [ exact Hwf | exact HK | ].
  eapply Forall_impl; [ exact Hms | ]. cbn beta. tauto.
Qed.

Lemma checkedMove_filtered b black m m' :
  disallowed m = false -> checkedMove b black m = Ok m' -> filtered b black m m'.
Proof.
  intros Hd H. unfold checkedMove in H.
  destruct (simulate b m) as [copyBoard|] eqn:Es; [ | discriminate ]. cbn [rbind] in H.
  destruct (_checkForCheck copyBoard (negb black)) as [inCheck|] eqn:Ec; [ | discriminate ].
  cbn [rbind] in H. unfold filtered. split; [ exact Hd | ].
  destruct inCheck.
  - destruct (pieceAtLabel b (Some (fromSquare m))) as [[p|]|]; try discriminate.
    cbn [rbind] in H. inversion H. cbn [disallow fromSquare toSquare disallowed].
    split; [ reflexivity | ]. split; [ reflexivity | ].
    exists copyBoard. split; [ exact Es | ]. split; [ eauto | ]. rewrite Ec. tauto.
  - inversion H. subst m'. split; [ reflexivity | ]. split; [ reflexivity | ].
    exists copyBoard. split; [ exact Es | ]. split; [ eauto | ].
    rewrite Ec, Hd. split; intros ?; discriminate.
Qed.

(** The tests that evaluate on a given board. *)
Lemma In_allSquares rc : inside rc -> In rc allSquares.
Proof.
  intros [Hr Hc]. destruct rc as [r c]. cbn [fst snd] in *. unfold allSquares.
  apply in_flat_map. exists (Z.to_nat r). split; [ apply in_seq; lia | ].
  apply in_map_iff. exists (Z.to_nat c). split; [ | apply in_seq; lia ].
  rewrite !Z2Nat.id by lia. reflexivity.
Qed.

Lemma wellFormedb_wellFormed b : wellFormedb b = true -> wellFormed b.
Proof.
  unfold wellFormedb. rewrite !andb_true_iff. intros [[H8 Hrows] Hpos].
  apply Nat.eqb_eq in H8. rewrite forallb_forall in Hrows. rewrite forallb_forall in Hpos.
  split; [ split | ].
  - exact H8.
  - intros row Hrow. apply Nat.eqb_eq, Hrows, Hrow.
  - intros rc p Hi Hc. specialize (Hpos rc (In_allSquares rc Hi)). rewrite Hc in Hpos.
    apply String.eqb_eq, Hpos.
Qed.

Lemma hasKingb_hasKing b black : hasKingb b black = true -> hasKing b black.
Proof.
  unfold hasKingb. intros H. apply existsb_exists in H. destruct H as (k & Hin & Hk).
  apply andb_true_iff in Hk. destruct Hk as [Hk Hc]. exists k. split; [ exact Hin | ].
  split; [ destruct (kind k); try discriminate; reflexivity | apply eqb_prop; exact Hc ].
Qed.

(** The start position satisfies the hypotheses for both colours. *)
Example start_position_wellFormed :
  wellFormed (_board (snd startedGame))
  /\ hasKing (_board (snd startedGame)) false
  /\ hasKing (_board (snd startedGame)) true.
Proof.
  split; [ apply wellFormedb_wellFormed; vm_compute; reflexivity | ].
  split; apply hasKingb_hasKing; vm_compute; reflexivity.
Qed.

(** ** The board: placing, removing and moving pieces *)

Lemma labelToGridReference_inside b l rc :
  chessboard b -> labelToGridReference b l = Ok rc -> inside rc.
Proof.
  intros [H8 _] H. unfold labelToGridReference in H. rewrite (len8 b H8) in H.
  apply labelToGridReferenceN_range in H. exact H.
Qed.

Lemma labelToGridReference_same b b' l :
  length (_grid b') = length (_grid b) ->
  labelToGridReference b' l = labelToGridReference b l.
Proof. intros H. unfold labelToGridReference, len. rewrite H. reflexivity. Qed.

Lemma pieceAtLabel_ref b l rc :
  chessboard b -> labelToGridReference b l = Ok rc ->
  pieceAtLabel b (Some l) = Ok (cell b rc).
Proof.
  intros Hb H. pose proof (labelToGridReference_inside b l rc Hb H) as Hi.
  destruct l as [|c s]; [ discriminate | ].
  unfold pieceAtLabel. rewrite H. cbn [rbind]. apply grid_get_cell; assumption.
Qed.

(** X1.  Board.set followed by Board.pieceAtLabel: on an 8 x 8 board, setting a
    piece whose position is a label of the board succeeds; the square of that
    label then holds the piece, whatever it held before, and every other
    square holds what it held. *)
Theorem Board_set_lookup (b : Board) (p : Piece) (rc : Z * Z) :
  chessboard b -> labelToGridReference b (_currentPosition p) = Ok rc ->
  exists b',
    set p b = (Ok tt, b')
    /\ chessboard b'
    /\ pieceAtLabel b' (Some (_currentPosition p)) = Ok (Some p)
    /\ forall l rc', labelToGridReference b l = Ok rc' -> rc' <> rc ->
         pieceAtLabel b' (Some l) = pieceAtLabel b (Some l).
Proof.
  intros Hb Hl. pose proof (labelToGridReference_inside _ _ _ Hb Hl) as Hi.
  unfold set, bind, reads. rewrite Hl.
  destruct (assign_cell b rc (Some p) Hb Hi) as (b' & -> & Hb' & Hcells).
  exists b'. split; [ reflexivity | ]. split; [ exact Hb' | ].
  assert (Hsame : forall l, labelToGridReference b' l = labelToGridReference b l).
  { intros l. apply labelToGridReference_same. rewrite (proj1 Hb'), (proj1 Hb). reflexivity. }
  split.
  - rewrite (pieceAtLabel_ref b' _ rc Hb') by (rewrite Hsame; exact Hl).
    rewrite (Hcells rc Hi). destruct (decide (rc = rc)); [ reflexivity | contradiction ].
  - intros l rc' Hl' Hne.
    pose proof (labelToGridReference_inside _ _ _ Hb Hl') as Hi'.
    rewrite (pieceAtLabel_ref b' l rc' Hb') by (rewrite Hsame; exact Hl').
    rewrite (pieceAtLabel_ref b l rc' Hb Hl'), (Hcells rc' Hi').
    destruct (decide (rc' = rc)); [ contradiction | reflexivity ].
Qed.

Lemma Board_set_lookup_witness :
  chessboard (newBoard 8)
  /\ exists b',
       set (mkPiece Queen false "D1" (7, 3) []) (newBoard 8) = (Ok tt, b')
       /\ pieceAtLabel b' (Some "D1") = Ok (Some (mkPiece Queen false "D1" (7, 3) [])).
Proof.
  assert (Hb : chessboard (newBoard 8)).
  { split; [ reflexivity | ]. intros row Hrow. cbn in Hrow.
    repeat (destruct Hrow as [<- | Hrow]; [ reflexivity | ]). destruct Hrow. }
  split; [ exact Hb | ].
  destruct (Board_set_lookup (newBoard 8) (mkPiece Queen false "D1" (7, 3) []) (7, 3) Hb eq_refl)
    as (b' & Hset & _ & Hlook & _).
  exists b'. split; [ exact Hset | exact Hlook ].
Defined.

(** X2.  Board.remove: on an 8 x 8 board, removing at a label of the board
    returns what Board.pieceAtLabel gave for it, leaves that square empty and
    every other square as it was; removing there again returns None. *)
Theorem Board_remove_lookup (b : Board) (l : label) (rc : Z * Z) :
  chessboard b -> labelToGridReference b l = Ok rc ->
  exists b' x,
    pieceAtLabel b (Some l) = Ok x
    /\ remove l b = (Ok x, b')
    /\ chessboard b'
    /\ isEmpty b' l = Ok true
    /\ fst (remove l b') = Ok None
    /\ forall l' rc', labelToGridReference b l' = Ok rc' -> rc' <> rc ->
         pieceAtLabel b' (Some l') = pieceAtLabel b (Some l').
Proof.
  intros Hb Hl. pose proof (labelToGridReference_inside _ _ _ Hb Hl) as Hi.
  assert (Hrem : forall b0, chessboard b0 -> labelToGridReference b0 l = Ok rc ->
            exists b1, remove l b0 = (Ok (cell b0 rc), b1) /\ chessboard b1
                       /\ forall rc', inside rc' ->
                            cell b1 rc' = if decide (rc' = rc) then None else cell b0 rc').
  { intros b0 Hb0 Hl0. unfold remove, bind, reads, ret.
    rewrite Hl0, (grid_get_cell b0 rc Hb0 Hi).
    destruct (assign_cell b0 rc None Hb0 Hi) as (b1 & -> & Hb1 & Hcells).
    exists b1. auto. }
  destruct (Hrem b Hb Hl) as (b' & Hr & Hb' & Hcells).
  assert (Hsame : forall l0, labelToGridReference b' l0 = labelToGridReference b l0).
  { intros l0. apply labelToGridReference_same. rewrite (proj1 Hb'), (proj1 Hb). reflexivity. }
  assert (Hl' : labelToGridReference b' l = Ok rc) by (rewrite Hsame; exact Hl).
  assert (Hnone : cell b' rc = None).
  { rewrite (Hcells rc Hi). destruct (decide (rc = rc)); [ reflexivity | contradiction ]. }
  exists b', (cell b rc).
  split; [ apply pieceAtLabel_ref; assumption | ].
  split; [ exact Hr | ]. split; [ exact Hb' | ].
  split; [ unfold isEmpty; rewrite (pieceAtLabel_ref b' l rc Hb' Hl'), Hnone; reflexivity | ].
  split.
  - destruct (Hrem b' Hb' Hl') as (b'' & -> & _). cbn [fst]. rewrite Hnone. reflexivity.
  - intros l0 rc' Hl0 Hne.
    pose proof (labelToGridReference_inside _ _ _ Hb Hl0) as Hi'.
    rewrite (pieceAtLabel_ref b' l0 rc' Hb') by (rewrite Hsame; exact Hl0).
    rewrite (pieceAtLabel_ref b l0 rc' Hb Hl0), (Hcells rc' Hi').
    destruct (decide (rc' = rc)); [ contradiction | reflexivity ].
Qed.

Lemma Board_remove_lookup_witness :
  chessboard pinnedRook
  /\ exists b',
       remove "e2" pinnedRook = (Ok (Some (mkPiece Rook false "e2" (6, 4) [])), b')
       /\ isEmpty b' "e2" = Ok true.
Proof.
  assert (Hb : chessboard pinnedRook).
  { split; [ reflexivity | ]. intros row Hrow. vm_compute in Hrow.
    repeat (destruct Hrow as [<- | Hrow]; [ reflexivity | ]). destruct Hrow. }
  split; [ exact Hb | ].
  destruct (Board_remove_lookup pinnedRook "e2" (6, 4) Hb eq_refl)
    as (b' & x & Hx & Hrem & _ & Hempty & _).
  exists b'. split; [ | exact Hempty ].
  rewrite Hrem. f_equal. f_equal. vm_compute in Hx. congruence.
Defined.
Lemma remove_ref b l rc :
  chessboard b -> labelToGridReference b l = Ok rc ->
  exists b', remove l b = (Ok (cell b rc), b')
             /\ chessboard b'
             /\ forall rc', inside rc' ->
                  cell b' rc' = if decide (rc' = rc) then None else cell b rc'.
Proof.
  intros Hb Hl. pose proof (labelToGridReference_inside _ _ _ Hb Hl) as Hi.
  unfold remove, bind, reads, ret.
  rewrite Hl, (grid_get_cell b rc Hb Hi).
  destruct (assign_cell b rc None Hb Hi) as (b' & -> & Hb' & Hcells).
  exists b'. auto.
Qed.

Lemma set_ref b p rc :
  chessboard b -> labelToGridReference b (_currentPosition p) = Ok rc ->
  exists b', set p b = (Ok tt, b')
             /\ chessboard b'
             /\ forall rc', inside rc' ->
                  cell b' rc' = if decide (rc' = rc) then Some p else cell b rc'.
Proof.
  intros Hb Hl. pose proof (labelToGridReference_inside _ _ _ Hb Hl) as Hi.
  unfold set, bind, reads. rewrite Hl.
  destruct (assign_cell b rc (Some p) Hb Hi) as (b' & -> & Hb' & Hcells).
  exists b'. auto.
Qed.

Lemma chessboard_same_labels b b' :
  chessboard b -> chessboard b' ->
  forall l, labelToGridReference b' l = labelToGridReference b l.
Proof.
  intros Hb Hb' l. apply labelToGridReference_same.
  rewrite (proj1 Hb'), (proj1 Hb). reflexivity.
Qed.

(** X3.  Board.move of a piece: on an 8 x 8 board, moving from a square that
    holds a piece to a square of the board succeeds and returns the piece that
    stood on the destination (None when the two squares are the same); the
    destination then holds the moved piece with its position and grid
    reference set to the destination, the origin is empty, every other square
    is as it was, and the observers of the piece are notified exactly when the
    destination label differs from the piece's position. *)
Theorem Board_move_lookup (b : Board) (fromSq toSq : label) (rc rc' : Z * Z) (p : Piece) :
  chessboard b ->
  labelToGridReference b fromSq = Ok rc -> labelToGridReference b toSq = Ok rc' ->
  pieceAtLabel b (Some fromSq) = Ok (Some p) ->
  exists b' captured,
    move fromSq toSq b
    = (Ok (captured, if String.eqb toSq (_currentPosition p) then [] else _observers p), b')
    /\ (rc <> rc' -> pieceAtLabel b (Some toSq) = Ok captured)
    /\ (rc = rc' -> captured = None)
    /\ chessboard b'
    /\ pieceAtLabel b' (Some toSq)
       = Ok (Some (mkPiece (kind p) (_isBlack p) toSq rc' (_observers p)))
    /\ (rc <> rc' -> isEmpty b' fromSq = Ok true)
    /\ forall l x, labelToGridReference b l = Ok x -> x <> rc -> x <> rc' ->
         pieceAtLabel b' (Some l) = pieceAtLabel b (Some l).
Proof.
  intros Hb Hfrom Hto Hp.
  pose proof (labelToGridReference_inside _ _ _ Hb Hfrom) as Hi.
  pose proof (labelToGridReference_inside _ _ _ Hb Hto) as Hi'.
  rewrite (pieceAtLabel_ref b fromSq rc Hb Hfrom) in Hp. inversion Hp as [Hcell].
  destruct (remove_ref b fromSq rc Hb Hfrom) as (b1 & R1 & Hb1 & C1).
  pose proof (chessboard_same_labels b b1 Hb Hb1) as L1.
  destruct (remove_ref b1 toSq rc' Hb1) as (b2 & R2 & Hb2 & C2); [ rewrite L1; exact Hto | ].
  pose proof (chessboard_same_labels b b2 Hb Hb2) as L2.
  set (p' := mkPiece (kind p) (_isBlack p) toSq rc' (_observers p)).
  assert (SP : setPosition p toSq
               = Ok (p', if String.eqb toSq (_currentPosition p) then [] else _observers p)).
  { unfold setPosition.
    rewrite (positionToGridRerence_board b toSq rc' (proj1 Hb) Hto). cbn [rbind].
    destruct (String.eqb toSq (_currentPosition p)); reflexivity. }
  destruct (set_ref b2 p' rc' Hb2) as (b3 & S3 & Hb3 & C3); [ rewrite L2; exact Hto | ].
  pose proof (chessboard_same_labels b b3 Hb Hb3) as L3.
  assert (Hcells : forall x, inside x ->
            cell b3 x = if decide (x = rc') then Some p'
                        else if decide (x = rc) then None else cell b x).
  { intros x Hx. rewrite (C3 x Hx). destruct (decide (x = rc')); [ reflexivity | ].
    rewrite (C2 x Hx). destruct (decide (x = rc')); [ contradiction | ].
    apply (C1 x Hx). }
  exists b3, (cell b1 rc'). split.
  { unfold move. unfold bind at 1. rewrite R1, Hcell. unfold bind at 1. rewrite R2.
    unfold bind at 1. unfold lift. rewrite SP. cbn [fst snd].
    unfold bind, ret. rewrite S3. reflexivity. }
  split.
  { intros Hne. rewrite (pieceAtLabel_ref b toSq rc' Hb Hto), (C1 rc' Hi').
    destruct (decide (rc' = rc)); [ congruence | reflexivity ]. }
  split.
  { intros ->. rewrite (C1 rc' Hi'). destruct (decide (rc' = rc')); [ reflexivity | contradiction ]. }
  split; [ exact Hb3 | ]. split.
  { rewrite (pieceAtLabel_ref b3 toSq rc' Hb3) by (rewrite L3; exact Hto).
    rewrite (Hcells rc' Hi'). destruct (decide (rc' = rc')); [ reflexivity | contradiction ]. }
  split.
  { intros Hne. unfold isEmpty.
    rewrite (pieceAtLabel_ref b3 fromSq rc Hb3) by (rewrite L3; exact Hfrom).
    rewrite (Hcells rc Hi). destruct (decide (rc = rc')); [ contradiction | ].
    destruct (decide (rc = rc)); [ reflexivity | contradiction ]. }
  intros l x Hl Hx1 Hx2.
  pose proof (labelToGridReference_inside _ _ _ Hb Hl) as Hix.
  rewrite (pieceAtLabel_ref b3 l x Hb3) by (rewrite L3; exact Hl).
  rewrite (pieceAtLabel_ref b l x Hb Hl), (Hcells x Hix).
  destruct (decide (x = rc')); [ contradiction | ].
  destruct (decide (x = rc)); [ contradiction | reflexivity ].
Qed.

Lemma chessboard_pinnedRook : chessboard pinnedRook.
Proof.
  split; [ reflexivity | ]. intros row Hrow. vm_compute in Hrow.
  repeat (destruct Hrow as [<- | Hrow]; [ reflexivity | ]). destruct Hrow.
Qed.

Lemma Board_move_lookup_witness :
  chessboard pinnedRook
  /\ pieceAtLabel pinnedRook (Some "e2") = Ok (Some (mkPiece Rook false "e2" (6, 4) []))
  /\ exists b',
       fst (move "e2" "e8" pinnedRook) = Ok (Some (mkPiece Rook true "e8" (0, 4) []), [])
       /\ snd (move "e2" "e8" pinnedRook) = b'
       /\ pieceAtLabel b' (Some "e8") = Ok (Some (mkPiece Rook false "e8" (0, 4) []))
       /\ isEmpty b' "e2" = Ok true.
Proof.
  assert (Hp : pieceAtLabel pinnedRook (Some "e2") = Ok (Some (mkPiece Rook false "e2" (6, 4) [])))
    by (vm_compute; reflexivity).
  split; [ exact chessboard_pinnedRook | ]. split; [ exact Hp | ].
  destruct (Board_move_lookup pinnedRook "e2" "e8" (6, 4) (0, 4) _
              chessboard_pinnedRook eq_refl eq_refl Hp)
    as (b' & captured & Hmove & Hcap & _ & _ & Hto & Hfrom & _).
  exists b'. rewrite Hmove. cbn [fst snd].
  assert (Hne : (6, 4) <> (0, 4)) by discriminate.
  specialize (Hcap Hne). vm_compute in Hcap. inversion Hcap.
  split; [ reflexivity | ]. split; [ reflexivity | ].
  split; [ exact Hto | exact (Hfrom Hne) ].
Defined.

(** X4.  Board.move from an empty square: on an 8 x 8 board, when the origin
    holds no piece the call raises AttributeError (None has no setPosition),
    and by then the piece on the destination has been removed: the
    destination is empty, and every other square is as it was. *)
Theorem Board_move_from_empty (b : Board) (fromSq toSq : label) (rc rc' : Z * Z) :
  chessboard b ->
  labelToGridReference b fromSq = Ok rc -> labelToGridReference b toSq = Ok rc' ->
  pieceAtLabel b (Some fromSq) = Ok None ->
  exists b',
    move fromSq toSq b = (Raise AttributeError, b')
    /\ chessboard b'
    /\ isEmpty b' toSq = Ok true
    /\ forall l x, labelToGridReference b l = Ok x -> x <> rc' ->
         pieceAtLabel b' (Some l) = pieceAtLabel b (Some l).
Proof.
  intros Hb Hfrom Hto Hp.
  pose proof (labelToGridReference_inside _ _ _ Hb Hfrom) as Hi.
  pose proof (labelToGridReference_inside _ _ _ Hb Hto) as Hi'.
  rewrite (pieceAtLabel_ref b fromSq rc Hb Hfrom) in Hp. inversion Hp as [Hcell].
  destruct (remove_ref b fromSq rc Hb Hfrom) as (b1 & R1 & Hb1 & C1).
  pose proof (chessboard_same_labels b b1 Hb Hb1) as L1.
  destruct (remove_ref b1 toSq rc' Hb1) as (b2 & R2 & Hb2 & C2); [ rewrite L1; exact Hto | ].
  pose proof (chessboard_same_labels b b2 Hb Hb2) as L2.
  assert (Hcells : forall x, inside x ->
            cell b2 x = if decide (x = rc') then None else cell b x).
  { intros x Hx. rewrite (C2 x Hx). destruct (decide (x = rc')); [ reflexivity | ].
    rewrite (C1 x Hx). destruct (decide (x = rc)) as [-> | ]; [ symmetry; exact Hcell | reflexivity ]. }
  exists b2. split.
  { unfold move. unfold bind at 1. rewrite R1, Hcell. unfold bind at 1. rewrite R2.
    reflexivity. }
  split; [ exact Hb2 | ]. split.
  { unfold isEmpty. rewrite (pieceAtLabel_ref b2 toSq rc' Hb2) by (rewrite L2; exact Hto).
    rewrite (Hcells rc' Hi'). destruct (decide (rc' = rc')); [ reflexivity | contradiction ]. }
  intros l x Hl Hx.
  pose proof (labelToGridReference_inside _ _ _ Hb Hl) as Hix.
  rewrite (pieceAtLabel_ref b2 l x Hb2) by (rewrite L2; exact Hl).
  rewrite (pieceAtLabel_ref b l x Hb Hl), (Hcells x Hix).
  destruct (decide (x = rc')); [ contradiction | reflexivity ].
Qed.

Lemma Board_move_from_empty_witness :
  chessboard pinnedRook
  /\ pieceAtLabel pinnedRook (Some "e3") = Ok None
  /\ isEmpty pinnedRook "e8" = Ok false
  /\ exists b', move "e3" "e8" pinnedRook = (Raise AttributeError, b')
                /\ isEmpty b' "e8" = Ok true.
Proof.
  assert (Hp : pieceAtLabel pinnedRook (Some "e3") = Ok None) by (vm_compute; reflexivity).
  split; [ exact chessboard_pinnedRook | ]. split; [ exact Hp | ].
  split; [ vm_compute; reflexivity | ].
  destruct (Board_move_from_empty pinnedRook "e3" "e8" (5, 4) (0, 4)
              chessboard_pinnedRook eq_refl eq_refl Hp)
    as (b' & Hmove & _ & Hempty & _).
  exists b'. split; [ exact Hmove | exact Hempty ].
Defined.
(** ** The board: rows, reset, labels, offsets and copies *)

Lemma py_index_insert_eq {A} (l : list A) i x :
  0 <= i < len l -> py_index (<[Z.to_nat i := x]> l) i = Ok x.
Proof.
  intros Hi. unfold len in Hi. apply py_index_nonneg; [ lia | ].
  apply list_lookup_insert_eq. lia.
Qed.

Lemma py_index_insert_ne {A} (l : list A) i j x :
  0 <= i -> 0 <= j -> i <> j -> py_index (<[Z.to_nat i := x]> l) j = py_index l j.
Proof.
  intros Hi Hj Hne. unfold py_index, len. rewrite length_insert.
  destruct (j <? 0) eqn:E; [ apply Z.ltb_lt in E; lia | ].
  destruct ((0 <=? j) && (j <? Z.of_nat (length l))); [ | reflexivity ].
  rewrite list_lookup_insert_ne; [ reflexivity | lia ].
Qed.

(** X5.  Board.setRow and Board.getRow: on a board whose size is the number
    of its rows, setRow succeeds exactly when the row has as many squares as
    the board has rows and the index is between 1 and the size; getRow of
    that index then returns the row, getRow of every other index is as
    before, and a refused setRow raises ValueError and leaves the board as it
    was. *)
Theorem Board_setRow_getRow (b : Board) (row : list (option Piece)) (index : Z) :
  size b = len (_grid b) ->
  (len row = len (_grid b) /\ 1 <= index <= size b ->
   exists b',
     setRow row index b = (Ok tt, b')
     /\ size b' = size b /\ len (_grid b') = len (_grid b)
     /\ getRow b' index = Ok row
     /\ forall j, j <> index -> getRow b' j = getRow b j)
  /\ (~ (len row = len (_grid b) /\ 1 <= index <= size b) ->
      setRow row index b = (Raise RowOutsideRange, b)).
Proof.
  intros Hsize. split.
  - intros [Hlen [Hlo Hhi]]. unfold setRow.
    rewrite Hlen, Z.eqb_refl. cbn [negb].
    destruct (index <? 1) eqn:E1; [ apply Z.ltb_lt in E1; lia | ].
    destruct (size b <? index) eqn:E2; [ apply Z.ltb_lt in E2; lia | ]. cbn [orb].
    assert (Hr : 0 <= size b - index < len (_grid b)) by lia.
    destruct (_grid b !! Z.to_nat (size b - index)) as [old|] eqn:Eold.
    2:{ apply lookup_ge_None in Eold. unfold len in Hr. lia. }
    rewrite (py_index_nonneg _ _ _ (proj1 Hr) Eold).
    destruct (size b - index <? 0) eqn:E3; [ apply Z.ltb_lt in E3; lia | ].
    eexists. split; [ reflexivity | ]. cbn [size _grid].
    split; [ reflexivity | ]. split; [ unfold len; rewrite length_insert; reflexivity | ].
    split.
    + unfold getRow. cbn [size _grid].
      destruct (size b - index <? 0) eqn:E4; [ discriminate | ].
      destruct (size b <=? size b - index) eqn:E5; [ apply Z.leb_le in E5; lia | ]. cbn [orb].
      apply py_index_insert_eq. exact Hr.
    + intros j Hj. unfold getRow. cbn [size _grid].
      destruct (size b - j <? 0) eqn:E4; [ reflexivity | ]. apply Z.ltb_ge in E4.
      destruct (size b <=? size b - j); [ reflexivity | ]. cbn [orb].
      apply py_index_insert_ne; lia.
  - intros Hnot. unfold setRow.
    destruct (len row =? len (_grid b)) eqn:E0; [ | reflexivity ]. cbn [negb].
    apply Z.eqb_eq in E0.
    destruct (index <? 1) eqn:E1; [ reflexivity | ]. apply Z.ltb_ge in E1.
    destruct (size b <? index) eqn:E2; [ reflexivity | ]. apply Z.ltb_ge in E2.
    exfalso. apply Hnot. lia.
Qed.

Lemma Board_setRow_getRow_witness :
  size (newBoard 8) = len (_grid (newBoard 8))
  /\ (exists b', setRow (replicate 8 None) 2 (newBoard 8) = (Ok tt, b')
                 /\ getRow b' 2 = Ok (replicate 8 None))
  /\ setRow (replicate 8 None) 9 (newBoard 8) = (Raise RowOutsideRange, newBoard 8)
  /\ setRow (replicate 7 None) 2 (newBoard 8) = (Raise RowOutsideRange, newBoard 8).
Proof.
  assert (Hs : size (newBoard 8) = len (_grid (newBoard 8))) by reflexivity.
  split; [ exact Hs | ].
  split; [ | split ].
  - destruct (Board_setRow_getRow (newBoard 8) (replicate 8 None) 2 Hs) as [Hok _].
    destruct Hok as (b' & Hset & _ & _ & Hget & _).
    { split; [ reflexivity | cbn; lia ]. }
    exists b'. split; [ exact Hset | exact Hget ].
  - apply (Board_setRow_getRow (newBoard 8) (replicate 8 None) 9 Hs). cbn. lia.
  - apply (Board_setRow_getRow (newBoard 8) (replicate 7 None) 2 Hs).
    intros [H _]. discriminate H.
Defined.

Lemma pieces_of_empty_rows (n m : nat) :
  flat_map (fun r : list (option Piece) =>
              flat_map (fun p => match p with Some x => [x] | None => [] end) r)
           (replicate n (replicate m None)) = [].
Proof.
  induction n as [|n IH]; [ reflexivity | ]. cbn [replicate flat_map]. rewrite IH, app_nil_r.
  clear IH. induction m as [|m IH]; [ reflexivity | ]. cbn [replicate flat_map]. exact IH.
Qed.

(** X6.  Board.reset never fails and keeps the size and the shape of the
    grid; afterwards no piece is on the board, the score of the board is 0,
    and every label of the board names an empty square. *)
Theorem Board_reset_empty (b : Board) :
  fst (reset b) = Ok tt
  /\ size (snd (reset b)) = size b
  /\ length (_grid (snd (reset b))) = length (_grid b)
  /\ (forall row, In row (_grid (snd (reset b))) -> length row = length (_grid b))
  /\ piecesStillOnBoard (snd (reset b)) = []
  /\ piecesScore (snd (reset b)) = Ok 0
  /\ forall l rc, labelToGridReference b l = Ok rc -> isEmpty (snd (reset b)) l = Ok true.
Proof.
  unfold reset. cbn [fst snd size _grid].
  assert (Hp : piecesStillOnBoard
                 (mkBoard (size b)
                    (replicate (length (_grid b)) (replicate (length (_grid b)) None))) = []).
  { unfold piecesStillOnBoard. cbn [_grid]. apply pieces_of_empty_rows. }
  split; [ reflexivity | ]. split; [ reflexivity | ].
  split; [ apply length_replicate | ].
  split.
  { intros row Hrow. apply list_elem_of_In, elem_of_replicate in Hrow.
    destruct Hrow as [-> _]. apply length_replicate. }
  split; [ exact Hp | ]. split; [ unfold piecesScore; rewrite Hp; reflexivity | ].
  intros l rc Hl. unfold isEmpty.
  destruct l as [|c s]; [ discriminate | ].
  unfold pieceAtLabel, labelToGridReference. cbn [_grid]. unfold len. rewrite length_replicate.
  unfold labelToGridReference, len in Hl. rewrite Hl. cbn [rbind].
  apply labelToGridReferenceN_range in Hl. destruct Hl as [Hr Hc].
  unfold pieceAtGridReference, grid_get. cbn [_grid].
  rewrite (py_index_nonneg _ (fst rc) (replicate (length (_grid b)) None)); [ | lia | ].
  2:{ apply lookup_replicate_2. lia. }
  cbn [rbind].
  rewrite (py_index_nonneg _ (snd rc) None); [ reflexivity | lia | ].
  apply lookup_replicate_2. lia.
Qed.

Lemma Board_reset_empty_witness :
  labelToGridReference pinnedRook "e2" = Ok (6, 4)
  /\ isEmpty pinnedRook "e2" = Ok false
  /\ isEmpty (snd (reset pinnedRook)) "e2" = Ok true.
Proof.
  assert (Hl : labelToGridReference pinnedRook "e2" = Ok (6, 4)) by reflexivity.
  split; [ exact Hl | ]. split; [ vm_compute; reflexivity | ].
  destruct (Board_reset_empty pinnedRook) as (_ & _ & _ & _ & _ & _ & H).
  exact (H "e2" (6, 4) Hl).
Defined.
Lemma lower_idem c : lower (lower c) = lower c.
Proof. destruct c as [[] [] [] [] [] [] [] []]; reflexivity. Qed.

Lemma labelToGridReference_lower b c s :
  labelToGridReference b (String (lower c) s) = labelToGridReference b (String c s).
Proof.
  unfold labelToGridReference, labelToGridReferenceN, strlen, str_index.
  cbn [String.length String.get rbind]. rewrite lower_idem. reflexivity.
Qed.

(** X7.  Board.labelToGridReference on the 8 x 8 board.  Every label that
    it accepts gives a grid reference on the board, and the label of that
    grid reference (gridReferenceToLabel) is a valid label, a column letter
    a..h followed by a row digit 1..8, which it maps to the same grid
    reference.  It accepts every label that is a valid label once its first
    character is put in lower case, with the grid reference of that
    lower-case label: upper-case column letters are accepted. *)
Theorem labelToGridReference_accepts (b : Board) (l : label) :
  length (_grid b) = 8%nat ->
  (forall rc, labelToGridReference b l = Ok rc ->
     inside rc
     /\ validLabel b (gridReferenceToLabel b rc)
     /\ labelToGridReference b (gridReferenceToLabel b rc) = Ok rc)
  /\ (forall c s, l = String c s -> validLabel b (String (lower c) s) ->
        exists rc, labelToGridReference b l = Ok rc
                   /\ labelToGridReference b (String (lower c) s) = Ok rc
                   /\ gridReferenceToLabel b rc = String (lower c) s).
Proof.
  intros H8. split.
  - intros rc H.
    assert (Hi : inside rc).
    { unfold labelToGridReference in H. rewrite (len8 b H8) in H.
      apply labelToGridReferenceN_range in H. exact H. }
    split; [ exact Hi | ]. destruct rc as [r c]. destruct Hi as [Hr Hc]. cbn [fst snd] in Hr, Hc.
    split; [ | apply roundtrip_coords; assumption ].
    exists (chr (ord_a + c)), (8 - r). split; [ | split ].
    + unfold validColumns. rewrite H8. apply in_map_iff.
      exists (Z.to_nat c). split; [ rewrite Z2Nat.id by lia; reflexivity | apply in_seq; lia ].
    + unfold validRows. rewrite H8. apply in_map_iff.
      exists (Z.to_nat (8 - r)). split; [ apply Z2Nat.id; lia | apply in_seq; lia ].
    + unfold gridReferenceToLabel, gridReferenceToLabelN. rewrite (len8 b H8). reflexivity.
  - intros c s -> Hv.
    destruct (validLabel_coords b _ H8 Hv) as (r & c' & Hr & Hc & E).
    exists (r, c'). split; [ | split ].
    + rewrite <- labelToGridReference_lower, E. apply roundtrip_coords; assumption.
    + rewrite E. apply roundtrip_coords; assumption.
    + symmetry. exact E.
Qed.

Lemma labelToGridReference_accepts_witness :
  length (_grid (newBoard 8)) = 8%nat
  /\ validLabel (newBoard 8) "e4"
  /\ labelToGridReference (newBoard 8) "E4" = Ok (4, 4)
  /\ labelToGridReference (newBoard 8) "e4" = Ok (4, 4)
  /\ inside (4, 4)
  /\ validLabel (newBoard 8) (gridReferenceToLabel (newBoard 8) (4, 4)).
Proof.
  assert (H8 : length (_grid (newBoard 8)) = 8%nat) by reflexivity.
  assert (Hv : validLabel (newBoard 8) "e4").
  { exists "e"%char, 4.
    split; [ do 4 right; left; reflexivity | ].
    split; [ do 3 right; left; reflexivity | reflexivity ]. }
  destruct (labelToGridReference_accepts (newBoard 8) "E4" H8) as [Hfrom Hto].
  split; [ exact H8 | ]. split; [ exact Hv | ].
  destruct (Hto "E"%char "4" eq_refl Hv) as (rc & Hupper & Hlower & _).
  assert (Erc : rc = (4, 4)) by (vm_compute in Hupper; congruence).
  subst rc. split; [ exact Hupper | ]. split; [ exact Hlower | ].
  destruct (Hfrom (4, 4) Hupper) as (Hi & Hvalid & _).
  split; [ exact Hi | exact Hvalid ].
Defined.

(** X8.  Board.positionOffset (Board._positionXandYFrom) on the 8 x 8 board
    never fails from a square of the board: it returns the label of the
    square at the offset when that square is on the board, from which the
    opposite offset leads back to the start, and None when it is off the
    board. *)
Theorem positionOffset_round_trip (b : Board) (rc d : Z * Z) :
  chessboard b -> inside rc ->
  (inside (offset rc d) ->
     positionOffset b (square rc) d = Ok (Some (square (offset rc d)))
     /\ positionOffset b (square (offset rc d)) (- fst d, - snd d) = Ok (Some (square rc)))
  /\ (~ inside (offset rc d) -> positionOffset b (square rc) d = Ok None).
Proof.
  intros Hb Hi. unfold positionOffset. split.
  - intros Hi'. rewrite (offset_square b rc d Hb Hi).
    rewrite (proj2 (insideb_inside _) Hi'). split; [ reflexivity | ].
    rewrite (offset_square b _ (- fst d, - snd d) Hb Hi').
    assert (E : offset (offset rc d) (- fst d, - snd d) = rc).
    { destruct rc, d. unfold offset. cbn [fst snd]. f_equal; lia. }
    rewrite E, (proj2 (insideb_inside _) Hi). reflexivity.
  - intros Hout. rewrite (offset_square b rc d Hb Hi).
    destruct (insideb (offset rc d)) eqn:E; [ | reflexivity ].
    apply insideb_inside in E. contradiction.
Qed.

Lemma positionOffset_round_trip_witness :
  chessboard pinnedRook /\ inside (6, 4) /\ inside (offset (6, 4) (-2, 1))
  /\ positionOffset pinnedRook "e2" (-2, 1) = Ok (Some "f4")
  /\ positionOffset pinnedRook "f4" (2, -1) = Ok (Some "e2")
  /\ positionOffset pinnedRook "e2" (2, 0) = Ok None.
Proof.
  assert (Hi : inside (6, 4)) by (unfold inside; cbn; lia).
  assert (Hi' : inside (offset (6, 4) (-2, 1))) by (unfold inside; cbn; lia).
  split; [ exact chessboard_pinnedRook | ]. split; [ exact Hi | ]. split; [ exact Hi' | ].
  destruct (positionOffset_round_trip pinnedRook (6, 4) (-2, 1) chessboard_pinnedRook Hi)
    as [Hin _].
  destruct (positionOffset_round_trip pinnedRook (6, 4) (2, 0) chessboard_pinnedRook Hi)
    as [_ Hout].
  split; [ exact (proj1 (Hin Hi')) | ]. split; [ exact (proj2 (Hin Hi')) | ].
  apply Hout. unfold inside. cbn. lia.
Defined.

Lemma py_index_map {A B} (f : A -> B) (l : list A) i :
  py_index (map f l) i = match py_index l i with Ok x => Ok (f x) | Raise e => Raise e end.
Proof.
  unfold py_index, len. rewrite length_map, lookup_map.
  destruct (_ && _); [ | reflexivity ]. destruct (l !! _); reflexivity.
Qed.

Lemma pieces_copy b : piecesStillOnBoard (copyOfBoard b) = map detach (piecesStillOnBoard b).
Proof.
  unfold piecesStillOnBoard, copyOfBoard. cbn [_grid].
  induction (_grid b) as [|row rows IH]; [ reflexivity | ].
  cbn [map flat_map]. rewrite map_app, IH. f_equal.
  clear IH. induction row as [|x row IH]; [ reflexivity | ].
  cbn [map flat_map]. rewrite map_app, IH. destruct x; reflexivity.
Qed.

Lemma sum_scores_detach ps value : sum_scores (map detach ps) value = sum_scores ps value.
Proof.
  revert value. induction ps as [|p ps IH]; intros value; [ reflexivity | ].
  cbn [map sum_scores]. change (score (detach p)) with (score p).
  destruct (score p); [ cbn [rbind]; apply IH | reflexivity ].
Qed.

Lemma grid_copy_length b : length (_grid (copyOfBoard b)) = length (_grid b).
Proof. unfold copyOfBoard. cbn [_grid]. apply length_map. Qed.

Lemma pieceAtLabel_copy b l :
  pieceAtLabel (copyOfBoard b) l
  = match pieceAtLabel b l with
    | Ok x => Ok (option_map detach x)
    | Raise e => Raise e
    end.
Proof.
  destruct l as [[|c s]|]; try reflexivity.
  unfold pieceAtLabel, pieceAtGridReference, grid_get.
  rewrite (labelToGridReference_same b (copyOfBoard b) _ (grid_copy_length b)).
  destruct (labelToGridReference b (String c s)) as [g|]; [ | reflexivity ]. cbn [rbind].
  unfold copyOfBoard. cbn [_grid]. rewrite py_index_map.
  destruct (py_index (_grid b) (fst g)) as [row|]; [ | reflexivity ]. cbn [rbind].
  apply py_index_map.
Qed.

Lemma isEmpty_copy b s : isEmpty (copyOfBoard b) s = isEmpty b s.
Proof.
  unfold isEmpty. rewrite pieceAtLabel_copy.
  destruct (pieceAtLabel b (Some s)) as [[p|]|]; reflexivity.
Qed.

Lemma isBlack_copy b s : isBlack (copyOfBoard b) s = isBlack b s.
Proof.
  unfold isBlack. rewrite pieceAtLabel_copy.
  destruct (pieceAtLabel b (Some s)) as [[p|]|]; reflexivity.
Qed.

Lemma positionXandYFrom_copy b s d :
  _positionXandYFrom (copyOfBoard b) s d = _positionXandYFrom b s d.
Proof.
  unfold _positionXandYFrom, gridReferenceToLabel, len.
  rewrite (labelToGridReference_same b (copyOfBoard b) _ (grid_copy_length b)), grid_copy_length.
  reflexivity.
Qed.

Lemma walk_copy b black multiple d fuel :
  forall s moves,
    walk fuel (copyOfBoard b) black multiple d s moves = walk fuel b black multiple d s moves.
Proof.
  induction fuel as [|fuel IH]; intros s moves; [ reflexivity | ].
  cbn [walk]. unfold positionOffset. rewrite positionXandYFrom_copy.
  destruct (_positionXandYFrom b s d) as [next|]; [ | reflexivity ]. cbn [rbind].
  destruct (truthy next) as [s'|]; [ | reflexivity ].
  rewrite isEmpty_copy, isBlack_copy.
  destruct (isEmpty b s') as [[|]|]; cbn [rbind]; try reflexivity.
  destruct multiple; [ apply IH | reflexivity ].
Qed.

Lemma for_directions_copy b p ds :
  forall moves,
    for_directions (copyOfBoard b) (detach p) ds moves = for_directions b p ds moves.
Proof.
  induction ds as [|d ds IH]; intros moves; [ reflexivity | ].
  cbn [for_directions]. rewrite grid_copy_length, walk_copy. cbn [detach _isBlack kind _currentPosition].
  destruct (walk _ b _ _ d _ moves) as [moves'|]; [ | reflexivity ]. cbn [rbind]. apply IH.
Qed.

Lemma pawnCaptures_copy b p ms :
  forall moves,
    pawnCaptures (copyOfBoard b) (detach p) ms moves = pawnCaptures b p ms moves.
Proof.
  induction ms as [|m ms IH]; intros moves; [ reflexivity | ].
  cbn [pawnCaptures]. rewrite positionXandYFrom_copy. cbn [detach _currentPosition].
  destruct (_positionXandYFrom b (_currentPosition p) m) as [s|]; [ | reflexivity ]. cbn [rbind].
  rewrite pieceAtLabel_copy.
  destruct (pieceAtLabel b s) as [[t|]|]; cbn [rbind option_map]; [ | apply IH | reflexivity ].
  destruct s as [sq|]; [ | apply IH ]. cbn [detach _isBlack].
  destruct (negb (Bool.eqb (_isBlack t) (_isBlack p))); apply IH.
Qed.

Lemma pawnAvailableSquares_copy b p :
  pawnAvailableSquares (copyOfBoard b) (detach p) = pawnAvailableSquares b p.
Proof.
  unfold pawnAvailableSquares. cbv zeta. cbn [detach _isBlack _currentPosition].
  destruct (str_index (_currentPosition p) 1) as [rank|]; [ | reflexivity ]. cbn [rbind].
  rewrite positionXandYFrom_copy.
  destruct (_positionXandYFrom b (_currentPosition p) _) as [s|]; [ | reflexivity ].
  cbn [rbind].
  destruct (truthy s) as [s1|]; [ | cbn [rbind]; apply pawnCaptures_copy ].
  rewrite isEmpty_copy.
  destruct (isEmpty b s1) as [[|]|]; cbn [rbind];
    [ | apply pawnCaptures_copy | reflexivity ].
  destruct (_ || _); [ | cbn [rbind]; apply pawnCaptures_copy ].
  rewrite positionXandYFrom_copy.
  destruct (_positionXandYFrom b s1 _) as [s'|]; [ | reflexivity ]. cbn [rbind].
  destruct (truthy s') as [s2|]; [ | cbn [rbind]; apply pawnCaptures_copy ].
  rewrite isEmpty_copy.
  destruct (isEmpty b s2) as [[|]|]; cbn [rbind]; try apply pawnCaptures_copy.
  reflexivity.
Qed.

Lemma pawnAttacks_copy b p ms :
  forall moves,
    pawnAttacks (copyOfBoard b) (detach p) ms moves = pawnAttacks b p ms moves.
Proof.
  induction ms as [|m ms IH]; intros moves; [ reflexivity | ].
  cbn [pawnAttacks]. rewrite positionXandYFrom_copy. cbn [detach _currentPosition].
  destruct (_positionXandYFrom b (_currentPosition p) m) as [s|]; [ | reflexivity ]. cbn [rbind].
  destruct (truthy s); apply IH.
Qed.

Lemma availableSquares_copy b p :
  availableSquares (copyOfBoard b) (detach p) = availableSquares b p.
Proof.
  unfold availableSquares. change (kind (detach p)) with (kind p).
  destruct (kind p); try apply for_directions_copy. apply pawnAvailableSquares_copy.
Qed.

Lemma attacks_copy b p : attacks (copyOfBoard b) (detach p) = attacks b p.
Proof.
  unfold attacks. change (kind (detach p)) with (kind p).
  destruct (kind p); try apply availableSquares_copy.
  unfold attackingSquares. apply pawnAttacks_copy.
Qed.

Lemma filter_detach (f : Piece -> bool) ps :
  (forall p, f (detach p) = f p) ->
  List.filter f (map detach ps) = map detach (List.filter f ps).
Proof.
  intros Hf. induction ps as [|p ps IH]; [ reflexivity | ].
  cbn [map List.filter]. rewrite Hf, IH. destruct (f p); reflexivity.
Qed.

Lemma movesTo_detach p black am : movesTo (detach p) black am = movesTo p black am.
Proof.
  induction am as [|s am IH]; [ reflexivity | ].
  cbn [movesTo]. rewrite IH. reflexivity.
Qed.

Lemma movesOfPieces_copy b black ps :
  movesOfPieces (copyOfBoard b) black (map detach ps) = movesOfPieces b black ps.
Proof.
  induction ps as [|p ps IH]; [ reflexivity | ].
  cbn [map movesOfPieces]. rewrite availableSquares_copy, IH.
  destruct (availableSquares b p) as [am|]; [ | reflexivity ]. cbn [rbind].
  rewrite movesTo_detach. reflexivity.
Qed.

Lemma possibleMoves_copy b black :
  possibleMoves (copyOfBoard b) black = possibleMoves b black.
Proof.
  unfold possibleMoves. rewrite pieces_copy, filter_detach by reflexivity.
  apply movesOfPieces_copy.
Qed.

Lemma attackedSquares_copy b ps :
  forall aSquares,
    attackedSquares (copyOfBoard b) (map detach ps) aSquares = attackedSquares b ps aSquares.
Proof.
  induction ps as [|p ps IH]; intros aSquares; [ reflexivity | ].
  cbn [map attackedSquares]. fold (attacks (copyOfBoard b) (detach p)). fold (attacks b p).
  rewrite attacks_copy. destruct (attacks b p); [ cbn [rbind]; apply IH | reflexivity ].
Qed.

Lemma checkForCheck_copy b attacker :
  _checkForCheck (copyOfBoard b) attacker = _checkForCheck b attacker.
Proof.
  unfold _checkForCheck. rewrite pieces_copy, !filter_detach by reflexivity.
  rewrite attackedSquares_copy.
  destruct (List.filter _ (piecesStillOnBoard b)) as [|k rest]; reflexivity.
Qed.

Lemma copyOfBoard_again b : copyOfBoard (copyOfBoard b) = copyOfBoard b.
Proof.
  unfold copyOfBoard. cbn [size _grid]. f_equal. rewrite map_map. apply map_ext.
  intros row. rewrite map_map. apply map_ext. intros [p|]; reflexivity.
Qed.

Lemma checkedMoves_copy b black moves :
  checkedMoves (copyOfBoard b) black moves = checkedMoves b black moves.
Proof.
  induction moves as [|m moves IH]; [ reflexivity | ].
  cbn [checkedMoves]. rewrite IH. f_equal.
  unfold checkedMove, simulate. rewrite copyOfBoard_again, pieceAtLabel_copy.
  destruct (move (fromSquare m) (toSquare m) (copyOfBoard b)) as [[captured|e] copyBoard];
    [ | reflexivity ].
  cbn [rbind]. destruct (_checkForCheck copyBoard (negb black)) as [[|]|]; try reflexivity.
  cbn [rbind]. destruct (pieceAtLabel b (Some (fromSquare m))) as [[p|]|]; reflexivity.
Qed.

(** X9.  A copy made by Board.copyOfBoard answers as the original does.  It
    has the same size; a label names on it a piece of the same class, colour,
    position and grid reference as the piece that the label names on the
    original, no piece where the original has none, and is refused with the
    same error where the original refuses it; and piecesScore,
    possibleMoves, _checkForCheck and the legality filter return on the copy
    what they return on the original, for either colour. *)
Theorem copyOfBoard_same_answers (b : Board) :
  size (copyOfBoard b) = size b
  /\ (forall l,
        match pieceAtLabel b l, pieceAtLabel (copyOfBoard b) l with
        | Ok (Some p), Ok (Some q) =>
            kind q = kind p /\ _isBlack q = _isBlack p
            /\ _currentPosition q = _currentPosition p
            /\ gridReference q = gridReference p
        | Ok None, Ok None => True
        | Raise e, Raise e' => e' = e
        | _, _ => False
        end)
  /\ piecesScore (copyOfBoard b) = piecesScore b
  /\ forall black,
       possibleMoves (copyOfBoard b) black = possibleMoves b black
       /\ _checkForCheck (copyOfBoard b) black = _checkForCheck b black
       /\ _movesWithThoseLeavingCheckDisallowed (copyOfBoard b) black
          = _movesWithThoseLeavingCheckDisallowed b black.
Proof.
  split; [ reflexivity | ]. split; [ | split ].
  - intros l. rewrite pieceAtLabel_copy.
    destruct (pieceAtLabel b l) as [[p|]|e]; cbn [option_map]; auto.
  - unfold piecesScore. rewrite pieces_copy. apply sum_scores_detach.
  - intros black. split; [ apply possibleMoves_copy | ].
    split; [ apply checkForCheck_copy | ].
    unfold _movesWithThoseLeavingCheckDisallowed. rewrite possibleMoves_copy.
    destruct (possibleMoves b black) as [moves|]; [ | reflexivity ]. cbn [rbind].
    apply checkedMoves_copy.
Qed.

Lemma copyOfBoard_same_answers_witness :
  exists moves,
    _movesWithThoseLeavingCheckDisallowed (copyOfBoard pinnedRook) false = Ok moves
    /\ _movesWithThoseLeavingCheckDisallowed pinnedRook false = Ok moves
    /\ length moves = 17%nat
    /\ piecesScore (copyOfBoard pinnedRook) = piecesScore pinnedRook.
Proof.
  assert (Hwf : wellFormed pinnedRook) by (apply wellFormedb_wellFormed; vm_compute; reflexivity).
  assert (HK : hasKing pinnedRook false) by (apply hasKingb_hasKing; vm_compute; reflexivity).
  destruct (copyOfBoard_same_answers pinnedRook) as (_ & _ & Hscore & Hmoves).
  destruct (Hmoves false) as (_ & _ & Hfilter).
  destruct (filter_total pinnedRook false Hwf HK) as (moves & Hm).
  exists moves. split; [ rewrite Hfilter; exact Hm | ]. split; [ exact Hm | ].
  split; [ | exact Hscore ].
  vm_compute in Hm. inversion Hm. reflexivity.
Defined.

(** ** How the pieces move *)

Lemma steps_one rc d : steps rc d 1 = offset rc d.
Proof. unfold steps, offset. f_equal; lia. Qed.

Lemma steps_succ rc d k : steps (offset rc d) d k = steps rc d (k + 1).
Proof. unfold steps, offset. cbn [fst snd]. f_equal; lia. Qed.

Lemma slides_off_board b black multiple rc d k :
  ~ inside (offset rc d) -> ~ slides b black multiple rc d k.
Proof.
  intros Hout (Hk & _ & Hway & Hin & _).
  destruct (Z.eq_dec k 1) as [-> | Hne].
  - rewrite steps_one in Hin. contradiction.
  - destruct (Hway 1) as [H1 _]; [ lia | ]. rewrite steps_one in H1. contradiction.
Qed.

Lemma slides_blocked b black multiple rc d k q :
  cell b (offset rc d) = Some q -> slides b black multiple rc d k ->
  k = 1 /\ _isBlack q <> black.
Proof.
  intros Hq (Hk & _ & Hway & _ & Hend).
  destruct (Z.eq_dec k 1) as [-> | Hne].
  - rewrite steps_one, Hq in Hend. auto.
  - destruct (Hway 1) as [_ H1]; [ lia | ]. rewrite steps_one, Hq in H1. discriminate.
Qed.

Lemma slides_one b black multiple rc d :
  inside (offset rc d) ->
  match cell b (offset rc d) with None => True | Some q => _isBlack q <> black end ->
  slides b black multiple rc d 1.
Proof.
  intros Hin Hend. unfold slides. rewrite steps_one.
  split; [ lia | ]. split; [ reflexivity | ]. split; [ intros j Hj; lia | ]. auto.
Qed.

Lemma slides_further b black rc d k :
  inside (offset rc d) -> cell b (offset rc d) = None -> 1 <= k ->
  (slides b black true (offset rc d) d k <-> slides b black true rc d (k + 1)).
Proof.
  intros Hin Hempty Hk. unfold slides. split.
  - intros (_ & _ & Hway & Hend). rewrite steps_succ in Hend.
    split; [ lia | ]. split; [ discriminate | ]. split; [ | exact Hend ].
    intros j Hj. destruct (Z.eq_dec j 1) as [-> | Hne].
    + rewrite steps_one. auto.
    + specialize (Hway (j - 1)). rewrite steps_succ in Hway.
      replace (j - 1 + 1) with j in Hway by lia. apply Hway. lia.
  - intros (_ & _ & Hway & Hend). rewrite <- steps_succ in Hend.
    split; [ lia | ]. split; [ discriminate | ]. split; [ | exact Hend ].
    intros j Hj. rewrite steps_succ. apply Hway. lia.
Qed.

(** The loop of one direction: what it adds are the squares to which the
    piece slides in that direction. *)
Lemma walk_slides b black multiple d :
  chessboard b -> fst d <> 0 \/ snd d <> 0 ->
  forall fuel rc moves,
    inside rc -> stepsLeft d rc <= Z.of_nat fuel ->
    exists sq, walk fuel b black multiple d (square rc) moves = Ok (moves ++ sq)
               /\ forall s, In s sq <->
                    exists k, slides b black multiple rc d k /\ s = square (steps rc d k).
Proof.
  intros Hb Hd. induction fuel as [|fuel IH]; intros rc moves Hi Hfuel.
  - pose proof (stepsLeft_inside d rc Hi). lia.
  - cbn [walk]. unfold positionOffset. rewrite (offset_square b rc d Hb Hi). cbn [rbind].
    destruct (insideb (offset rc d)) eqn:Ein.
    + apply insideb_inside in Ein. rewrite truthy_square.
      rewrite (isEmpty_square b _ Hb Ein). cbn [rbind].
      destruct (cell b (offset rc d)) as [q|] eqn:Ecell.
      * rewrite (isBlack_square b _ Hb Ein), Ecell. cbn [rbind option_map].
        destruct (Bool.eqb (_isBlack q) black) eqn:Eq; cbn [negb].
        -- exists []. rewrite app_nil_r. split; [ reflexivity | ].
           intros s. split; [ intros [] | ]. intros (k & Hk & _).
           destruct (slides_blocked b black multiple rc d k q Ecell Hk) as [_ Hne].
           apply eqb_prop in Eq. contradiction.
        -- exists [square (offset rc d)]. split; [ reflexivity | ].
           assert (Hne : _isBlack q <> black).
           { intros E. rewrite E, eqb_reflx in Eq. discriminate. }
           intros s. split.
           ++ intros [<- | []]. exists 1. rewrite steps_one. split; [ | reflexivity ].
              apply slides_one; [ exact Ein | rewrite Ecell; exact Hne ].
           ++ intros (k & Hk & ->).
              destruct (slides_blocked b black multiple rc d k q Ecell Hk) as [-> _].
              rewrite steps_one. left. reflexivity.
      * assert (Hone : slides b black multiple rc d 1)
          by (apply slides_one; [ exact Ein | rewrite Ecell; exact I ]).
        destruct multiple.
        -- destruct (IH (offset rc d) (moves ++ [square (offset rc d)]) Ein) as (sq & Hw & Hsq).
           { pose proof (stepsLeft_offset d rc Hd). lia. }
           exists (square (offset rc d) :: sq). split.
           { rewrite Hw, <- app_assoc. reflexivity. }
           intros s. split.
           ++ intros [<- | Hin].
              ** exists 1. rewrite steps_one. auto.
              ** apply Hsq in Hin. destruct Hin as (k & Hk & ->).
                 exists (k + 1). rewrite steps_succ. split; [ | reflexivity ].
                 apply (slides_further b black rc d k Ein Ecell); [ apply Hk | exact Hk ].
           ++ intros (k & Hk & ->). destruct (Z.eq_dec k 1) as [-> | Hne].
              ** left. rewrite steps_one. reflexivity.
              ** right. apply Hsq. exists (k - 1).
                 rewrite steps_succ. replace (k - 1 + 1) with k by lia.
                 split; [ | reflexivity ].
                 apply (slides_further b black rc d (k - 1) Ein Ecell).
                 { destruct Hk as [Hk _]. lia. }
                 replace (k - 1 + 1) with k by lia. exact Hk.
        -- exists [square (offset rc d)]. split; [ reflexivity | ].
           intros s. split.
           ++ intros [<- | []]. exists 1. rewrite steps_one. auto.
           ++ intros (k & Hk & ->). destruct Hk as (_ & Hk & _).
              rewrite (Hk eq_refl), steps_one. left. reflexivity.
    + cbn [truthy]. exists []. rewrite app_nil_r. split; [ reflexivity | ].
      intros s. split; [ intros [] | ]. intros (k & Hk & _).
      apply (slides_off_board b black multiple rc d k); [ | exact Hk ].
      intros Hin. apply insideb_inside in Hin. congruence.
Qed.

Lemma for_directions_slides b p rc ds :
  chessboard b -> inside rc -> _currentPosition p = square rc ->
  Forall (fun d : Z * Z => fst d <> 0 \/ snd d <> 0) ds ->
  forall moves,
    exists sq, for_directions b p ds moves = Ok (moves ++ sq)
               /\ forall s, In s sq <->
                    exists d k, In d ds
                                /\ slides b (_isBlack p) (_canMoveMultipleTimes (kind p)) rc d k
                                /\ s = square (steps rc d k).
Proof.
  intros Hb Hi Hp Hds. induction Hds as [|d ds Hd Hds IH]; intros moves.
  - exists []. rewrite app_nil_r. split; [ reflexivity | ].
    intros s. split; [ intros [] | intros (d & k & [] & _) ].
  - cbn [for_directions]. rewrite Hp.
    destruct (walk_slides b (_isBlack p) (_canMoveMultipleTimes (kind p)) d Hb Hd
                (S (length (_grid b))) rc moves Hi) as (sq & Hw & Hsq).
    { pose proof (stepsLeft_inside d rc Hi). destruct Hb as [H8 _]. rewrite H8. lia. }
    rewrite Hw. cbn [rbind].
    destruct (IH (moves ++ sq)) as (sq' & Hf & Hsq').
    exists (sq ++ sq'). split; [ rewrite Hf, <- app_assoc; reflexivity | ].
    intros s. rewrite in_app_iff, Hsq, Hsq'. split.
    + intros [(k & Hk & ->) | (d' & k & Hd' & Hk & ->)].
      * exists d, k. split; [ left; reflexivity | auto ].
      * exists d', k. split; [ right; exact Hd' | auto ].
    + intros (d' & k & [<- | Hd'] & Hk & ->).
      * left. exists k. auto.
      * right. exists d', k. auto.
Qed.

(** X10.  AbstractOfficer.availableSquares (knight, bishop, rook, queen,
    king) on an 8 x 8 board, for a piece standing on a square of the board:
    the call returns, and a square is in the list exactly when the piece
    slides to it along one of its valid directions: every square on the way
    is empty, the square itself is empty or held by a piece of the other
    colour, and a knight or king makes a single step.  So no officer jumps
    over a piece, captures its own colour or leaves the board. *)
Theorem officer_availableSquares (b : Board) (p : Piece) (rc : Z * Z) :
  chessboard b -> inside rc -> _currentPosition p = square rc -> kind p <> Pawn ->
  exists sq,
    availableSquares b p = Ok sq
    /\ forall s, In s sq <->
         exists d k, In d (_validDirections (kind p))
                     /\ slides b (_isBlack p) (_canMoveMultipleTimes (kind p)) rc d k
                     /\ s = square (steps rc d k).
Proof.
  intros Hb Hi Hp Hk.
  destruct (for_directions_slides b p rc (_validDirections (kind p)) Hb Hi Hp
              (validDirections_nonzero _) []) as (sq & Hf & Hsq).
  exists sq. split; [ | exact Hsq ].
  unfold availableSquares. destruct (kind p); try exact Hf. contradiction.
Qed.
Lemma officer_availableSquares_witness :
  chessboard pinnedRook /\ inside (6, 4)
  /\ _currentPosition (mkPiece Rook false "e2" (6, 4) []) = square (6, 4)
  /\ exists sq, availableSquares pinnedRook (mkPiece Rook false "e2" (6, 4) []) = Ok sq
                /\ In "e8" sq.
Proof.
  assert (Hi : inside (6, 4)) by (unfold inside; cbn; lia).
  split; [ exact chessboard_pinnedRook | ]. split; [ exact Hi | ]. split; [ reflexivity | ].
  destruct (officer_availableSquares pinnedRook (mkPiece Rook false "e2" (6, 4) []) (6, 4)
              chessboard_pinnedRook Hi eq_refl) as (sq & Hsq & Hin); [ discriminate | ].
  exists sq. split; [ exact Hsq | ]. apply Hin.
  exists (-1, 0), 6. split; [ cbn; tauto | ]. split; [ | reflexivity ].
  split; [ lia | ]. split; [ discriminate | ]. split.
  - intros j Hj.
    assert (E : j = 1 \/ j = 2 \/ j = 3 \/ j = 4 \/ j = 5) by lia.
    repeat (destruct E as [-> | E]; [ split; [ unfold inside; cbn; lia | reflexivity ] | ]).
    subst j. split; [ unfold inside; cbn; lia | reflexivity ].
  - split; [ unfold inside; cbn; lia | ]. vm_compute. discriminate.
Defined.
Lemma pawnCaptures_spec b p rc :
  chessboard b -> inside rc -> _currentPosition p = square rc ->
  forall ms moves,
    exists sq, pawnCaptures b p ms moves = Ok (moves ++ sq)
               /\ forall s, In s sq <->
                    exists d q, In d ms /\ inside (offset rc d)
                                /\ cell b (offset rc d) = Some q
                                /\ _isBlack q <> _isBlack p
                                /\ s = square (offset rc d).
Proof.
  intros Hb Hi Hp. induction ms as [|d ms IH]; intros moves.
  - exists []. rewrite app_nil_r. split; [ reflexivity | ].
    intros s. split; [ intros [] | intros (d & q & [] & _) ].
  - cbn [pawnCaptures]. rewrite Hp, (offset_square b rc d Hb Hi). cbn [rbind].
    rewrite (pieceAtLabel_offset b rc d Hb Hi). cbn [rbind].
    assert (Hskip : forall moves',
              (forall q, inside (offset rc d) -> cell b (offset rc d) = Some q ->
                         _isBlack q = _isBlack p) ->
              exists sq, pawnCaptures b p ms moves' = Ok (moves' ++ sq)
                /\ forall s, In s sq <->
                     exists d0 q, In d0 (d :: ms) /\ inside (offset rc d0)
                                  /\ cell b (offset rc d0) = Some q
                                  /\ _isBlack q <> _isBlack p
                                  /\ s = square (offset rc d0)).
    { intros moves' Hno. destruct (IH moves') as (sq & Hc & Hsq).
      exists sq. split; [ exact Hc | ]. intros s. rewrite Hsq. split.
      - intros (d0 & q & Hd0 & H). exists d0, q. split; [ right; exact Hd0 | exact H ].
      - intros (d0 & q & [<- | Hd0] & Hin & Hq & Hne & Hs).
        + exfalso. apply Hne. apply Hno; assumption.
        + exists d0, q. auto. }
    destruct (insideb (offset rc d)) eqn:Ein.
    2:{ apply Hskip. intros q Hin. apply insideb_inside in Hin. congruence. }
    apply insideb_inside in Ein.
    destruct (cell b (offset rc d)) as [t|] eqn:Et.
    2:{ apply Hskip. intros q _ Hq. discriminate. }
    destruct (Bool.eqb (_isBlack t) (_isBlack p)) eqn:Eq; cbn [negb].
    { apply Hskip. intros q _ Hq. inversion Hq. subst q. apply eqb_prop. exact Eq. }
    assert (Hne : _isBlack t <> _isBlack p).
    { intros E. rewrite E, eqb_reflx in Eq. discriminate. }
    destruct (IH (moves ++ [square (offset rc d)])) as (sq & Hc & Hsq).
    exists (square (offset rc d) :: sq). split; [ rewrite Hc, <- app_assoc; reflexivity | ].
    intros s. split.
    + intros [<- | Hin].
      * exists d, t. split; [ left; reflexivity | auto ].
      * apply Hsq in Hin. destruct Hin as (d0 & q & Hd0 & H).
        exists d0, q. split; [ right; exact Hd0 | exact H ].
    + intros (d0 & q & [<- | Hd0] & Hin & Hq & Hne' & ->).
      * left. reflexivity.
      * right. apply Hsq. exists d0, q. auto.
Qed.

Lemma square_rank_char rc :
  inside rc ->
  exists rank, str_index (square rc) 1 = Ok rank
               /\ Ascii.eqb rank "7" = (fst rc =? 1)
               /\ Ascii.eqb rank "2" = (fst rc =? 6).
Proof.
  intros [Hr _]. destruct rc as [r c]. cbn [fst] in *.
  assert (Er : r = 0 \/ r = 1 \/ r = 2 \/ r = 3 \/ r = 4 \/ r = 5 \/ r = 6 \/ r = 7) by lia.
  unfold square, gridReferenceToLabelN, str_index. cbn [fst snd String.get].
  repeat (destruct Er as [-> | Er]; [ eexists; repeat split; reflexivity | ]).
  subst r. eexists. repeat split; reflexivity.
Qed.

(** X11.  Pawn.availableSquares on an 8 x 8 board, for a pawn standing on a
    square of the board: the call returns, and a square is in the list
    exactly when it is the square one step ahead and empty, or the square two
    steps ahead with the pawn on its starting row (row 7 for black, row 2 for
    white) and both squares ahead empty, or a square one step ahead on a
    diagonal that holds a piece of the other colour.  So a pawn never goes
    backwards or sideways, never captures straight ahead and never goes to an
    empty diagonal square. *)
Theorem pawn_availableSquares (b : Board) (p : Piece) (rc : Z * Z) :
  chessboard b -> inside rc -> _currentPosition p = square rc -> kind p = Pawn ->
  let one := offset rc (pawnDirection (_isBlack p)) in
  let two := offset one (pawnDirection (_isBlack p)) in
  exists sq,
    availableSquares b p = Ok sq
    /\ forall s, In s sq <->
         (s = square one /\ inside one /\ cell b one = None)
         \/ (s = square two /\ fst rc = pawnStartRow (_isBlack p)
             /\ inside one /\ cell b one = None /\ inside two /\ cell b two = None)
         \/ (exists d q, In d (pawnDiagonals (_isBlack p)) /\ inside (offset rc d)
                         /\ cell b (offset rc d) = Some q
                         /\ _isBlack q <> _isBlack p
                         /\ s = square (offset rc d)).
Proof.
  intros Hb Hi Hp Hk one two. unfold availableSquares. rewrite Hk.
  unfold pawnAvailableSquares.
  destruct (square_rank_char rc Hi) as (rank & Hrank & E7 & E2).
  replace (str_index (_currentPosition p) 1) with (Ok rank) by (rewrite Hp; symmetry; exact Hrank).
  cbn [rbind]. rewrite E7, E2.
  assert (Etwo : (_isBlack p && (fst rc =? 1)) || (negb (_isBlack p) && (fst rc =? 6))
                 = (fst rc =? pawnStartRow (_isBlack p))).
  { unfold pawnStartRow. destruct (_isBlack p); cbn [andb negb orb];
      [ apply orb_false_r | reflexivity ]. }
  rewrite Etwo.
  change (if _isBlack p then (1, 0) else (-1, 0)) with (pawnDirection (_isBlack p)).
  replace (_positionXandYFrom b (_currentPosition p) (pawnDirection (_isBlack p)))
    with (Ok (if insideb one then Some (square one) else None) : result (option label))
    by (rewrite Hp; symmetry; apply offset_square; assumption).
  cbn [rbind].
  assert (Hfwd : exists moves,
    match truthy (if insideb one then Some (square one) else None) with
    | None => Ok []
    | Some s1 =>
        try! e := isEmpty b s1 in
        if e then
          if fst rc =? pawnStartRow (_isBlack p) then
            try! s' := _positionXandYFrom b s1 (pawnDirection (_isBlack p)) in
            match truthy s' with
            | None => Ok [s1]
            | Some s2 =>
                try! e2 := isEmpty b s2 in
                if e2 then Ok [s1; s2] else Ok [s1]
            end
          else Ok [s1]
        else Ok []
    end = Ok moves
    /\ forall s, In s moves <->
         (s = square one /\ inside one /\ cell b one = None)
         \/ (s = square two /\ fst rc = pawnStartRow (_isBlack p)
             /\ inside one /\ cell b one = None /\ inside two /\ cell b two = None)).
  { destruct (insideb one) eqn:E1.
    2:{ exists []. split; [ reflexivity | ]. intros s. split; [ intros [] | ].
        intros [(_ & Hin & _) | (_ & _ & Hin & _)]; apply insideb_inside in Hin; congruence. }
    apply insideb_inside in E1. rewrite truthy_square, (isEmpty_square b _ Hb E1). cbn [rbind].
    destruct (cell b one) as [q|] eqn:Ec1.
    { exists []. split; [ reflexivity | ]. intros s. split; [ intros [] | ].
      intros [(_ & _ & H) | (_ & _ & _ & H & _)]; discriminate. }
    destruct (fst rc =? pawnStartRow (_isBlack p)) eqn:Estart.
    2:{ exists [square one]. split; [ reflexivity | ]. intros s. split.
        - intros [<- | []]. left. auto.
        - intros [(-> & _) | (_ & Hs & _)]; [ left; reflexivity | ].
          apply Z.eqb_neq in Estart. contradiction. }
    apply Z.eqb_eq in Estart.
    rewrite (offset_square b one (pawnDirection (_isBlack p)) Hb E1). cbn [rbind].
    fold two.
    destruct (insideb two) eqn:E2'.
    2:{ exists [square one]. split; [ reflexivity | ]. intros s. split.
        - intros [<- | []]. left. auto.
        - intros [(-> & _) | (_ & _ & _ & _ & Hin & _)]; [ left; reflexivity | ].
          apply insideb_inside in Hin. congruence. }
    apply insideb_inside in E2'. rewrite truthy_square, (isEmpty_square b _ Hb E2'). cbn [rbind].
    destruct (cell b two) as [q2|] eqn:Ec2.
    { exists [square one]. split; [ reflexivity | ]. intros s. split.
      - intros [<- | []]. left. auto.
      - intros [(-> & _) | (_ & _ & _ & _ & _ & H)]; [ left; reflexivity | discriminate ]. }
    exists [square one; square two]. split; [ reflexivity | ]. intros s. split.
    - intros [<- | [<- | []]]; [ left; auto | right; auto 10 ].
    - intros [(-> & _) | (-> & _)]; [ left; reflexivity | right; left; reflexivity ]. }
  destruct Hfwd as (moves & -> & Hmoves). cbn [rbind].
  destruct (pawnCaptures_spec b p rc Hb Hi Hp (pawnDiagonals (_isBlack p)) moves)
    as (sq & -> & Hsq).
  eexists. split; [ reflexivity | ].
  intros s. rewrite in_app_iff, Hmoves, Hsq. tauto.
Qed.

Lemma pawn_availableSquares_witness :
  chessboard (_board (snd startedGame)) /\ inside (6, 4)
  /\ exists sq,
       availableSquares (_board (snd startedGame)) (mkPiece Pawn false "e2" (6, 4) []) = Ok sq
       /\ In "e4" sq.
Proof.
  assert (Hb : chessboard (_board (snd startedGame))).
  { split; [ reflexivity | ]. intros row Hrow. vm_compute in Hrow.
    repeat (destruct Hrow as [<- | Hrow]; [ reflexivity | ]). destruct Hrow. }
  assert (Hi : inside (6, 4)) by (unfold inside; cbn; lia).
  split; [ exact Hb | ]. split; [ exact Hi | ].
  destruct (pawn_availableSquares (_board (snd startedGame)) (mkPiece Pawn false "e2" (6, 4) [])
              (6, 4) Hb Hi eq_refl eq_refl) as (sq & Hsq & Hin).
  exists sq. split; [ exact Hsq | ]. apply Hin. right. left.
  split; [ reflexivity | ]. split; [ reflexivity | ].
  split; [ unfold inside; cbn; lia | ]. split; [ vm_compute; reflexivity | ].
  split; [ unfold inside; cbn; lia | vm_compute; reflexivity ].
Defined.

Lemma pawnAttacks_spec b p rc :
  chessboard b -> inside rc -> _currentPosition p = square rc ->
  forall ms moves,
    exists sq, pawnAttacks b p ms moves = Ok (moves ++ sq)
               /\ forall s, In s sq <->
                    exists d, In d ms /\ inside (offset rc d) /\ s = square (offset rc d).
Proof.
  intros Hb Hi Hp. induction ms as [|d ms IH]; intros moves.
  - exists []. rewrite app_nil_r. split; [ reflexivity | ].
    intros s. split; [ intros [] | intros (d & [] & _) ].
  - cbn [pawnAttacks]. rewrite Hp, (offset_square b rc d Hb Hi). cbn [rbind].
    destruct (insideb (offset rc d)) eqn:Ein.
    + rewrite truthy_square. apply insideb_inside in Ein.
      destruct (IH (moves ++ [square (offset rc d)])) as (sq & Hc & Hsq).
      exists (square (offset rc d) :: sq). split; [ rewrite Hc, <- app_assoc; reflexivity | ].
      intros s. split.
      * intros [<- | Hin]; [ exists d; split; [ left; reflexivity | auto ] | ].
        apply Hsq in Hin. destruct Hin as (d0 & Hd0 & H). exists d0. split; [ right; exact Hd0 | exact H ].
      * intros (d0 & [<- | Hd0] & Hin & ->); [ left; reflexivity | ].
        right. apply Hsq. exists d0. auto.
    + cbn [truthy]. destruct (IH moves) as (sq & Hc & Hsq).
      exists sq. split; [ exact Hc | ]. intros s. rewrite Hsq. split.
      * intros (d0 & Hd0 & H). exists d0. split; [ right; exact Hd0 | exact H ].
      * intros (d0 & [<- | Hd0] & Hin & Hs).
        -- apply insideb_inside in Hin. congruence.
        -- exists d0. auto.
Qed.

(** X12.  Pawn.attackingSquares on an 8 x 8 board, for a pawn standing on a
    square of the board: the call returns the squares one step ahead on the
    two diagonals that are on the board, whatever stands on them and on the
    square ahead. *)
Theorem pawn_attackingSquares (b : Board) (p : Piece) (rc : Z * Z) :
  chessboard b -> inside rc -> _currentPosition p = square rc ->
  exists sq,
    attackingSquares b p = Ok sq
    /\ forall s, In s sq <->
         exists d, In d (pawnDiagonals (_isBlack p)) /\ inside (offset rc d)
                   /\ s = square (offset rc d).
Proof.
  intros Hb Hi Hp.
  destruct (pawnAttacks_spec b p rc Hb Hi Hp (pawnDiagonals (_isBlack p)) [])
    as (sq & Hsq & Hin).
  exists sq. split; [ exact Hsq | exact Hin ].
Qed.

Lemma pawn_attackingSquares_witness :
  chessboard pinnedRook /\ inside (6, 0)
  /\ exists sq, attackingSquares pinnedRook (mkPiece Pawn false "a2" (6, 0) []) = Ok sq
                /\ (forall s, In s sq <-> s = "b3").
Proof.
  assert (Hi : inside (6, 0)) by (unfold inside; cbn; lia).
  split; [ exact chessboard_pinnedRook | ]. split; [ exact Hi | ].
  destruct (pawn_attackingSquares pinnedRook (mkPiece Pawn false "a2" (6, 0) []) (6, 0)
              chessboard_pinnedRook Hi eq_refl) as (sq & Hsq & Hin).
  exists sq. split; [ exact Hsq | ]. intros s. rewrite Hin. split.
  - intros (d & [<- | [<- | []]] & Hd & ->); [ reflexivity | ].
    unfold inside in Hd. cbn in Hd. lia.
  - intros ->. exists (-1, 1). split; [ left; reflexivity | ].
    split; [ unfold inside; cbn; lia | reflexivity ].
Defined.

Lemma validLabel_square b rc : length (_grid b) = 8%nat -> inside rc -> validLabel b (square rc).
Proof.
  intros H8 [Hr Hc]. exists (chr (ord_a + snd rc)), (8 - fst rc).
  split; [ | split; [ | reflexivity ] ].
  - unfold validColumns. rewrite H8. apply in_map_iff.
    exists (Z.to_nat (snd rc)). split; [ rewrite Z2Nat.id by lia; reflexivity | apply in_seq; lia ].
  - unfold validRows. rewrite H8. apply in_map_iff.
    exists (Z.to_nat (8 - fst rc)). split; [ apply Z2Nat.id; lia | apply in_seq; lia ].
Qed.

(** X13.  availableSquares of any piece standing on its square of a
    well-formed 8 x 8 board: the call returns, and every square of the list
    is a valid label of the board that is empty or holds a piece of the other
    colour; the list never holds the square the piece stands on. *)
Theorem availableSquares_targets (b : Board) (p : Piece) :
  wellFormed b -> In p (piecesStillOnBoard b) ->
  exists sq,
    availableSquares b p = Ok sq
    /\ forall s, In s sq ->
         validLabel b s
         /\ s <> _currentPosition p
         /\ exists x, pieceAtLabel b (Some s) = Ok x
                      /\ match x with
                         | None => True
                         | Some q => _isBlack q <> _isBlack p
                         end.
Proof.
  intros Hwf Hp. destruct (wellFormed_position b p Hwf Hp) as (rc & Hi & Hc & Hpos).
  destruct (availableSquares_ok b p rc (proj1 Hwf) Hi Hpos) as (sq & Hsq & Hall).
  exists sq. split; [ exact Hsq | ]. intros s Hs.
  rewrite Forall_forall in Hall. apply list_elem_of_In in Hs.
  destruct (Hall s Hs) as (rc' & Hi' & -> & Hcell).
  split; [ | split ].
  - apply validLabel_square; [ exact (proj1 (proj1 Hwf)) | exact Hi' ].
  - intros E. rewrite Hpos in E.
    assert (Erc : rc' = rc).
    { pose proof (label_square b rc' (proj1 Hwf) Hi') as H1.
      rewrite E, (label_square b rc (proj1 Hwf) Hi) in H1. congruence. }
    subst rc'. rewrite Hc in Hcell. contradiction.
  - exists (cell b rc'). split; [ apply pieceAtLabel_square; [ exact (proj1 Hwf) | exact Hi' ] | ].
    exact Hcell.
Qed.

Lemma availableSquares_targets_witness :
  wellFormed pinnedRook
  /\ In (mkPiece Rook false "e2" (6, 4) []) (piecesStillOnBoard pinnedRook)
  /\ exists sq,
       availableSquares pinnedRook (mkPiece Rook false "e2" (6, 4) []) = Ok sq
       /\ forall s, In s sq -> s <> "e2".
Proof.
  assert (Hwf : wellFormed pinnedRook) by (apply wellFormedb_wellFormed; vm_compute; reflexivity).
  assert (Hp : In (mkPiece Rook false "e2" (6, 4) []) (piecesStillOnBoard pinnedRook))
    by (vm_compute; tauto).
  split; [ exact Hwf | ]. split; [ exact Hp | ].
  destruct (availableSquares_targets pinnedRook _ Hwf Hp) as (sq & Hsq & Hall).
  exists sq. split; [ exact Hsq | ]. intros s Hs. exact (proj1 (proj2 (Hall s Hs))).
Defined.
(** ** The move calculator *)

Lemma attackedSquares_attacks b pieces :
  forall aSquares res,
    attackedSquares b pieces aSquares = Ok res ->
    forall s, In s res <->
      In s aSquares \/ exists p sq, In p pieces /\ attacks b p = Ok sq /\ In s sq.
Proof.
  induction pieces as [|p pieces IH]; intros aSquares res H s; cbn [attackedSquares] in H.
  - inversion H. subst res. split; [ auto | ]. intros [Hs | (p & sq & [] & _)]. exact Hs.
  - fold (attacks b p) in H.
    destruct (attacks b p) as [sq|] eqn:Ea; [ | discriminate ]. cbn [rbind] in H.
    rewrite (IH _ _ H s), in_app_iff. split.
    + intros [[Hs | Hs] | (q & sq' & Hq & Hsq & Hs)].
      * left. exact Hs.
      * right. exists p, sq. split; [ left; reflexivity | auto ].
      * right. exists q, sq'. split; [ right; exact Hq | auto ].
    + intros [Hs | (q & sq' & [<- | Hq] & Hsq & Hs)].
      * left. left. exact Hs.
      * left. right. rewrite Ea in Hsq. inversion Hsq. subst sq'. exact Hs.
      * right. exists q, sq'. auto.
Qed.

Lemma hasKing_defenderKings b attacker :
  hasKing b (negb attacker) <-> defenderKings b attacker <> [].
Proof.
  unfold hasKing, defenderKings. split.
  - intros (k & Hin & Hk & Hc) E.
    assert (H : In k (List.filter (fun p => Kind_eqb (kind p) King
                                   && negb (Bool.eqb (_isBlack p) attacker))
                                  (piecesStillOnBoard b))).
    { apply filter_In. split; [ exact Hin | ]. rewrite Hk, Hc. destruct attacker; reflexivity. }
    rewrite E in H. destruct H.
  - intros H. destruct (List.filter _ _) as [|k rest] eqn:E; [ contradiction | ].
    assert (Hk : In k (k :: rest)) by (left; reflexivity).
    rewrite <- E in Hk. apply filter_In in Hk. destruct Hk as [Hin Hk].
    apply andb_true_iff in Hk. destruct Hk as [Hk Hc].
    exists k. split; [ exact Hin | ]. split.
    + destruct (kind k); try discriminate. reflexivity.
    + destruct (_isBlack k), attacker; try discriminate; reflexivity.
Qed.

(** X14.  _checkForCheck and a missing king: on any board on which the
    defending side has no king the call raises IndexError (the list of the
    defender's kings has no first element); on a well-formed 8 x 8 board on
    which the defending side has a king it returns a truth value. *)
Theorem checkForCheck_needs_king (b : Board) (attackerIsBlack : bool) :
  (~ hasKing b (negb attackerIsBlack) -> _checkForCheck b attackerIsBlack = Raise IndexError)
  /\ (wellFormed b -> hasKing b (negb attackerIsBlack) ->
      exists inCheck, _checkForCheck b attackerIsBlack = Ok inCheck).
Proof.
  split.
  - intros Hno. unfold _checkForCheck. fold (defenderKings b attackerIsBlack).
    destruct (defenderKings b attackerIsBlack) as [|k rest] eqn:E; [ reflexivity | ].
    exfalso. apply Hno. apply hasKing_defenderKings. rewrite E. discriminate.
  - intros Hwf HK.
    destruct (checkForCheck_ok b (negb attackerIsBlack) Hwf HK) as (inCheck & H).
    rewrite negb_involutive in H. eauto.
Qed.

Lemma checkForCheck_needs_king_witness :
  ~ hasKing (newBoard 8) (negb true)
  /\ _checkForCheck (newBoard 8) true = Raise IndexError
  /\ wellFormed pinnedRook /\ hasKing pinnedRook (negb true)
  /\ exists inCheck, _checkForCheck pinnedRook true = Ok inCheck.
Proof.
  assert (Hno : ~ hasKing (newBoard 8) (negb true)).
  { intros (k & Hin & _). vm_compute in Hin. exact Hin. }
  assert (Hwf : wellFormed pinnedRook) by (apply wellFormedb_wellFormed; vm_compute; reflexivity).
  assert (HK : hasKing pinnedRook (negb true)) by (apply hasKingb_hasKing; vm_compute; reflexivity).
  split; [ exact Hno | ].
  split; [ exact (proj1 (checkForCheck_needs_king (newBoard 8) true) Hno) | ].
  split; [ exact Hwf | ]. split; [ exact HK | ].
  exact (proj2 (checkForCheck_needs_king pinnedRook true) Hwf HK).
Defined.

(** X15.  What _checkForCheck answers: on a well-formed 8 x 8 board whose
    first king of the defending side is k, the call returns True exactly when
    the position of k is among the squares attacked by some piece of the
    attacking side that is on the board: the squares of attackingSquares for
    a pawn, of availableSquares for any other piece. *)
Theorem checkForCheck_attacked (b : Board) (attackerIsBlack : bool) (k : Piece)
    (others : list Piece) :
  wellFormed b -> defenderKings b attackerIsBlack = k :: others ->
  exists inCheck,
    _checkForCheck b attackerIsBlack = Ok inCheck
    /\ (inCheck = true <->
        exists p sq, In p (piecesStillOnBoard b) /\ _isBlack p = attackerIsBlack
                     /\ attacks b p = Ok sq /\ In (_currentPosition k) sq).
Proof.
  intros Hwf Hk.
  assert (HK : hasKing b (negb attackerIsBlack)).
  { apply hasKing_defenderKings. rewrite Hk. discriminate. }
  destruct (checkForCheck_ok b (negb attackerIsBlack) Hwf HK) as (inCheck & H).
  rewrite negb_involutive in H. exists inCheck. split; [ exact H | ].
  unfold _checkForCheck in H. fold (defenderKings b attackerIsBlack) in H. rewrite Hk in H.
  destruct (attackedSquares b _ []) as [aSquares|] eqn:Ea; [ | discriminate ].
  cbn [rbind] in H. inversion H as [Hin]. clear H.
  rewrite mem_str_In, (attackedSquares_attacks b _ _ _ Ea). split.
  - intros [[] | (p & sq & Hp & Hsq & Hs)].
    apply filter_In in Hp. destruct Hp as [Hp Hc]. apply eqb_prop in Hc.
    exists p, sq. auto.
  - intros (p & sq & Hp & Hc & Hsq & Hs). right. exists p, sq.
    split; [ | auto ]. apply filter_In. split; [ exact Hp | ]. rewrite Hc. apply eqb_reflx.
Qed.

Lemma checkForCheck_attacked_witness :
  wellFormed pinnedRook
  /\ defenderKings pinnedRook true = [mkPiece King false "e1" (7, 4) []]
  /\ _checkForCheck pinnedRook true = Ok false
  /\ ~ exists p sq, In p (piecesStillOnBoard pinnedRook) /\ _isBlack p = true
                    /\ attacks pinnedRook p = Ok sq /\ In "e1" sq.
Proof.
  assert (Hwf : wellFormed pinnedRook) by (apply wellFormedb_wellFormed; vm_compute; reflexivity).
  assert (Hk : defenderKings pinnedRook true = [mkPiece King false "e1" (7, 4) []])
    by (vm_compute; reflexivity).
  assert (Hc : _checkForCheck pinnedRook true = Ok false) by (vm_compute; reflexivity).
  split; [ exact Hwf | ]. split; [ exact Hk | ]. split; [ exact Hc | ].
  destruct (checkForCheck_attacked pinnedRook true _ _ Hwf Hk) as (inCheck & H & Hiff).
  rewrite Hc in H. inversion H. subst inCheck.
  intros Hex. apply Hiff in Hex. discriminate.
Defined.

Lemma movesTo_spec p black am ms :
  movesTo p black am = Ok ms ->
  forall m, In m ms <->
    exists s, In s am
              /\ newChessMove (_currentPosition p) s (description (kind p)) black PlainMove = Ok m.
Proof.
  revert ms. induction am as [|s am IH]; intros ms H m; cbn [movesTo] in H.
  - inversion H. split; [ intros [] | intros (s & [] & _) ].
  - destruct (newChessMove (_currentPosition p) s (description (kind p)) black PlainMove)
      as [mv|] eqn:E; [ | discriminate ]. cbn [rbind] in H.
    destruct (movesTo p black am) as [rest|]; [ | discriminate ]. cbn [rbind] in H.
    inversion H. subst ms. split.
    + intros [<- | Hin].
      * exists s. split; [ left; reflexivity | exact E ].
      * apply (IH rest eq_refl) in Hin. destruct Hin as (s' & Hs' & E').
        exists s'. split; [ right; exact Hs' | exact E' ].
    + intros (s' & [<- | Hs'] & E').
      * left. congruence.
      * right. apply (IH rest eq_refl). exists s'. auto.
Qed.

Lemma movesOfPieces_spec b black pieces ms :
  movesOfPieces b black pieces = Ok ms ->
  forall m, In m ms <->
    exists p sq s, In p pieces /\ availableSquares b p = Ok sq /\ In s sq
                   /\ newChessMove (_currentPosition p) s (description (kind p)) black PlainMove
                      = Ok m.
Proof.
  revert ms. induction pieces as [|p pieces IH]; intros ms H m; cbn [movesOfPieces] in H.
  - inversion H. split; [ intros [] | intros (p & sq & s & [] & _) ].
  - destruct (availableSquares b p) as [am|] eqn:Ea; [ | discriminate ]. cbn [rbind] in H.
    destruct (movesTo p black am) as [mine|] eqn:Em; [ | discriminate ]. cbn [rbind] in H.
    destruct (movesOfPieces b black pieces) as [more|]; [ | discriminate ]. cbn [rbind] in H.
    inversion H. subst ms. rewrite in_app_iff, (movesTo_spec p black am mine Em m),
      (IH more eq_refl m). split.
    + intros [(s & Hs & E) | (q & sq & s & Hq & Hsq & Hs & E)].
      * exists p, am, s. split; [ left; reflexivity | auto ].
      * exists q, sq, s. split; [ right; exact Hq | auto ].
    + intros (q & sq & s & [<- | Hq] & Hsq & Hs & E).
      * left. rewrite Ea in Hsq. inversion Hsq. subst sq. exists s. auto.
      * right. exists q, sq, s. auto.
Qed.

(** X16.  BasicChessMoveCalculator.possibleMoves on a well-formed 8 x 8
    board returns, and its moves are exactly the ChessMove objects made from
    the position of a piece of the given colour on the board to a square of
    that piece's availableSquares, with the piece's description; none of them
    is disallowed or carries a warning. *)
Theorem possibleMoves_spec (b : Board) (black : bool) :
  wellFormed b ->
  exists moves,
    possibleMoves b black = Ok moves
    /\ (forall m, In m moves <->
          exists p sq s, In p (piecesStillOnBoard b) /\ _isBlack p = black
                         /\ availableSquares b p = Ok sq /\ In s sq
                         /\ newChessMove (_currentPosition p) s (description (kind p)) black
                                         PlainMove = Ok m)
    /\ forall m, In m moves -> disallowed m = false /\ warning m = None.
Proof.
  intros Hwf. destruct (possibleMoves_ok b black Hwf) as (ms & Hms & _).
  exists ms. split; [ exact Hms | ]. unfold possibleMoves in Hms.
  pose proof (movesOfPieces_spec b black _ ms Hms) as Hspec. split.
  - intros m. rewrite (Hspec m). split.
    + intros (p & sq & s & Hp & H). apply filter_In in Hp. destruct Hp as [Hp Hc].
      apply eqb_prop in Hc. exists p, sq, s. auto.
    + intros (p & sq & s & Hp & Hc & H). exists p, sq, s. split; [ | exact H ].
      apply filter_In. split; [ exact Hp | ]. rewrite Hc. apply eqb_reflx.
  - intros m Hm. apply Hspec in Hm. destruct Hm as (p & sq & s & _ & _ & _ & E).
    unfold newChessMove in E.
    destruct (squareRC (_currentPosition p)); [ | discriminate ].
    destruct (squareRC s); [ | discriminate ]. cbn [rbind] in E.
    inversion E. split; reflexivity.
Qed.

Lemma possibleMoves_spec_witness :
  wellFormed pinnedRook
  /\ exists moves, possibleMoves pinnedRook false = Ok moves
                   /\ forall m, In m moves -> disallowed m = false /\ warning m = None.
Proof.
  assert (Hwf : wellFormed pinnedRook) by (apply wellFormedb_wellFormed; vm_compute; reflexivity).
  split; [ exact Hwf | ].
  destruct (possibleMoves_spec pinnedRook false Hwf) as (moves & Hm & _ & Hfresh).
  exists moves. split; [ exact Hm | exact Hfresh ].
Defined.

(** ** Scores *)

(** X17.  AbstractPiece.score of a piece made on a square of the board: the
    call returns the base score of the class plus the adjustment of the
    square; the score of a white piece is positive, that of a black piece
    negative, and it is at most 1004 in size. *)
Theorem score_sign (k : Kind) (black : bool) (rc : Z * Z) :
  inside rc ->
  exists p s,
    newPiece k black (square rc) = Ok p
    /\ gridReference p = rc
    /\ score p = Ok s
    /\ (if black then -1004 <= s < 0 else 0 < s <= 1004).
Proof.
  intros [Hr Hc]. destruct rc as [r c]. cbn [fst snd] in *.
  assert (Er : r = 0 \/ r = 1 \/ r = 2 \/ r = 3 \/ r = 4 \/ r = 5 \/ r = 6 \/ r = 7) by lia.
  assert (Ec : c = 0 \/ c = 1 \/ c = 2 \/ c = 3 \/ c = 4 \/ c = 5 \/ c = 6 \/ c = 7) by lia.
  repeat (destruct Er as [-> | Er]); try subst r;
    repeat (destruct Ec as [-> | Ec]); try subst c;
    destruct k, black; eexists; eexists;
    (split; [ vm_compute; reflexivity | ]);
    (split; [ reflexivity | ]);
    (split; [ vm_compute; reflexivity | ]); lia.
Qed.

Lemma score_sign_witness :
  inside (7, 3)
  /\ exists s, score (mkPiece Queen false "d1" (7, 3) []) = Ok s /\ 0 < s <= 1004.
Proof.
  assert (Hi : inside (7, 3)) by (unfold inside; cbn; lia).
  split; [ exact Hi | ].
  destruct (score_sign Queen false (7, 3) Hi) as (p & s & Hp & _ & Hs & Hsign).
  vm_compute in Hp. inversion Hp. subst p. exists s. split; [ exact Hs | exact Hsign ].
Defined.

(** ** The game: what a call of makeMove changes *)

Lemma sameTurn_refl g : sameTurn g g.
Proof. unfold sameTurn. auto. Qed.

Lemma sameTurn_trans g1 g2 g3 : sameTurn g1 g2 -> sameTurn g2 g3 -> sameTurn g1 g3.
Proof. unfold sameTurn. intros (A1 & A2 & A3 & A4) (B1 & B2 & B3 & B4). repeat split; congruence. Qed.

Lemma keepsTurn_bind {A B} (m : M ChessGame A) (k : A -> M ChessGame B) :
  keepsTurn m -> (forall a, keepsTurn (k a)) -> keepsTurn (bind m k).
Proof.
  intros Hm Hk g. unfold bind. specialize (Hm g).
  destruct (m g) as [[a|e] g1]; cbn [snd] in *; [ | exact Hm ].
  eapply sameTurn_trans; [ exact Hm | apply Hk ].
Qed.

Lemma keepsTurn_ret {A} (a : A) : keepsTurn (ret a).
Proof. intros g. apply sameTurn_refl. Qed.
Lemma keepsTurn_raise {A} e : keepsTurn (@raise ChessGame A e).
Proof. intros g. apply sameTurn_refl. Qed.
Lemma keepsTurn_lift {A} (r : result A) : keepsTurn (lift r).
Proof. intros g. apply sameTurn_refl. Qed.
Lemma keepsTurn_notify n : keepsTurn (notify n).
Proof. intros g. unfold sameTurn. cbn. auto. Qed.
Lemma keepsTurn_onBoard {A} (m : M Board A) : keepsTurn (onBoard m).
Proof. intros g. unfold onBoard. destruct (m (_board g)). unfold sameTurn. cbn. auto. Qed.
Lemma keepsTurn_observersNotified ids : keepsTurn (observersNotified ids).
Proof. intros g. unfold sameTurn. cbn. auto. Qed.
Lemma keepsTurn_setAnalysis a : keepsTurn (setAnalysis a).
Proof. intros g. unfold sameTurn. cbn. auto. Qed.
Lemma keepsTurn_analyse board mv : keepsTurn (analyse board mv).
Proof.
  intros g. unfold analyse. destruct (_analyseBoard g board mv) as [[[ev a] notes]|];
    unfold sameTurn; cbn; auto.
Qed.

Lemma keepsTurn_promotePawn pawn pieceChoice : keepsTurn (promotePawn pawn pieceChoice).
Proof.
  unfold promotePawn.
  apply keepsTurn_bind.
  - repeat match goal with
           | |- keepsTurn (if ?c then _ else _) => destruct c
           | |- keepsTurn (match ?x with Some _ => _ | None => _ end) => destruct x
           | |- keepsTurn (bind _ _) => apply keepsTurn_bind; [ | intros ]
           | |- _ => first [ apply keepsTurn_lift | apply keepsTurn_raise | apply keepsTurn_notify ]
           end.
  - intros newPiece. destruct pawn; [ | apply keepsTurn_raise ].
    repeat (apply keepsTurn_bind; [ | intros ]);
      first [ apply keepsTurn_onBoard | apply keepsTurn_analyse | apply keepsTurn_setAnalysis ].
Qed.

Lemma bind_ok_inv {S A B} (m : M S A) (k : A -> M S B) s r s' :
  bind m k s = (Ok r, s') -> exists a s1, m s = (Ok a, s1) /\ k a s1 = (Ok r, s').
Proof.
  unfold bind. destruct (m s) as [[a|e] s1]; [ | discriminate ]. intros H. eauto.
Qed.

Lemma keepsTurn_at {A} (m : M ChessGame A) g r g' :
  keepsTurn m -> m g = (r, g') -> sameTurn g g'.
Proof. intros H E. specialize (H g). rewrite E in H. exact H. Qed.

Lemma setStatus_status s g :
  exists g', _setStatus s g = (Ok tt, g')
             /\ _status g' = Some s
             /\ _moveCount g' = _moveCount g
             /\ _player1 g' = _player1 g /\ _player2 g' = _player2 g
             /\ _board g' = _board g /\ _boardAnalysis g' = _boardAnalysis g.
Proof.
  unfold _setStatus, bind, get, put, notify, ret.
  destruct (_status g) as [s0|] eqn:E.
  - destruct (Status_eqb s0 s) eqn:Es.
    + exists g. repeat split; try reflexivity. rewrite E. f_equal.
      destruct s0, s; try discriminate; reflexivity.
    + eexists. split; [ reflexivity | ]. cbn. auto 10.
  - eexists. split; [ reflexivity | ]. cbn. auto 10.
Qed.

(** The part of makeMove that follows the move on the board. *)
Lemma makeMove_after_move player m g event g' :
  bind get (fun g1 =>
    put (with_moveCount g1 (_moveCount g1 + 1)) ;;;
    notify (NMoveMade player m) ;;;
    do! analysis := analyse None (Some m) in
    let event := fst analysis in
    setAnalysis (snd analysis) ;;;
    (if match event with Some EvPawnPromoted => true | _ => false end
     then notify NPawnPromoted else ret tt) ;;;
    (if gameEnding event then _setStatus STATUS_GAME_OVER
     else _setStatus STATUS_IN_PROGRESS) ;;;
    ret event) g = (Ok event, g') ->
  _moveCount g' = _moveCount g + 1
  /\ _player1 g' = _player1 g /\ _player2 g' = _player2 g
  /\ _board g' = _board g
  /\ _status g' = Some (if gameEnding event then STATUS_GAME_OVER else STATUS_IN_PROGRESS)
  /\ exists a, _boardAnalysis g' = Some a.
Proof.
  intros H. unfold bind at 1 in H. unfold get in H.
  unfold bind at 1 in H. unfold put in H.
  unfold bind at 1 in H. unfold notify at 1 in H.
  set (g2 := with_notified (with_moveCount g (_moveCount g + 1)) _) in H.
  apply bind_ok_inv in H. destruct H as ([ev a] & g3 & Ha & H). cbn [fst snd] in H.
  assert (H3 : _moveCount g3 = _moveCount g + 1 /\ _player1 g3 = _player1 g
               /\ _player2 g3 = _player2 g /\ _board g3 = _board g).
  { unfold analyse in Ha. destruct (_analyseBoard g2 None (Some m)) as [[[ev' a'] notes]|];
      [ | discriminate ]. inversion Ha. subst. cbn. auto. }
  unfold bind at 1 in H. unfold setAnalysis in H.
  set (g4 := with_analysis g3 (Some a)) in H.
  apply bind_ok_inv in H. destruct H as ([] & g5 & Hn & H).
  assert (H5 : _moveCount g5 = _moveCount g4 /\ _player1 g5 = _player1 g4
               /\ _player2 g5 = _player2 g4 /\ _board g5 = _board g4
               /\ _boardAnalysis g5 = _boardAnalysis g4).
  { destruct (match ev with Some EvPawnPromoted => true | _ => false end);
      inversion Hn; cbn; auto. }
  apply bind_ok_inv in H. destruct H as ([] & g6 & Hs & H).
  unfold ret in H. inversion H. subst event g6. clear H.
  destruct (setStatus_status (if gameEnding ev then STATUS_GAME_OVER else STATUS_IN_PROGRESS) g5)
    as (g6 & Hs' & S1 & S2 & S3 & S4 & S5 & S6).
  assert (E : (if gameEnding ev then _setStatus STATUS_GAME_OVER
               else _setStatus STATUS_IN_PROGRESS) g5 = (Ok tt, g6)).
  { destruct (gameEnding ev); exact Hs'. }
  rewrite E in Hs. inversion Hs. subst g6.
  destruct H3 as (A1 & A2 & A3 & A4). destruct H5 as (B1 & B2 & B3 & B4 & B5).
  cbn [with_analysis _moveCount _player1 _player2 _board _boardAnalysis g4] in *.
  repeat split; try congruence.
  exists a. rewrite S6, B5. reflexivity.
Qed.
Lemma not_over_guard g :
  _status g <> Some STATUS_GAME_OVER ->
  match _status g with Some s => Status_eqb s STATUS_GAME_OVER | None => false end = false.
Proof.
  intros H. destruct (_status g) as [[]|]; try reflexivity. contradiction H. reflexivity.
Qed.

Lemma onBoard_ok_inv {A} (m : M Board A) g a g' :
  onBoard m g = (Ok a, g') ->
  exists b', m (_board g) = (Ok a, b') /\ g' = with_board g b'.
Proof.
  unfold onBoard. destruct (m (_board g)) as [r b'] eqn:E. intros H. inversion H. subst.
  exists b'. auto.
Qed.

(** X18.  ChessGame.makeMove with a move object that is not a PawnPromotion,
    in a game that is not over: whenever the call returns, the player's
    colour matched the parity of the move count, the move count has grown by
    exactly one, the players are the same, an analysis is stored, and the
    status is GAME_OVER if the event returned is a checkmate or stalemate and
    IN_PROGRESS otherwise; for a plain move the board is the one that
    Board.move made of the old board, whether or not the move was among the
    legal moves of the analysis. *)
Theorem makeMove_counts_move (g g' : ChessGame) (player : Player) (m : ChessMove)
    (event : option Event) :
  movesAPiece (moveClass m) = true ->
  _status g <> Some STATUS_GAME_OVER ->
  makeMove player (MoveObj m) g = (Ok event, g') ->
  b2z (playerIsBlack player) = _moveCount g mod 2
  /\ _moveCount g' = _moveCount g + 1
  /\ _player1 g' = _player1 g /\ _player2 g' = _player2 g
  /\ _status g' = Some (if gameEnding event then STATUS_GAME_OVER else STATUS_IN_PROGRESS)
  /\ (exists a, _boardAnalysis g' = Some a)
  /\ (moveClass m = PlainMove ->
      exists captured,
        move (fromSquare m) (toSquare m) (_board g) = (Ok captured, _board g')).
Proof.
  intros Hcls Hs H. unfold makeMove in H. unfold bind at 1 in H. unfold get in H.
  rewrite (not_over_guard g Hs) in H.
  destruct (b2z (playerIsBlack player) =? _moveCount g mod 2) eqn:Eturn;
    cbn [negb] in H; [ | discriminate ].
  apply Z.eqb_eq in Eturn. split; [ exact Eturn | ].
  assert (Hbody : forall cls,
    movesAPiece cls = true ->
    (do! moved := onBoard (move (fromSquare m) (toSquare m)) in
     observersNotified (snd moved) ;;;
     notify (NMove m) ;;;
     match cls with
     | EnPassant removingPieceAtSquare _ =>
         do! _ := onBoard (remove removingPieceAtSquare) in ret tt
     | _ => ret tt
     end ;;;
     match cls with
     | CastlingMove rookFrom rookTo _ _ _ =>
         do! rook := onBoard (move rookFrom rookTo) in
         observersNotified (snd rook)
     | _ => ret tt
     end ;;;
     do! g1 := get in
     put (with_moveCount g1 (_moveCount g1 + 1)) ;;;
     notify (NMoveMade player m) ;;;
     do! analysis := analyse None (Some m) in
     let event := fst analysis in
     setAnalysis (snd analysis) ;;;
     (if match event with Some EvPawnPromoted => true | _ => false end
      then notify NPawnPromoted else ret tt) ;;;
     (if gameEnding event then _setStatus STATUS_GAME_OVER
      else _setStatus STATUS_IN_PROGRESS) ;;;
     ret event) g = (Ok event, g') ->
    _moveCount g' = _moveCount g + 1
    /\ _player1 g' = _player1 g /\ _player2 g' = _player2 g
    /\ _status g' = Some (if gameEnding event then STATUS_GAME_OVER else STATUS_IN_PROGRESS)
    /\ (exists a, _boardAnalysis g' = Some a)
    /\ (cls = PlainMove ->
        exists captured,
          move (fromSquare m) (toSquare m) (_board g) = (Ok captured, _board g'))).
  { clear H Hcls. intros cls Hcls H.
    apply bind_ok_inv in H. destruct H as (moved & g1 & H1 & H).
    apply bind_ok_inv in H. destruct H as ([] & g2 & H2 & H).
    apply bind_ok_inv in H. destruct H as ([] & g3 & H3 & H).
    apply bind_ok_inv in H. destruct H as ([] & g4 & H4 & H).
    apply bind_ok_inv in H. destruct H as ([] & g5 & H5 & H).
    apply makeMove_after_move in H. destruct H as (A1 & A2 & A3 & A4 & A5 & A6).
    pose proof (keepsTurn_at _ _ _ _ (keepsTurn_onBoard _) H1) as T1.
    pose proof (keepsTurn_at _ _ _ _ (keepsTurn_observersNotified _) H2) as T2.
    pose proof (keepsTurn_at _ _ _ _ (keepsTurn_notify _) H3) as T3.
    assert (T4 : sameTurn g3 g4).
    { destruct cls; try (inversion H4; apply sameTurn_refl).
      eapply keepsTurn_at; [ | exact H4 ].
      apply keepsTurn_bind; [ apply keepsTurn_onBoard | intros; apply keepsTurn_ret ]. }
    assert (T5 : sameTurn g4 g5).
    { destruct cls; try (inversion H5; apply sameTurn_refl).
      eapply keepsTurn_at; [ | exact H5 ].
      apply keepsTurn_bind; [ apply keepsTurn_onBoard | intros; apply keepsTurn_observersNotified ]. }
    pose proof (sameTurn_trans _ _ _ T1 (sameTurn_trans _ _ _ T2
                  (sameTurn_trans _ _ _ T3 (sameTurn_trans _ _ _ T4 T5)))) as (C1 & C2 & C3 & _).
    split; [ lia | ]. split; [ congruence | ]. split; [ congruence | ].
    split; [ exact A5 | ]. split; [ exact A6 | ].
    intros ->. apply onBoard_ok_inv in H1. destruct H1 as (b' & Hmove & ->).
    exists moved. rewrite Hmove. f_equal.
    inversion H2. subst g2. inversion H3. subst g3. inversion H4. subst g4.
    inversion H5. subst g5. rewrite A4. reflexivity. }
  destruct (moveClass m) eqn:Ecls; try discriminate Hcls;
    (destruct (Hbody _ Hcls H) as (B1 & B2 & B3 & B4 & B5 & B6); auto 10).
Qed.

Lemma makeMove_counts_move_witness :
  _status (snd startedGame) <> Some STATUS_GAME_OVER
  /\ exists m g',
       plain false "e2" "e4" = MoveObj m
       /\ makeMove whitePlayer (MoveObj m) (snd startedGame) = (Ok None, g')
       /\ _moveCount g' = 1
       /\ _status g' = Some STATUS_IN_PROGRESS.
Proof.
  assert (Hs : _status (snd startedGame) <> Some STATUS_GAME_OVER)
    by (vm_compute; discriminate).
  split; [ exact Hs | ].
  destruct (plain false "e2" "e4") as [s|m] eqn:Em; [ vm_compute in Em; discriminate | ].
  assert (Hcls : movesAPiece (moveClass m) = true).
  { vm_compute in Em. inversion Em. reflexivity. }
  assert (Hm : makeMove whitePlayer (MoveObj m) (snd startedGame)
               = (Ok None, snd (makeMove whitePlayer (MoveObj m) (snd startedGame)))).
  { rewrite <- Em. vm_compute. reflexivity. }
  exists m, (snd (makeMove whitePlayer (MoveObj m) (snd startedGame))).
  split; [ reflexivity | ]. split; [ exact Hm | ].
  destruct (makeMove_counts_move _ _ whitePlayer m None Hcls Hs Hm)
    as (_ & Hcount & _ & _ & Hstatus & _).
  split; [ rewrite Hcount; reflexivity | exact Hstatus ].
Defined.

(** X19.  ChessGame.makeMove with a PawnPromotion move, in a game that is
    not over: whenever the call returns it returns None, and the move count,
    the players and the status are as they were: a promotion is not counted
    as a move and never ends the game or changes its status, whatever the
    analysis of the new position says. *)
Theorem makeMove_promotion_keeps_turn (g g' : ChessGame) (player : Player) (m : ChessMove)
    (event : option Event) :
  movesAPiece (moveClass m) = false ->
  _status g <> Some STATUS_GAME_OVER ->
  makeMove player (MoveObj m) g = (Ok event, g') ->
  event = None
  /\ _moveCount g' = _moveCount g
  /\ _player1 g' = _player1 g /\ _player2 g' = _player2 g
  /\ _status g' = _status g.
Proof.
  intros Hcls Hs H.
  destruct (moveClass m) as [|choice t| |] eqn:Ecls; try discriminate Hcls.
  unfold makeMove in H. unfold bind at 1 in H. unfold get in H.
  rewrite (not_over_guard g Hs) in H.
  destruct (b2z (playerIsBlack player) =? _moveCount g mod 2) eqn:Eturn;
    cbn [negb] in H; [ | discriminate ].
  rewrite Ecls in H. destruct (_boardAnalysis g) as [a|]; [ | discriminate ].
  apply bind_ok_inv in H. destruct H as ([] & g1 & H1 & H).
  apply bind_ok_inv in H. destruct H as ([] & g2 & H2 & H).
  inversion H. subst event g2. clear H.
  pose proof (keepsTurn_at _ _ _ _ (keepsTurn_promotePawn _ _) H1) as T1.
  pose proof (keepsTurn_at _ _ _ _ (keepsTurn_notify _) H2) as T2.
  destruct (sameTurn_trans _ _ _ T1 T2) as (C1 & C2 & C3 & C4). auto.
Qed.

Lemma makeMove_promotion_keeps_turn_witness :
  _status promotionGame <> Some STATUS_GAME_OVER
  /\ exists m g',
       newPawnPromotion "a8" false "Q" = Ok m
       /\ makeMove blackPlayer (MoveObj m) promotionGame = (Ok None, g')
       /\ _moveCount g' = _moveCount promotionGame
       /\ _status g' = _status promotionGame.
Proof.
  assert (Hs : _status promotionGame <> Some STATUS_GAME_OVER)
    by (vm_compute; discriminate).
  split; [ exact Hs | ].
  destruct (newPawnPromotion "a8" false "Q") as [m|] eqn:Em; [ | vm_compute in Em; discriminate ].
  assert (Hcls : movesAPiece (moveClass m) = false).
  { vm_compute in Em. inversion Em. reflexivity. }
  assert (Hm : makeMove blackPlayer (MoveObj m) promotionGame
               = (Ok None, snd (makeMove blackPlayer (MoveObj m) promotionGame))).
  { vm_compute in Em. inversion Em. vm_compute. reflexivity. }
  exists m, (snd (makeMove blackPlayer (MoveObj m) promotionGame)).
  split; [ reflexivity | ]. split; [ exact Hm | ].
  destruct (makeMove_promotion_keeps_turn _ _ blackPlayer m None Hcls Hs Hm)
    as (_ & Hcount & _ & _ & Hstatus).
  split; [ exact Hcount | exact Hstatus ].
Defined.
(** ** The game: a new game, the players, the castling trackers *)

(** X20.  ChessGame.newGame on any game with an 8 x 8 board and both players
    set, whatever stood on the board, whatever the move count, the status and
    the analysis were: the call returns, the board is the start position, the
    move count is 0, the status is NEW_GAME_NO_MOVES, the four castling
    trackers and the stored analysis are those of a first game, and the
    players are kept. *)
Theorem newGame_resets (g : ChessGame) (p1 p2 : Player) :
  size (_board g) = 8 -> length (_grid (_board g)) = 8%nat ->
  _player1 g = Some p1 -> _player2 g = Some p2 ->
  exists g',
    newGame g = (Ok tt, g')
    /\ _board g' = _board (snd startedGame)
    /\ _moveCount g' = 0
    /\ _status g' = Some STATUS_NEW_GAME_NO_MOVES
    /\ _boardAnalysis g' = _boardAnalysis (snd startedGame)
    /\ _castles g' = _castles (snd startedGame)
    /\ _player1 g' = Some p1 /\ _player2 g' = Some p2.
Proof.
  intros Hsize Hlen H1 H2.
  destruct g as [pl1 pl2 cnt [sz grid] st an cs nt]. cbn in Hsize, Hlen, H1, H2. subst.
  unfold newGame. unfold bind at 1. unfold onBoard at 1, reset. cbn [_board size _grid].
  rewrite Hlen.
  remember (_board (snd startedGame)) as b0 eqn:Eb.
  remember (_boardAnalysis (snd startedGame)) as a0 eqn:Ea.
  remember (_castles (snd startedGame)) as c0 eqn:Ec.
  vm_compute in Eb, Ea, Ec.
  destruct p1 as [id1 [|]], p2 as [id2 [|]], st as [[| |]|];
    eexists; (split; [ vm_compute; reflexivity | ]);
    cbn [_board _moveCount _status _boardAnalysis _castles _player1 _player2];
    rewrite Eb, Ea, Ec; repeat split; reflexivity.
Qed.

Lemma newGame_resets_witness :
  size (_board foolsMate) = 8 /\ length (_grid (_board foolsMate)) = 8%nat
  /\ _player1 foolsMate = Some whitePlayer /\ _player2 foolsMate = Some blackPlayer
  /\ _status foolsMate = Some STATUS_GAME_OVER
  /\ exists g', newGame foolsMate = (Ok tt, g')
                /\ _board g' = _board (snd startedGame)
                /\ _moveCount g' = 0
                /\ _status g' = Some STATUS_NEW_GAME_NO_MOVES.
Proof.
  assert (Hsize : size (_board foolsMate) = 8) by (vm_compute; reflexivity).
  assert (Hlen : length (_grid (_board foolsMate)) = 8%nat) by (vm_compute; reflexivity).
  assert (H1 : _player1 foolsMate = Some whitePlayer) by (vm_compute; reflexivity).
  assert (H2 : _player2 foolsMate = Some blackPlayer) by (vm_compute; reflexivity).
  split; [ exact Hsize | ]. split; [ exact Hlen | ]. split; [ exact H1 | ].
  split; [ exact H2 | ]. split; [ vm_compute; reflexivity | ].
  destruct (newGame_resets foolsMate whitePlayer blackPlayer Hsize Hlen H1 H2)
    as (g' & Hg & Hb & Hc & Hs & _).
  exists g'. auto.
Defined.
Lemma mod2_cases z : z mod 2 = 0 \/ z mod 2 = 1.
Proof. pose proof (Z.mod_pos_bound z 2). lia. Qed.

(** X21.  The players and the turn.  setPlayer1 and setPlayer2 give the
    player that was set before the colour opposite to the new player's, so
    two players of a game never have the same colour; and in a game with two
    players of opposite colours, _currentPlayer is the player whose colour
    matches the parity of the move count (white on even counts), and
    _nextPlayer is the other one. *)
Theorem players_take_turns (g : ChessGame) (p1 p2 : Player) :
  (forall q, _player2 g = Some q ->
     exists q', _player2 (setPlayer1 p1 g) = Some q'
                /\ playerIsBlack q' = negb (playerIsBlack p1))
  /\ (forall q, _player1 g = Some q ->
        exists q', _player1 (setPlayer2 p2 g) = Some q'
                   /\ playerIsBlack q' = negb (playerIsBlack p2))
  /\ (_player1 g = Some p1 -> _player2 g = Some p2 ->
      playerIsBlack p2 = negb (playerIsBlack p1) -> playerId p1 <> playerId p2 ->
      exists c n,
        _currentPlayer g = Ok (Some c) /\ _nextPlayer g = Ok (Some n)
        /\ b2z (playerIsBlack c) = _moveCount g mod 2
        /\ ((c = p1 /\ n = p2) \/ (c = p2 /\ n = p1))).
Proof.
  split; [ | split ].
  - intros q Hq. unfold setPlayer1. cbn [_player2]. rewrite Hq. cbn. eauto.
  - intros q Hq. unfold setPlayer2. cbn [_player1]. rewrite Hq. cbn. eauto.
  - intros H1 H2 Hopp Hid. unfold _nextPlayer, _currentPlayer. rewrite H1, H2.
    assert (Hsame : samePlayer p1 p1 = true) by (unfold samePlayer; apply Nat.eqb_refl).
    assert (Hdiff : samePlayer p2 p1 = false).
    { unfold samePlayer. apply Nat.eqb_neq. congruence. }
    destruct (b2z (playerIsBlack p1) =? _moveCount g mod 2) eqn:E.
    + apply Z.eqb_eq in E. exists p1, p2. cbn [rbind sameObject]. rewrite Hsame.
      split; [ reflexivity | ]. split; [ reflexivity | ]. split; [ exact E | auto ].
    + apply Z.eqb_neq in E. exists p2, p1. cbn [rbind sameObject]. rewrite Hdiff.
      split; [ reflexivity | ]. split; [ reflexivity | ]. split; [ | auto ].
      rewrite Hopp. destruct (mod2_cases (_moveCount g)) as [M | M]; rewrite M in *;
        destruct (playerIsBlack p1); cbn in *; congruence.
Qed.

Lemma players_take_turns_witness :
  exists c n,
    _currentPlayer (snd startedGame) = Ok (Some c)
    /\ _nextPlayer (snd startedGame) = Ok (Some n)
    /\ c = whitePlayer /\ n = blackPlayer.
Proof.
  destruct (players_take_turns (snd startedGame) whitePlayer blackPlayer) as (_ & _ & H).
  destruct H as (c & n & Hc & Hn & _ & Hcases);
    [ vm_compute; reflexivity | vm_compute; reflexivity | reflexivity
    | vm_compute; discriminate | ].
  exists c, n. split; [ exact Hc | ]. split; [ exact Hn | ].
  vm_compute in Hc. inversion Hc. subst c.
  vm_compute in Hn. inversion Hn. subst n. auto.
Defined.

Lemma isCastlingOn_lost m attacked empty :
  noLongerPossible m = true -> isCastlingOn m attacked empty = false.
Proof.
  unfold noLongerPossible, isCastlingOn. destruct (moveClass m); try reflexivity.
  intros ->. reflexivity.
Qed.

Lemma objectChanged_lost m :
  (exists rf rt e a f, moveClass m = CastlingMove rf rt e a f) ->
  noLongerPossible (objectChanged m) = true.
Proof.
  intros (rf & rt & e & a & f & H). unfold objectChanged, noLongerPossible.
  rewrite H. reflexivity.
Qed.

Lemma objectChanged_keeps_lost m :
  noLongerPossible m = true -> noLongerPossible (objectChanged m) = true.
Proof.
  unfold objectChanged, noLongerPossible. destruct (moveClass m) eqn:E; try discriminate.
  intros ->. reflexivity.
Qed.

(** X22.  The castling trackers.  When the observers of a piece that moved
    are notified (CastlingMove.objectChanged of each), every notified tracker
    that is a CastlingMove refuses castling from then on, whatever squares
    are attacked or empty; the other trackers are untouched; and a tracker
    that refused because its king or rook had moved still refuses after any
    later notification: the right to castle never comes back. *)
Theorem castling_never_again (g : ChessGame) (ids : list CastlingId)
    (castle : CastlingId -> ChessMove) :
  _castles g = Some castle ->
  exists castle',
    observersNotified ids g = (Ok tt, with_castles g (Some castle'))
    /\ (forall id, In id ids ->
          (exists rf rt e a f, moveClass (castle id) = CastlingMove rf rt e a f) ->
          noLongerPossible (castle' id) = true
          /\ forall attacked empty, isCastlingOn (castle' id) attacked empty = false)
    /\ (forall id, ~ In id ids -> castle' id = castle id)
    /\ (forall id, noLongerPossible (castle id) = true ->
          noLongerPossible (castle' id) = true
          /\ forall attacked empty, isCastlingOn (castle' id) attacked empty = false).
Proof.
  intros Hc. unfold observersNotified. rewrite Hc. cbn [option_map].
  eexists. split; [ reflexivity | ]. cbn beta.
  assert (Hmem : forall id, existsb (CastlingId_eqb id) ids = true <-> In id ids).
  { intros id. rewrite existsb_exists. split.
    - intros (x & Hx & E). destruct id, x; try discriminate; exact Hx.
    - intros H. exists id. split; [ exact H | destruct id; reflexivity ]. }
  split; [ | split ].
  - intros id Hin Hcls. rewrite (proj2 (Hmem id) Hin).
    pose proof (objectChanged_lost _ Hcls) as L. split; [ exact L | ].
    intros attacked empty. apply isCastlingOn_lost. exact L.
  - intros id Hout. destruct (existsb (CastlingId_eqb id) ids) eqn:E; [ | reflexivity ].
    apply Hmem in E. contradiction.
  - intros id L0.
    assert (L : noLongerPossible
                  (if existsb (CastlingId_eqb id) ids then objectChanged (castle id)
                   else castle id) = true).
    { destruct (existsb (CastlingId_eqb id) ids);
        [ apply objectChanged_keeps_lost; exact L0 | exact L0 ]. }
    split; [ exact L | ]. intros attacked empty. apply isCastlingOn_lost. exact L.
Qed.

Lemma castling_never_again_witness :
  exists castle castle',
    _castles (snd startedGame) = Some castle
    /\ noLongerPossible (castle WhiteKingSide) = false
    /\ snd (observersNotified [WhiteKingSide; WhiteQueenSide] (snd startedGame))
       = with_castles (snd startedGame) (Some castle')
    /\ noLongerPossible (castle' WhiteKingSide) = true
    /\ castle' BlackKingSide = castle BlackKingSide.
Proof.
  destruct (_castles (snd startedGame)) as [castle|] eqn:Hc; [ | vm_compute in Hc; discriminate ].
  destruct (castling_never_again (snd startedGame) [WhiteKingSide; WhiteQueenSide] castle Hc)
    as (castle' & Hn & Hlost & Hkeep & _).
  assert (Hcls : forall id, exists rf rt e a f, moveClass (castle id) = CastlingMove rf rt e a f).
  { vm_compute in Hc. inversion Hc. intros []; cbn; eauto 10. }
  exists castle, castle'. split; [ reflexivity | ].
  split; [ vm_compute in Hc; inversion Hc; reflexivity | ].
  split; [ rewrite Hn; reflexivity | ].
  split.
  - apply Hlost; [ left; reflexivity | apply Hcls ].
  - apply Hkeep. intros [H | [H | []]]; discriminate.
Defined.

(** ** The tree searches: alpha-beta against minimax *)

Lemma loopInvariant_start black alpha0 beta0 s0 :
  loopInvariant black alpha0 beta0 s0 alpha0 beta0 s0 s0.
Proof. unfold loopInvariant. destruct black; lia. Qed.

Lemma loopInvariant_end black alpha0 beta0 s0 a b sm sa :
  a < b -> loopInvariant black alpha0 beta0 s0 a b sm sa -> bounded alpha0 beta0 sm sa.
Proof. unfold loopInvariant, bounded. destruct black; lia. Qed.

Lemma loopInvariant_step black alpha0 beta0 s0 a b sm sa v r :
  a < b -> loopInvariant black alpha0 beta0 s0 a b sm sa -> bounded a b v r ->
  let better_m := if black then v <? sm else sm <? v in
  let better_a := if black then r <? sa else sa <? r in
  let sm' := if better_m then v else sm in
  let sa' := if better_a then r else sa in
  let a' := if black then a else Z.max a r in
  let b' := if black then Z.min b r else b in
  (b' <=? a') = false ->
  a' < b' /\ loopInvariant black alpha0 beta0 s0 a' b' sm' sa'.
Proof.
  unfold loopInvariant, bounded. intros Hab Hinv Hb.
  destruct black; cbv zeta; intros Hcut; apply Z.leb_gt in Hcut;
    [ destruct (Z.ltb_spec v sm), (Z.ltb_spec r sa)
    | destruct (Z.ltb_spec sm v), (Z.ltb_spec sa r) ]; lia.
Qed.

Lemma loopInvariant_cut black alpha0 beta0 s0 a b sm sa v r final :
  a < b -> loopInvariant black alpha0 beta0 s0 a b sm sa -> bounded a b v r ->
  let better_m := if black then v <? sm else sm <? v in
  let better_a := if black then r <? sa else sa <? r in
  let sm' := if better_m then v else sm in
  let sa' := if better_a then r else sa in
  let a' := if black then a else Z.max a r in
  let b' := if black then Z.min b r else b in
  (b' <=? a') = true ->
  (if black then final <= sm' else sm' <= final) ->
  bounded alpha0 beta0 final sa'.
Proof.
  unfold loopInvariant, bounded. intros Hab Hinv Hb.
  destruct black; cbv zeta; intros Hcut; apply Z.leb_le in Hcut;
    [ destruct (Z.ltb_spec v sm), (Z.ltb_spec r sa)
    | destruct (Z.ltb_spec sm v), (Z.ltb_spec sa r) ]; lia.
Qed.

Section Loops.

Variable black : bool.
Variable board : Board.
Variable cm : Board -> Search Z.
Variable ca : Z -> Z -> Board -> Search Z.

Hypothesis Hcount : forall cb s v s', cm cb s = (Ok v, s') -> s <= s'.
Hypothesis Hchild :
  forall cb alpha beta, alpha < beta ->
  forall s v s', cm cb s = (Ok v, s') ->
  forall t, exists r t', ca alpha beta cb t = (Ok r, t') /\ t' - t <= s' - s
                         /\ bounded alpha beta v r.

Lemma minimax_loop_inv m rest score mv s out s' :
  ComputerTreeSearchPlayer.forMoves black cm board (m :: rest) score mv s = (Ok out, s') ->
  exists cb v s1,
    simulate board m = Ok cb /\ cm cb s = (Ok v, s1)
    /\ ComputerTreeSearchPlayer.forMoves black cm board rest
         (if (if black then v <? score else score <? v) then v else score)
         (if (if black then v <? score else score <? v) then Some m else mv) s1
       = (Ok out, s').
Proof.
  cbn [ComputerTreeSearchPlayer.forMoves]. intros H.
  apply bind_ok_inv in H. destruct H as (cb & s0 & H0 & H).
  unfold lift in H0. inversion H0. subst s0.
  apply bind_ok_inv in H. destruct H as (v & s1 & H1 & H).
  exists cb, v, s1. split; [ assumption | ]. split; [ exact H1 | ].
  destruct (if black then v <? score else score <? v); exact H.
Qed.

Lemma minimax_loop_grows avail :
  forall score mv s out s',
    ComputerTreeSearchPlayer.forMoves black cm board avail score mv s = (Ok out, s') ->
    s <= s' /\ (if black then fst out <= score else score <= fst out).
Proof.
  induction avail as [|m rest IH]; intros score mv s out s' H.
  - inversion H. cbn [fst]. split; [ lia | destruct black; lia ].
  - apply minimax_loop_inv in H. destruct H as (cb & v & s1 & _ & Hv & H).
    apply IH in H. destruct H as [Hs Ho]. pose proof (Hcount _ _ _ _ Hv).
    split; [ lia | ].
    destruct black; [ destruct (Z.ltb_spec v score) | destruct (Z.ltb_spec score v) ];
      cbn [fst] in *; lia.
Qed.

Lemma alphabeta_loop alpha0 beta0 s0 avail :
  forall a b sm sa mvm mva s out s',
    ComputerTreeSearchPlayer.forMoves black cm board avail sm mvm s = (Ok out, s') ->
    a < b -> loopInvariant black alpha0 beta0 s0 a b sm sa ->
    forall t, exists out' t',
      ComputerTreeSearchAlphaBetaPlayer.forMoves black ca board avail a b sa mva t = (Ok out', t')
      /\ t' - t <= s' - s
      /\ bounded alpha0 beta0 (fst out) (fst out').
Proof.
  induction avail as [|m rest IH]; intros a b sm sa mvm mva s out s' H Hab Hinv t.
  - inversion H. subst. exists (sa, mva), t. split; [ reflexivity | ].
    split; [ lia | ]. cbn [fst]. eapply loopInvariant_end; eauto.
  - apply minimax_loop_inv in H. destruct H as (cb & v & s1 & Hsim & Hv & H).
    destruct (Hchild cb a b Hab s v s1 Hv t) as (r & t1 & Hr & Ht & Hb).
    cbn [ComputerTreeSearchAlphaBetaPlayer.forMoves]. unfold bind at 1. unfold lift. rewrite Hsim.
    unfold bind at 1. rewrite Hr. cbv zeta.
    destruct ((if black then Z.min b r else b) <=? (if black then a else Z.max a r)) eqn:Ecut.
    + eexists _, t1. split; [ reflexivity | ].
      pose proof (minimax_loop_grows _ _ _ _ _ _ H) as [Hs Hgrow].
      split; [ lia | ]. cbn [fst].
      apply (loopInvariant_cut black alpha0 beta0 s0 a b sm sa v r (fst out) Hab Hinv Hb Ecut).
      exact Hgrow.
    + destruct (loopInvariant_step black alpha0 beta0 s0 a b sm sa v r Hab Hinv Hb Ecut)
        as [Hab' Hinv'].
      destruct (IH _ _ _ _ _ (if (if black then r <? sa else sa <? r) then Some m else mva)
                  _ _ _ H Hab' Hinv' t1) as (out' & t' & Ho & Ht' & Hb').
      exists out', t'. split; [ exact Ho | ]. split; [ lia | exact Hb' ].
Qed.

(** At the root, when the values of the positions after each move lie inside
    the window, the two loops make the same choices. *)
Lemma alphabeta_root_loop alpha0 beta0 avail :
  (forall m cb s v s', In m avail -> simulate board m = Ok cb -> cm cb s = (Ok v, s') ->
                       alpha0 < v < beta0) ->
  forall a b sm mv s out s',
    ComputerTreeSearchPlayer.forMoves black cm board avail sm mv s = (Ok out, s') ->
    a < b ->
    (if black then a = alpha0 /\ b = Z.min beta0 sm /\ alpha0 < sm
     else b = beta0 /\ a = Z.max alpha0 sm /\ sm < beta0) ->
    forall t, exists t',
      ComputerTreeSearchAlphaBetaPlayer.forMoves black ca board avail a b sm mv t = (Ok out, t') /\ t' - t <= s' - s.
Proof.
  induction avail as [|m rest IH]; intros Hin a b sm mv s out s' H Hab Hinv t.
  - inversion H. subst. exists t. split; [ reflexivity | lia ].
  - apply minimax_loop_inv in H. destruct H as (cb & v & s1 & Hsim & Hv & H).
    pose proof (Hin m cb s v s1 (or_introl eq_refl) Hsim Hv) as Hwin.
    destruct (Hchild cb a b Hab s v s1 Hv t) as (r & t1 & Hr & Ht & Hb).
    cbn [ComputerTreeSearchAlphaBetaPlayer.forMoves]. unfold bind at 1. unfold lift. rewrite Hsim.
    unfold bind at 1. rewrite Hr. cbv zeta.
    assert (Hsame : (if black then r <? sm else sm <? r) = (if black then v <? sm else sm <? v)
                    /\ (if (if black then v <? sm else sm <? v) then r = v else True)
                    /\ ((if black then Z.min b r else b) <=? (if black then a else Z.max a r))
                       = false
                    /\ (if black then a else Z.max a r) < (if black then Z.min b r else b)
                    /\ (if black
                        then a = alpha0
                             /\ Z.min b r
                                = Z.min beta0 (if v <? sm then v else sm)
                             /\ alpha0 < (if v <? sm then v else sm)
                        else b = beta0
                             /\ Z.max a r
                                = Z.max alpha0 (if sm <? v then v else sm)
                             /\ (if sm <? v then v else sm) < beta0)).
    { unfold bounded in Hb. destruct black.
      - destruct (Z.ltb_spec v sm), (Z.ltb_spec r sm);
          repeat split; try apply Z.leb_gt; lia.
      - destruct (Z.ltb_spec sm v), (Z.ltb_spec sm r);
          repeat split; try apply Z.leb_gt; lia. }
    destruct Hsame as (Ebetter & Erv & Ecut & Hab' & Hinv').
    rewrite Ecut, Ebetter.
    assert (Escore : (if (if black then v <? sm else sm <? v) then r else sm)
                     = (if (if black then v <? sm else sm <? v) then v else sm)).
    { destruct (if black then v <? sm else sm <? v); [ exact Erv | reflexivity ]. }
    rewrite Escore.
    destruct (IH (fun m0 cb0 s2 v0 s3 Hm0 => Hin m0 cb0 s2 v0 s3 (or_intror Hm0))
                _ _ _ _ _ _ _ H Hab') with (t := t1) as (t' & Ho & Ht').
    { destruct black; exact Hinv'. }
    exists t'. split; [ exact Ho | lia ].
Qed.

End Loops.
Lemma minimax_counts n :
  forall board black moves s out s',
    ComputerTreeSearchPlayer._bestScore n board black moves s = (Ok out, s') -> s <= s'.
Proof.
  induction n as [|n IH]; intros board black moves s out s' H; cbn [ComputerTreeSearchPlayer._bestScore] in H.
  - unfold bind at 1 in H. unfold countLeaf in H.
    apply bind_ok_inv in H. destruct H as (v & s1 & H1 & H).
    unfold lift in H1. inversion H1. subst s1. inversion H. lia.
  - apply bind_ok_inv in H. destruct H as (avail & s1 & H1 & H).
    unfold lift in H1. inversion H1. subst s1.
    eapply (minimax_loop_grows black board _) in H; [ apply H | ].
    intros cb s2 v s3 Hc. apply bind_ok_inv in Hc. destruct Hc as (r & s4 & Hr & Hc).
    inversion Hc. subst. eapply IH. exact Hr.
Qed.

(** The score of the alpha-beta search with any window is the minimax value
    when that lies inside the window, and lies on the same side of the window
    when it does not; and no more leaves are scored. *)
Lemma alphabeta_bounded n :
  forall board black moves alpha beta, alpha < beta ->
  forall s out s', ComputerTreeSearchPlayer._bestScore n board black moves s = (Ok out, s') ->
  forall t, exists out' t',
    ComputerTreeSearchAlphaBetaPlayer._bestScore n alpha beta board black moves t = (Ok out', t')
    /\ t' - t <= s' - s
    /\ bounded alpha beta (fst out) (fst out').
Proof.
  induction n as [|n IH]; intros board black moves alpha beta Hab s out s' H t;
    cbn [ComputerTreeSearchPlayer._bestScore] in H; cbn [ComputerTreeSearchAlphaBetaPlayer._bestScore].
  - unfold bind at 1 in H. unfold countLeaf in H.
    apply bind_ok_inv in H. destruct H as (v & s1 & H1 & H).
    unfold lift in H1. inversion H1 as [[Hv Hs1]]. subst s1. inversion H. subst.
    unfold bind at 1. unfold countLeaf. unfold bind, lift, ret. rewrite Hv.
    eexists _, _. split; [ reflexivity | ]. split; [ lia | ].
    cbn [fst]. unfold bounded. lia.
  - apply bind_ok_inv in H. destruct H as (avail & s1 & H1 & H).
    unfold lift in H1. inversion H1 as [[Hav Hs1]]. subst s1.
    unfold bind at 1. unfold lift. rewrite Hav.
    set (cm := fun cb : Board =>
                 do! r := ComputerTreeSearchPlayer._bestScore n cb (negb black) None in ret (fst r)) in H.
    set (ca := fun (a b : Z) (cb : Board) =>
                 do! r := ComputerTreeSearchAlphaBetaPlayer._bestScore n a b cb (negb black) None in ret (fst r)).
    assert (Hcount : forall cb s2 v s3, cm cb s2 = (Ok v, s3) -> s2 <= s3).
    { intros cb s2 v s3 Hc. apply bind_ok_inv in Hc. destruct Hc as (r & s4 & Hr & Hc).
      inversion Hc. subst. eapply minimax_counts. exact Hr. }
    assert (Hchild : forall cb a b, a < b -> forall s2 v s3, cm cb s2 = (Ok v, s3) ->
              forall t2, exists r t', ca a b cb t2 = (Ok r, t') /\ t' - t2 <= s3 - s2
                                      /\ bounded a b v r).
    { intros cb a b Hab' s2 v s3 Hc t2.
      apply bind_ok_inv in Hc. destruct Hc as (r & s4 & Hr & Hc). inversion Hc. subst.
      destruct (IH cb (negb black) None a b Hab' _ _ _ Hr t2) as (out' & t' & Ho & Ht & Hb).
      exists (fst out'), t'. split; [ | auto ].
      unfold ca, bind. rewrite Ho. reflexivity. }
    exact (alphabeta_loop black board cm ca Hcount Hchild alpha beta
             (if black then 99999 else -99999) avail alpha beta _ _ None None s out s' H Hab
             (loopInvariant_start _ _ _ _) t).
Qed.

(** X23.  The alpha-beta search against the minimax search on the same
    moves.  Whenever _bestScore of ComputerTreeSearchPlayer, looking at least
    one ply ahead, returns a score and a move for a list of moves, and the
    scores it finds for the positions after each of these moves lie strictly
    between -9999 and 9999, the _bestScore of ComputerTreeSearchAlphaBetaPlayer
    started with the window (-9999, 9999) on the same board and the same list
    returns the same score and the same move, and scores at most as many
    leaves. *)
Theorem alphabeta_same_as_minimax (n : nat) (board : Board) (black : bool)
    (moves : option (list ChessMove)) (avail : list ChessMove)
    (s s' : Z) (out : Z * option ChessMove) :
  movesOrPossible board black moves = Ok avail ->
  ComputerTreeSearchPlayer._bestScore (S n) board black moves s = (Ok out, s') ->
  (forall m cb t r t', In m avail -> simulate board m = Ok cb ->
     ComputerTreeSearchPlayer._bestScore n cb (negb black) None t = (Ok r, t') -> -9999 < fst r < 9999) ->
  forall t, exists t',
    ComputerTreeSearchAlphaBetaPlayer._bestScore (S n) (-9999) 9999 board black moves t = (Ok out, t')
    /\ t' - t <= s' - s.
Proof.
  intros Hav H Hwin t. cbn [ComputerTreeSearchPlayer._bestScore] in H. cbn [ComputerTreeSearchAlphaBetaPlayer._bestScore].
  apply bind_ok_inv in H. destruct H as (avail' & s1 & H1 & H).
  unfold lift in H1. rewrite Hav in H1. inversion H1. subst avail' s1.
  unfold bind at 1. unfold lift. rewrite Hav.
  set (cm := fun cb : Board =>
               do! r := ComputerTreeSearchPlayer._bestScore n cb (negb black) None in ret (fst r)) in H.
  set (ca := fun (a b : Z) (cb : Board) =>
               do! r := ComputerTreeSearchAlphaBetaPlayer._bestScore n a b cb (negb black) None in ret (fst r)).
  assert (Hcount : forall cb s2 v s3, cm cb s2 = (Ok v, s3) -> s2 <= s3).
  { intros cb s2 v s3 Hc. apply bind_ok_inv in Hc. destruct Hc as (r & s4 & Hr & Hc).
    inversion Hc. subst. eapply minimax_counts. exact Hr. }
  assert (Hchild : forall cb a b, a < b -> forall s2 v s3, cm cb s2 = (Ok v, s3) ->
            forall t2, exists r t', ca a b cb t2 = (Ok r, t') /\ t' - t2 <= s3 - s2
                                    /\ bounded a b v r).
  { intros cb a b Hab' s2 v s3 Hc t2.
    apply bind_ok_inv in Hc. destruct Hc as (r & s4 & Hr & Hc). inversion Hc. subst.
    destruct (alphabeta_bounded n cb (negb black) None a b Hab' _ _ _ Hr t2)
      as (out' & t' & Ho & Ht & Hb).
    exists (fst out'), t'. split; [ | auto ].
    unfold ca, bind. rewrite Ho. reflexivity. }
  assert (Hin : forall m cb s2 v s3, In m avail -> simulate board m = Ok cb ->
            cm cb s2 = (Ok v, s3) -> -9999 < v < 9999).
  { intros m cb s2 v s3 Hm Hsim Hc.
    apply bind_ok_inv in Hc. destruct Hc as (r & s4 & Hr & Hc). inversion Hc. subst.
    exact (Hwin m cb _ _ _ Hm Hsim Hr). }
  apply (alphabeta_root_loop black board cm ca Hchild (-9999) 9999 avail Hin
           (-9999) 9999 _ None s out s' H); [ lia | destruct black; lia ].
Qed.
Lemma minimax_leaf cb black moves t r t' :
  ComputerTreeSearchPlayer._bestScore 0 cb black moves t = (Ok r, t') -> piecesScore cb = Ok (fst r).
Proof.
  cbn [ComputerTreeSearchPlayer._bestScore]. unfold bind, countLeaf, lift, ret.
  destruct (piecesScore cb); intros H; inversion H. reflexivity.
Qed.

Lemma alphabeta_same_as_minimax_witness :
  exists out s' t',
    movesOrPossible pinnedRook false (Some pinnedRookMoves) = Ok pinnedRookMoves
    /\ ComputerTreeSearchPlayer._bestScore 1 pinnedRook false (Some pinnedRookMoves) 0 = (Ok out, s')
    /\ ComputerTreeSearchAlphaBetaPlayer._bestScore 1 (-9999) 9999 pinnedRook false (Some pinnedRookMoves) 0 = (Ok out, t')
    /\ t' <= s'
    /\ option_map (fun m => (fromSquare m, toSquare m)) (snd out) = Some ("e2", "e8").
Proof.
  assert (Hav : movesOrPossible pinnedRook false (Some pinnedRookMoves) = Ok pinnedRookMoves)
    by (vm_compute; reflexivity).
  destruct (ComputerTreeSearchPlayer._bestScore 1 pinnedRook false (Some pinnedRookMoves) 0) as [[out|e] s'] eqn:Hmm;
    [ | vm_compute in Hmm; discriminate ].
  assert (Hwin : forall m cb t r t', In m pinnedRookMoves -> simulate pinnedRook m = Ok cb ->
            ComputerTreeSearchPlayer._bestScore 0 cb (negb false) None t = (Ok r, t') -> -9999 < fst r < 9999).
  { intros m cb t r t' Hin Hsim Hleaf. apply minimax_leaf in Hleaf.
    destruct r as [v mvr]. cbn [fst] in *.
    vm_compute in Hin.
    repeat (destruct Hin as [<- | Hin];
            [ vm_compute in Hsim; inversion Hsim; subst cb;
              vm_compute in Hleaf; inversion Hleaf; lia | ]).
    destruct Hin. }
  destruct (alphabeta_same_as_minimax 0 pinnedRook false (Some pinnedRookMoves)
              pinnedRookMoves 0 s' out Hav Hmm Hwin 0) as (t' & Hab & Ht).
  exists out, s', t'. split; [ exact Hav | ]. split; [ reflexivity | ].
  split; [ exact Hab | ]. split; [ lia | ].
  vm_compute in Hmm. inversion Hmm. reflexivity.
Defined.
(** X24.  The window of the alpha-beta search.  For every depth, board,
    colour, list of moves and window alpha < beta: whenever the minimax
    _bestScore returns a score v, the alpha-beta _bestScore with that window
    returns too, having scored at most as many leaves, and its score is v
    when v lies strictly inside the window, at most alpha when v is at most
    alpha, and at least beta when v is at least beta. *)
Theorem alphabeta_window (n : nat) (board : Board) (black : bool)
    (moves : option (list ChessMove)) (alpha beta s s' : Z) (out : Z * option ChessMove) :
  alpha < beta ->
  ComputerTreeSearchPlayer._bestScore n board black moves s = (Ok out, s') ->
  forall t, exists out' t',
    ComputerTreeSearchAlphaBetaPlayer._bestScore n alpha beta board black moves t
    = (Ok out', t')
    /\ t' - t <= s' - s
    /\ (fst out <= alpha -> fst out' <= alpha)
    /\ (beta <= fst out -> beta <= fst out')
    /\ (alpha < fst out < beta -> fst out' = fst out).
Proof.
  intros Hab H t.
  destruct (alphabeta_bounded n board black moves alpha beta Hab s out s' H t)
    as (out' & t' & Ho & Ht & Hlow & Hhigh & Hin).
  exists out', t'. auto.
Qed.

Lemma alphabeta_window_witness :
  exists out out' s' t',
    ComputerTreeSearchPlayer._bestScore 2 pinnedRook false None 0 = (Ok out, s')
    /\ ComputerTreeSearchAlphaBetaPlayer._bestScore 2 (-50) 50 pinnedRook false None 0
       = (Ok out', t')
    /\ t' <= s'
    /\ (-50 < fst out < 50 -> fst out' = fst out)
    /\ (fst out <= -50 -> fst out' <= -50).
Proof.
  destruct (ComputerTreeSearchPlayer._bestScore 2 pinnedRook false None 0)
    as [[out|e] s'] eqn:Hmm; [ | vm_compute in Hmm; discriminate ].
  assert (Hab : -50 < 50) by lia.
  destruct (alphabeta_window 2 pinnedRook false None (-50) 50 0 s' out Hab Hmm 0)
    as (out' & t' & Ho & Ht & Hlow & _ & Hin).
  exists out, out', s', t'. split; [ reflexivity | ]. split; [ exact Ho | ].
  split; [ lia | ]. split; [ exact Hin | exact Hlow ].
Defined.

(** ** Invariants of the board *)

Lemma wellFormed_cells b b' :
  wellFormed b -> chessboard b' ->
  (forall x p, inside x -> cell b' x = Some p ->
               cell b x = Some p \/ _currentPosition p = square x) ->
  wellFormed b'.
Proof.
  intros [_ Hpos] Hb' Hcells. split; [ exact Hb' | ].
  intros x p Hx Hp. destruct (Hcells x p Hx Hp) as [H | H]; [ apply (Hpos x p Hx H) | exact H ].
Qed.

Lemma remove_keeps_wellFormed b l : wellFormed b -> wellFormed (snd (remove l b)).
Proof.
  intros Hwf. destruct (labelToGridReference b l) as [rc|e] eqn:El.
  - destruct (remove_ref b l rc (proj1 Hwf) El) as (b' & Hr & Hb' & Hcells).
    rewrite Hr. cbn [snd]. apply (wellFormed_cells b b' Hwf Hb').
    intros x p Hx Hp. rewrite (Hcells x Hx) in Hp.
    destruct (decide (x = rc)); [ discriminate | left; exact Hp ].
  - unfold remove, bind, reads. rewrite El. exact Hwf.
Qed.

(** X25.  The invariant of the board.  On a well-formed 8 x 8 board (every
    piece stands on the square that its position names) the board is still
    well formed after Board.remove at any label, accepted or refused; after
    Board.set of a piece whose position is the label of a square of the
    board; after Board.move between two squares of the board, whether it
    returns or raises because the origin is empty; and so is the board that
    Board.copyOfBoard returns. *)
Theorem wellFormed_kept (b : Board) :
  wellFormed b ->
  (forall l, wellFormed (snd (remove l b)))
  /\ (forall p rc, inside rc -> _currentPosition p = square rc -> wellFormed (snd (set p b)))
  /\ (forall rc rc', inside rc -> inside rc' ->
        wellFormed (snd (move (square rc) (square rc') b)))
  /\ wellFormed (copyOfBoard b).
Proof.
  intros Hwf. split; [ | split; [ | split ] ].
  - intros l. apply remove_keeps_wellFormed. exact Hwf.
  - intros p rc Hi Hp.
    destruct (set_square b rc p (proj1 Hwf) Hi Hp) as (b' & Hs & Hb' & Hcells).
    rewrite Hs. cbn [snd]. apply (wellFormed_cells b b' Hwf Hb').
    intros x q Hx Hq. rewrite (Hcells x Hx) in Hq.
    destruct (decide (x = rc)) as [-> | ]; [ right; congruence | left; exact Hq ].
  - intros rc rc' Hi Hi'. destruct (cell b rc) as [p|] eqn:Hp.
    + destruct (move_square b rc rc' p Hwf Hi Hi' Hp) as (b' & captured & p' & Hm & Hwf' & _).
      rewrite Hm. exact Hwf'.
    + pose proof (remove_keeps_wellFormed b (square rc) Hwf) as W1.
      destruct (remove_square b rc (proj1 Hwf) Hi) as (b1 & R1 & Hb1 & _).
      rewrite R1 in W1. cbn [snd] in W1.
      pose proof (remove_keeps_wellFormed b1 (square rc') W1) as W2.
      destruct (remove_square b1 rc' Hb1 Hi') as (b2 & R2 & _).
      rewrite R2 in W2. cbn [snd] in W2.
      unfold move. unfold bind at 1. rewrite R1, Hp. unfold bind at 1. rewrite R2.
      exact W2.
  - apply wellFormed_copy. exact Hwf.
Qed.

Lemma wellFormed_kept_witness :
  wellFormed pinnedRook /\ inside (6, 4) /\ inside (0, 4)
  /\ wellFormed (snd (move "e2" "e8" pinnedRook))
  /\ wellFormed (snd (move "e3" "e8" pinnedRook)).
Proof.
  assert (Hwf : wellFormed pinnedRook) by (apply wellFormedb_wellFormed; vm_compute; reflexivity).
  assert (H1 : inside (6, 4)) by (unfold inside; cbn; lia).
  assert (H2 : inside (0, 4)) by (unfold inside; cbn; lia).
  assert (H3 : inside (5, 4)) by (unfold inside; cbn; lia).
  destruct (wellFormed_kept pinnedRook Hwf) as (_ & _ & Hmove & _).
  split; [ exact Hwf | ]. split; [ exact H1 | ]. split; [ exact H2 | ].
  split; [ exact (Hmove (6, 4) (0, 4) H1 H2) | exact (Hmove (5, 4) (0, 4) H3 H2) ].
Defined.

(** X26.  ChessMove.__init__ and the board agree on valid labels: a move
    object made from the labels of two squares of the 8 x 8 board is made
    without error, is not disallowed and carries no warning, and its row and
    column pairs fromRC and toRC are the grid references that
    Board.labelToGridReference gives for its two squares. *)
Theorem ChessMove_coordinates (b : Board) (rc rc' : Z * Z) (descr : string) (black : bool)
    (cls : MoveClass) :
  chessboard b -> inside rc -> inside rc' ->
  exists m,
    newChessMove (square rc) (square rc') descr black cls = Ok m
    /\ fromSquare m = square rc /\ toSquare m = square rc'
    /\ labelToGridReference b (fromSquare m) = Ok (fromRC m)
    /\ labelToGridReference b (toSquare m) = Ok (toRC m)
    /\ fromRC m = rc /\ toRC m = rc'
    /\ disallowed m = false /\ warning m = None.
Proof.
  intros Hb Hi Hi'. unfold newChessMove.
  rewrite (squareRC_square rc Hi), (squareRC_square rc' Hi'). cbn [rbind].
  eexists. split; [ reflexivity | ]. cbn [fromSquare toSquare fromRC toRC disallowed warning].
  repeat split; try reflexivity; apply label_square; assumption.
Qed.

Lemma ChessMove_coordinates_witness :
  chessboard pinnedRook /\ inside (6, 4) /\ inside (0, 4)
  /\ exists m, newChessMove "e2" "e8" "Rook" false PlainMove = Ok m
               /\ fromRC m = (6, 4) /\ toRC m = (0, 4).
Proof.
  assert (H1 : inside (6, 4)) by (unfold inside; cbn; lia).
  assert (H2 : inside (0, 4)) by (unfold inside; cbn; lia).
  split; [ exact chessboard_pinnedRook | ]. split; [ exact H1 | ]. split; [ exact H2 | ].
  destruct (ChessMove_coordinates pinnedRook (6, 4) (0, 4) "Rook" false PlainMove
              chessboard_pinnedRook H1 H2) as (m & Hm & _ & _ & _ & _ & Hf & Ht & _).
  exists m. split; [ exact Hm | ]. split; [ exact Hf | exact Ht ].
Defined.

(** ** En passant *)

Lemma rankOf_square rc : inside rc -> rankOf (square rc) = Ok (8 - fst rc).
Proof.
  intros [Hr _]. destruct rc as [r c]. cbn [fst] in *.
  assert (Er : r = 0 \/ r = 1 \/ r = 2 \/ r = 3 \/ r = 4 \/ r = 5 \/ r = 6 \/ r = 7) by lia.
  unfold rankOf, square, gridReferenceToLabelN, str_index. cbn [fst snd String.get].
  repeat (destruct Er as [-> | Er]; [ reflexivity | ]). subst r. reflexivity.
Qed.

Lemma newEnPassant_ok rc rc' black removing player :
  inside rc -> inside rc' ->
  exists ep, newEnPassant (square rc) (Some (square rc')) black removing player = Ok ep.
Proof.
  intros Hi Hi'. unfold newEnPassant, newChessMove.
  rewrite (squareRC_square rc Hi), (squareRC_square rc' Hi'). cbn [rbind]. eauto.
Qed.

Lemma enPassantLoop_spec g mv rc pm player :
  wellFormed (_board g) -> inside rc -> 1 <= fst rc <= 6 ->
  toSquare mv = square rc -> _currentPosition pm = square rc ->
  _currentPlayer g = Ok player ->
  forall sides epMoves,
    exists eps,
      enPassantLoop g mv (_board g) pm sides epMoves = Ok (epMoves ++ eps)
      /\ forall ep, In ep eps <->
           exists side q,
             In side sides /\ inside (offset rc side)
             /\ cell (_board g) (offset rc side) = Some q
             /\ kind q = Pawn /\ _isBlack q <> _isBlack pm
             /\ newEnPassant (square (offset rc side))
                  (Some (square (offset rc (if _isBlack q then 1 else -1, 0))))
                  (_isBlack q) (square rc) player = Ok ep.
Proof.
  intros Hwf Hi Hrow Hto Hpm Hplayer. pose proof (proj1 Hwf) as Hb.
  induction sides as [|side sides IH]; intros epMoves.
  - exists []. rewrite app_nil_r. split; [ reflexivity | ].
    intros ep. split; [ intros [] | intros (side & q & [] & _) ].
  - cbn [enPassantLoop]. rewrite Hto, (offset_square _ rc side Hb Hi). cbn [rbind].
    rewrite (pieceAtLabel_offset _ rc side Hb Hi). cbn [rbind].
    assert (Hskip : (forall q, inside (offset rc side) ->
                       cell (_board g) (offset rc side) = Some q ->
                       ~ (kind q = Pawn /\ _isBlack q <> _isBlack pm)) ->
              exists eps,
                enPassantLoop g mv (_board g) pm sides epMoves = Ok (epMoves ++ eps)
                /\ forall ep, In ep eps <->
                     exists side0 q,
                       In side0 (side :: sides) /\ inside (offset rc side0)
                       /\ cell (_board g) (offset rc side0) = Some q
                       /\ kind q = Pawn /\ _isBlack q <> _isBlack pm
                       /\ newEnPassant (square (offset rc side0))
                            (Some (square (offset rc (if _isBlack q then 1 else -1, 0))))
                            (_isBlack q) (square rc) player = Ok ep).
    { intros Hno. destruct (IH epMoves) as (eps & He & Hspec).
      exists eps. split; [ exact He | ]. intros ep. rewrite Hspec. split.
      - intros (s0 & q & Hs0 & H). exists s0, q. split; [ right; exact Hs0 | exact H ].
      - intros (s0 & q & [<- | Hs0] & Hin & Hq & Hk & Hc & E).
        + exfalso. apply (Hno q Hin Hq). auto.
        + exists s0, q. auto 10. }
    destruct (insideb (offset rc side)) eqn:Ein.
    2:{ apply Hskip. intros q Hin. apply insideb_inside in Hin. congruence. }
    apply insideb_inside in Ein.
    destruct (cell (_board g) (offset rc side)) as [q|] eqn:Eq.
    2:{ apply Hskip. intros q _ Hq. discriminate. }
    destruct (negb (Bool.eqb (_isBlack q) (_isBlack pm)) && Kind_eqb (kind q) Pawn) eqn:Etest.
    2:{ apply Hskip. intros q0 _ Hq0 [Hk Hc]. inversion Hq0. subst q0.
        rewrite Hk in Etest. cbn [Kind_eqb] in Etest. rewrite andb_true_r in Etest.
        apply negb_false_iff, eqb_prop in Etest. contradiction. }
    apply andb_true_iff in Etest. destruct Etest as [Ec Ek].
    assert (Hk : kind q = Pawn) by (destruct (kind q); try discriminate; reflexivity).
    assert (Hc : _isBlack q <> _isBlack pm).
    { intros E. rewrite E, eqb_reflx in Ec. discriminate. }
    assert (Hbehind : inside (offset rc (if _isBlack q then 1 else -1, 0))).
    { destruct Hi as [_ Hcol]. unfold inside, offset. destruct (_isBlack q); cbn [fst snd]; lia. }
    rewrite Hpm, (offset_square _ rc _ Hb Hi), (proj2 (insideb_inside _) Hbehind).
    cbn [rbind]. rewrite Hplayer. cbn [rbind].
    rewrite (proj2 Hwf _ q Ein Eq).
    destruct (newEnPassant_ok (offset rc side) (offset rc (if _isBlack q then 1 else -1, 0))
                (_isBlack q) (square rc) player Ein Hbehind) as (ep0 & Hep0).
    rewrite Hep0. cbn [rbind].
    destruct (IH (epMoves ++ [ep0])) as (eps & He & Hspec).
    exists (ep0 :: eps). split; [ rewrite He, <- app_assoc; reflexivity | ].
    intros ep. split.
    + intros [<- | Hin].
      * exists side, q. split; [ left; reflexivity | auto 10 ].
      * apply Hspec in Hin. destruct Hin as (s0 & q0 & Hs0 & H).
        exists s0, q0. split; [ right; exact Hs0 | exact H ].
    + intros (s0 & q0 & [<- | Hs0] & Hin & Hq0 & Hk0 & Hc0 & E).
      * left. rewrite Eq in Hq0. inversion Hq0. subst q0. congruence.
      * right. apply Hspec. exists s0, q0. auto 10.
Qed.

(** X27.  ChessGame._getEnPassant, called as makeMove calls it on the board
    of the game, well formed, after a move that brought a pawn to a square of
    rows 2 to 7: the call returns; the list is empty when the ranks of the
    two squares of the move differ by exactly one; otherwise an en passant
    move is in the list exactly for every pawn of the other colour that
    stands on the square to the right or to the left of the pawn that moved:
    the move goes from that pawn's square to the square next to the moved
    pawn in that pawn's direction, removes the piece on the moved pawn's
    square, and is for the current player of the game. *)
Theorem getEnPassant_spec (g : ChessGame) (mv : ChessMove) (rc : Z * Z) (pm : Piece)
    (player : option Player) (f : Z) :
  wellFormed (_board g) -> inside rc -> 1 <= fst rc <= 6 ->
  toSquare mv = square rc -> cell (_board g) rc = Some pm -> kind pm = Pawn ->
  rankOf (fromSquare mv) = Ok f -> _currentPlayer g = Ok player ->
  exists eps,
    _getEnPassant g mv (_board g) = Ok eps
    /\ (Z.abs (f - (8 - fst rc)) = 1 -> eps = [])
    /\ (Z.abs (f - (8 - fst rc)) <> 1 ->
        forall ep, In ep eps <->
          exists side q,
            In side [(0, 1); (0, -1)] /\ inside (offset rc side)
            /\ cell (_board g) (offset rc side) = Some q
            /\ kind q = Pawn /\ _isBlack q <> _isBlack pm
            /\ newEnPassant (square (offset rc side))
                 (Some (square (offset rc (if _isBlack q then 1 else -1, 0))))
                 (_isBlack q) (square rc) player = Ok ep).
Proof.
  intros Hwf Hi Hrow Hto Hpm Hk Hf Hplayer.
  unfold _getEnPassant. rewrite Hto, (pieceAtLabel_square _ rc (proj1 Hwf) Hi), Hpm.
  cbn [rbind]. rewrite Hk. cbn [Kind_eqb negb]. rewrite Hf, (rankOf_square rc Hi).
  cbn [rbind].
  destruct (Z.abs (f - (8 - fst rc)) =? 1) eqn:E.
  - apply Z.eqb_eq in E. exists []. split; [ reflexivity | ].
    split; [ reflexivity | intros Hne; contradiction ].
  - apply Z.eqb_neq in E.
    destruct (enPassantLoop_spec g mv rc pm player Hwf Hi Hrow Hto
                (proj2 Hwf rc pm Hi Hpm) Hplayer [(0, 1); (0, -1)] [])
      as (eps & He & Hspec).
    exists eps. split; [ exact He | ]. split; [ intros H1; contradiction | ].
    intros _. exact Hspec.
Qed.

Lemma getEnPassant_spec_witness :
  wellFormed (_board enPassantGame)
  /\ exists mv eps ep,
       plain true "d7" "d5" = MoveObj mv
       /\ _getEnPassant enPassantGame mv (_board enPassantGame) = Ok eps
       /\ In ep eps
       /\ fromSquare ep = "e5" /\ toSquare ep = "d6"
       /\ moveClass ep = EnPassant "d5" (Some whitePlayer).
Proof.
  assert (Hwf : wellFormed (_board enPassantGame))
    by (apply wellFormedb_wellFormed; vm_compute; reflexivity).
  split; [ exact Hwf | ].
  pose (mv := mkMove "d7" "d5" "move" true false None (1, 3) (3, 3) PlainMove).
  pose (pm := mkPiece Pawn true "d5" (3, 3) []).
  pose (q := mkPiece Pawn false "e5" (3, 4) []).
  assert (Hi : inside (3, 3)) by (unfold inside; cbn; lia).
  assert (Hpm : cell (_board enPassantGame) (3, 3) = Some pm) by (vm_compute; reflexivity).
  assert (Hq : cell (_board enPassantGame) (offset (3, 3) (0, 1)) = Some q)
    by (vm_compute; reflexivity).
  assert (Hp : _currentPlayer enPassantGame = Ok (Some whitePlayer)) by (vm_compute; reflexivity).
  destruct (getEnPassant_spec enPassantGame mv (3, 3) pm (Some whitePlayer) 7 Hwf Hi)
    as (eps & He & _ & Hspec);
    [ cbn; lia | reflexivity | exact Hpm | reflexivity | reflexivity | exact Hp | ].
  exists mv, eps, (mkMove "e5" "d6" "En Passant" false false None (3, 4) (2, 3)
                     (EnPassant "d5" (Some whitePlayer))).
  split; [ reflexivity | ]. split; [ exact He | ].
  split; [ | auto ].
  apply Hspec; [ cbn; lia | ]. exists (0, 1), q.
  split; [ left; reflexivity | ]. split; [ unfold inside; cbn; lia | ].
  split; [ exact Hq | ]. split; [ reflexivity | ]. split; [ discriminate | reflexivity ].
Defined.

(** ** The player that looks one move ahead *)

Lemma bestOf_spec forBoard scoreFactor others :
  forall move score best,
    ComputerLevelOnePlayer.bestOf forBoard scoreFactor others move score = Ok best ->
    ComputerLevelOnePlayer.scoreAfter forBoard move = Ok score ->
    (fst best = move \/ In (fst best) others)
    /\ ComputerLevelOnePlayer.scoreAfter forBoard (fst best) = Ok (snd best)
    /\ score * scoreFactor <= snd best * scoreFactor
    /\ forall m s, In m others -> ComputerLevelOnePlayer.scoreAfter forBoard m = Ok s ->
                   s * scoreFactor <= snd best * scoreFactor.
Proof.
  induction others as [|m rest IH]; intros move score best H Hscore;
    cbn [ComputerLevelOnePlayer.bestOf] in H.
  - inversion H. subst best. cbn [fst snd]. split; [ left; reflexivity | ].
    split; [ exact Hscore | ]. split; [ lia | intros m s [] ].
  - destruct (ComputerLevelOnePlayer.scoreAfter forBoard m) as [newScore|] eqn:Em;
      [ | discriminate ]. cbn [rbind] in H.
    destruct (Z.ltb_spec (score * scoreFactor) (newScore * scoreFactor)) as [Hlt | Hge].
    + destruct (IH m newScore best H Em) as (Hin & Hs & Hle & Hall).
      split; [ right; destruct Hin as [-> | Hin]; [ left; reflexivity | right; exact Hin ] | ].
      split; [ exact Hs | ]. split; [ lia | ].
      intros m' s' [<- | Hm'] Hs'; [ | apply (Hall m' s' Hm' Hs') ].
      rewrite Em in Hs'. inversion Hs'. subst s'. exact Hle.
    + destruct (IH move score best H Hscore) as (Hin & Hs & Hle & Hall).
      split; [ destruct Hin as [-> | Hin]; [ left; reflexivity | right; right; exact Hin ] | ].
      split; [ exact Hs | ]. split; [ exact Hle | ].
      intros m' s' [<- | Hm'] Hs'; [ | apply (Hall m' s' Hm' Hs') ].
      rewrite Em in Hs'. inversion Hs'. subst s'. lia.
Qed.

(** X28.  ComputerLevelOnePlayer.choseMove.  Let availableMoves be the
    moves given that are not disallowed (or, when there is none, all moves
    that possibleMoves finds), and let randint return an index of that list.
    Whenever the call returns a move, it is one of availableMoves; the score
    of the board after it is at least as good for the player (highest for
    white, lowest for black) as the score after the move that randint picked
    and after every move of the list but the first: the first move of the
    list is weighed only when randint picks it.  An empty list makes randint
    raise ValueError. *)
Theorem levelOne_choice (pick : Z) (isBlack : bool) (board : Board)
    (moves availableMoves : list ChessMove) :
  movesOrPossible board isBlack (Some (notDisallowed moves)) = Ok availableMoves ->
  (availableMoves = [] ->
   ComputerLevelOnePlayer.choseMove pick isBlack board moves = RandintEmptyRange)
  /\ (0 <= pick < len availableMoves ->
      forall move,
        ComputerLevelOnePlayer.choseMove pick isBlack board moves = Returns move ->
        In move availableMoves
        /\ exists score,
             ComputerLevelOnePlayer.scoreAfter board move = Ok score
             /\ forall m s,
                  (In m (drop 1 availableMoves) \/ availableMoves !! Z.to_nat pick = Some m) ->
                  ComputerLevelOnePlayer.scoreAfter board m = Ok s ->
                  if isBlack then score <= s else s <= score).
Proof.
  intros Hav. unfold ComputerLevelOnePlayer.choseMove,
    ComputerLevelOnePlayer._bestScoreAndMoveAfterAMove. rewrite Hav. split.
  - intros ->. reflexivity.
  - intros Hpick move H.
    destruct (len availableMoves - 1 <? 0) eqn:E; [ apply Z.ltb_lt in E; lia | ].
    destruct (py_index availableMoves pick) as [first|] eqn:Ep; [ | discriminate ].
    destruct (ComputerLevelOnePlayer.scoreAfter board first) as [score0|] eqn:Es;
      [ | discriminate ].
    destruct (ComputerLevelOnePlayer.bestOf board (if isBlack then -1 else 1)
                (drop 1 availableMoves) first score0) as [best|] eqn:Eb; [ | discriminate ].
    inversion H. subst move. clear H.
    destruct (bestOf_spec _ _ _ _ _ _ Eb Es) as (Hin & Hs & Hle & Hall).
    pose proof (py_index_lookup _ _ _ Ep (proj1 Hpick)) as Hlook.
    split.
    + destruct Hin as [-> | Hin].
      * apply list_elem_of_In. eapply list_elem_of_lookup_2. exact Hlook.
      * apply list_elem_of_In. apply list_elem_of_In in Hin.
        eapply subseteq_drop. exact Hin.
    + exists (snd best). split; [ exact Hs | ].
      intros m s [Hm | Hm] Hms.
      * specialize (Hall m s Hm Hms). destruct isBlack; lia.
      * rewrite Hlook in Hm. inversion Hm. subst m. rewrite Es in Hms. inversion Hms. subst s.
        destruct isBlack; lia.
Qed.

Lemma levelOne_choice_witness :
  exists availableMoves move,
    movesOrPossible pinnedRook false (Some (notDisallowed pinnedRookMoves)) = Ok availableMoves
    /\ 0 <= 3 < len availableMoves
    /\ ComputerLevelOnePlayer.choseMove 3 false pinnedRook pinnedRookMoves = Returns move
    /\ In move availableMoves
    /\ (fromSquare move, toSquare move) = ("e2", "e8").
Proof.
  destruct (movesOrPossible pinnedRook false (Some (notDisallowed pinnedRookMoves)))
    as [availableMoves|] eqn:Hav; [ | vm_compute in Hav; discriminate ].
  assert (Hlen : 0 <= 3 < len availableMoves).
  { vm_compute in Hav. inversion Hav. vm_compute. split; [ discriminate | reflexivity ]. }
  destruct (ComputerLevelOnePlayer.choseMove 3 false pinnedRook pinnedRookMoves)
    as [move| |] eqn:Hm; [ | vm_compute in Hm; discriminate | vm_compute in Hm; discriminate ].
  destruct (levelOne_choice 3 false pinnedRook pinnedRookMoves availableMoves Hav) as [_ H].
  destruct (H Hlen move Hm) as (Hin & _).
  exists availableMoves, move. split; [ reflexivity | ]. split; [ exact Hlen | ].
  split; [ reflexivity | ]. split; [ exact Hin | ].
  vm_compute in Hm. inversion Hm. reflexivity.
Defined.

(** ** Positions: what the filter sees of a board *)

Lemma positionOf_Some b x k c :
  positionOf b x = Some (k, c)
  <-> inside x /\ exists p, cell b x = Some p /\ kind p = k /\ _isBlack p = c.
Proof.
  unfold positionOf. destruct (insideb x) eqn:Ein.
  - apply insideb_inside in Ein. destruct (cell b x) as [p|]; cbn [option_map]; split.
    + intros H. inversion H. split; [ exact Ein | ]. exists p. auto.
    + intros (_ & q & Hq & <- & <-). inversion Hq. reflexivity.
    + discriminate.
    + intros (_ & q & Hq & _). discriminate.
  - split; [ discriminate | ]. intros (Hi & _). apply insideb_inside in Hi. congruence.
Qed.

Lemma positionOf_cell b x p :
  inside x -> cell b x = Some p -> positionOf b x = Some (kind p, _isBlack p).
Proof. intros Hi Hp. apply positionOf_Some. split; [ exact Hi | ]. exists p. auto. Qed.

Lemma positionOf_None b x : inside x -> (positionOf b x = None <-> cell b x = None).
Proof.
  intros Hi. unfold positionOf. rewrite (proj2 (insideb_inside x) Hi).
  destruct (cell b x); cbn [option_map]; split; intros H; try discriminate; reflexivity.
Qed.

Lemma positionOf_outside b x : ~ inside x -> positionOf b x = None.
Proof.
  intros Hout. unfold positionOf. destruct (insideb x) eqn:Ein; [ | reflexivity ].
  apply insideb_inside in Ein. contradiction.
Qed.

Lemma seenAlong_ext pos pos' rc d x :
  (forall y, pos y = pos' y) -> seenAlong pos rc d x -> seenAlong pos' rc d x.
Proof.
  intros E (n & Hn & Hx & Hway). exists n. split; [ exact Hn | ]. split; [ exact Hx | ].
  intros j Hj. rewrite <- E. apply Hway, Hj.
Qed.

Lemma pieceAttacks_ext pos pos' k black rc x :
  (forall y, pos y = pos' y) -> pieceAttacks pos k black rc x -> pieceAttacks pos' k black rc x.
Proof.
  intros E. destruct k; cbn [pieceAttacks]; try exact (fun H => H);
    intros (d & Hd & Hs); exists d; (split; [ exact Hd | exact (seenAlong_ext _ _ _ _ _ E Hs) ]).
Qed.

Lemma attackedBy_ext pos pos' byBlack x :
  (forall y, pos y = pos' y) -> attackedBy pos byBlack x -> attackedBy pos' byBlack x.
Proof.
  intros E (rc & k & Hi & Hp & Ha). exists rc, k. split; [ exact Hi | ].
  split; [ rewrite <- E; exact Hp | exact (pieceAttacks_ext _ _ _ _ _ _ E Ha) ].
Qed.

Lemma kingSquare_ext pos pos' black rk :
  (forall y, pos y = pos' y) -> kingSquare pos black rk -> kingSquare pos' black rk.
Proof.
  intros E (Hi & Hk & Hfirst). split; [ exact Hi | ]. split; [ rewrite <- E; exact Hk | ].
  intros x Hx Hb. rewrite <- E. apply (Hfirst x Hx Hb).
Qed.

Lemma kingInCheck_ext pos pos' black :
  (forall y, pos y = pos' y) -> kingInCheck pos black <-> kingInCheck pos' black.
Proof.
  intros E. split; intros (rk & Hk & Ha); exists rk.
  - split; [ exact (kingSquare_ext _ _ _ _ E Hk) | exact (attackedBy_ext _ _ _ _ E Ha) ].
  - assert (E' : forall y, pos' y = pos y) by (intros y; symmetry; apply E).
    split; [ exact (kingSquare_ext _ _ _ _ E' Hk) | exact (attackedBy_ext _ _ _ _ E' Ha) ].
Qed.

Lemma kingSquare_unique pos black rk rk' :
  kingSquare pos black rk -> kingSquare pos black rk' -> rk = rk'.
Proof.
  intros (Hi & Hk & Hfirst) (Hi' & Hk' & Hfirst').
  destruct rk as [r c], rk' as [r' c'].
  destruct (Z.lt_trichotomy r r') as [H | [H | H]].
  - exfalso. apply (Hfirst' (r, c) Hi); [ left; exact H | exact Hk ].
  - subst r'. destruct (Z.lt_trichotomy c c') as [H | [H | H]].
    + exfalso. apply (Hfirst' (r, c) Hi); [ right; cbn [fst snd]; auto | exact Hk ].
    + subst c'. reflexivity.
    + exfalso. apply (Hfirst (r, c') Hi'); [ right; cbn [fst snd]; auto | exact Hk' ].
  - exfalso. apply (Hfirst (r', c') Hi'); [ left; exact H | exact Hk' ].
Qed.

(** The position on the copy after the move of a candidate. *)
Lemma simulate_position b m origin dest p copyBoard :
  wellFormed b -> inside origin -> inside dest -> cell b origin = Some p ->
  fromSquare m = square origin -> toSquare m = square dest ->
  simulate b m = Ok copyBoard ->
  wellFormed copyBoard
  /\ forall x, positionOf copyBoard x = afterMove (positionOf b) origin dest x.
Proof.
  intros Hwf Hi Hi' Hp Hfrom Hto Hs.
  pose proof (wellFormed_copy b Hwf) as Hwfc.
  assert (Hpc : cell (copyOfBoard b) origin = Some (detach p))
    by (rewrite cell_copy, Hp; reflexivity).
  destruct (move_square (copyOfBoard b) origin dest (detach p) Hwfc Hi Hi' Hpc)
    as (b' & captured & p' & Hmove & Hwf' & Hkind & Hblack & Hcell' & Hothers).
  unfold simulate in Hs. rewrite Hfrom, Hto, Hmove in Hs. inversion Hs. subst copyBoard.
  split; [ exact Hwf' | ]. intros x. unfold afterMove.
  destruct (decide (x = dest)) as [-> | Hne].
  - rewrite (positionOf_cell b' dest p' Hi' Hcell'), (positionOf_cell b origin p Hi Hp).
    rewrite Hkind, Hblack. reflexivity.
  - destruct (insideb x) eqn:Ein.
    + apply insideb_inside in Ein. unfold positionOf at 1.
      rewrite (proj2 (insideb_inside x) Ein), (Hothers x Ein Hne).
      destruct (decide (x = origin)); [ reflexivity | ].
      unfold positionOf. rewrite (proj2 (insideb_inside x) Ein), cell_copy.
      destruct (cell b x); reflexivity.
    + assert (Hout : ~ inside x) by (intros H; apply insideb_inside in H; congruence).
      rewrite (positionOf_outside b' x Hout).
      destruct (decide (x = origin)) as [-> | ]; [ reflexivity | ].
      rewrite (positionOf_outside b x Hout). reflexivity.
Qed.

(** ** The first piece of a kind in reading order *)

Lemma first_in_row (f : Piece -> bool) (row : list (option Piece)) k rest :
  List.filter f (flat_map (fun p => match p with Some x => [x] | None => [] end) row)
  = k :: rest ->
  exists j, row !! j = Some (Some k)
            /\ forall j' q, (j' < j)%nat -> row !! j' = Some (Some q) -> f q = false.
Proof.
  induction row as [|x row IH]; cbn [flat_map]; [ discriminate | ].
  destruct x as [q|]; cbn [app].
  - cbn [List.filter]. destruct (f q) eqn:Eq.
    + intros H. inversion H. subst q. exists 0%nat. split; [ reflexivity | ].
      intros j' q' Hlt. lia.
    + intros H. destruct (IH H) as (j & Hj & Hfirst). exists (S j). split; [ exact Hj | ].
      intros [|j'] q' Hlt Hq'.
      * inversion Hq'. subst q'. exact Eq.
      * apply (Hfirst j' q'); [ lia | exact Hq' ].
  - intros H. destruct (IH H) as (j & Hj & Hfirst). exists (S j). split; [ exact Hj | ].
    intros [|j'] q' Hlt Hq'; [ discriminate | ].
    apply (Hfirst j' q'); [ lia | exact Hq' ].
Qed.

Lemma none_in_row (f : Piece -> bool) (row : list (option Piece)) :
  List.filter f (flat_map (fun p => match p with Some x => [x] | None => [] end) row) = [] ->
  forall j q, row !! j = Some (Some q) -> f q = false.
Proof.
  induction row as [|x row IH]; cbn [flat_map]; intros H j q Hq; [ destruct j; discriminate | ].
  destruct x as [q0|]; cbn [app] in H.
  - cbn [List.filter] in H. destruct (f q0) eqn:E0; [ discriminate | ].
    destruct j as [|j]; [ inversion Hq; subst q; exact E0 | apply (IH H j q Hq) ].
  - destruct j as [|j]; [ discriminate | apply (IH H j q Hq) ].
Qed.

Lemma first_on_grid (f : Piece -> bool) (rows : list (list (option Piece))) k rest :
  List.filter f
    (flat_map (fun r => flat_map (fun p => match p with Some x => [x] | None => [] end) r) rows)
  = k :: rest ->
  exists i j row,
    rows !! i = Some row /\ row !! j = Some (Some k)
    /\ (forall j' q, (j' < j)%nat -> row !! j' = Some (Some q) -> f q = false)
    /\ forall i' row' j' q, (i' < i)%nat -> rows !! i' = Some row' ->
         row' !! j' = Some (Some q) -> f q = false.
Proof.
  induction rows as [|row rows IH]; cbn [flat_map]; [ discriminate | ].
  rewrite List.filter_app.
  destruct (List.filter f (flat_map (fun p => match p with Some x => [x] | None => [] end) row))
    as [|k0 rest0] eqn:Erow; cbn [app].
  - intros H. destruct (IH H) as (i & j & row0 & Hi & Hj & Hrow & Hrows).
    exists (S i), j, row0. split; [ exact Hi | ]. split; [ exact Hj | ].
    split; [ exact Hrow | ].
    intros [|i'] row' j' q Hlt Hrow' Hq.
    + inversion Hrow'. subst row'. apply (none_in_row f row Erow j' q Hq).
    + apply (Hrows i' row' j' q); [ lia | exact Hrow' | exact Hq ].
  - intros H. inversion H. subst k0.
    destruct (first_in_row f row k rest0 Erow) as (j & Hj & Hfirst).
    exists 0%nat, j, row. split; [ reflexivity | ]. split; [ exact Hj | ].
    split; [ exact Hfirst | ]. intros i' row' j' q Hlt. lia.
Qed.

(** The king that _checkForCheck takes as the defender stands on the first
    square, in reading order, that holds a king of the defending colour. *)
Lemma defenderKings_first b attacker k others :
  chessboard b -> defenderKings b attacker = k :: others ->
  exists rk, cell b rk = Some k /\ kingSquare (positionOf b) (negb attacker) rk.
Proof.
  intros Hb H. unfold defenderKings, piecesStillOnBoard in H.
  destruct (first_on_grid _ _ _ _ H) as (i & j & row & Hi & Hj & Hrow & Hrows).
  assert (Hfk : Kind_eqb (kind k) King && negb (Bool.eqb (_isBlack k) attacker) = true).
  { assert (Hin : In k (k :: others)) by (left; reflexivity).
    rewrite <- H in Hin. apply filter_In in Hin. exact (proj2 Hin). }
  apply andb_true_iff in Hfk. destruct Hfk as [Hkk Hkc].
  assert (Hkind : kind k = King) by (destruct (kind k); try discriminate; reflexivity).
  assert (Hcol : _isBlack k = negb attacker)
    by (destruct (_isBlack k), attacker; try discriminate; reflexivity).
  pose proof (lookup_lt_Some _ _ _ Hi) as Li.
  pose proof (lookup_lt_Some _ _ _ Hj) as Lj.
  rewrite (chessboard_row _ _ _ Hb Hi) in Lj. rewrite (proj1 Hb) in Li.
  assert (Hcell : cell b (Z.of_nat i, Z.of_nat j) = Some k).
  { unfold cell. cbn [fst snd]. rewrite !Nat2Z.id, Hi, Hj. reflexivity. }
  assert (Hin : inside (Z.of_nat i, Z.of_nat j)) by (unfold inside; cbn [fst snd]; lia).
  exists (Z.of_nat i, Z.of_nat j). split; [ exact Hcell | ].
  split; [ exact Hin | ]. split.
  { rewrite (positionOf_cell b _ k Hin Hcell), Hkind, Hcol. reflexivity. }
  intros x Hx Hbefore Hpos. apply positionOf_Some in Hpos.
  destruct Hpos as (_ & q & Hq & Hqk & Hqc).
  assert (Hfq : Kind_eqb (kind q) King && negb (Bool.eqb (_isBlack q) attacker) = true).
  { rewrite Hqk, Hqc. destruct attacker; reflexivity. }
  unfold cell in Hq.
  destruct (_grid b !! Z.to_nat (fst x)) as [row'|] eqn:Er; [ | discriminate ].
  destruct (row' !! Z.to_nat (snd x)) as [y|] eqn:Ec; [ | discriminate ]. subst y.
  destruct Hx as [Hxr Hxc]. destruct Hbefore as [Hlt | [Heq Hlt]]; cbn [fst snd] in *.
  - rewrite (Hrows (Z.to_nat (fst x)) row' (Z.to_nat (snd x)) q) in Hfq;
      [ discriminate | lia | exact Er | exact Ec ].
  - assert (Erow : row' = row).
    { replace (Z.to_nat (fst x)) with i in Er by lia. congruence. }
    subst row'.
    rewrite (Hrow (Z.to_nat (snd x)) q) in Hfq; [ discriminate | lia | exact Ec ].
Qed.

(** ** The geometry of the attacks *)

Lemma square_inj x y : inside x -> inside y -> square x = square y -> x = y.
Proof.
  intros Hx Hy E. pose proof (squareRC_square x Hx) as H1.
  rewrite E, (squareRC_square y Hy) in H1. inversion H1. reflexivity.
Qed.

Lemma between_inside rc d n j :
  inside rc -> inside (steps rc d n) -> -1 <= fst d <= 1 -> -1 <= snd d <= 1 ->
  1 <= j < n -> inside (steps rc d j).
Proof.
  unfold inside, steps. cbn [fst snd]. intros [Hr Hc] [Hr' Hc'] Hd1 Hd2 Hj.
  assert (E1 : fst d = -1 \/ fst d = 0 \/ fst d = 1) by lia.
  assert (E2 : snd d = -1 \/ snd d = 0 \/ snd d = 1) by lia.
  destruct E1 as [E1 | [E1 | E1]], E2 as [E2 | [E2 | E2]]; rewrite E1, E2 in *; lia.
Qed.

(** A line piece: sliding to the square of an enemy piece is seeing it. *)
Lemma slides_seenAlong b black rc d x q :
  inside rc -> inside x -> -1 <= fst d <= 1 -> -1 <= snd d <= 1 ->
  cell b x = Some q -> _isBlack q <> black ->
  (exists n, slides b black true rc d n /\ x = steps rc d n)
  <-> seenAlong (positionOf b) rc d x.
Proof.
  intros Hi Hx Hd1 Hd2 Hq Hc. split.
  - intros (n & (Hn & _ & Hway & Hin & Hend) & ->). exists n.
    split; [ exact Hn | ]. split; [ reflexivity | ].
    intros j Hj. destruct (Hway j Hj) as [Hinj Hnone].
    apply (positionOf_None b _ Hinj). exact Hnone.
  - intros (n & Hn & -> & Hway). exists n. split; [ | reflexivity ].
    split; [ exact Hn | ]. split; [ discriminate | ]. split.
    + intros j Hj. pose proof (between_inside rc d n j Hi Hx Hd1 Hd2 Hj) as Hinj.
      split; [ exact Hinj | ]. apply (positionOf_None b _ Hinj). apply Hway, Hj.
    + split; [ exact Hx | ]. rewrite Hq. exact Hc.
Qed.

(** A piece that makes one step: it slides to the square next to it. *)
Lemma slides_single b black rc d x q :
  inside x -> cell b x = Some q -> _isBlack q <> black ->
  (exists n, slides b black false rc d n /\ x = steps rc d n) <-> x = offset rc d.
Proof.
  intros Hx Hq Hc. split.
  - intros (n & (_ & Hone & _) & ->). rewrite (Hone eq_refl). apply steps_one.
  - intros ->. exists 1. split; [ | symmetry; apply steps_one ].
    apply slides_one; [ exact Hx | ]. rewrite Hq. exact Hc.
Qed.

Lemma rook_directions d : In d (_validDirections Rook) <-> straightStep d.
Proof.
  destruct d as [a c]. unfold straightStep. cbn [_validDirections fst snd]. split.
  - intros H. repeat (destruct H as [H | H]; [ inversion H; lia | ]). destruct H.
  - intros H.
    assert (E : (a = 1 /\ c = 0) \/ (a = 0 /\ c = 1) \/ (a = -1 /\ c = 0) \/ (a = 0 /\ c = -1))
      by lia.
    destruct E as [[-> ->] | [[-> ->] | [[-> ->] | [-> ->]]]]; cbn [In]; auto 6.
Qed.

Lemma bishop_directions d : In d (_validDirections Bishop) <-> diagonalStep d.
Proof.
  destruct d as [a c]. unfold diagonalStep. cbn [_validDirections fst snd]. split.
  - intros H. repeat (destruct H as [H | H]; [ inversion H; lia | ]). destruct H.
  - intros H.
    assert (E : (a = 1 /\ c = 1) \/ (a = 1 /\ c = -1) \/ (a = -1 /\ c = 1) \/ (a = -1 /\ c = -1))
      by lia.
    destruct E as [[-> ->] | [[-> ->] | [[-> ->] | [-> ->]]]]; cbn [In]; auto 6.
Qed.

Lemma queen_directions d : In d (_validDirections Queen) <-> straightStep d \/ diagonalStep d.
Proof.
  rewrite <- rook_directions, <- bishop_directions. cbn [_validDirections]. apply in_app_iff.
Qed.

Lemma step_bounds d :
  straightStep d \/ diagonalStep d -> -1 <= fst d <= 1 /\ -1 <= snd d <= 1.
Proof. unfold straightStep, diagonalStep. lia. Qed.

Lemma knight_directions rc x :
  (exists d, In d (_validDirections Knight) /\ x = offset rc d)
  <-> (Z.abs (fst x - fst rc) = 1 /\ Z.abs (snd x - snd rc) = 2)
      \/ (Z.abs (fst x - fst rc) = 2 /\ Z.abs (snd x - snd rc) = 1).
Proof.
  destruct rc as [r c], x as [r' c']. unfold offset. cbn [_validDirections fst snd]. split.
  - intros (d & H & E).
    repeat (destruct H as [H | H]; [ subst d; inversion E; cbn [fst snd]; lia | ]).
    destruct H.
  - intros H. exists (r' - r, c' - c). split; [ | cbn [fst snd]; f_equal; lia ].
    assert (E : (r' - r = 2 /\ c' - c = -1) \/ (r' - r = 2 /\ c' - c = 1)
                \/ (r' - r = 1 /\ c' - c = -2) \/ (r' - r = 1 /\ c' - c = 2)
                \/ (r' - r = -1 /\ c' - c = -2) \/ (r' - r = -1 /\ c' - c = 2)
                \/ (r' - r = -2 /\ c' - c = -1) \/ (r' - r = -2 /\ c' - c = 1)) by lia.
    destruct E as [[-> ->] | [[-> ->] | [[-> ->] | [[-> ->] | [[-> ->] | [[-> ->]
                  | [[-> ->] | [-> ->]]]]]]]]; cbn [In]; auto 10.
Qed.

Lemma king_directions rc x :
  (exists d, In d (_validDirections King) /\ x = offset rc d)
  <-> Z.abs (fst x - fst rc) <= 1 /\ Z.abs (snd x - snd rc) <= 1 /\ x <> rc.
Proof.
  destruct rc as [r c], x as [r' c']. unfold offset. cbn [_validDirections app fst snd]. split.
  - intros (d & H & E).
    repeat (destruct H as [H | H];
            [ subst d; inversion E; cbn [fst snd];
              split; [ lia | split; [ lia | intros E'; inversion E'; lia ] ] | ]).
    destruct H.
  - intros (H1 & H2 & Hne). exists (r' - r, c' - c). split; [ | cbn [fst snd]; f_equal; lia ].
    assert (Hne' : r' - r <> 0 \/ c' - c <> 0).
    { destruct (Z.eq_dec r' r) as [-> | ]; [ | lia ].
      destruct (Z.eq_dec c' c) as [-> | ]; [ | lia ]. contradiction Hne. reflexivity. }
    assert (E : (r' - r = 1 /\ c' - c = 0) \/ (r' - r = 0 /\ c' - c = 1)
                \/ (r' - r = -1 /\ c' - c = 0) \/ (r' - r = 0 /\ c' - c = -1)
                \/ (r' - r = 1 /\ c' - c = 1) \/ (r' - r = 1 /\ c' - c = -1)
                \/ (r' - r = -1 /\ c' - c = 1) \/ (r' - r = -1 /\ c' - c = -1)) by lia.
    destruct E as [[-> ->] | [[-> ->] | [[-> ->] | [[-> ->] | [[-> ->] | [[-> ->]
                  | [[-> ->] | [-> ->]]]]]]]]; cbn [In]; auto 10.
Qed.

Lemma pawn_directions black rc x :
  (exists d, In d (pawnDiagonals black) /\ x = offset rc d)
  <-> fst x = fst rc + (if black then 1 else -1) /\ Z.abs (snd x - snd rc) = 1.
Proof.
  destruct rc as [r c], x as [r' c']. unfold offset, pawnDiagonals. cbn [fst snd]. split.
  - intros (d & H & E). destruct black;
      repeat (destruct H as [H | H]; [ subst d; inversion E; cbn [fst snd]; lia | ]);
      destruct H.
  - intros [H1 H2]. exists (r' - r, c' - c). split; [ | cbn [fst snd]; f_equal; lia ].
    assert (E : c' - c = 1 \/ c' - c = -1) by lia.
    destruct black.
    + replace (r' - r) with 1 by lia. destruct E as [-> | ->]; cbn [In]; auto.
    + replace (r' - r) with (-1) by lia. destruct E as [-> | ->]; cbn [In]; auto.
Qed.

(** What _checkForCheck takes a piece to attack, on the square of an enemy
    piece: the attacks of the game. *)
Lemma attacks_pieceAttacks b p rc x q :
  wellFormed b -> inside rc -> cell b rc = Some p ->
  inside x -> cell b x = Some q -> _isBlack q <> _isBlack p ->
  exists sq, attacks b p = Ok sq
             /\ (In (square x) sq
                 <-> pieceAttacks (positionOf b) (kind p) (_isBlack p) rc x).
Proof.
  intros [Hb Hpos] Hi Hp Hx Hq Hc. pose proof (Hpos rc p Hi Hp) as Hsq.
  destruct (Kind_eqb (kind p) Pawn) eqn:Ek.
  - assert (Hk : kind p = Pawn) by (destruct (kind p); try discriminate; reflexivity).
    destruct (pawnAttacks_spec b p rc Hb Hi Hsq (pawnDiagonals (_isBlack p)) [])
      as (sq & Hres & Hin).
    exists sq. unfold attacks. rewrite Hk. split; [ exact Hres | ].
    cbn [pieceAttacks]. rewrite <- pawn_directions, Hin. split.
    + intros (d & Hd & Hind & E). exists d. split; [ exact Hd | ].
      apply (square_inj _ _ Hx Hind E).
    + intros (d & Hd & ->). exists d. auto.
  - assert (Hk : kind p <> Pawn) by (intros E; rewrite E in Ek; discriminate).
    destruct (for_directions_slides b p rc (_validDirections (kind p)) Hb Hi Hsq
                (validDirections_nonzero _) []) as (sq & Hres & Hin).
    exists sq. split.
    { unfold attacks, availableSquares. destruct (kind p); try exact Hres. contradiction. }
    assert (Hsl : In (square x) sq
                  <-> exists d, In d (_validDirections (kind p))
                        /\ exists n, slides b (_isBlack p) (_canMoveMultipleTimes (kind p)) rc d n
                                     /\ x = steps rc d n).
    { rewrite Hin. split.
      - intros (d & n & Hd & Hs & E). exists d. split; [ exact Hd | ]. exists n.
        split; [ exact Hs | ]. destruct Hs as (_ & _ & _ & Hins & _).
        apply (square_inj _ _ Hx Hins E).
      - intros (d & Hd & n & Hs & ->). exists d, n. auto. }
    rewrite Hsl. clear Hsl Hin Hres.
    destruct (kind p) eqn:Ekind; try contradiction; cbn [pieceAttacks _canMoveMultipleTimes].
    + rewrite <- knight_directions. split.
      * intros (d & Hd & Hn). exists d. split; [ exact Hd | ].
        apply (slides_single b (_isBlack p) rc d x q Hx Hq Hc). exact Hn.
      * intros (d & Hd & E). exists d. split; [ exact Hd | ].
        apply (slides_single b (_isBlack p) rc d x q Hx Hq Hc). exact E.
    + split.
      * intros (d & Hd & Hn). exists d. apply bishop_directions in Hd.
        split; [ exact Hd | ].
        destruct (step_bounds d (or_intror Hd)) as [B1 B2].
        apply (slides_seenAlong b (_isBlack p) rc d x q Hi Hx B1 B2 Hq Hc). exact Hn.
      * intros (d & Hd & Hs). exists d. split; [ apply bishop_directions; exact Hd | ].
        destruct (step_bounds d (or_intror Hd)) as [B1 B2].
        apply (slides_seenAlong b (_isBlack p) rc d x q Hi Hx B1 B2 Hq Hc). exact Hs.
    + split.
      * intros (d & Hd & Hn). exists d. apply rook_directions in Hd.
        split; [ exact Hd | ].
        destruct (step_bounds d (or_introl Hd)) as [B1 B2].
        apply (slides_seenAlong b (_isBlack p) rc d x q Hi Hx B1 B2 Hq Hc). exact Hn.
      * intros (d & Hd & Hs). exists d. split; [ apply rook_directions; exact Hd | ].
        destruct (step_bounds d (or_introl Hd)) as [B1 B2].
        apply (slides_seenAlong b (_isBlack p) rc d x q Hi Hx B1 B2 Hq Hc). exact Hs.
    + split.
      * intros (d & Hd & Hn). exists d. apply queen_directions in Hd.
        split; [ exact Hd | ].
        destruct (step_bounds d Hd) as [B1 B2].
        apply (slides_seenAlong b (_isBlack p) rc d x q Hi Hx B1 B2 Hq Hc). exact Hn.
      * intros (d & Hd & Hs). exists d. split; [ apply queen_directions; exact Hd | ].
        destruct (step_bounds d Hd) as [B1 B2].
        apply (slides_seenAlong b (_isBlack p) rc d x q Hi Hx B1 B2 Hq Hc). exact Hs.
    + rewrite <- king_directions. split.
      * intros (d & Hd & Hn). exists d. split; [ exact Hd | ].
        apply (slides_single b (_isBlack p) rc d x q Hx Hq Hc). exact Hn.
      * intros (d & Hd & E). exists d. split; [ exact Hd | ].
        apply (slides_single b (_isBlack p) rc d x q Hx Hq Hc). exact E.
Qed.

(** ** What _checkForCheck answers, in the terms of the game *)

Lemma checkForCheck_kingInCheck b attacker r :
  wellFormed b -> _checkForCheck b attacker = Ok r ->
  (r = true <-> kingInCheck (positionOf b) (negb attacker)).
Proof.
  intros Hwf H. unfold _checkForCheck in H. fold (defenderKings b attacker) in H.
  destruct (defenderKings b attacker) as [|k others] eqn:Ek; [ discriminate | ].
  destruct (attackedSquares b _ []) as [aSquares|] eqn:Ea; [ | discriminate ].
  cbn [rbind] in H. inversion H as [Hr]. clear H.
  destruct (defenderKings_first b attacker k others (proj1 Hwf) Ek) as (rk & Hck & Hking).
  pose proof Hking as (Hik & Hpk & _).
  pose proof (proj2 Hwf rk k Hik Hck) as Hposk.
  assert (Hkc : _isBlack k = negb attacker).
  { apply positionOf_Some in Hpk. destruct Hpk as (_ & k' & Hk' & _ & Hc'). congruence. }
  rewrite mem_str_In, (attackedSquares_attacks b _ _ _ Ea), Hposk. split.
  - intros [[] | (p & sq & Hp & Hsq & Hs)].
    apply filter_In in Hp. destruct Hp as [Hp Hc]. apply eqb_prop in Hc.
    destruct (wellFormed_position b p Hwf Hp) as (rc & Hi & Hcp & _).
    destruct (attacks_pieceAttacks b p rc rk k Hwf Hi Hcp Hik Hck) as (sq' & Hsq' & Hiff).
    { rewrite Hkc, Hc. destruct attacker; discriminate. }
    rewrite Hsq in Hsq'. inversion Hsq'. subst sq'.
    exists rk. split; [ exact Hking | ]. exists rc, (kind p). split; [ exact Hi | ].
    rewrite negb_involutive, <- Hc.
    split; [ apply (positionOf_cell b rc p Hi Hcp) | apply Hiff; exact Hs ].
  - intros (rk' & Hking' & rc & kd & Hi & Hp & Ha). right.
    rewrite (kingSquare_unique _ _ _ _ Hking' Hking) in Ha.
    rewrite negb_involutive in Hp, Ha.
    apply positionOf_Some in Hp. destruct Hp as (_ & p & Hcp & Hkd & Hc).
    destruct (attacks_pieceAttacks b p rc rk k Hwf Hi Hcp Hik Hck) as (sq & Hsq & Hiff).
    { rewrite Hkc, Hc. destruct attacker; discriminate. }
    exists p, sq. split.
    { apply filter_In. split; [ apply (cell_In b rc p Hcp) | rewrite Hc; apply eqb_reflx ]. }
    split; [ exact Hsq | ]. apply Hiff. rewrite Hkd, Hc. exact Ha.
Qed.

(** ** C1: the legality filter *)

Lemma checkedMove_marked b black m m' :
  wellFormed b -> candidate b black m -> disallowed m = false ->
  checkedMove b black m = Ok m' -> marked b black m m'.
Proof.
  intros Hwf Hcand Hd H.
  destruct (checkedMove_filtered b black m m' Hd H)
    as (_ & Hf & Ht & copyBoard & Hs & (r & Hr) & Hiff).
  destruct Hcand as (origin & p & Hi & Hp & _ & Hfrom & dest & Hi' & Hto & _).
  destruct (simulate_position b m origin dest p copyBoard Hwf Hi Hi' Hp Hfrom Hto Hs)
    as (Hwf' & Hpos).
  pose proof (checkForCheck_kingInCheck copyBoard (negb black) r Hwf' Hr) as Hcheck.
  rewrite negb_involutive in Hcheck.
  exists origin, dest. split; [ exact Hi | ]. split; [ exact Hi' | ].
  split; [ exact Hfrom | ]. split; [ exact Hto | ]. split; [ exact Hf | ].
  split; [ exact Ht | ].
  rewrite Hiff, Hr, <- (kingInCheck_ext _ _ black Hpos), <- Hcheck.
  split; [ intros E; inversion E; reflexivity | intros ->; reflexivity ].
Qed.

Lemma checkedMoves_marked b black moves :
  wellFormed b -> Forall (fun m => candidate b black m /\ disallowed m = false) moves ->
  forall moves', checkedMoves b black moves = Ok moves' ->
                 Forall2 (marked b black) moves moves'.
Proof.
  intros Hwf Hms. induction Hms as [|m moves [Hm Hd] Hms IH]; intros moves' H;
    cbn [checkedMoves] in H.
  - inversion H. constructor.
  - destruct (checkedMove b black m) as [m'|] eqn:E; [ | discriminate ]. cbn [rbind] in H.
    destruct (checkedMoves b black moves) as [rest|]; [ | discriminate ]. cbn [rbind] in H.
    inversion H. constructor; [ | apply IH; reflexivity ].
    apply (checkedMove_marked b black m m' Hwf Hm Hd E).
Qed.

Lemma marked_notDisallowed b black candidates moves m' :
  Forall2 (marked b black) candidates moves -> In m' (notDisallowed moves) ->
  leavesKingSafe b black m'.
Proof.
  intros HF Hin. unfold notDisallowed in Hin. apply filter_In in Hin.
  destruct Hin as [Hin Hd]. apply negb_true_iff in Hd.
  induction HF as [|m x candidates moves Hmx HF IH]; [ destruct Hin | ].
  destruct Hin as [-> | Hin]; [ | apply IH; exact Hin ].
  destruct Hmx as (origin & dest & Hi & Hi' & Hfrom & Hto & Hf & Ht & Hiff).
  exists origin, dest. split; [ exact Hi | ]. split; [ exact Hi' | ].
  split; [ congruence | ]. split; [ congruence | ].
  intros Hcheck. apply Hiff in Hcheck. congruence.
Qed.

(** C1.  The legality filter on a well-formed 8 x 8 board (every piece
    stands on the square that its position names), for either colour.  When
    the board holds a king of the colour the filter returns its list of
    moves.  Whenever it returns a list, the list is the list of candidate
    moves of possibleMoves, move by move between the same two squares, and a
    move is marked disallowed if and only if, in the position after the piece
    on its origin went to its destination and took what stood there, the king
    of the mover's colour is attacked by a piece of the other colour: by a
    pawn one row ahead of it on a neighbouring column, by a knight a knight's
    jump away, by a king on a neighbouring square, or by a rook, bishop or
    queen along a rank, file or diagonal with only empty squares between.
    Consequently no move of the list that is not disallowed leaves the
    mover's king attacked. *)
Theorem legality_filter (b : Board) (black : bool) :
  wellFormed b ->
  (hasKing b black ->
   exists moves, _movesWithThoseLeavingCheckDisallowed b black = Ok moves)
  /\ forall moves,
       _movesWithThoseLeavingCheckDisallowed b black = Ok moves ->
       (exists candidates,
           possibleMoves b black = Ok candidates
           /\ Forall2 (marked b black) candidates moves)
       /\ forall m, In m (notDisallowed moves) -> leavesKingSafe b black m.
Proof.
  intros Hwf. split; [ apply filter_total; exact Hwf | ].
  intros moves H. unfold _movesWithThoseLeavingCheckDisallowed in H.
  destruct (possibleMoves_ok b black Hwf) as (candidates & Ep & Hcand).
  rewrite Ep in H. cbn [rbind] in H.
  pose proof (checkedMoves_marked b black candidates Hwf Hcand moves H) as HF.
  split; [ exists candidates; auto | ].
  intros m Hm. exact (marked_notDisallowed b black candidates moves m HF Hm).
Qed.

Lemma legality_filter_witness :
  wellFormed pinnedRook /\ hasKing pinnedRook false
  /\ exists moves,
       _movesWithThoseLeavingCheckDisallowed pinnedRook false = Ok moves
       /\ (exists candidates,
              possibleMoves pinnedRook false = Ok candidates
              /\ Forall2 (marked pinnedRook false) candidates moves)
       /\ forall m, In m (notDisallowed moves) -> leavesKingSafe pinnedRook false m.
Proof.
  assert (Hwf : wellFormed pinnedRook) by (apply wellFormedb_wellFormed; vm_compute; reflexivity).
  assert (HK : hasKing pinnedRook false) by (apply hasKingb_hasKing; vm_compute; reflexivity).
  split; [ exact Hwf | ]. split; [ exact HK | ].
  destruct (legality_filter pinnedRook false Hwf) as [Htotal Hspec].
  destruct (Htotal HK) as (moves & Hmoves).
  exists moves. split; [ exact Hmoves | ]. exact (Hspec moves Hmoves).
Defined.

(** The pinned rook: taking the queen on a2 opens the e-file to the rook on
    e8 and is disallowed; taking that rook leaves the king safe. *)
Example pinnedRook_marked :
  kingInCheck (afterMove (positionOf pinnedRook) (6, 4) (6, 0)) false
  /\ ~ kingInCheck (afterMove (positionOf pinnedRook) (6, 4) (0, 4)) false.
Proof.
  assert (Hwf : wellFormed pinnedRook) by (apply wellFormedb_wellFormed; vm_compute; reflexivity).
  assert (Hi : inside (6, 4)) by (unfold inside; cbn; lia).
  assert (Hmarked : forall m m' dest,
            inside dest -> fromSquare m = "e2" -> toSquare m = square dest ->
            disallowed m = false ->
            match cell pinnedRook dest with Some q => _isBlack q <> false | None => True end ->
            checkedMove pinnedRook false m = Ok m' ->
            (disallowed m' = true
             <-> kingInCheck (afterMove (positionOf pinnedRook) (6, 4) dest) false)).
  { intros m m' dest Hd Hf Ht Hfresh Htarget Hchecked.
    assert (Hcand : candidate pinnedRook false m).
    { exists (6, 4), (mkPiece Rook false "e2" (6, 4) []). split; [ exact Hi | ].
      split; [ vm_compute; reflexivity | ]. split; [ reflexivity | ].
      split; [ rewrite Hf; vm_compute; reflexivity | ].
      exists dest. split; [ exact Hd | ]. split; [ exact Ht | exact Htarget ]. }
    destruct (checkedMove_marked pinnedRook false m m' Hwf Hcand Hfresh Hchecked)
      as (origin & dest' & Ho & Hd' & Hfrom & Hto & _ & _ & Hiff).
    assert (Eo : origin = (6, 4)).
    { apply (square_inj _ _ Ho Hi). rewrite <- Hfrom, Hf. vm_compute. reflexivity. }
    assert (Ed : dest' = dest) by (apply (square_inj _ _ Hd' Hd); congruence).
    subst origin dest'. exact Hiff. }
  split.
  - apply (Hmarked (mkMove "e2" "a2" "Rook" false false None (6, 4) (6, 0) PlainMove)
                   (mkMove "e2" "a2" "Rook" false true
                      (Some "Cannot make move Rook: e2->a2 as that would place / leave you in check.")
                      (6, 4) (6, 0) PlainMove) (6, 0)).
    + unfold inside; cbn; lia.
    + reflexivity.
    + vm_compute; reflexivity.
    + reflexivity.
    + vm_compute. discriminate.
    + vm_compute. reflexivity.
    + reflexivity.
  - intros Hcheck.
    apply (Hmarked (mkMove "e2" "e8" "Rook" false false None (6, 4) (0, 4) PlainMove)
                   (mkMove "e2" "e8" "Rook" false false None (6, 4) (0, 4) PlainMove) (0, 4))
      in Hcheck.
    + discriminate.
    + unfold inside; cbn; lia.
    + reflexivity.
    + vm_compute; reflexivity.
    + reflexivity.
    + vm_compute. discriminate.
    + vm_compute. reflexivity.
Qed.
